(** * FD.js: finite-domain constraint programming with computation spaces

    A shallow embedding of [fd.js] (module [FD]) and the properties of its
    domain arithmetic, variables, spaces and propagators.

    Conventions of the embedding.
    - JavaScript numbers that the engine handles are integers well below
      2^53, so they are modelled by [Z]; [Infinity], which
      [dom_smallest_interval_width] returns on an empty domain, has its
      own constructor, and so has [NaN], which the step of a propagator
      computes and returns when it is bound to an object that is not a
      variable ([number]).
    - A domain is a JavaScript array of two-element arrays [[lo, hi]]: a
      list of pairs.  The functions below are pure: the source builds
      every domain it hands to a variable from fresh arrays, and where it
      updates an array in place ([simplify_domain], the accumulator [r] of
      [domain_intersection]) the updated array is the one it returns.
    - An exception is an outcome of a computation, next to a normal
      return; the state reached when the exception was thrown is kept,
      as the mutations of the source are.
    - A loop whose number of iterations is not bounded by the size of a
      list takes a [fuel] and yields [None] when the fuel runs out. *)

From Stdlib Require Import ZArith Lia Bool Ascii String Sorted.
From stdpp Require Import base tactics option list gmap strings pretty sorting.

Open Scope Z_scope.

(** * Domains *)

Abbreviation interval := (Z * Z)%type.
Abbreviation domain := (list interval).

Definition FD_SUP : Z := 100000000.

(** The integers of a domain: [z] lies in one of its intervals. *)
Definition contains (d : domain) (z : Z) : Prop :=
  ∃ i, i ∈ d ∧ i.1 ≤ z ≤ i.2.

(** The canonical form of the data model (CSIS): within [0, SUP], every
    interval non-empty, sorted, and neighbours neither overlapping nor
    touching. *)
Fixpoint separated (d : domain) : Prop :=
  match d with
  | i :: (j :: _) as rest => i.2 + 1 < j.1 ∧ separated rest
  | _ => True
  end.

Definition canonical (d : domain) : Prop :=
  Forall (λ i : interval, 0 ≤ i.1 ∧ i.1 ≤ i.2 ∧ i.2 ≤ FD_SUP) d ∧ separated d.

(** The form the code itself keeps: every interval non-empty and each
    one ending before the next begins (touching neighbours allowed). *)
Fixpoint disjoint_sorted (d : domain) : Prop :=
  match d with
  | i :: (j :: _) as rest => i.2 < j.1 ∧ disjoint_sorted rest
  | _ => True
  end.

Definition nonempty_intervals (d : domain) : Prop :=
  Forall (λ i : interval, i.1 ≤ i.2) d.

Definition csis (d : domain) : Prop :=
  nonempty_intervals d ∧ disjoint_sorted d.

(** ** [simplify_domain] *)

(** The first loop of [simplify_domain]: does it [break] before the end
    of [d]?  [prevR] is the right end of the last interval seen. *)
Fixpoint scan_breaks (prevR : Z) (d : domain) : bool :=
  match d with
  | [] => false
  | next :: d' =>
      if (next.2 <? next.1) || (next.1 <=? prevR) || (next.2 <=? prevR)
      then true
      else scan_breaks next.2 d'
  end.

(** [d.sort(function (d1, d2) { return d1[0] - d2[0]; })]: a stable
    sort on the left ends. *)
Fixpoint sort_insert (x : interval) (d : domain) : domain :=
  match d with
  | [] => [x]
  | y :: d' => if x.1 <=? y.1 then x :: d else y :: sort_insert x d'
  end.

Fixpoint sort_by_lo (d : domain) : domain :=
  match d with
  | [] => []
  | x :: d' => sort_insert x (sort_by_lo d')
  end.

(** The second loop: [prev] is the interval pushed last, which the loop
    extends in place while the next one starts inside it. *)
Fixpoint merge_loop (prev : interval) (d : domain) : domain :=
  match d with
  | [] => [prev]
  | next :: d' =>
      if prev.2 >=? next.1
      then merge_loop (prev.1, Z.max prev.2 next.2) d'
      else prev :: merge_loop next d'
  end.

Definition simplify_domain (d : domain) : domain :=
  match d with
  | [] => d
  | [i] => if i.2 <? i.1 then [] else d
  | (prevL, prevR) :: rest =>
      if (prevR >=? prevL) && negb (scan_breaks prevR rest)
      then d
      else match sort_by_lo d with
           | [] => []
           | prev :: d' => merge_loop prev d'
           end
  end.

(** ** [domain_intersection] *)

(** [r || []] *)
Definition or_empty (r : option domain) : domain := default [] r.

(** The recursion of [domain_intersection] halves its arguments (or
    swaps them once), so it is bounded by their lengths; [n] is that
    bound. *)
Fixpoint domain_intersection_rec (n : nat) (dom1 dom2 : domain)
    (r : option domain) : domain :=
  match n with
  | O => or_empty r
  | S n' =>
      match dom1, dom2 with
      | [], _ | _, [] => or_empty r
      | [b1], [b2] =>
          let mn := if b1.1 >? b2.1 then b1.1 else b2.1 in
          let mx := if b1.2 <? b2.2 then b1.2 else b2.2 in
          or_empty r ++ (if mx >=? mn then [(mn, mx)] else [])
      | [_], _ => domain_intersection_rec n' dom2 dom1 r
      | _, [b2] =>
          let mn := b2.1 in
          let mx := b2.2 in
          or_empty r ++
          flat_map (λ d : interval,
            if (d.1 <=? mx) && (d.2 >=? mn)
            then [(if mn >? d.1 then mn else d.1,
                   if mx <? d.2 then mx else d.2)]
            else []) dom1
      | _, _ =>
          let i := Nat.div2 (length dom1) in
          let j := Nat.div2 (length dom2) in
          let d1 := take i dom1 in
          let d2 := drop i dom1 in
          let d3 := take j dom2 in
          let d4 := drop j dom2 in
          let d := domain_intersection_rec n' d1 d3 r in
          let d := domain_intersection_rec n' d1 d4 (Some d) in
          let d := domain_intersection_rec n' d2 d3 (Some d) in
          let d := domain_intersection_rec n' d2 d4 (Some d) in
          match r with Some _ => d | None => simplify_domain d end
      end
  end.

Definition intersection_depth (dom1 dom2 : domain) : nat :=
  S (length dom1 + length dom2 + (if decide (length dom1 = 1%nat) then 1 else 0)).

Definition domain_intersection (dom1 dom2 : domain) (r : option domain) : domain :=
  domain_intersection_rec (intersection_depth dom1 dom2) dom1 dom2 r.

(** ** Bounds, equality, complement, union *)

Definition domain_equal (d1 d2 : domain) : bool :=
  if decide (length d1 ≠ length d2) then false
  else forallb (λ p : interval * interval,
                  negb ((negb (p.1.1 =? p.2.1)) || negb (p.1.2 =? p.2.2)))
               (zip d1 d2).

(** The loop of [domain_complement]; [d0hi] is [d[0][1]], which the
    source reads at every turn. *)
Fixpoint complement_loop (d0hi : Z) (end_ : Z) (d : domain) : domain :=
  match d with
  | [] => if end_ <? FD_SUP then [(end_, FD_SUP)] else []
  | di :: d' =>
      (if end_ <? di.1 then [(end_, di.1 - 1)] else [])
      ++ complement_loop d0hi (d0hi + 1) d'
  end.

Definition domain_complement (d : domain) : domain :=
  match d with
  | [] => [(0, FD_SUP)]
  | d0 :: _ => complement_loop d0.2 0 d
  end.

Definition domain_union (d1 d2 : domain) : domain :=
  simplify_domain (d1 ++ d2).

(** ** Arithmetic on domains *)

(** A width, or the gap passed to [dom_close_gaps]: a number or
    [Infinity] ([Math.min.apply(null, [])]). *)
Inductive width := Width (w : Z) | Infinity.

Definition width_min (a b : width) : width :=
  match a, b with
  | Width x, Width y => Width (Z.min x y)
  | Width x, Infinity => Width x
  | Infinity, _ => b
  end.

(** [x < gap] *)
Definition below (x : Z) (gap : width) : bool :=
  match gap with
  | Width w => x <? w
  | Infinity => true
  end.

Fixpoint close_gaps_loop (prev : interval) (d : domain) (gap : width) : domain :=
  match d with
  | [] => [prev]
  | next :: d' =>
      if below (next.1 - prev.2) gap
      then close_gaps_loop (prev.1, next.2) d' gap
      else prev :: close_gaps_loop next d' gap
  end.

Definition dom_close_gaps (d : domain) (gap : width) : domain :=
  match d with
  | [] => d
  | d0 :: d' => close_gaps_loop d0 d' gap
  end.

Definition dom_smallest_interval_width (d : domain) : width :=
  foldr (λ (i : interval) acc, width_min (Width (i.2 - i.1 + 1)) acc) Infinity d.

(** One turn of the [do ... while (change > 0)] loop of
    [dom_close_gaps2]: the two closed domains and [change]. *)
Definition close_gaps2_turn (d1 d2 : domain) : domain * domain * Z :=
  let d := dom_close_gaps d1 (dom_smallest_interval_width d2) in
  let change := Z.of_nat (length d1) - Z.of_nat (length d) in
  let d1 := d in
  let d := dom_close_gaps d2 (dom_smallest_interval_width d1) in
  let change := change + (Z.of_nat (length d2) - Z.of_nat (length d)) in
  (d1, d, change).

(** Every turn but the last removes an interval, so the lengths bound
    the number of turns; [n] is that bound. *)
Fixpoint close_gaps2_loop (n : nat) (d1 d2 : domain) : domain * domain :=
  let '(d1', d2', change) := close_gaps2_turn d1 d2 in
  if change >? 0
  then match n with
       | O => (d1', d2')
       | S n' => close_gaps2_loop n' d1' d2'
       end
  else (d1', d2').

Definition dom_close_gaps2 (d1 d2 : domain) : domain * domain :=
  close_gaps2_loop (length d1 + length d2) d1 d2.

(** The two nested loops shared by the four operations: [f i1 i2] is
    what the body pushes. *)
Definition pairwise (f : interval → interval → domain) (d1 d2 : domain) : domain :=
  flat_map (λ i1, flat_map (λ i2, f i1 i2) d2) d1.

Definition dom_plus (d1 d2 : domain) : domain :=
  let d := dom_close_gaps2 d1 d2 in
  let d1 := d.1 in
  let d2 := d.2 in
  simplify_domain
    (pairwise (λ i1 i2, [(Z.min FD_SUP (i1.1 + i2.1), Z.min FD_SUP (i1.2 + i2.2))])
              d1 d2).

Definition dom_times (d1 d2 : domain) : domain :=
  simplify_domain
    (pairwise (λ i1 i2, [(Z.min FD_SUP (i1.1 * i2.1), Z.min FD_SUP (i1.2 * i2.2))])
              d1 d2).

Definition dom_minus (d1 d2 : domain) : domain :=
  let d := dom_close_gaps2 d1 d2 in
  let d1 := d.1 in
  let d2 := d.2 in
  simplify_domain
    (pairwise (λ i1 i2,
                 let lo := i1.1 - i2.2 in
                 let hi := i1.2 - i2.1 in
                 if hi >=? 0 then [(if lo <? 0 then 0 else lo, hi)] else [])
              d1 d2).

(** Sorted on the left ends, as [d.sort] leaves a domain. *)
Fixpoint lo_sorted (d : domain) : Prop :=
  match d with
  | i :: (j :: _) as rest => i.1 ≤ j.1 ∧ lo_sorted rest
  | _ => True
  end.

(** Right ends in increasing order: what [dom_close_gaps], which joins
    [prev] to [next] by taking over [next]'s right end, relies on. *)
Fixpoint hi_sorted (d : domain) : Prop :=
  match d with
  | i :: (j :: _) as rest => i.2 ≤ j.2 ∧ hi_sorted rest
  | _ => True
  end.

(** [z] is in [D], or in a hole of [D] narrower than [gap]. *)
Definition in_or_narrow_hole (D : Z → Prop) (gap : width) (z : Z) : Prop :=
  D z ∨ ∃ a b, D a ∧ D b ∧ a < z < b ∧ below (b - a) gap = true.

(** The sums of one integer of each domain. *)
Definition sum_of (d1 d2 : domain) (z : Z) : Prop :=
  ∃ x y, contains d1 x ∧ contains d2 y ∧ z = x + y.

(** Non-empty intervals whose left ends and right ends both increase:
    the domains [dom_close_gaps] produces, and the canonical ones. *)
Definition increasing (d : domain) : Prop :=
  nonempty_intervals d ∧ lo_sorted d ∧ hi_sorted d.

(** * Exceptions and state *)

(** What the code throws: the string ['fail'] of a failed propagator;
    a message string for a usage error; and the [TypeError] of the
    JavaScript run time for a property read on [undefined]. *)
Inductive exn :=
| Fail
| Error (msg : string)
| TypeError.

Inductive outcome (A : Type) :=
| Ret (a : A)
| Throw (e : exn).
Arguments Ret {A} a.
Arguments Throw {A} e.

(** A computation on a state [Σ]: it returns or throws, and leaves a
    state in both cases; [None] when a loop ran out of fuel. *)
Definition M (Σ A : Type) : Type := Σ → option (outcome A * Σ).

Definition ret {Σ A} (a : A) : M Σ A := λ σ, Some (Ret a, σ).

Definition throw {Σ A} (e : exn) : M Σ A := λ σ, Some (Throw e, σ).

Definition bind {Σ A B} (m : M Σ A) (f : A → M Σ B) : M Σ B :=
  λ σ, match m σ with
       | None => None
       | Some (Ret a, σ') => f a σ'
       | Some (Throw e, σ') => Some (Throw e, σ')
       end.

Definition out_of_fuel {Σ A} : M Σ A := λ _, None.

Definition get {Σ} : M Σ Σ := λ σ, Some (Ret σ, σ).

Definition modify {Σ} (f : Σ → Σ) : M Σ unit := λ σ, Some (Ret tt, f σ).

(** A value that may be an exception, as a computation. *)
Definition lift {Σ A} (o : outcome A) : M Σ A := λ σ, Some (o, σ).

(** [try { m } catch (e) { h }] *)
Definition try_catch {Σ A} (m : M Σ A) (h : M Σ A) : M Σ A :=
  λ σ, match m σ with
       | None => None
       | Some (Ret a, σ') => Some (Ret a, σ')
       | Some (Throw _, σ') => h σ'
       end.

Notation "'let*' x ':=' m 'in' k" := (bind m (λ x, k))
  (at level 10, x pattern, m at level 200, k at level 200).
Notation "m1 ;; m2" := (bind m1 (λ _, m2))
  (at level 100, right associativity).

(** [do { body } while (c)], where [body] returns [c]. *)
Fixpoint do_while {Σ} (fuel : nat) (body : M Σ bool) : M Σ unit :=
  match fuel with
  | O => out_of_fuel
  | S fuel' => let* c := body in if c then do_while fuel' body else ret tt
  end.

(** [for (x of l) body(x)] *)
Fixpoint for_each {Σ A} (l : list A) (body : A → M Σ unit) : M Σ unit :=
  match l with
  | [] => ret tt
  | x :: l' => body x ;; for_each l' body
  end.

(** * Variables *)

(** Fails if the given domain is empty by throwing ['fail']. *)
Definition domain_non_empty (d : domain) : outcome domain :=
  match d with
  | [] => Throw Fail
  | _ => Ret d
  end.

Definition domain_bounds (d : domain) : outcome interval :=
  match d with
  | [] => Throw Fail
  | d0 :: _ => Ret (d0.1, (List.last d d0).2)
  end.

Module FDVar.
Record t := mk { dom : domain; step : Z }.

(** [new FDVar(dom, step)] *)
Definition new (dom : option domain) (step : option Z) : t :=
  {| dom := default [(0, FD_SUP)] dom; step := default 0 step |}.

(** [this.dom[0]] is [undefined] on an empty domain. *)
Definition is_undetermined (v : t) : outcome bool :=
  if decide (1 < length (dom v))%nat then Ret true
  else match dom v with
       | [] => Throw TypeError
       | d0 :: _ => Ret (d0.1 <? d0.2)
       end.

Definition set_dom (v : t) (d : domain) : t :=
  if negb (domain_equal (dom v) d)
  then {| dom := d; step := step v + 1 |}
  else v.

Definition constrain (v : t) (d : domain) : outcome t :=
  match domain_non_empty (domain_intersection (dom v) d None) with
  | Ret d' => Ret (set_dom v d')
  | Throw e => Throw e
  end.

(** [size()]: the widths of the intervals, added up. *)
Definition size (v : t) : Z :=
  foldl (λ s (i : interval), s + (i.2 - i.1 + 1)) 0 (dom v).

(** [this.dom[0][0]] *)
Definition min (v : t) : outcome Z :=
  match dom v with
  | [] => Throw TypeError
  | d0 :: _ => Ret d0.1
  end.

(** [this.dom[this.dom.length - 1][1]] *)
Definition max (v : t) : outcome Z :=
  match dom v with
  | [] => Throw TypeError
  | d0 :: _ => Ret (List.last (dom v) d0).2
  end.

(** [Math.round] takes a half up. *)
Definition rough_mid (v : t) : outcome Z :=
  match dom v !! Nat.div2 (length (dom v)) with
  | None => Throw TypeError
  | Some midDom => Ret ((midDom.1 + midDom.2 + 1) / 2)
  end.

(** The [while] loop of [mid()], on the intervals from [this.dom[domIx]]
    on. *)
Fixpoint mid_loop (midIx : Z) (d : domain) : outcome Z :=
  match d with
  | [] => Throw TypeError
  | dom :: d' =>
      if midIx >? dom.2 - dom.1
      then mid_loop (midIx - (dom.2 - dom.1 + 1)) d'
      else Ret (dom.1 + midIx)
  end.

Definition mid (v : t) : outcome Z :=
  mid_loop (size v / 2) (dom v).
End FDVar.

(** * Names *)

(** A variable name is a string or a number.  The constructors of a
    space take a name that JavaScript holds for false (the empty string,
    0) for a missing argument, so the names here are the others:
    non-empty strings and positive integers; an optional name is an
    [option name]. *)
Inductive name :=
| NStr (c : ascii) (s : string)
| NNum (n : positive).

(** The property key under which [S.vars] holds the variable: the
    string itself, or the decimal form of the number. *)
Definition key (n : name) : string :=
  match n with
  | NStr c s => String c s
  | NNum n => pretty (Npos n)
  end.

(** [S.vars] is created as [{}], so it inherits the properties of
    [Object.prototype]: for these keys [S.vars[name]] is an object (a
    function, or [Object.prototype] itself for [__proto__]) although
    no variable is declared under them.  Such an object is true in a
    condition and has no property [step], [dom] or [set_dom]. *)
Definition object_prototype : list string :=
  ["constructor"; "toString"; "toLocaleString"; "valueOf"; "hasOwnProperty";
   "isPrototypeOf"; "propertyIsEnumerable"; "__proto__"; "__defineGetter__";
   "__defineSetter__"; "__lookupGetter__"; "__lookupSetter__"].

Definition inherited (k : string) : bool := bool_decide (k ∈ object_prototype).

(** [S.vars]: the variables declared in the space, its own
    properties. *)
Abbreviation vars_t := (gmap string FDVar.t).

(** A number that a step returns and [propagate] counts with: an
    integer, or [NaN], which is what [v1.step + v2.step] is when one of
    the two is [undefined]. *)
Inductive number :=
| Num (z : Z)
| NaN.

Module Number.
(** [a + b] *)
Definition add (a b : number) : number :=
  match a, b with
  | Num x, Num y => Num (x + y)
  | _, _ => NaN
  end.

(** [a - b] *)
Definition sub (a b : number) : number :=
  match a, b with
  | Num x, Num y => Num (x - y)
  | _, _ => NaN
  end.

(** [a > b], which is false when one of the two is [NaN]. *)
Definition gtb (a b : number) : bool :=
  match a, b with
  | Num x, Num y => x >? y
  | _, _ => false
  end.
End Number.

(** * Propagators *)

(** The step functions of the comparison propagators. *)
Inductive cmp_step := step_eq | step_lt | step_lte | step_neq.

(** What [reified] keeps of the propagator it pops:
    [{allvars, depvars, step}]. *)
Record template := {
  t_allvars : list name;
  t_depvars : list name;
  t_step : cmp_step;
}.

(** The step functions, with the variables their closures captured:
    the operations of [ring], the factor of [scale], the two popped
    propagators of [reified]. *)
Inductive stepfn :=
| step_cmp (c : cmp_step)
| step_ring_sum (plusop : domain → domain → domain)
| step_ring_v1 (minusop : domain → domain → domain)
| step_ring_v2 (minusop : domain → domain → domain)
| step_scale_prod (factor : Z)
| step_scale_v (factor : Z)
| step_reified (positive_propagator negative_propagator : template).

(** What [initprop] sets on a propagator and its step updates:
    [last_step], [solved], and [space], the variables bound to the
    names of [allvars] ([space[0]], the space itself, is left out, so
    [space[i]] of the source is at index [i - 1]).  What
    [this.vars[name]] gave is bound by the key of the name: a
    variable, when one is declared under the key, or else the object
    that [S.vars] inherits under it; [None] is the [undefined] that
    [this.vars[name]] gives for any other name. *)
Record instance := {
  last_step : Z;
  space : list (option string);
  solved : bool;
}.

Definition set_last_step (n : Z) (I : instance) : instance :=
  {| last_step := n; space := space I; solved := solved I |}.

Definition set_solved (b : bool) (I : instance) : instance :=
  {| last_step := last_step I; space := space I; solved := b |}.

Module Propagator.
(** A propagator object of [S._propagators].  [p] and [np] are the
    private propagators that the step of [reified] creates on its
    first run; their [allvars], [depvars] and [step] are those of
    the templates. *)
Record t := mk {
  allvars : list name;
  depvars : list name;
  step : stepfn;
  self : instance;
  p : option instance;
  np : option instance;
}.

Definition set_self (I : instance) (P : t) : t :=
  {| allvars := allvars P; depvars := depvars P; step := step P;
     self := I; p := p P; np := np P |}.

Definition set_p (I : option instance) (P : t) : t :=
  {| allvars := allvars P; depvars := depvars P; step := step P;
     self := self P; p := I; np := np P |}.

Definition set_np (I : option instance) (P : t) : t :=
  {| allvars := allvars P; depvars := depvars P; step := step P;
     self := self P; p := p P; np := I |}.
End Propagator.

(** [Space.prototype.initprop]: the instance part of [p] for the
    variables [V] of the space. *)
Definition initprop (V : vars_t) (allvars : list name) : instance :=
  {| last_step := -1;
     space := (λ n, if V !! key n is Some _ then Some (key n)
                    else if inherited (key n) then Some (key n)
                    else None) <$> allvars;
     solved := false |}.

(** ** Steps: reading and writing the variables

    A step runs on its propagator ([this], of type [T]) and the
    variables of the space. *)

(** [this.space[i]], for an object that the step goes on to read; a
    property read on [undefined] throws. *)
Definition fdvar {T} (sp : T → list (option string)) (i : nat) : M (T * vars_t) string :=
  λ σ, match sp σ.1 !! (i - 1)%nat with
       | Some (Some k) => Some (Ret k, σ)
       | _ => Some (Throw TypeError, σ)
       end.

(** The variable object bound under [k]. *)
Definition read {T} (k : string) : M (T * vars_t) FDVar.t :=
  λ σ, match σ.2 !! k with
       | Some v => Some (Ret v, σ)
       | None => Some (Throw TypeError, σ)
       end.

(** [v.set_dom(d)] for the variable bound under [k]. *)
Definition set_dom {T} (k : string) (d : domain) : M (T * vars_t) unit :=
  let* v := read k in
  modify (λ σ, (σ.1, <[k := FDVar.set_dom v d]> σ.2)).

(** [v.constrain(d)] *)
Definition constrain {T} (k : string) (d : domain) : M (T * vars_t) unit :=
  let* v := read k in
  let* v' := lift (FDVar.constrain v d) in
  modify (λ σ, (σ.1, <[k := v']> σ.2)).

Definition this {T} : M (T * vars_t) T := λ σ, Some (Ret σ.1, σ).

Definition update_this {T} (f : T → T) : M (T * vars_t) unit :=
  modify (λ σ, (f σ.1, σ.2)).

(** [v.step] for the object bound under [k]: the revision of a
    variable, and [undefined] for an object that [S.vars] inherits,
    which makes a sum [NaN]. *)
Definition step_of {T} (k : string) : M (T * vars_t) number :=
  λ σ, match σ.2 !! k with
       | Some v => Some (Ret (Num (FDVar.step v)), σ)
       | None => if inherited k then Some (Ret NaN, σ) else Some (Throw TypeError, σ)
       end.

(** [var nextStep = v1.step + v2.step + ...], the first statement of
    a step, for the objects bound under [ks]. *)
Fixpoint next_step {T} (ks : list string) : M (T * vars_t) number :=
  match ks with
  | [] => ret (Num 0)
  | k :: ks' =>
      let* a := step_of k in
      let* n := next_step ks' in
      ret (Number.add a n)
  end.

(** [v1.step + v2.step + ...] past the gate [nextStep > this.last_step],
    where the objects bound under [ks] are variables. *)
Fixpoint steps_sum {T} (ks : list string) : M (T * vars_t) Z :=
  match ks with
  | [] => ret 0
  | k :: ks' =>
      let* v := read k in
      let* n := steps_sum ks' in
      ret (FDVar.step v + n)
  end.

(** ** The comparison propagators *)

Definition eq_step : M (instance * vars_t) number :=
  let* v1 := fdvar space 1 in
  let* v2 := fdvar space 2 in
  let* nextStep := next_step [v1; v2] in
  let* me := this in
  match nextStep with
  | Num nextStep =>
      if nextStep >? last_step me then
        let* x1 := read v1 in
        let* x2 := read v2 in
        let* d := lift (domain_non_empty
                          (domain_intersection (FDVar.dom x1) (FDVar.dom x2) None)) in
        set_dom v1 d ;;
        set_dom v2 d ;;
        let* n := steps_sum [v1; v2] in
        update_this (set_last_step n) ;;
        ret (Num (n - nextStep))
      else ret (Num 0)
  | NaN => ret (Num 0)
  end.

(** One turn of the [do ... while] of [lt]; it returns the condition of
    the loop. *)
Definition lt_turn (v1 v2 : string) : M (instance * vars_t) bool :=
  let* n := steps_sum [v1; v2] in
  update_this (set_last_step n) ;;
  let* x1 := read v1 in
  let* x2 := read v2 in
  let* b1 := lift (domain_bounds (FDVar.dom x1)) in
  let* b2 := lift (domain_bounds (FDVar.dom x2)) in
  (if b2.2 - 1 <? b1.2 then
     let* d := lift (domain_non_empty
                       (domain_intersection (FDVar.dom x1) [(b1.1, b2.2 - 1)] None)) in
     set_dom v1 d
   else ret tt) ;;
  (if b1.1 + 1 >? b2.1 then
     let* x2 := read v2 in
     let* d := lift (domain_non_empty
                       (domain_intersection (FDVar.dom x2) [(b1.1 + 1, b2.2)] None)) in
     set_dom v2 d
   else ret tt) ;;
  let* n := steps_sum [v1; v2] in
  let* me := this in
  ret (n >? last_step me).

Definition lt_step (fuel : nat) : M (instance * vars_t) number :=
  let* v1 := fdvar space 1 in
  let* v2 := fdvar space 2 in
  let* nextStep := next_step [v1; v2] in
  let* me := this in
  match nextStep with
  | Num nextStep =>
      if nextStep >? last_step me then
        let* x1 := read v1 in
        let* x2 := read v2 in
        let* b1 := lift (domain_bounds (FDVar.dom x1)) in
        let* b2 := lift (domain_bounds (FDVar.dom x2)) in
        update_this (set_last_step nextStep) ;;
        if b2.1 >? b1.2 then
          update_this (set_solved true) ;;
          ret (Num 0)
        else
          do_while fuel (lt_turn v1 v2) ;;
          let* n := steps_sum [v1; v2] in
          update_this (set_last_step n) ;;
          ret (Num (n - nextStep))
      else ret (Num 0)
  | NaN => ret (Num 0)
  end.

Definition lte_turn (v1 v2 : string) : M (instance * vars_t) bool :=
  let* n := steps_sum [v1; v2] in
  update_this (set_last_step n) ;;
  let* x1 := read v1 in
  let* x2 := read v2 in
  let* b1 := lift (domain_bounds (FDVar.dom x1)) in
  let* b2 := lift (domain_bounds (FDVar.dom x2)) in
  (if b2.2 <? b1.2 then
     let* d := lift (domain_non_empty
                       (domain_intersection (FDVar.dom x1) [(b1.1, b2.2)] None)) in
     set_dom v1 d
   else ret tt) ;;
  (if b1.1 >? b2.1 then
     let* x2 := read v2 in
     let* d := lift (domain_non_empty
                       (domain_intersection (FDVar.dom x2) [(b1.1, b2.2)] None)) in
     set_dom v2 d
   else ret tt) ;;
  let* n := steps_sum [v1; v2] in
  let* me := this in
  ret (n >? last_step me).

Definition lte_step (fuel : nat) : M (instance * vars_t) number :=
  let* v1 := fdvar space 1 in
  let* v2 := fdvar space 2 in
  let* nextStep := next_step [v1; v2] in
  let* me := this in
  match nextStep with
  | Num nextStep =>
      if nextStep >? last_step me then
        let* x1 := read v1 in
        let* x2 := read v2 in
        let* b1 := lift (domain_bounds (FDVar.dom x1)) in
        let* b2 := lift (domain_bounds (FDVar.dom x2)) in
        update_this (set_last_step nextStep) ;;
        if b2.1 >=? b1.2 then
          update_this (set_solved true) ;;
          ret (Num 0)
        else
          do_while fuel (lte_turn v1 v2) ;;
          let* n := steps_sum [v1; v2] in
          update_this (set_last_step n) ;;
          ret (Num (n - nextStep))
      else ret (Num 0)
  | NaN => ret (Num 0)
  end.

Definition neq_turn (v1 v2 : string) : M (instance * vars_t) bool :=
  let* n := steps_sum [v1; v2] in
  update_this (set_last_step n) ;;
  let* x1 := read v1 in
  let* x2 := read v2 in
  let* b1 := lift (domain_bounds (FDVar.dom x1)) in
  let* b2 := lift (domain_bounds (FDVar.dom x2)) in
  (if b1.1 =? b1.2 then
     let* d := lift (domain_non_empty
                       (domain_intersection (FDVar.dom x2) (domain_complement [b1]) None)) in
     set_dom v2 d
   else ret tt) ;;
  (if b2.1 =? b2.2 then
     let* x1 := read v1 in
     let* d := lift (domain_non_empty
                       (domain_intersection (FDVar.dom x1) (domain_complement [b2]) None)) in
     set_dom v1 d
   else ret tt) ;;
  let* n := steps_sum [v1; v2] in
  let* me := this in
  ret (n >? last_step me).

Definition neq_step (fuel : nat) : M (instance * vars_t) number :=
  let* v1 := fdvar space 1 in
  let* v2 := fdvar space 2 in
  let* nextStep := next_step [v1; v2] in
  let* me := this in
  match nextStep with
  | Num nextStep =>
      if nextStep >? last_step me then
        let* x1 := read v1 in
        let* x2 := read v2 in
        let* b1 := lift (domain_bounds (FDVar.dom x1)) in
        let* b2 := lift (domain_bounds (FDVar.dom x2)) in
        update_this (set_last_step nextStep) ;;
        if (b2.1 >? b1.2) || (b1.2 <? b2.1) then
          update_this (set_solved true) ;;
          ret (Num 0)
        else
          match domain_intersection (FDVar.dom x1) (FDVar.dom x2) None with
          | [] =>
              update_this (set_solved true) ;;
              ret (Num 0)
          | _ =>
              do_while fuel (neq_turn v1 v2) ;;
              let* n := steps_sum [v1; v2] in
              update_this (set_last_step n) ;;
              ret (Num (n - nextStep))
          end
      else ret (Num 0)
  | NaN => ret (Num 0)
  end.

Definition cmp_run (c : cmp_step) (fuel : nat) : M (instance * vars_t) number :=
  match c with
  | step_eq => eq_step
  | step_lt => lt_step fuel
  | step_lte => lte_step fuel
  | step_neq => neq_step fuel
  end.

(** ** [ring] and [scale] *)

Definition ring_sum_step (plusop : domain → domain → domain) : M (instance * vars_t) number :=
  let* v1 := fdvar space 1 in
  let* v2 := fdvar space 2 in
  let* sum := fdvar space 3 in
  let* nextStep := next_step [v1; v2; sum] in
  let* me := this in
  (match nextStep with
   | Num nextStep =>
       if nextStep >? last_step me then
         let* x1 := read v1 in
         let* x2 := read v2 in
         let* xs := read sum in
         let* d := lift (domain_non_empty
                           (domain_intersection (plusop (FDVar.dom x1) (FDVar.dom x2))
                                                (FDVar.dom xs) None)) in
         set_dom sum d ;;
         let* n := steps_sum [sum; v1; v2] in
         update_this (set_last_step n)
       else ret tt
   | NaN => ret tt
   end) ;;
  let* me := this in
  ret (Number.sub (Num (last_step me)) nextStep).

Definition ring_v1_step (minusop : domain → domain → domain) : M (instance * vars_t) number :=
  let* v1 := fdvar space 1 in
  let* v2 := fdvar space 2 in
  let* sum := fdvar space 3 in
  let* nextStep := next_step [v1; v2; sum] in
  let* me := this in
  (match nextStep with
   | Num nextStep =>
       if nextStep >? last_step me then
         let* x1 := read v1 in
         let* x2 := read v2 in
         let* xs := read sum in
         let* d := lift (domain_non_empty
                           (domain_intersection (minusop (FDVar.dom xs) (FDVar.dom x2))
                                                (FDVar.dom x1) None)) in
         set_dom v1 d ;;
         let* n := steps_sum [sum; v1; v2] in
         update_this (set_last_step n)
       else ret tt
   | NaN => ret tt
   end) ;;
  let* me := this in
  ret (Number.sub (Num (last_step me)) nextStep).

Definition ring_v2_step (minusop : domain → domain → domain) : M (instance * vars_t) number :=
  let* v1 := fdvar space 1 in
  let* v2 := fdvar space 2 in
  let* sum := fdvar space 3 in
  let* nextStep := next_step [v1; v2; sum] in
  let* me := this in
  (match nextStep with
   | Num nextStep =>
       if nextStep >? last_step me then
         let* x1 := read v1 in
         let* x2 := read v2 in
         let* xs := read sum in
         let* d := lift (domain_non_empty
                           (domain_intersection (minusop (FDVar.dom xs) (FDVar.dom x1))
                                                (FDVar.dom x2) None)) in
         set_dom v2 d ;;
         let* n := steps_sum [sum; v1; v2] in
         update_this (set_last_step n)
       else ret tt
   | NaN => ret tt
   end) ;;
  let* me := this in
  ret (Number.sub (Num (last_step me)) nextStep).

Definition scale_prod_step (factor : Z) : M (instance * vars_t) number :=
  let* v := fdvar space 1 in
  let* prod := fdvar space 2 in
  let* nextStep := next_step [v; prod] in
  let* me := this in
  match nextStep with
  | Num nextStep =>
      if nextStep >? last_step me then
        let* x := read v in
        let* xp := read prod in
        let* bd := lift (domain_bounds (FDVar.dom x)) in
        let kd := (λ i : interval, (Z.min FD_SUP (i.1 * factor), Z.min FD_SUP (i.2 * factor)))
                    <$> FDVar.dom x in
        let* d := lift (domain_non_empty (domain_intersection kd (FDVar.dom xp) None)) in
        set_dom prod d ;;
        let* n := steps_sum [v; prod] in
        update_this (set_last_step n) ;;
        ret (Num (n - nextStep))
      else ret (Num 0)
  | NaN => ret (Num 0)
  end.

(** [l - l % 1] for [l = i[0] / factor] drops the fraction of the
    quotient: [Z.quot], for the factors above 1 that [scale] gives
    this step. *)
Definition scale_v_step (factor : Z) : M (instance * vars_t) number :=
  let* v := fdvar space 1 in
  let* prod := fdvar space 2 in
  let* nextStep := next_step [v; prod] in
  let* me := this in
  match nextStep with
  | Num nextStep =>
      if nextStep >? last_step me then
        let* x := read v in
        let* xp := read prod in
        let dbyk := simplify_domain
                      ((λ i : interval, (Z.quot i.1 factor, Z.quot i.2 factor))
                         <$> FDVar.dom xp) in
        let* d := lift (domain_non_empty (domain_intersection dbyk (FDVar.dom x) None)) in
        set_dom v d ;;
        let* n := steps_sum [v; prod] in
        update_this (set_last_step n) ;;
        ret (Num (n - nextStep))
      else ret (Num 0)
  | NaN => ret (Num 0)
  end.

(** ** [reified] *)

(** Run [m], a computation on the part [get] of the state. *)
Definition zoom {T U A} (get : T → U) (set : U → T → T)
    (m : M (U * vars_t) A) : M (T * vars_t) A :=
  λ σ, match m (get σ.1, σ.2) with
       | None => None
       | Some (o, σ') => Some (o, (set σ'.1 σ.1, σ'.2))
       end.

(** The loop of [propagator_is_solved]. *)
Fixpoint all_determined {T} (allvars : list name) : M (T * vars_t) bool :=
  match allvars with
  | [] => ret true
  | n :: allvars' =>
      let* v := read (key n) in
      let* u := lift (FDVar.is_undetermined v) in
      if u then ret false else all_determined allvars'
  end.

Definition propagator_is_solved (allvars : list name) : M (instance * vars_t) bool :=
  let* me := this in
  if solved me then ret true else all_determined allvars.

(** [Propagator.save_vars(P)] pushes the domains and steps of the
    variables of [P] and [P.last_step]; [restore_vars] pops them.  The
    saved state is a value here. *)
Fixpoint saved_vars (sp : list (option string)) : M (instance * vars_t) (list (string * FDVar.t)) :=
  match sp with
  | [] => ret []
  | None :: _ => throw TypeError
  | Some k :: sp' =>
      let* v := read k in
      let* vs := saved_vars sp' in
      ret ((k, v) :: vs)
  end.

Definition save_vars : M (instance * vars_t) (list (string * FDVar.t) * Z) :=
  let* me := this in
  let* vs := saved_vars (space me) in
  ret (vs, last_step me).

Definition restore_vars (vss : list (string * FDVar.t) * Z) : M (instance * vars_t) unit :=
  for_each vss.1 (λ kv, modify (λ σ, (σ.1, <[kv.1 := kv.2]> σ.2))) ;;
  update_this (set_last_step vss.2).

(** The reified propagator with its two private propagators, while
    its step runs. *)
Record reified_state := {
  r_self : instance;
  r_p : instance;
  r_np : instance;
}.

Definition set_r_self (I : instance) (R : reified_state) : reified_state :=
  {| r_self := I; r_p := r_p R; r_np := r_np R |}.

Definition set_r_p (I : instance) (R : reified_state) : reified_state :=
  {| r_self := r_self R; r_p := I; r_np := r_np R |}.

Definition set_r_np (I : instance) (R : reified_state) : reified_state :=
  {| r_self := r_self R; r_p := r_p R; r_np := I |}.

(** [b.dom[0]], whose ends the step reads next. *)
Definition first_interval {T} (b : string) : M (T * vars_t) interval :=
  let* xb := read b in
  match FDVar.dom xb with
  | [] => throw TypeError
  | bdom :: _ => ret bdom
  end.

(** One turn of the [do ... while] of the step of [reified]; it
    returns the condition of the loop. *)
Definition reified_turn (positive_propagator negative_propagator : template)
    (fuel : nat) (v1 v2 b : string) : M (reified_state * vars_t) bool :=
  let on_p {A} (m : M (instance * vars_t) A) := zoom r_p set_r_p m in
  let on_np {A} (m : M (instance * vars_t) A) := zoom r_np set_r_np m in
  let* n := steps_sum [v1; v2; b] in
  update_this (λ R, set_r_self (set_last_step n (r_self R)) R) ;;
  let* bdom := first_interval b in
  (if bdom.1 =? 1 then
     on_p (cmp_run (t_step positive_propagator) fuel) ;;
     let* s := on_p (propagator_is_solved (t_allvars positive_propagator)) in
     update_this (λ R, set_r_self (set_solved s (r_self R)) R)
   else ret tt) ;;
  (if bdom.2 =? 0 then
     on_np (cmp_run (t_step negative_propagator) fuel) ;;
     let* s := on_np (propagator_is_solved (t_allvars negative_propagator)) in
     update_this (λ R, set_r_self (set_solved s (r_self R)) R)
   else ret tt) ;;
  let* bdom :=
    (if bdom.1 <? bdom.2 then
       let* vss := on_p save_vars in
       try_catch
         (on_p (cmp_run (t_step positive_propagator) fuel) ;;
          on_p (restore_vars vss))
         (on_p (restore_vars vss) ;;
          constrain b [(0, 0)]) ;;
       first_interval b
     else ret bdom) in
  (if bdom.1 <? bdom.2 then
     let* vss := on_np save_vars in
     try_catch
       (on_np (cmp_run (t_step negative_propagator) fuel) ;;
        on_np (restore_vars vss))
       (on_np (restore_vars vss) ;;
        constrain b [(1, 1)])
   else ret tt) ;;
  let* n := steps_sum [v1; v2; b] in
  let* me := this in
  ret (n >? last_step (r_self me)).

(** [this.p = S.initprop({...})] unless it is there already, the same
    for [this.np], and the propagator in the form the loop works on. *)
Definition with_private (positive_propagator negative_propagator : template)
    (V : vars_t) (P : Propagator.t) : reified_state :=
  {| r_self := Propagator.self P;
     r_p := default (initprop V (t_allvars positive_propagator)) (Propagator.p P);
     r_np := default (initprop V (t_allvars negative_propagator)) (Propagator.np P) |}.

Definition store_private (R : reified_state) (P : Propagator.t) : Propagator.t :=
  Propagator.set_self (r_self R)
    (Propagator.set_p (Some (r_p R)) (Propagator.set_np (Some (r_np R)) P)).

Definition reified_step (positive_propagator negative_propagator : template)
    (fuel : nat) : M (Propagator.t * vars_t) number :=
  let sp P := space (Propagator.self P) in
  let* v1 := fdvar sp 1 in
  let* v2 := fdvar sp 2 in
  let* b := fdvar sp 3 in
  let* nextStep := next_step [v1; v2; b] in
  let* me := this in
  match nextStep with
  | Num nextStep =>
      if nextStep >? last_step (Propagator.self me) then
        let* σ := get in
        zoom (with_private positive_propagator negative_propagator σ.2) store_private
          (do_while fuel (reified_turn positive_propagator negative_propagator fuel v1 v2 b) ;;
           let* n := steps_sum [v1; v2; b] in
           update_this (λ R, set_r_self (set_last_step n (r_self R)) R) ;;
           ret (Num (n - nextStep)))
      else ret (Num 0)
  | NaN => ret (Num 0)
  end.

(** ** Running a propagator: [p.step()] *)

Definition run_step (fuel : nat) : M (Propagator.t * vars_t) number :=
  let on_self {A} (m : M (instance * vars_t) A) :=
    zoom Propagator.self Propagator.set_self m in
  let* me := this in
  match Propagator.step me with
  | step_cmp c => on_self (cmp_run c fuel)
  | step_ring_sum plusop => on_self (ring_sum_step plusop)
  | step_ring_v1 minusop => on_self (ring_v1_step minusop)
  | step_ring_v2 minusop => on_self (ring_v2_step minusop)
  | step_scale_prod factor => on_self (scale_prod_step factor)
  | step_scale_v factor => on_self (scale_v_step factor)
  | step_reified positive_propagator negative_propagator =>
      reified_step positive_propagator negative_propagator fuel
  end.

(** * Spaces *)

Module Space.
(** The variables and the propagators of a space.  (The brancher
    and the counters of the search are not modelled.) *)
Record t := mk {
  vars : vars_t;
  _propagators : list Propagator.t;
}.

Definition set_vars (V : vars_t) (S : t) : t :=
  {| vars := V; _propagators := _propagators S |}.

Definition set_propagators (ps : list Propagator.t) (S : t) : t :=
  {| vars := vars S; _propagators := ps |}.

(** [new Space()] *)
Definition new : t := {| vars := ∅; _propagators := [] |}.
End Space.

(** What all spaces share: [Space._temp_count].  [issued] is not in
    the source: it lists the names that [temp] has returned, last one
    first, for the properties that speak of all of them; nothing reads
    it. *)
Record global := {
  _temp_count : positive;
  issued : list positive;
}.

(** [Space._temp_count = 1] *)
Definition global_init : global := {| _temp_count := 1; issued := [] |}.

(** A method of a space runs on what all spaces share and on the
    space [this]. *)
Abbreviation method := (M (global * Space.t)).

(** What a method returns: [this], for chaining, or the name of a
    variable. *)
Inductive retval :=
| RSpace
| RName (n : name).

(** ** [propagate] *)

(** [for (i = 0; i < len; ++i) count += ps[i].step()] *)
Fixpoint pass (fuel : nat) (ps : list Propagator.t)
    : M (list Propagator.t * vars_t) number :=
  λ σ, match ps with
       | [] => Some (Ret (Num 0), ([], σ.2))
       | P :: ps' =>
           match run_step fuel (P, σ.2) with
           | None => None
           | Some (Throw e, (P', V')) => Some (Throw e, (P' :: ps', V'))
           | Some (Ret n, (P', V')) =>
               match pass fuel ps' (ps', V') with
               | None => None
               | Some (Ret m, (ps'', V'')) => Some (Ret (Number.add n m), (P' :: ps'', V''))
               | Some (Throw e, (ps'', V'')) => Some (Throw e, (P' :: ps'', V''))
               end
           end
       end.

Definition propagate_pass (fuel : nat) : M Space.t number :=
  λ S, match pass fuel (Space._propagators S) (Space._propagators S, Space.vars S) with
       | None => None
       | Some (o, (ps, V)) => Some (o, {| Space.vars := V; Space._propagators := ps |})
       end.

(** [do { ...; totalCount += count; } while (count > 0)]: [n] bounds
    the number of turns. *)
Fixpoint propagate_from (fuel n : nat) (totalCount : number) : M Space.t number :=
  match n with
  | O => out_of_fuel
  | S n' =>
      let* count := propagate_pass fuel in
      let totalCount := Number.add totalCount count in
      if Number.gtb count (Num 0) then propagate_from fuel n' totalCount
      else ret totalCount
  end.

Definition propagate (fuel : nat) : M Space.t number :=
  propagate_from fuel fuel (Num 0).

(** ** Declaring variables *)

(** The argument [name_or_names] of [decl]: a name, or an array (or
    an object) whose elements are such arguments. *)
#[warnings="-register-all"]
Inductive names :=
| one (n : name)
| many (l : list names).

Definition get_vars : method vars_t := λ σ, Some (Ret (Space.vars σ.2), σ).

Definition put_var (k : string) (v : FDVar.t) : method unit :=
  modify (λ σ, (σ.1, Space.set_vars (<[k := v]> (Space.vars σ.2)) σ.2)).

Fixpoint decl (name_or_names : names) (dom : option domain) : method retval :=
  match name_or_names with
  | many l =>
      (fix each (l : list names) : method unit :=
         match l with
         | [] => ret tt
         | x :: l' => decl x dom ;; each l'
         end) l ;;
      ret RSpace
  | one name =>
      let* fs := get_vars in
      match fs !! key name with
      | Some f =>
          (match dom with
           | Some d => put_var (key name) (FDVar.set_dom f d)
           | None => ret tt
           end) ;;
          ret RSpace
      | None =>
          if inherited (key name) then
            (match dom with
             | Some d => throw TypeError
             | None => ret tt
             end) ;;
            ret RSpace
          else
            put_var (key name) (FDVar.new dom None) ;;
            ret RSpace
      end
  end.

Definition num (name : name) (n : Z) : method retval :=
  decl (one name) (Some [(n, n)]).

Definition temp (dom : option domain) : method name :=
  let* σ := get in
  let t := Pos.succ (_temp_count σ.1) in
  modify (λ σ, ({| _temp_count := t; issued := t :: issued σ.1 |}, σ.2)) ;;
  decl (one (NNum t)) dom ;;
  ret (NNum t).

Fixpoint temps (N : nat) (dom : option domain) : method (list name) :=
  match N with
  | O => ret []
  | S N' =>
      let* t := temp dom in
      let* result := temps N' dom in
      ret (t :: result)
  end.

Definition konst (val : Z) : method name :=
  if (val <? 0) || (val >? FD_SUP)
  then throw (Error "FD.space.konst: Value out of valid range")
  else temp (Some [(val, val)]).

(** ** Adding propagators *)

Definition newprop (allvars depvars : list name) (step : stepfn) : method retval :=
  modify (λ σ,
    (σ.1,
     Space.set_propagators
       (Space._propagators σ.2 ++
        [{| Propagator.allvars := allvars;
            Propagator.depvars := depvars;
            Propagator.step := step;
            Propagator.self := initprop (Space.vars σ.2) allvars;
            Propagator.p := None;
            Propagator.np := None |}])
       σ.2)) ;;
  ret RSpace.

Definition eq (v1name : name) (v2name : option name) : method retval :=
  match v2name with
  | None => ret (RName v1name)
  | Some v2name => newprop [v1name; v2name] [v1name; v2name] (step_cmp step_eq)
  end.

Definition lt (v1name v2name : name) : method retval :=
  newprop [v1name; v2name] [v1name; v2name] (step_cmp step_lt).

Definition gt (v1name v2name : name) : method retval := lt v2name v1name.

Definition lte (v1name v2name : name) : method retval :=
  newprop [v1name; v2name] [v1name; v2name] (step_cmp step_lte).

Definition gte (v1name v2name : name) : method retval := lte v2name v1name.

Definition neq (v1name v2name : name) : method retval :=
  newprop [v1name; v2name] [v1name; v2name] (step_cmp step_neq).

(** [for (i ...) for (j = 0; j < i; ++j) this.neq(vars[i], vars[j])] *)
Definition distinct (vars : list name) : method retval :=
  for_each (imap (λ i v, (v, take i vars)) vars)
    (λ vi, for_each vi.2 (λ vj, neq vi.1 vj ;; ret tt)) ;;
  ret RSpace.

(** The result name of a constructor, or a temporary when it is
    missing; [retval] with it. *)
Definition or_temp (resultName : option name) : method (name * retval) :=
  match resultName with
  | Some n => ret (n, RSpace)
  | None => let* t := temp None in ret (t, RName t)
  end.

Definition ring (plusop minusop : domain → domain → domain)
    (v1name v2name : name) (sumname : option name) : method retval :=
  let* r := or_temp sumname in
  let sumname := r.1 in
  newprop [v1name; v2name; sumname] [v1name; v2name] (step_ring_sum plusop) ;;
  newprop [v1name; v2name; sumname] [v2name; sumname] (step_ring_v1 minusop) ;;
  newprop [v1name; v2name; sumname] [v1name; sumname] (step_ring_v2 minusop) ;;
  ret r.2.

Definition plus (v1name v2name : name) (sumname : option name) : method retval :=
  ring dom_plus dom_minus v1name v2name sumname.

Definition scale (factor : Z) (vname : name) (prodname : option name) : method retval :=
  if factor =? 1 then eq vname prodname
  else if factor =? 0 then
    let* t := temp (Some [(0, 0)]) in
    eq t prodname
  else if factor <? 0 then throw (Error "scale: negative factors not supported.")
  else
    let* r := or_temp prodname in
    let prodname := r.1 in
    newprop [vname; prodname] [vname] (step_scale_prod factor) ;;
    newprop [vname; prodname] [prodname] (step_scale_v factor) ;;
    ret r.2.

(** The name that a constructor called without a result name
    returned. *)
Definition name_of (r : retval) : method name :=
  match r with
  | RName n => ret n
  | RSpace => throw TypeError
  end.

Definition times_plus (k1 : Z) (v1name : name) (k2 : Z) (v2name : name)
    (resultname : option name) : method retval :=
  let* r1 := scale k1 v1name None in
  let* n1 := name_of r1 in
  let* r2 := scale k2 v2name None in
  let* n2 := name_of r2 in
  plus n1 n2 resultname.

(** [sum] halves [vars] at every call: [fuel] bounds the depth. *)
Fixpoint sum_rec (fuel : nat) (vars : list name) (resultName : option name) : method retval :=
  let* r := or_temp resultName in
  let resultName := r.1 in
  match vars with
  | [] => throw (Error "Space.sum: Nothing to sum!")
  | [v0] => eq v0 (Some resultName) ;; ret r.2
  | [v0; v1] => plus v0 v1 (Some resultName) ;; ret r.2
  | v0 :: _ =>
      match fuel with
      | O => out_of_fuel
      | S fuel' =>
          let n := Nat.div2 (length vars) in
          let* t2 := temp None in
          sum_rec fuel' (drop n vars) (Some t2) ;;
          let* t1 :=
            (if decide (1 < n)%nat then
               let* t1 := temp None in
               sum_rec fuel' (take n vars) (Some t1) ;;
               ret t1
             else ret v0) in
          plus t1 t2 (Some resultName) ;;
          ret r.2
      end
  end.

Definition sum (vars : list name) (resultName : option name) : method retval :=
  sum_rec (length vars) vars resultName.

(** [dom_divby] divides in floating point and its bounds are not
    whole numbers in general; [times] and [product] take it as a
    parameter. *)
Definition times (dom_divby : domain → domain → domain)
    (v1name v2name : name) (prodname : option name) : method retval :=
  ring dom_times dom_divby v1name v2name prodname.

Fixpoint product_rec (dom_divby : domain → domain → domain) (fuel : nat)
    (vars : list name) (resultName : option name) : method retval :=
  let* r := or_temp resultName in
  let resultName := r.1 in
  match vars with
  | [] => ret r.2
  | [v0] => eq v0 (Some resultName) ;; ret r.2
  | [v0; v1] => times dom_divby v0 v1 (Some resultName) ;; ret r.2
  | v0 :: _ =>
      match fuel with
      | O => out_of_fuel
      | S fuel' =>
          let n := Nat.div2 (length vars) in
          let* t2 := temp None in
          product_rec dom_divby fuel' (drop n vars) (Some t2) ;;
          let* t1 :=
            (if decide (1 < n)%nat then
               let* t1 := temp None in
               product_rec dom_divby fuel' (take n vars) (Some t1) ;;
               ret t1
             else ret v0) in
          times dom_divby t1 t2 (Some resultName) ;;
          ret r.2
      end
  end.

Definition product (dom_divby : domain → domain → domain)
    (vars : list name) (resultName : option name) : method retval :=
  product_rec dom_divby (length vars) vars resultName.

(** [kweights] has a weight for each of [vars]. *)
Definition wsum (kweights : list Z) (vars : list name) (resultName : option name)
    : method retval :=
  let* temps :=
    (fix each (l : list (Z * name)) : method (list name) :=
       match l with
       | [] => ret []
       | kv :: l' =>
           let* t := temp None in
           scale kv.1 kv.2 (Some t) ;;
           let* temps := each l' in
           ret (t :: temps)
       end) (zip kweights vars) in
  sum temps resultName.

(** ** [reified] *)

Inductive operator := op_eq | op_neq | op_lt | op_gt | op_lte | op_gte.

(** [opname in Propagator.complementary_operator] *)
Definition operator_of (opname : string) : option operator :=
  if decide (opname = "eq")%string then Some op_eq
  else if decide (opname = "neq")%string then Some op_neq
  else if decide (opname = "lt")%string then Some op_lt
  else if decide (opname = "gt")%string then Some op_gt
  else if decide (opname = "lte")%string then Some op_lte
  else if decide (opname = "gte")%string then Some op_gte
  else None.

Definition complementary_operator (op : operator) : operator :=
  match op with
  | op_eq => op_neq
  | op_neq => op_eq
  | op_lt => op_gte
  | op_gt => op_lte
  | op_lte => op_gt
  | op_gte => op_lt
  end.

(** [this[opname].apply(this, argv)] *)
Definition apply_operator (op : operator) (argv : name * name) : method retval :=
  match op with
  | op_eq => eq argv.1 (Some argv.2)
  | op_neq => neq argv.1 argv.2
  | op_lt => lt argv.1 argv.2
  | op_gt => gt argv.1 argv.2
  | op_lte => lte argv.1 argv.2
  | op_gte => gte argv.1 argv.2
  end.

(** [this._propagators.pop()], as the template that [reified] makes
    of it.  What is popped is the comparison propagator that
    [apply_operator] has just pushed; the other two branches are not
    reached. *)
Definition pop_template : method template :=
  λ σ, match reverse (Space._propagators σ.2) with
       | [] => Some (Throw TypeError, σ)
       | P :: ps =>
           match Propagator.step P with
           | step_cmp c =>
               Some (Ret {| t_allvars := Propagator.allvars P;
                            t_depvars := Propagator.depvars P;
                            t_step := c |},
                     (σ.1, Space.set_propagators (reverse ps) σ.2))
           | _ => Some (Throw TypeError, σ)
           end
       end.

(** [this.vars[boolname].constrain(d)] *)
Definition constrain_var (n : name) (d : domain) : method unit :=
  let* fs := get_vars in
  match fs !! key n with
  | None => throw TypeError
  | Some v =>
      let* v' := lift (FDVar.constrain v d) in
      put_var (key n) v'
  end.

Definition reified (opname : string) (argv : name * name) (boolname : option name)
    : method retval :=
  match operator_of opname with
  | Some op =>
      let* r :=
        (match boolname with
         | Some b => constrain_var b [(0, 1)] ;; ret (b, RSpace)
         | None => let* b := temp (Some [(0, 1)]) in ret (b, RName b)
         end) in
      let boolname := r.1 in
      apply_operator op argv ;;
      let* positive_propagator := pop_template in
      apply_operator (complementary_operator op) argv ;;
      let* negative_propagator := pop_template in
      let deps := [argv.1; argv.2; boolname] in
      newprop deps deps (step_reified positive_propagator negative_propagator) ;;
      ret r.2
  | None =>
      throw (Error ("FD.space.reified: Unsupported operator '" +:+ opname +:+ "'"))
  end.

(** * Scripts

    What a problem script does to the spaces it holds: it makes a
    space, or calls a method of one. *)

Inductive call :=
| call_decl (name_or_names : names) (dom : option domain)
| call_num (name : name) (n : Z)
| call_temp (dom : option domain)
| call_temps (N : nat) (dom : option domain)
| call_konst (val : Z)
| call_eq (v1name : name) (v2name : option name)
| call_neq (v1name v2name : name)
| call_lt (v1name v2name : name)
| call_gt (v1name v2name : name)
| call_lte (v1name v2name : name)
| call_gte (v1name v2name : name)
| call_distinct (vars : list name)
| call_plus (v1name v2name : name) (sumname : option name)
| call_times (v1name v2name : name) (prodname : option name)
| call_scale (factor : Z) (vname : name) (prodname : option name)
| call_times_plus (k1 : Z) (v1name : name) (k2 : Z) (v2name : name)
                  (resultname : option name)
| call_sum (vars : list name) (resultName : option name)
| call_product (vars : list name) (resultName : option name)
| call_wsum (kweights : list Z) (vars : list name) (resultName : option name)
| call_reified (opname : string) (argv : name * name) (boolname : option name)
| call_propagate (fuel : nat).

(** A method on the space alone, as a method. *)
Definition on_space {A} (m : M Space.t A) : method A :=
  λ σ, match m σ.2 with
       | None => None
       | Some (o, S') => Some (o, (σ.1, S'))
       end.

Definition forget {A} (m : method A) : method unit := m ;; ret tt.

Definition invoke (dom_divby : domain → domain → domain) (c : call) : method unit :=
  match c with
  | call_decl name_or_names dom => forget (decl name_or_names dom)
  | call_num name n => forget (num name n)
  | call_temp dom => forget (temp dom)
  | call_temps N dom => forget (temps N dom)
  | call_konst val => forget (konst val)
  | call_eq v1name v2name => forget (eq v1name v2name)
  | call_neq v1name v2name => forget (neq v1name v2name)
  | call_lt v1name v2name => forget (lt v1name v2name)
  | call_gt v1name v2name => forget (gt v1name v2name)
  | call_lte v1name v2name => forget (lte v1name v2name)
  | call_gte v1name v2name => forget (gte v1name v2name)
  | call_distinct vars => forget (distinct vars)
  | call_plus v1name v2name sumname => forget (plus v1name v2name sumname)
  | call_times v1name v2name prodname => forget (times dom_divby v1name v2name prodname)
  | call_scale factor vname prodname => forget (scale factor vname prodname)
  | call_times_plus k1 v1name k2 v2name resultname =>
      forget (times_plus k1 v1name k2 v2name resultname)
  | call_sum vars resultName => forget (sum vars resultName)
  | call_product vars resultName => forget (product dom_divby vars resultName)
  | call_wsum kweights vars resultName => forget (wsum kweights vars resultName)
  | call_reified opname argv boolname => forget (reified opname argv boolname)
  | call_propagate fuel => forget (on_space (propagate fuel))
  end.

(** The spaces of a script, and what they share. *)
Record world := {
  shared : global;
  spaces : list Space.t;
}.

Definition world_init : world := {| shared := global_init; spaces := [] |}.

Inductive action :=
| new_space
| call_on (i : nat) (c : call).

(** One action; an exception that a call throws is caught by the
    script, and what the call did before it stays done. *)
Definition act (dom_divby : domain → domain → domain) (a : action) (w : world)
    : option world :=
  match a with
  | new_space => Some {| shared := shared w; spaces := spaces w ++ [Space.new] |}
  | call_on i c =>
      match spaces w !! i with
      | None => Some w
      | Some this_space =>
          match invoke dom_divby c (shared w, this_space) with
          | None => None
          | Some (_, (g, S')) => Some {| shared := g; spaces := <[i := S']> (spaces w) |}
          end
      end
  end.

Fixpoint run (dom_divby : domain → domain → domain) (script : list action) (w : world)
    : option world :=
  match script with
  | [] => Some w
  | a :: script' =>
      match act dom_divby a w with
      | None => None
      | Some w' => run dom_divby script' w'
      end
  end.

(** * Auxiliary definitions for the statements *)

(** The space after [temp(dom)]: as after [decl] of the new name. *)
Definition temp_space (dom : option domain) (t : positive) (S : Space.t) : Space.t :=
  match Space.vars S !! key (NNum t) with
  | Some f =>
      match dom with
      | Some d =>
          Space.set_vars (<[key (NNum t) := FDVar.set_dom f d]> (Space.vars S)) S
      | None => S
      end
  | None =>
      Space.set_vars (<[key (NNum t) := FDVar.new dom None]> (Space.vars S)) S
  end.

(** The propagator that [newprop] pushes. *)
Definition new_propagator (V : vars_t) (allvars depvars : list name) (step : stepfn)
    : Propagator.t :=
  {| Propagator.allvars := allvars;
     Propagator.depvars := depvars;
     Propagator.step := step;
     Propagator.self := initprop V allvars;
     Propagator.p := None;
     Propagator.np := None |}.

(** [a] was issued after [b]: it is the greater name. *)
Definition later (a b : positive) : Prop := (b < a)%positive.

(** [g'] is what [g] has become after some calls of methods: the
    counter has not gone down, and the names issued since then lie
    above the old counter, up to the new one, each above those issued
    before it. *)
Definition grows (g g' : global) : Prop :=
  ∃ new,
    issued g' = new ++ issued g
    ∧ (_temp_count g ≤ _temp_count g')%positive
    ∧ Forall (λ t, (_temp_count g < t ≤ _temp_count g')%positive) new
    ∧ StronglySorted later new.

Definition method_grows {A} (m : method A) : Prop :=
  ∀ σ o σ', m σ = Some (o, σ') → grows σ.1 σ'.1.

(** The names issued so far are below the counter, and each is above
    those issued before it. *)
Definition issued_increasing (g : global) : Prop :=
  Forall (λ t, (1 < t ≤ _temp_count g)%positive) (issued g)
  ∧ StronglySorted later (issued g).

(** [v1.step + v2.step + ...] in the variables [V], when all of
    [ks] are bound. *)
Fixpoint sum_steps (V : vars_t) (ks : list string) : option Z :=
  match ks with
  | [] => Some 0
  | k :: ks' =>
      match V !! k, sum_steps V ks' with
      | Some v, Some n => Some (FDVar.step v + n)
      | _, _ => None
      end
  end.

(** [V'] is [V] after some [set_dom] on variables among [ks]: every
    variable is as it was, or is one of [ks] and has a greater step. *)
Definition advances (ks : list string) (V V' : vars_t) : Prop :=
  ∀ k, V' !! k = V !! k
       ∨ (k ∈ ks ∧ ∃ v v', V !! k = Some v ∧ V' !! k = Some v'
                           ∧ FDVar.step v < FDVar.step v').

(** [m], started in a state of [P], returns in a state of [Q] or
    throws in a state of [X]. *)
Definition hoare {Σ A} (P : Σ → Prop) (m : M Σ A) (Q : A → Σ → Prop) (X : Σ → Prop)
    : Prop :=
  ∀ σ o σ', P σ → m σ = Some (o, σ') →
            match o with
            | Ret a => Q a σ'
            | Throw _ => X σ'
            end.

(** [m] keeps the invariant [J], however it ends. *)
Definition keeps {Σ A} (J : Σ → Prop) (m : M Σ A) : Prop :=
  hoare J m (λ _, J) J.

(** The invariant of a step on the propagator instance: its bindings
    are [sp], and the variables have advanced from [V0] on [ks]
    only. *)
Definition step_inv (sp : list (option string)) (ks : list string) (V0 : vars_t)
    (σ : instance * vars_t) : Prop :=
  space σ.1 = sp ∧ advances ks V0 σ.2.

(** A script on two spaces, for the examples. *)
Definition two_spaces_script : list action :=
  let A := NStr "A" EmptyString in
  let B := NStr "B" EmptyString in
  [new_space; new_space;
   call_on 0 (call_temp None);
   call_on 1 (call_decl (many [one A; one B]) (Some [(0, 9)]));
   call_on 1 (call_scale 3 A None);
   call_on 0 (call_konst 5);
   call_on 1 (call_reified "lt" (A, B) None)].

(** The first [n] bindings of a propagator are the variables [ks]. *)
Definition bound (n : nat) (sp : list (option string)) (ks : list string) : Prop :=
  take n sp = Some <$> ks ∧ length ks = n.

(** What [next_step] gives on the variables [V]. *)
Fixpoint next_of (V : vars_t) (ks : list string) : outcome number :=
  match ks with
  | [] => Ret (Num 0)
  | k :: ks' =>
      match V !! k with
      | Some v =>
          match next_of V ks' with
          | Ret n => Ret (Number.add (Num (FDVar.step v)) n)
          | Throw e => Throw e
          end
      | None =>
          if inherited k then
            match next_of V ks' with
            | Ret n => Ret NaN
            | Throw e => Throw e
            end
          else Throw TypeError
      end
  end.

(** What a step returns, when it returns an integer [r], for the
    change-detection gate, which is on the [n] first objects bound to
    the propagator.  When the sum of their steps is [NaN], the gate is
    closed: a step that returns an integer then returns 0, and nothing
    has changed.  Otherwise they are variables, and [s] is the sum of
    their steps.  Closed ([s] is no more than [last_step]):
    [closed last_step s], and nothing has changed.  Open: [last_step]
    is now the sum of their steps, and the step returns what it has
    gone up by. *)
Definition gate_result {T} (sp : T → list (option string)) (ls : T → Z)
    (n : nat) (closed : Z → Z → Z) (P : T) (V : vars_t) (r : Z) (P' : T) (V' : vars_t)
    : Prop :=
  ∃ ks,
    bound n (sp P) ks
    ∧ ((next_of V ks = Ret NaN ∧ P' = P ∧ V' = V ∧ r = 0)
       ∨ ∃ s, sum_steps V ks = Some s
              ∧ ((s ≤ ls P ∧ P' = P ∧ V' = V ∧ r = closed (ls P) s)
                 ∨ (ls P < s ∧ sum_steps V' ks = Some (ls P') ∧ r = ls P' - s))).

(** [m] does not change the state. *)
Definition readonly {Σ A} (m : M Σ A) : Prop :=
  ∀ σ o σ', m σ = Some (o, σ') → σ' = σ.

(** [k] is one of the three first variables of [P], when they are
    bound. *)
Definition bound_in (P : Propagator.t) (k : string) : Prop :=
  ∀ ks, bound 3 (space (Propagator.self P)) ks → k ∈ ks.

(** The propagators that [reified] makes: the variables of the two
    comparisons are among those of the propagator, and so are the
    variables that its private propagators are bound to. *)
Definition wf_propagator (P : Propagator.t) : Prop :=
  match Propagator.step P with
  | step_reified positive_propagator negative_propagator =>
      (∀ n, n ∈ t_allvars positive_propagator ++ t_allvars negative_propagator →
            bound_in P (key n))
      ∧ (∀ q k, Propagator.p P = Some q ∨ Propagator.np P = Some q →
                Some k ∈ space q → bound_in P k)
  | _ => True
  end.

Definition wf_space (S : Space.t) : Prop :=
  Forall wf_propagator (Space._propagators S).

(** The invariant of the step of [reified]: the bindings of the
    propagator and of its private propagators, and the variables
    advancing from [V0] on [ks] only. *)
Definition reified_inv (sp spp spn : list (option string)) (ks : list string)
    (V0 : vars_t) (σ : reified_state * vars_t) : Prop :=
  space (r_self σ.1) = sp ∧ space (r_p σ.1) = spp ∧ space (r_np σ.1) = spn
  ∧ advances ks V0 σ.2.

(** [restore_vars] on the variables. *)
Definition restored (vs : list (string * FDVar.t)) (V : vars_t) : vars_t :=
  foldl (λ V kv, <[kv.1 := kv.2]> V) V vs.

(** [P] is a propagator that [reified] made of the two templates. *)
Definition is_reified (positive_propagator negative_propagator : template)
    (P : Propagator.t) : Prop :=
  Propagator.step P = step_reified positive_propagator negative_propagator
  ∧ wf_propagator P.

(** A space with a comparison and a reified comparison, not yet
    propagated. *)
Definition example_script : list action :=
  let A := NStr "A" EmptyString in
  let B := NStr "B" EmptyString in
  [new_space;
   call_on 0 (call_decl (many [one A; one B]) (Some [(0, 9)]));
   call_on 0 (call_lt A B);
   call_on 0 (call_reified "lt" (A, B) None)].

Definition example_space : Space.t :=
  match run (λ d _, d) example_script world_init with
  | Some w => default Space.new (spaces w !! 0%nat)
  | None => Space.new
  end.

(** A space with a sum whose second argument is a name that no
    script has declared and [S.vars] inherits, and two comparisons
    before it, not yet propagated. *)
Definition inherited_script : list action :=
  let A := NStr "A" EmptyString in
  let B := NStr "B" EmptyString in
  let C := NStr "C" EmptyString in
  [new_space;
   call_on 0 (call_decl (many [one A; one B; one C]) (Some [(0, 9)]));
   call_on 0 (call_lt B C);
   call_on 0 (call_lt A B);
   call_on 0 (call_plus A (NStr "c" "onstructor") (Some B))].

Definition inherited_space : Space.t :=
  match run (λ d _, d) inherited_script world_init with
  | Some w => default Space.new (spaces w !! 0%nat)
  | None => Space.new
  end.

(** What [domain_intersection] keeps of the interval [d] of its first
    argument when the second argument is [[mn, mx]]. *)
Definition clip (mn mx : Z) (d : interval) : domain :=
  if (d.1 <=? mx) && (d.2 >=? mn)
  then [(if mn >? d.1 then mn else d.1, if mx <? d.2 then mx else d.2)]
  else [].

(** The variable [x] after
    [x.set_dom(domain_non_empty(domain_intersection(x.dom, [i])))],
    which a turn of [lt] runs when [c] holds. *)
Definition narrowed (x : FDVar.t) (c : bool) (i : interval) : FDVar.t :=
  if c then FDVar.set_dom x (domain_intersection (FDVar.dom x) [i] None) else x.

(** ** The rule of [lt], as the specification words it

    The definitions [spec_...] are not taken from the code: they follow
    the sentence of the specification on what a step of [lt(x, y)] does
    with the two variables, and are compared with [lt_step], which is
    the code. *)

(** Constrain the variable under [k] to the interval [i]; it fails
    when the intersection is empty. *)
Definition spec_constrain (k : string) (i : interval) (V : vars_t) : outcome vars_t :=
  match V !! k with
  | None => Throw TypeError
  | Some v =>
      match domain_intersection (FDVar.dom v) [i] None with
      | [] => Throw Fail
      | d => Ret (<[k := FDVar.set_dom v d]> V)
      end
  end.

(** The bounds of the variable under [k]. *)
Definition spec_bounds (k : string) (V : vars_t) : outcome interval :=
  match V !! k with
  | None => Throw TypeError
  | Some v => domain_bounds (FDVar.dom v)
  end.

(** One application of the rule: with the bounds [(x_lo, x_hi)] and
    [(y_lo, y_hi)], constrain [x] to [[x_lo, y_hi - 1]] when
    [y_hi - 1 < x_hi], and [y] to [[x_lo + 1, y_hi]] when
    [x_lo + 1 > y_lo]. *)
Definition spec_lt_rule (x y : string) (V : vars_t) : outcome vars_t :=
  match spec_bounds x V with
  | Throw e => Throw e
  | Ret b1 =>
      match spec_bounds y V with
      | Throw e => Throw e
      | Ret b2 =>
          match (if b2.2 - 1 <? b1.2 then spec_constrain x (b1.1, b2.2 - 1) V else Ret V) with
          | Throw e => Throw e
          | Ret V1 =>
              if b1.1 + 1 >? b2.1 then spec_constrain y (b1.1 + 1, b2.2) V1 else Ret V1
          end
      end
  end.

(** The revisions of [x] and [y], added up. *)
Definition revisions (x y : string) (V : vars_t) : Z :=
  default 0 (sum_steps V [x; y]).

(** The rule, repeated until the revisions of [x] and [y] quiesce;
    [n] bounds the number of applications. *)
Fixpoint spec_lt_rules (n : nat) (x y : string) (V : vars_t) : option (outcome vars_t) :=
  match n with
  | O => None
  | S n' =>
      match spec_lt_rule x y V with
      | Throw e => Some (Throw e)
      | Ret V' =>
          if revisions x y V' =? revisions x y V then Some (Ret V')
          else spec_lt_rules n' x y V'
      end
  end.

(** What bounds the number of applications of the rule: every
    interval of a domain counts for its width and one more, and for one
    only when it is empty. *)
Definition interval_weight (i : interval) : Z :=
  if i.1 <=? i.2 then i.2 - i.1 + 2 else 1.

Definition domain_weight (d : domain) : Z :=
  foldr (λ i s, interval_weight i + s) 0 d.

Definition weight (x y : string) (V : vars_t) : Z :=
  default 0 (domain_weight ∘ FDVar.dom <$> V !! x)
  + default 0 (domain_weight ∘ FDVar.dom <$> V !! y).

(** [x] and [y] are variables of [V], and their domains are not
    empty. *)
Definition live (x y : string) (V : vars_t) : Prop :=
  ∃ vx vy, V !! x = Some vx ∧ V !! y = Some vy
           ∧ FDVar.dom vx ≠ [] ∧ FDVar.dom vy ≠ [].

(** [V'] is [V] after some narrowing of the variables under [x] and
    [y]: the revisions have not gone down nor the weight up, and the
    weight has gone down if a revision has gone up. *)
Definition lighter (x y : string) (V V' : vars_t) : Prop :=
  live x y V'
  ∧ revisions x y V ≤ revisions x y V'
  ∧ weight x y V' ≤ weight x y V
  ∧ (revisions x y V < revisions x y V' → weight x y V' < weight x y V).

(** An [lt] propagator on [X] and [Y] that has not run yet, and two
    variables for it. *)
Definition lt_instance : instance :=
  {| last_step := -1; space := [Some "X"; Some "Y"]; solved := false |}.

Definition lt_vars (x y : domain) : vars_t :=
  <["Y" := FDVar.new (Some y) None]> (<["X" := FDVar.new (Some x) None]> ∅).

(** The propagator of [lt(X, X)], which has not run yet, and its
    variable. *)
Definition lt_same_instance : instance :=
  {| last_step := -1; space := [Some "X"; Some "X"]; solved := false |}.

Definition lt_same_vars (x : domain) : vars_t :=
  <["X" := FDVar.new (Some x) None]> ∅.

(** [m] leaves the propagators of the space as the methods make
    them, however it ends. *)
Definition method_wf {A} (m : method A) : Prop :=
  keeps (λ σ : global * Space.t, wf_space σ.2) m.

(** * Solved spaces, clones, distribution *)

(** A value that may be an exception, then a function of it. *)
Definition and_then {A B} (o : outcome A) (f : A → outcome B) : outcome B :=
  match o with
  | Ret a => f a
  | Throw e => Throw e
  end.

(** ** [is_solved] and [solution] *)

(** [v.dom.length === 1] and [v.dom[0][0] === v.dom[0][1]] *)
Definition determined (v : FDVar.t) : bool :=
  match FDVar.dom v with
  | [d0] => d0.1 =? d0.2
  | _ => false
  end.

(** [for (i in this.vars)]: the loop has no effect, and what it
    returns does not depend on the order of the keys. *)
Definition is_solved (S : Space.t) : bool :=
  forallb (λ kv : string * FDVar.t, determined kv.2) (map_to_list (Space.vars S)).

(** A value of the object that [solution] returns: [false], the
    domain, or the number. *)
Inductive solved_value :=
| SFalse
| SDom (d : domain)
| SNum (n : Z).

Definition is_digit (c : ascii) : bool :=
  (48 <=? nat_of_ascii c)%nat && (nat_of_ascii c <=? 57)%nat.

(** [/^[0-9]+$/.test(i)] *)
Definition numeric_key (i : string) : bool :=
  match i with
  | EmptyString => false
  | _ => forallb is_digit (list_ascii_of_string i)
  end.

Definition solved_value_of (v : FDVar.t) : solved_value :=
  match FDVar.dom v with
  | [] => SFalse
  | [d0] => if d0.2 >? d0.1 then SDom [d0] else SNum d0.1
  | d => SDom d
  end.

Definition solution (S : Space.t) : gmap string solved_value :=
  solved_value_of <$> filter (λ kv : string * FDVar.t, numeric_key kv.1 = false) (Space.vars S).

(** ** [propagator_is_solved], as a value

    [propagator_is_solved(S, p)] changes nothing; here it is on the
    variables [V] of [S], for the constructor of a clone and for
    [solve_for_propagators]. *)
Fixpoint all_determined_in (V : vars_t) (allvars : list name) : outcome bool :=
  match allvars with
  | [] => Ret true
  | n :: allvars' =>
      match V !! key n with
      | None => Throw TypeError
      | Some v =>
          and_then (FDVar.is_undetermined v)
            (λ u, if u then Ret false else all_determined_in V allvars')
      end
  end.

Definition propagator_solved (V : vars_t) (p : Propagator.t) : outcome bool :=
  if solved (Propagator.self p) then Ret true
  else all_determined_in V (Propagator.allvars p).

(** ** [new Space(S)], [clone] *)

(** The loop over [S._propagators]: [newprop] for those that are not
    solved. *)
Fixpoint clone_propagators (V : vars_t) (ps : list Propagator.t)
    : outcome (list Propagator.t) :=
  match ps with
  | [] => Ret []
  | p :: ps' =>
      and_then (propagator_solved V p) (λ s,
        and_then (clone_propagators V ps') (λ l,
          Ret (if s then l
               else new_propagator V (Propagator.allvars p) (Propagator.depvars p)
                                   (Propagator.step p) :: l)))
  end.

(** The variables are copied with their domains and steps. *)
Definition clone (S : Space.t) : outcome Space.t :=
  and_then (clone_propagators (Space.vars S) (Space._propagators S)) (λ l,
    Ret {| Space.vars := Space.vars S; Space._propagators := l |}).

(** ** [Search.solve_for_variables], [Search.solve_for_propagators] *)

Fixpoint variables_solved (V : vars_t) (varnames : list name) : outcome bool :=
  match varnames with
  | [] => Ret true
  | n :: varnames' =>
      match V !! key n with
      | None => Throw TypeError
      | Some v => if determined v then variables_solved V varnames' else Ret false
      end
  end.

Definition solve_for_variables (varnames : option (list name)) (S : Space.t)
    : outcome bool :=
  match varnames with
  | Some varnames => variables_solved (Space.vars S) varnames
  | None => Ret (is_solved S)
  end.

Fixpoint propagators_solved (V : vars_t) (ps : list Propagator.t) : outcome bool :=
  match ps with
  | [] => Ret true
  | p :: ps' =>
      and_then (propagator_solved V p)
        (λ s, if s then propagators_solved V ps' else Ret false)
  end.

Definition solve_for_propagators (S : Space.t) : outcome bool :=
  propagators_solved (Space.vars S) (Space._propagators S).

(** ** [Distribute.generic]: filters and orderings *)

(** [Distribute.generic.filters.undet] *)
Fixpoint filters_undet (V : vars_t) (varnames : list name) : outcome (list name) :=
  match varnames with
  | [] => Ret []
  | n :: varnames' =>
      match V !! key n with
      | None => Throw TypeError
      | Some v =>
          and_then (FDVar.is_undetermined v) (λ u,
            and_then (filters_undet V varnames') (λ vs,
              Ret (if u then n :: vs else vs)))
      end
  end.

(** The names of [Distribute.generic.orderings]. *)
Inductive ordering := naive | by_size | by_min | by_max.

Definition with_two {A} (V : vars_t) (v1 v2 : name)
    (f : FDVar.t → outcome A) (g : A → A → bool) : outcome bool :=
  match V !! key v1 with
  | None => Throw TypeError
  | Some x1 =>
      and_then (f x1) (λ a1,
        match V !! key v2 with
        | None => Throw TypeError
        | Some x2 => and_then (f x2) (λ a2, Ret (g a1 a2))
        end)
  end.

Definition orderingfn (o : ordering) (V : vars_t) (v1 v2 : name) : outcome bool :=
  match o with
  | naive => Ret true
  | by_size => with_two V v1 v2 (λ x, Ret (FDVar.size x)) Z.ltb
  | by_min => with_two V v1 v2 FDVar.min Z.ltb
  | by_max => with_two V v1 v2 FDVar.max Z.gtb
  end.

(** The loop of [select_by_order]: [first] is [vars[first]]. *)
Fixpoint select_loop (o : ordering) (V : vars_t) (first : name) (vars : list name)
    : outcome name :=
  match vars with
  | [] => Ret first
  | vi :: vars' =>
      and_then (orderingfn o V first vi)
        (λ b, select_loop o V (if b then first else vi) vars')
  end.

Definition select_by_order (o : ordering) (V : vars_t) (vars : list name)
    : outcome (option name) :=
  match vars with
  | [] => Ret None
  | [v] => Ret (Some v)
  | v0 :: vars' => and_then (select_loop o V v0 vars') (λ v, Ret (Some v))
  end.

(** [branch_sequence.branch(S)] for the filter [undet]: the variable
    that the value function is made for, or [null]. *)
Definition branch (o : ordering) (varnames : list name) (S : Space.t)
    : outcome (option name) :=
  and_then (filters_undet (Space.vars S) varnames) (λ vars,
    match vars with
    | [] => Ret None
    | _ => select_by_order o (Space.vars S) vars
    end).

(** ** [Distribute.generic.values] *)

(** What a choice function [options(S, n)] does: it commits [S] to the
    choice and returns it; or a method that it calls throws; or it
    throws [new Error("Invalid choice")].  In the last two cases [S]
    is as it was: [constrain] throws before it sets a domain. *)
Inductive commit :=
| Committed (S : Space.t)
| Raised (e : exn)
| Invalid_choice.

(** [vS.constrain(d); return S] *)
Definition commit_constrain (S : Space.t) (v : name) (vS : FDVar.t) (d : domain)
    : commit :=
  match FDVar.constrain vS d with
  | Ret vS' => Committed (Space.set_vars (<[key v := vS']> (Space.vars S)) S)
  | Throw e => Raised e
  end.

(** [S.vars[v]], then a value read off it, then the choice. *)
Definition choose {A} (S : Space.t) (v : name) (f : FDVar.t → outcome A)
    (k : FDVar.t → A → commit) : commit :=
  match Space.vars S !! key v with
  | None => Raised TypeError
  | Some vS =>
      match f vS with
      | Throw e => Raised e
      | Ret a => k vS a
      end
  end.

Definition values_min (v : name) (S : Space.t) (n : Z) : commit :=
  choose S v FDVar.min (λ vS d,
    if n =? 0 then commit_constrain S v vS [(d, d)]
    else if n =? 1 then
      match FDVar.max vS with
      | Throw e => Raised e
      | Ret mx => commit_constrain S v vS [(d + 1, mx)]
      end
    else Invalid_choice).

Definition values_max (v : name) (S : Space.t) (n : Z) : commit :=
  choose S v FDVar.max (λ vS d,
    if n =? 0 then commit_constrain S v vS [(d, d)]
    else if n =? 1 then
      match FDVar.min vS with
      | Throw e => Raised e
      | Ret mn => commit_constrain S v vS [(mn, d - 1)]
      end
    else Invalid_choice).

Definition values_mid (v : name) (S : Space.t) (n : Z) : commit :=
  choose S v FDVar.mid (λ fv d,
    if n =? 0 then commit_constrain S v fv [(d, d)]
    else if n =? 1 then
      match FDVar.min fv, FDVar.max fv with
      | Ret mn, Ret mx =>
          if d >? mn then commit_constrain S v fv [(mn, d - 1); (d + 1, mx)]
          else commit_constrain S v fv [(d + 1, mx)]
      | Throw e, _ | _, Throw e => Raised e
      end
    else Invalid_choice).

(** [x >> 1]: [x] as a 32-bit integer, halved towards minus
    infinity. *)
Definition int32 (x : Z) : Z := (x + 2 ^ 31) mod 2 ^ 32 - 2 ^ 31.

Definition half (x : Z) : Z := Z.shiftr (int32 x) 1.

(** [d[0][0]] and [d[d.length - 1][1]] *)
Definition ends (vS : FDVar.t) : outcome (Z * Z) :=
  and_then (FDVar.min vS) (λ lo, and_then (FDVar.max vS) (λ hi, Ret (lo, hi))).

Definition values_splitMin (v : name) (S : Space.t) (n : Z) : commit :=
  choose S v ends (λ vS d,
    let m := half (d.1 + d.2) in
    if n =? 0 then commit_constrain S v vS [(d.1, m)]
    else if n =? 1 then commit_constrain S v vS [(m + 1, d.2)]
    else Invalid_choice).

Definition values_splitMax (v : name) (S : Space.t) (n : Z) : commit :=
  choose S v ends (λ vS d,
    let m := half (d.1 + d.2) in
    if n =? 0 then commit_constrain S v vS [(m + 1, d.2)]
    else if n =? 1 then commit_constrain S v vS [(d.1, m)]
    else Invalid_choice).

(** * Auxiliary definitions for the statements *)

(** The integers of a domain, interval by interval. *)
Definition elements (d : domain) : list Z :=
  flat_map (λ i : interval, seqZ i.1 (i.2 - i.1 + 1)) d.

(** The integers of [d] are those of [d0] and of [d1], and these two
    have none in common. *)
Definition partitions (d d0 d1 : domain) : Prop :=
  ∀ z, (contains d z ↔ contains d0 z ∨ contains d1 z)
       ∧ ¬ (contains d0 z ∧ contains d1 z).

(** The domain of [v] in [S]. *)
Definition dom_of (S : Space.t) (v : name) : option domain :=
  FDVar.dom <$> Space.vars S !! key v.

(** The differences of an integer of [d1] and one of [d2]. *)
Definition diff_of (d1 d2 : domain) (z : Z) : Prop :=
  ∃ x y, contains d1 x ∧ contains d2 y ∧ z = x - y.

(** Every interval of [d] lies in [[0, SUP]]. *)
Definition within_sup (d : domain) : Prop :=
  Forall (λ i : interval, 0 ≤ i.1 ∧ i.2 ≤ FD_SUP) d.

(** The propagators that [distinct(vars)] adds to the variables [V]:
    for each position, one with each position before it. *)
Definition distinct_propagators (V : vars_t) (vars : list name) : list Propagator.t :=
  flat_map (λ vi : name * list name,
              (λ vj, new_propagator V [vi.1; vj] [vi.1; vj] (step_cmp step_neq)) <$> vi.2)
           (imap (λ i v, (v, take i vars)) vars).

(** The names that [N] calls of [temp] return when the counter is at
    [c]. *)
Definition next_temps (c : positive) (N : nat) : list name :=
  (λ k, NNum (Pos.of_nat k)) <$> seq (S (Pos.to_nat c)) N.

(** [m] returns, whatever the state: it throws nothing and does not
    run out of fuel. *)
Definition returns {A} (m : method A) : Prop :=
  ∀ σ, ∃ a σ', m σ = Some (Ret a, σ').

(** What a constructor called with the result name [resultName]
    returns in the state [σ]: the space, or the temporary that it
    makes for the result. *)
Definition result_of (resultName : option name) (σ : global * Space.t) : retval :=
  match resultName with
  | Some _ => RSpace
  | None => RName (NNum (Pos.succ (_temp_count σ.1)))
  end.

(** [S'] is [S] with more propagators after those of [S], and with
    the variables of [S] still declared. *)
Definition extends (S S' : Space.t) : Prop :=
  Space._propagators S `prefix_of` Space._propagators S'
  ∧ ∀ k, is_Some (Space.vars S !! k) → is_Some (Space.vars S' !! k).

Definition method_extends {A} (m : method A) : Prop :=
  ∀ σ o σ', m σ = Some (o, σ') → extends σ.2 σ'.2.

(** A call of a constructor of variables or propagators; for
    [reified], of one of the six operators. *)
Definition constructs (c : call) : Prop :=
  match c with
  | call_propagate _ => False
  | call_reified opname _ _ => is_Some (operator_of opname)
  | _ => True
  end.

(** What a propagator may do to a variable: leave it as it is, or
    take integers out of its domain and raise its step. *)
Definition pruned (v v' : FDVar.t) : Prop :=
  v' = v
  ∨ (FDVar.step v < FDVar.step v'
     ∧ ∀ z, contains (FDVar.dom v') z → contains (FDVar.dom v) z).

(** The variables [V'] are those of [V], pruned. *)
Definition narrows (V V' : vars_t) : Prop :=
  ∀ k, option_Forall2 pruned (V !! k) (V' !! k).

(** [m], started on variables of [P], prunes them, however it ends. *)
Definition narrowing_if {T A} (P : vars_t → Prop) (m : M (T * vars_t) A) : Prop :=
  ∀ σ o σ', P σ.2 → m σ = Some (o, σ') → narrows σ.2 σ'.2.

Definition narrowing {T A} (m : M (T * vars_t) A) : Prop :=
  narrowing_if (λ _, True) m.

(** The variables hold what [save_vars] has saved. *)
Definition saved (vs : list (string * FDVar.t)) (V : vars_t) : Prop :=
  ∀ k v, (k, v) ∈ vs → V !! k = Some v.

(** The variable under [k] has a domain in the form the code keeps,
    with [z] in it. *)
Definition holds (k : string) (z : Z) (V : vars_t) : Prop :=
  ∃ x, V !! k = Some x ∧ csis (FDVar.dom x) ∧ contains (FDVar.dom x) z.

(** [m], started on a propagator bound to [sp] and on variables of
    [P], does not throw, and returns [a] on variables of [Q a]. *)
Definition total_if {A} (sp : list (option string)) (P : vars_t → Prop)
    (m : M (instance * vars_t) A) (Q : A → vars_t → Prop) : Prop :=
  hoare (λ σ, space σ.1 = sp ∧ P σ.2) m (λ a σ, space σ.1 = sp ∧ Q a σ.2) (λ _, False).

(** What a comparison asks of the values of its two variables. *)
Definition satisfies (c : cmp_step) (x y : Z) : Prop :=
  match c with
  | step_eq => x = y
  | step_lt => x < y
  | step_lte => x ≤ y
  | step_neq => x ≠ y
  end.

(** The domain that a choice leaves to [v]; a choice that fails
    leaves nothing. *)
Definition choice_dom (c : commit) (v : name) : domain :=
  match c with
  | Committed S' => default [] (dom_of S' v)
  | _ => []
  end.

(** The variable [n] is declared in [V] with more than one integer in
    its domain, as [is_undetermined] tells. *)
Definition undetermined_in (V : vars_t) (n : name) : bool :=
  match V !! key n with
  | Some x =>
      match FDVar.is_undetermined x with
      | Ret b => b
      | Throw _ => false
      end
  | None => false
  end.

(** [size()] of the variable [n] of [V]. *)
Definition size_in (V : vars_t) (n : name) : Z :=
  from_option FDVar.size 0 (V !! key n).

(** ** Auxiliary definitions for [reified] and [clone] *)

(** What an operator asks of the values of [argv[0]] and [argv[1]]. *)
Definition meaning (op : operator) (x y : Z) : Prop :=
  match op with
  | op_eq => x = y
  | op_neq => x ≠ y
  | op_lt => x < y
  | op_gt => y < x
  | op_lte => x ≤ y
  | op_gte => y ≤ x
  end.

(** The comparison of [t], on its two variables in their order, asks
    [R] of the values of [argv[0]] and [argv[1]], whatever values [val]
    gives to the names. *)
Definition enforces (t : template) (argv : name * name) (R : Z → Z → Prop) : Prop :=
  ∃ n1 n2, t_allvars t = [n1; n2] ∧ t_depvars t = [n1; n2]
           ∧ ∀ val : name → Z,
               satisfies (t_step t) (val n1) (val n2) ↔ R (val argv.1) (val argv.2).

(** [p] is not solved, as [propagator_is_solved] tells. *)
Definition is_unsolved (V : vars_t) (p : Propagator.t) : bool :=
  match propagator_solved V p with
  | Ret false => true
  | _ => false
  end.

(** The propagator that [newprop] makes of [p.allvars], [p.depvars]
    and [p.step]. *)
Definition renewed (V : vars_t) (p : Propagator.t) : Propagator.t :=
  new_propagator V (Propagator.allvars p) (Propagator.depvars p) (Propagator.step p).

(** The propagator that [reified] pops after it has called the
    method of [op] on [argv]: [gt] and [gte] are [lt] and [lte] on the
    arguments the other way round. *)
Definition template_of (op : operator) (argv : name * name) : template :=
  let on (a b : name) (c : cmp_step) :=
    {| t_allvars := [a; b]; t_depvars := [a; b]; t_step := c |} in
  match op with
  | op_eq => on argv.1 argv.2 step_eq
  | op_neq => on argv.1 argv.2 step_neq
  | op_lt => on argv.1 argv.2 step_lt
  | op_gt => on argv.2 argv.1 step_lt
  | op_lte => on argv.1 argv.2 step_lte
  | op_gte => on argv.2 argv.1 step_lte
  end.

(** * Properties *)

(** * Domains: membership *)

Lemma contains_nil z : ¬ contains [] z.
Proof. intros (i & Hi & _). by apply elem_of_nil in Hi. Qed.

Lemma contains_cons i d z :
  contains (i :: d) z ↔ i.1 ≤ z ≤ i.2 ∨ contains d z.
Proof.
  unfold contains. split.
  - intros (j & Hj & Hz). apply elem_of_cons in Hj as [-> | Hj]; eauto.
  - intros [Hz | (j & Hj & Hz)].
    + exists i. split; [apply elem_of_cons; by left | done].
    + exists j. split; [apply elem_of_cons; by right | done].
Qed.

Lemma contains_app d1 d2 z :
  contains (d1 ++ d2) z ↔ contains d1 z ∨ contains d2 z.
Proof.
  unfold contains. split.
  - intros (j & Hj & Hz). apply elem_of_app in Hj as [Hj | Hj]; eauto.
  - intros [(j & Hj & Hz) | (j & Hj & Hz)]; exists j;
      (split; [apply elem_of_app; eauto | done]).
Qed.

Lemma contains_perm d1 d2 z : d1 ≡ₚ d2 → contains d1 z → contains d2 z.
Proof.
  intros Hp (j & Hj & Hz). exists j. split; [by rewrite <- Hp | done].
Qed.

(** * [simplify_domain] *)

Lemma sort_insert_perm x d : sort_insert x d ≡ₚ x :: d.
Proof.
  induction d as [|y d IH]; simpl; [done|].
  destruct (x.1 <=? y.1); [done|].
  rewrite IH. apply Permutation_swap.
Qed.

Lemma sort_by_lo_perm d : sort_by_lo d ≡ₚ d.
Proof.
  induction d as [|x d IH]; simpl; [done|].
  by rewrite sort_insert_perm, IH.
Qed.

Lemma lo_sorted_cons i d :
  lo_sorted (i :: d) ↔ (∀ j, head d = Some j → i.1 ≤ j.1) ∧ lo_sorted d.
Proof.
  destruct d as [|j d]; simpl.
  - split; [intros _; split; [intros ? [=]|done] | done].
  - split.
    + intros [H1 H2]. split; [by intros ? [= <-] | done].
    + intros [H1 H2]. split; [by apply H1 | done].
Qed.

Lemma sort_insert_head x d j :
  head (sort_insert x d) = Some j → j = x ∨ head d = Some j.
Proof.
  destruct d as [|y d]; simpl; [intros [= <-]; by left|].
  destruct (x.1 <=? y.1); simpl; intros [= <-]; eauto.
Qed.

Lemma sort_insert_sorted x d : lo_sorted d → lo_sorted (sort_insert x d).
Proof.
  induction d as [|y d IH]; [done|].
  intros Hs. simpl sort_insert. destruct (x.1 <=? y.1) eqn:Hxy.
  - apply lo_sorted_cons. split; [|done].
    intros j [= <-]. lia.
  - apply lo_sorted_cons in Hs as [Hy Hs]. apply lo_sorted_cons. split; [|by apply IH].
    intros j Hj. apply sort_insert_head in Hj as [-> | Hj]; [lia | by apply Hy].
Qed.

Lemma sort_by_lo_sorted d : lo_sorted (sort_by_lo d).
Proof. induction d; simpl; [done | by apply sort_insert_sorted]. Qed.

Lemma merge_loop_head prev d :
  ∃ hi rest, merge_loop prev d = (prev.1, hi) :: rest.
Proof.
  revert prev. induction d as [|next d IH]; intros prev; simpl.
  - exists prev.2, []. by destruct prev.
  - destruct (prev.2 >=? next.1).
    + destruct (IH (prev.1, Z.max prev.2 next.2)) as (hi & rest & ->). eauto.
    + exists prev.2, (merge_loop next d). by destruct prev.
Qed.

Lemma disjoint_sorted_cons i d :
  disjoint_sorted (i :: d) ↔ (∀ j, head d = Some j → i.2 < j.1) ∧ disjoint_sorted d.
Proof.
  destruct d as [|j d]; simpl.
  - split; [intros _; split; [intros ? [=]|done] | done].
  - split.
    + intros [H1 H2]. split; [by intros ? [= <-] | done].
    + intros [H1 H2]. split; [by apply H1 | done].
Qed.

Lemma merge_loop_disjoint prev d : disjoint_sorted (merge_loop prev d).
Proof.
  revert prev. induction d as [|next d IH]; intros prev; simpl; [done|].
  destruct (prev.2 >=? next.1) eqn:Hc; [apply IH|].
  apply disjoint_sorted_cons. split; [|apply IH].
  destruct (merge_loop_head next d) as (hi & rest & ->). intros j [= <-]. simpl. lia.
Qed.

Lemma merge_loop_lo_sorted prev d :
  lo_sorted (prev :: d) → lo_sorted (merge_loop prev d).
Proof.
  revert prev. induction d as [|next d IH]; intros prev Hs; simpl; [done|].
  apply lo_sorted_cons in Hs as [Hh Hs]. specialize (Hh next eq_refl).
  destruct (prev.2 >=? next.1) eqn:Hc.
  - apply IH. apply lo_sorted_cons in Hs as [Hn Hs]. apply lo_sorted_cons. split; [|done].
    intros j Hj. specialize (Hn j Hj). simpl. lia.
  - apply lo_sorted_cons. split; [|by apply IH].
    destruct (merge_loop_head next d) as (hi & rest & ->). intros j [= <-]. simpl. lia.
Qed.

Lemma merge_loop_nonempty prev d :
  nonempty_intervals (prev :: d) → nonempty_intervals (merge_loop prev d).
Proof.
  unfold nonempty_intervals.
  revert prev. induction d as [|next d IH]; intros prev Hs; simpl; [done|].
  apply Forall_cons in Hs as [Hp Hs]. pose proof Hs as Hs'. apply Forall_cons in Hs' as [Hn Hd].
  destruct (prev.2 >=? next.1) eqn:Hc.
  - apply IH. apply Forall_cons. split; [simpl; lia | done].
  - apply Forall_cons. split; [done | by apply IH].
Qed.

Lemma merge_loop_contains prev d z :
  lo_sorted (prev :: d) →
  contains (merge_loop prev d) z ↔ contains (prev :: d) z.
Proof.
  revert prev. induction d as [|next d IH]; intros prev Hs; simpl; [done|].
  apply lo_sorted_cons in Hs as [Hh Hs]. specialize (Hh next eq_refl).
  destruct (prev.2 >=? next.1) eqn:Hc.
  - rewrite IH.
    + rewrite !contains_cons. simpl.
      assert (prev.1 ≤ z ≤ Z.max prev.2 next.2
              ↔ prev.1 ≤ z ≤ prev.2 ∨ next.1 ≤ z ≤ next.2) as -> by lia.
      tauto.
    + apply lo_sorted_cons in Hs as [Hn Hs]. apply lo_sorted_cons. split; [|done].
      intros j Hj. specialize (Hn j Hj). simpl. lia.
  - rewrite contains_cons, IH by done. by rewrite <- contains_cons.
Qed.

Lemma scan_breaks_false prevL prevR d :
  scan_breaks prevR d = false →
  disjoint_sorted ((prevL, prevR) :: d) ∧ nonempty_intervals d.
Proof.
  revert prevL prevR. induction d as [|next d IH]; intros prevL prevR; simpl.
  - intros _. split; [done | constructor].
  - destruct (_ || _) eqn:Hc; [done|]. intros Hs.
    apply orb_false_iff in Hc as [Hc H3]. apply orb_false_iff in Hc as [H1 H2].
    destruct next as [nl nr]. simpl in *.
    destruct (IH nl nr Hs) as [Hd Hn]. split.
    + split; [lia | done].
    + constructor; [simpl; lia | done].
Qed.

Lemma disjoint_nonempty_lo_sorted d :
  nonempty_intervals d → disjoint_sorted d → lo_sorted d.
Proof.
  induction d as [|i [|j d] IH]; [done..|].
  intros Hn [Hij Hd]. apply Forall_cons in Hn as [Hi Hn].
  split; [lia | by apply IH].
Qed.

(** What [simplify_domain] returns stands for the integers of its
    argument, whatever the argument. *)
Lemma simplify_domain_contains d z :
  contains (simplify_domain d) z ↔ contains d z.
Proof.
  destruct d as [|[l r] [|j d]]; [done| |].
  - simpl. destruct (r <? l) eqn:Hc; [|done].
    split; [intros H; by apply contains_nil in H|].
    rewrite contains_cons. simpl. intros [? | H]; [lia | by apply contains_nil in H].
  - unfold simplify_domain. destruct (_ && _); [done|].
    pose proof (sort_by_lo_perm ((l, r) :: j :: d)) as Hp.
    pose proof (sort_by_lo_sorted ((l, r) :: j :: d)) as Hs.
    destruct (sort_by_lo ((l, r) :: j :: d)) as [|prev d'].
    + by apply Permutation_nil_cons in Hp.
    + rewrite merge_loop_contains by done.
      split; apply contains_perm; [done | by symmetry].
Qed.

Lemma simplify_domain_disjoint d : disjoint_sorted (simplify_domain d).
Proof.
  destruct d as [|[l r] [|j d]]; [done| |].
  - simpl. by destruct (r <? l).
  - unfold simplify_domain. destruct (_ && _) eqn:Hc.
    + apply andb_true_iff in Hc as [_ Hc]. apply negb_true_iff in Hc.
      by apply (scan_breaks_false l) in Hc as [? _].
    + destruct (sort_by_lo _); [done | apply merge_loop_disjoint].
Qed.

Lemma simplify_domain_lo_sorted d : lo_sorted (simplify_domain d).
Proof.
  destruct d as [|[l r] [|j d]]; [done| |].
  - simpl. by destruct (r <? l).
  - unfold simplify_domain. destruct (_ && _) eqn:Hc.
    + apply andb_true_iff in Hc as [Hlr Hc]. apply negb_true_iff in Hc.
      apply (scan_breaks_false l) in Hc as [Hd Hn].
      apply disjoint_nonempty_lo_sorted; [|done].
      constructor; [simpl; lia | done].
    + pose proof (sort_by_lo_sorted ((l, r) :: j :: d)) as Hs.
      destruct (sort_by_lo _); [done | by apply merge_loop_lo_sorted].
Qed.

Lemma simplify_domain_nonempty d :
  nonempty_intervals d → nonempty_intervals (simplify_domain d).
Proof.
  intros Hn. destruct d as [|[l r] [|j d]]; [done| |].
  - simpl. destruct (r <? l); [constructor | done].
  - unfold simplify_domain. destruct (_ && _); [done|].
    pose proof (sort_by_lo_perm ((l, r) :: j :: d)) as Hp.
    destruct (sort_by_lo _) as [|prev d']; [constructor|].
    apply merge_loop_nonempty. unfold nonempty_intervals. by rewrite Hp.
Qed.

(** ** C4 *)

(** C4, as stated, fails: [simplify_domain] keeps two intervals that
    touch ([hi + 1 = lo]) apart, so its output need not satisfy
    [intervals[i].hi + 1 < intervals[i+1].lo]; and on a list of two or
    more intervals it does not drop an empty one. *)
Lemma simplify_domain_not_canonical :
  simplify_domain [(0, 4); (5, 6)] = [(0, 4); (5, 6)]
  ∧ ¬ separated (simplify_domain [(0, 4); (5, 6)])
  ∧ simplify_domain [(5, 3); (0, 1)] = [(0, 1); (5, 3)]
  ∧ ¬ nonempty_intervals (simplify_domain [(5, 3); (0, 1)]).
Proof.
  split; [reflexivity|]. split; [simpl; lia|]. split; [reflexivity|].
  intros H. apply Forall_cons in H as [_ H]. apply Forall_cons in H as [H _].
  simpl in H. lia.
Qed.

(** C4, amended: for every input list of intervals, the output of
    [simplify_domain] is sorted by [lo] and each interval ends before
    the next begins ([intervals[i].hi < intervals[i+1].lo]: no overlap,
    touching allowed); when every input interval is non-empty, so is
    every output interval. *)
Theorem simplify_domain_csis (d : domain) :
  lo_sorted (simplify_domain d)
  ∧ disjoint_sorted (simplify_domain d)
  ∧ (nonempty_intervals d → nonempty_intervals (simplify_domain d)).
Proof.
  split; [apply simplify_domain_lo_sorted|].
  split; [apply simplify_domain_disjoint | apply simplify_domain_nonempty].
Qed.

Lemma simplify_domain_csis_witness :
  nonempty_intervals [(5, 9); (0, 4); (3, 6); (20, 20)]
  ∧ simplify_domain [(5, 9); (0, 4); (3, 6); (20, 20)] = [(0, 9); (20, 20)]
  ∧ nonempty_intervals (simplify_domain [(5, 9); (0, 4); (3, 6); (20, 20)]).
Proof.
  assert (Hn : nonempty_intervals [(5, 9); (0, 4); (3, 6); (20, 20)]).
  { repeat constructor; simpl; lia. }
  split; [exact Hn|]. split; [reflexivity|].
  exact (proj2 (proj2 (simplify_domain_csis _)) Hn).
Defined.

(** * [domain_intersection] *)

Lemma contains_flat_map (f : interval → domain) d z :
  contains (flat_map f d) z ↔ ∃ i, i ∈ d ∧ contains (f i) z.
Proof.
  induction d as [|i d IH]; simpl.
  - split; [intros H; by apply contains_nil in H|].
    intros (i & Hi & _). by apply elem_of_nil in Hi.
  - rewrite contains_app, IH. split.
    + intros [H | (j & Hj & H)]; [exists i | exists j];
        (split; [apply elem_of_cons; eauto | done]).
    + intros (j & Hj & H). apply elem_of_cons in Hj as [-> | Hj]; eauto.
Qed.

Lemma contains_singleton i z : contains [i] z ↔ i.1 ≤ z ≤ i.2.
Proof.
  rewrite contains_cons. split; [|eauto].
  intros [? | H]; [done | by apply contains_nil in H].
Qed.

(** Both arguments longer than one interval: the divide and conquer
    branch. *)
Lemma domain_intersection_rec_split n dom1 dom2 r :
  (2 ≤ length dom1)%nat → (2 ≤ length dom2)%nat →
  domain_intersection_rec (S n) dom1 dom2 r =
    let i := Nat.div2 (length dom1) in
    let j := Nat.div2 (length dom2) in
    let d1 := take i dom1 in
    let d2 := drop i dom1 in
    let d3 := take j dom2 in
    let d4 := drop j dom2 in
    let d := domain_intersection_rec n d1 d3 r in
    let d := domain_intersection_rec n d1 d4 (Some d) in
    let d := domain_intersection_rec n d2 d3 (Some d) in
    let d := domain_intersection_rec n d2 d4 (Some d) in
    match r with Some _ => d | None => simplify_domain d end.
Proof.
  destruct dom1 as [|a [|a' dom1]]; simpl; [lia..|].
  destruct dom2 as [|b [|b' dom2]]; simpl; [lia..|]. done.
Qed.

Lemma div2_bounds (n : nat) :
  (2 ≤ n)%nat → (1 ≤ Nat.div2 n ∧ Nat.div2 n < n)%nat.
Proof.
  intros H. split; [|apply Nat.lt_div2; lia].
  destruct n as [|[|n]]; [lia..|].
  change (Nat.div2 (S (S n))) with (S (Nat.div2 n)). apply le_n_S, Nat.le_0_l.
Qed.

Lemma domain_intersection_rec_contains n : ∀ dom1 dom2 r z,
  (intersection_depth dom1 dom2 ≤ n)%nat →
  contains (domain_intersection_rec n dom1 dom2 r) z
  ↔ contains (or_empty r) z ∨ (contains dom1 z ∧ contains dom2 z).
Proof.
  induction n as [|n IH]; intros dom1 dom2 r z Hn.
  { unfold intersection_depth in Hn. lia. }
  destruct (decide (2 ≤ length dom1)%nat) as [H1|H1];
    [destruct (decide (2 ≤ length dom2)%nat) as [H2|H2]|].
  - (* divide and conquer *)
    rewrite domain_intersection_rec_split by done. cbv zeta.
    pose proof (div2_bounds _ H1) as [Hi1 Hi2].
    pose proof (div2_bounds _ H2) as [Hj1 Hj2].
    set (i := Nat.div2 (length dom1)) in *. set (j := Nat.div2 (length dom2)) in *.
    assert (Hlen : ∀ a b, a ∈ [take i dom1; drop i dom1] → b ∈ [take j dom2; drop j dom2] →
                          (intersection_depth a b ≤ n)%nat).
    { intros a b Ha Hb. unfold intersection_depth in *.
      assert (1 ≤ length a < length dom1)%nat.
      { apply elem_of_cons in Ha as [-> | Ha];
          [|apply list_elem_of_singleton in Ha as ->];
          rewrite ?length_take, ?length_drop; lia. }
      assert (1 ≤ length b < length dom2)%nat.
      { apply elem_of_cons in Hb as [-> | Hb];
          [|apply list_elem_of_singleton in Hb as ->];
          rewrite ?length_take, ?length_drop; lia. }
      repeat case_decide; lia. }
    assert (Hc : contains (domain_intersection_rec n (drop i dom1) (drop j dom2)
                  (Some (domain_intersection_rec n (drop i dom1) (take j dom2)
                  (Some (domain_intersection_rec n (take i dom1) (drop j dom2)
                  (Some (domain_intersection_rec n (take i dom1) (take j dom2) r))))))) z
             ↔ contains (or_empty r) z ∨ (contains dom1 z ∧ contains dom2 z)).
    { assert (E1 : contains dom1 z ↔ contains (take i dom1) z ∨ contains (drop i dom1) z).
      { by rewrite <- contains_app, take_drop. }
      assert (E2 : contains dom2 z ↔ contains (take j dom2) z ∨ contains (drop j dom2) z).
      { by rewrite <- contains_app, take_drop. }
      do 3 (rewrite IH by (apply Hlen; rewrite !elem_of_cons; auto);
            change (or_empty (Some ?x)) with x).
      rewrite IH by (apply Hlen; rewrite !elem_of_cons; auto). tauto. }
    destruct r; [done | by rewrite simplify_domain_contains].
  - (* the second argument is a single interval, or empty *)
    destruct dom1 as [|a [|a' dom1]]; simpl in H1; [lia..|].
    destruct dom2 as [|b [|b' dom2]]; simpl in H2; [|clear H2|lia].
    + simpl. split; [eauto|]. intros [? | [_ H]]; [done | by apply contains_nil in H].
    + cbn [domain_intersection_rec]. rewrite contains_app, contains_flat_map.
      rewrite (contains_singleton b). split.
      * intros [? | (d & Hd & H)]; [by left | right].
        destruct (_ && _) eqn:Hc; [|by apply contains_nil in H].
        apply contains_singleton in H. simpl in H.
        split; [exists d; split; [done|] |];
          destruct (b.1 >? d.1) eqn:?, (b.2 <? d.2) eqn:?; lia.
      * intros [? | [(d & Hd & H) Hb]]; [by left | right].
        exists d. split; [done|].
        destruct (_ && _) eqn:Hc; [|lia].
        apply contains_singleton. simpl.
        destruct (b.1 >? d.1) eqn:?, (b.2 <? d.2) eqn:?; lia.
  - (* the first argument is a single interval, or empty *)
    destruct dom1 as [|a [|a' dom1]]; simpl in H1; [clear H1|clear H1|lia].
    + simpl. split; [eauto|]. intros [? | [H _]]; [done | by apply contains_nil in H].
    + destruct dom2 as [|b [|b' dom2]].
      * simpl. split; [eauto|]. intros [? | [_ H]]; [done | by apply contains_nil in H].
      * cbn [domain_intersection_rec]. rewrite contains_app, !contains_singleton.
        destruct (a.1 >? b.1) eqn:?, (a.2 <? b.2) eqn:?;
          match goal with |- context [if ?c then _ else _] => destruct c eqn:? end;
          rewrite ?contains_singleton; simpl;
          (split; [intros [? | H]; [by left | first [by apply contains_nil in H | right; lia]]
                  | intros [? | ?]; [by left | first [right; lia | lia]]]).
      * change (domain_intersection_rec (S n) [a] (b :: b' :: dom2) r)
          with (domain_intersection_rec n (b :: b' :: dom2) [a] r).
        rewrite IH; [tauto|].
        unfold intersection_depth in *. simpl in *. repeat case_decide; lia.
Qed.

(** ** C3 *)

(** C3: for every pair of domains [a] and [b] (canonical or not),
    [domain_intersection(a, b)] holds exactly the integers that are in
    both [a] and [b]; hence [domain_intersection(a, b)] and
    [domain_intersection(b, a)] hold the same integers. *)
Theorem domain_intersection_is_set_intersection (a b : domain) :
  (∀ z, contains (domain_intersection a b None) z ↔ contains a z ∧ contains b z)
  ∧ (∀ z, contains (domain_intersection a b None) z
          ↔ contains (domain_intersection b a None) z).
Proof.
  assert (H : ∀ a b z, contains (domain_intersection a b None) z
                       ↔ contains a z ∧ contains b z).
  { intros a' b' z. unfold domain_intersection.
    rewrite domain_intersection_rec_contains by done. simpl.
    split; [intros [H | H]; [by apply contains_nil in H | done] | by right]. }
  split; [apply H|]. intros z. rewrite !H. tauto.
Qed.

(** ** C1 *)

(** C1 on the code: for the canonical domain [[0,1],[5,6]] the loop of
    [domain_complement], which reads [d[0][1]] where [d[i][1]] is
    meant, returns [[2,4],[2,SUP]]; its intersection with the domain
    is [[5,6]], not the empty domain, and its union with the domain is
    [[0,1],[2,SUP]], not [[0,SUP]]. *)
Theorem domain_complement_two_intervals :
  canonical [(0, 1); (5, 6)]
  ∧ domain_complement [(0, 1); (5, 6)] = [(2, 4); (2, FD_SUP)]
  ∧ domain_intersection (domain_complement [(0, 1); (5, 6)]) [(0, 1); (5, 6)] None
    = [(5, 6)]
  ∧ domain_union (domain_complement [(0, 1); (5, 6)]) [(0, 1); (5, 6)]
    = [(0, 1); (2, FD_SUP)].
Proof.
  split; [|by vm_compute].
  split; [|simpl; lia]. repeat constructor; unfold FD_SUP; simpl; lia.
Qed.

(** * Closing gaps, and [dom_plus] *)

Lemma below_smallest_width x d i :
  below x (dom_smallest_interval_width d) = true → i ∈ d → x < i.2 - i.1 + 1.
Proof.
  induction d as [|j d IH]; simpl; intros Hb Hi; [by apply elem_of_nil in Hi|].
  apply elem_of_cons in Hi as [-> | Hi].
  - destruct (dom_smallest_interval_width d); simpl in Hb; lia.
  - apply IH; [|done].
    destruct (dom_smallest_interval_width d); simpl in *; [lia | done].
Qed.

Lemma hi_sorted_cons i d :
  hi_sorted (i :: d) ↔ (∀ j, head d = Some j → i.2 ≤ j.2) ∧ hi_sorted d.
Proof.
  destruct d as [|j d]; simpl.
  - split; [intros _; split; [intros ? [=]|done] | done].
  - split.
    + intros [H1 H2]. split; [by intros ? [= <-] | done].
    + intros [H1 H2]. split; [by apply H1 | done].
Qed.

Lemma hi_sorted_replace_lo l i d : hi_sorted (i :: d) → hi_sorted ((l, i.2) :: d).
Proof. rewrite !hi_sorted_cons. done. Qed.

Lemma close_gaps_loop_head prev d gap :
  hi_sorted (prev :: d) →
  ∃ hi rest, close_gaps_loop prev d gap = (prev.1, hi) :: rest ∧ prev.2 ≤ hi.
Proof.
  revert prev. induction d as [|next d IH]; intros prev Hs; simpl.
  - exists prev.2, []. by destruct prev.
  - apply hi_sorted_cons in Hs as [Hh Hs]. specialize (Hh next eq_refl).
    destruct (below _ gap).
    + destruct (IH (prev.1, next.2)) as (hi & rest & -> & Hle).
      { by apply hi_sorted_replace_lo. }
      exists hi, rest. split; [done | simpl in Hle; lia].
    + exists prev.2, (close_gaps_loop next d gap). by destruct prev.
Qed.

Lemma lo_sorted_replace_hi h i d : lo_sorted (i :: d) → lo_sorted ((i.1, h) :: d).
Proof. rewrite !lo_sorted_cons. done. Qed.

Lemma lo_sorted_skip i j d : lo_sorted (i :: j :: d) → lo_sorted (i :: d).
Proof.
  intros [Hij Hs]. apply lo_sorted_cons in Hs as [Hh Hs]. apply lo_sorted_cons.
  split; [|done]. intros k Hk. specialize (Hh k Hk). lia.
Qed.

Lemma close_gaps_loop_increasing prev d gap :
  increasing (prev :: d) → increasing (close_gaps_loop prev d gap).
Proof.
  unfold increasing, nonempty_intervals.
  revert prev. induction d as [|next d IH]; intros prev (Hn & Hl & Hs); simpl; [done|].
  apply Forall_cons in Hn as [Hp Hn]. pose proof Hn as Hn'.
  apply Forall_cons in Hn' as [Hnx Hd].
  pose proof Hs as Hs'. apply hi_sorted_cons in Hs' as [Hh Hs'].
  specialize (Hh next eq_refl).
  pose proof Hl as Hl'. apply lo_sorted_cons in Hl' as [Hh' Hl'].
  specialize (Hh' next eq_refl).
  destruct (below _ gap).
  - apply IH. split; [|split].
    + apply Forall_cons. split; [simpl; lia | done].
    + apply (lo_sorted_replace_hi next.2 prev). by eapply lo_sorted_skip.
    + by apply hi_sorted_replace_lo.
  - destruct (IH next) as (IH1 & IH2 & IH3); [done|].
    destruct (close_gaps_loop_head next d gap Hs') as (hi & rest & E & Hle).
    split; [|split].
    + apply Forall_cons. done.
    + apply lo_sorted_cons. split; [|done].
      rewrite E. intros j [= <-]. simpl. lia.
    + apply hi_sorted_cons. split; [|done].
      rewrite E. intros j [= <-]. simpl. lia.
Qed.

Lemma close_gaps_loop_superset prev d gap z :
  lo_sorted (prev :: d) → hi_sorted (prev :: d) →
  contains (prev :: d) z → contains (close_gaps_loop prev d gap) z.
Proof.
  revert prev. induction d as [|next d IH]; intros prev Hl Hs; simpl; [done|].
  pose proof Hs as Hs'. apply hi_sorted_cons in Hs' as [Hh Hs'].
  specialize (Hh next eq_refl).
  pose proof Hl as Hl'. apply lo_sorted_cons in Hl' as [Hh' Hl'].
  specialize (Hh' next eq_refl).
  destruct (below _ gap) eqn:Hb.
  - intros Hz. apply IH.
    + apply (lo_sorted_replace_hi next.2 prev). by eapply lo_sorted_skip.
    + by apply hi_sorted_replace_lo.
    + rewrite !contains_cons in Hz. rewrite contains_cons. simpl.
      destruct Hz as [Hz | [Hz | Hz]]; [left; lia | left; lia | by right].
  - rewrite !contains_cons. intros [Hz | Hz]; [by left|].
    right. apply IH; [done..|]. by rewrite contains_cons.
Qed.

Lemma close_gaps_loop_holes (D : Z → Prop) gap d : ∀ prev,
  (∀ z, prev.1 ≤ z ≤ prev.2 → in_or_narrow_hole D gap z) →
  D prev.2 →
  nonempty_intervals d →
  (∀ z, contains d z → D z) →
  ∀ z, contains (close_gaps_loop prev d gap) z → in_or_narrow_hole D gap z.
Proof.
  induction d as [|next d IH]; intros prev Hprev Hhi Hn HD z; simpl.
  - intros Hz. apply contains_singleton in Hz. by apply Hprev.
  - apply Forall_cons in Hn as [Hnx Hn].
    assert (HDn : ∀ z, next.1 ≤ z ≤ next.2 → D z).
    { intros z' Hz'. apply HD. apply contains_cons. by left. }
    assert (HDd : ∀ z, contains d z → D z).
    { intros z' Hz'. apply HD. apply contains_cons. by right. }
    destruct (below _ gap) eqn:Hb.
    + apply IH; [|apply HDn; simpl; lia|done..].
      simpl. intros z' Hz'.
      destruct (decide (z' ≤ prev.2)); [apply Hprev; lia|].
      destruct (decide (next.1 ≤ z')); [left; apply HDn; lia|].
      right. exists prev.2, next.1. repeat split; [done | apply HDn; lia | lia..| done].
    + rewrite contains_cons. intros [Hz | Hz]; [by apply Hprev|].
      revert Hz. apply IH; [|apply HDn; lia|done..].
      intros z' Hz'. left. by apply HDn.
Qed.

Lemma dom_close_gaps_increasing d gap : increasing d → increasing (dom_close_gaps d gap).
Proof. destruct d; [done | apply close_gaps_loop_increasing]. Qed.

Lemma dom_close_gaps_superset d gap z :
  increasing d → contains d z → contains (dom_close_gaps d gap) z.
Proof.
  destruct d; [done|]. intros (_ & Hl & Hs). by apply close_gaps_loop_superset.
Qed.

Lemma dom_close_gaps_holes d gap z :
  nonempty_intervals d →
  contains (dom_close_gaps d gap) z → in_or_narrow_hole (contains d) gap z.
Proof.
  destruct d as [|d0 d]; [by left|]. intros Hn. simpl.
  apply Forall_cons in Hn as [H0 Hn].
  apply close_gaps_loop_holes; [| |done|].
  - intros z' Hz'. left. apply contains_cons. by left.
  - apply contains_cons. left. lia.
  - intros z' Hz'. apply contains_cons. by right.
Qed.

(** Closing the gaps of [d1] that are narrower than every interval of
    [d2] leaves the sums of [d1] and [d2] as they are. *)
Lemma dom_close_gaps_sum d1 d2 z :
  increasing d1 →
  sum_of (dom_close_gaps d1 (dom_smallest_interval_width d2)) d2 z ↔ sum_of d1 d2 z.
Proof.
  intros Hinc. split.
  - intros (x & y & Hx & Hy & ->).
    apply dom_close_gaps_holes in Hx; [|apply Hinc].
    destruct Hx as [Hx | (a & b & Ha & Hb & Hab & Hgap)]; [by exists x, y|].
    destruct Hy as (i & Hi & Hy).
    pose proof (below_smallest_width _ _ _ Hgap Hi) as Hw.
    destruct (decide (x + y ≤ a + i.2)).
    + exists a, (x + y - a). split; [done|]. split; [|lia].
      exists i. split; [done | lia].
    + exists b, (x + y - b). split; [done|]. split; [|lia].
      exists i. split; [done | lia].
  - intros (x & y & Hx & Hy & ->). exists x, y.
    split; [by apply dom_close_gaps_superset | done].
Qed.

Lemma sum_of_comm d1 d2 z : sum_of d1 d2 z ↔ sum_of d2 d1 z.
Proof.
  split; intros (x & y & Hx & Hy & ->); exists y, x; (split; [done|]); (split; [done | lia]).
Qed.

Lemma close_gaps2_turn_spec d1 d2 :
  increasing d1 → increasing d2 →
  let t := close_gaps2_turn d1 d2 in
  increasing t.1.1 ∧ increasing t.1.2 ∧ ∀ z, sum_of t.1.1 t.1.2 z ↔ sum_of d1 d2 z.
Proof.
  intros H1 H2. unfold close_gaps2_turn. simpl.
  set (d1' := dom_close_gaps d1 (dom_smallest_interval_width d2)).
  assert (H1' : increasing d1') by by apply dom_close_gaps_increasing.
  split; [done|]. split; [by apply dom_close_gaps_increasing|].
  intros z. rewrite sum_of_comm, dom_close_gaps_sum by done.
  rewrite sum_of_comm. by apply dom_close_gaps_sum.
Qed.

Lemma close_gaps2_loop_unfold n d1 d2 :
  close_gaps2_loop n d1 d2 =
    let '(d1', d2', change) := close_gaps2_turn d1 d2 in
    if change >? 0
    then match n with
         | O => (d1', d2')
         | S n' => close_gaps2_loop n' d1' d2'
         end
    else (d1', d2').
Proof. by destruct n. Qed.

Lemma close_gaps2_loop_spec n : ∀ d1 d2,
  increasing d1 → increasing d2 →
  let r := close_gaps2_loop n d1 d2 in
  increasing r.1 ∧ increasing r.2 ∧ ∀ z, sum_of r.1 r.2 z ↔ sum_of d1 d2 z.
Proof.
  induction n as [|n IH]; intros d1 d2 H1 H2;
    pose proof (close_gaps2_turn_spec d1 d2 H1 H2) as (T1 & T2 & T3);
    cbv zeta; rewrite close_gaps2_loop_unfold;
    destruct (close_gaps2_turn d1 d2) as [[d1' d2'] change]; simpl in T1, T2, T3.
  - by destruct (change >? 0).
  - destruct (change >? 0); [|done].
    destruct (IH d1' d2' T1 T2) as (I1 & I2 & I3).
    split; [done|]. split; [done|]. intros z. by rewrite I3.
Qed.

Lemma contains_pairwise f d1 d2 z :
  contains (pairwise f d1 d2) z ↔ ∃ i1 i2, i1 ∈ d1 ∧ i2 ∈ d2 ∧ contains (f i1 i2) z.
Proof.
  unfold pairwise. rewrite contains_flat_map. split.
  - intros (i1 & H1 & H). apply contains_flat_map in H as (i2 & H2 & H). eauto.
  - intros (i1 & i2 & H1 & H2 & H). exists i1. split; [done|].
    apply contains_flat_map. eauto.
Qed.

Lemma canonical_csis d : canonical d → csis d.
Proof.
  intros [Hb Hs]. split.
  - unfold nonempty_intervals. eapply Forall_impl; [exact Hb|]. simpl. lia.
  - clear Hb. induction d as [|i [|j d] IH]; [done..|].
    destruct Hs as [Hij Hs]. split; [lia | by apply IH].
Qed.

Lemma csis_increasing d : csis d → increasing d.
Proof.
  intros [Hn Hd]. split; [done|]. split; [by apply disjoint_nonempty_lo_sorted|].
  induction d as [|i [|j d] IH]; [done..|].
  destruct Hd as [Hij Hd]. apply Forall_cons in Hn as [Hi Hn].
  pose proof Hn as Hn'. apply Forall_cons in Hn' as [Hj _].
  split; [lia | by apply IH].
Qed.

(** The interval the body of [dom_plus] pushes for [i1] and [i2] holds
    the clamped sums of their integers, and nothing else. *)
Lemma clamped_sum_interval (i1 i2 : interval) z :
  i1.1 ≤ i1.2 → i2.1 ≤ i2.2 →
  Z.min FD_SUP (i1.1 + i2.1) ≤ z ≤ Z.min FD_SUP (i1.2 + i2.2)
  ↔ ∃ x y, i1.1 ≤ x ≤ i1.2 ∧ i2.1 ≤ y ≤ i2.2 ∧ z = Z.min (x + y) FD_SUP.
Proof.
  intros H1 H2. split.
  - intros Hz. destruct (decide (z < FD_SUP)) as [Hlt|Hge].
    + exists (Z.max i1.1 (z - i2.2)), (z - Z.max i1.1 (z - i2.2)). lia.
    + exists i1.2, i2.2. lia.
  - intros (x & y & Hx & Hy & ->). lia.
Qed.

(** [dom_plus] on domains whose intervals are non-empty and in
    increasing order. *)
Lemma dom_plus_contains a b z :
  increasing a → increasing b →
  contains (dom_plus a b) z
  ↔ ∃ x y, contains a x ∧ contains b y ∧ z = Z.min (x + y) FD_SUP.
Proof.
  intros Ha Hb. unfold dom_plus, dom_close_gaps2.
  destruct (close_gaps2_loop_spec (length a + length b) a b Ha Hb) as (H1 & H2 & Hsum).
  destruct (close_gaps2_loop _ a b) as [d1 d2]. simpl in *.
  rewrite simplify_domain_contains, contains_pairwise.
  assert (Hne : ∀ d (i : interval), increasing d → i ∈ d → i.1 ≤ i.2).
  { intros d i (Hn & _) Hi. unfold nonempty_intervals in Hn.
    rewrite Forall_forall in Hn. by apply Hn. }
  split.
  - intros (i1 & i2 & Hi1 & Hi2 & Hz). apply contains_singleton in Hz. simpl in Hz.
    apply clamped_sum_interval in Hz as (x & y & Hx & Hy & ->);
      [|by apply (Hne d1) | by apply (Hne d2)].
    destruct (proj1 (Hsum (x + y))) as (x' & y' & Hx' & Hy' & E).
    { exists x, y. split; [by exists i1|]. split; [by exists i2 | done]. }
    exists x', y'. rewrite <- E. done.
  - intros (x & y & Hx & Hy & ->).
    destruct (proj2 (Hsum (x + y))) as (x' & y' & (i1 & Hi1 & Hx') & (i2 & Hi2 & Hy') & E).
    { by exists x, y. }
    exists i1, i2. split; [done|]. split; [done|].
    apply contains_singleton. simpl. rewrite E.
    apply clamped_sum_interval; [by apply (Hne d1) | by apply (Hne d2) |].
    by exists x', y'.
Qed.

(** ** C2 *)

(** C2: for canonical domains [a] and [b], [dom_plus(a, b)] holds
    exactly the integers [min(x + y, SUP)] with [x] in [a] and [y] in
    [b]: the gaps that [dom_close_gaps2] closes beforehand add no sum
    and lose none. *)
Theorem dom_plus_exact (a b : domain) (z : Z) :
  canonical a → canonical b →
  contains (dom_plus a b) z
  ↔ ∃ x y, contains a x ∧ contains b y ∧ z = Z.min (x + y) FD_SUP.
Proof.
  intros Ha Hb. apply dom_plus_contains; by apply csis_increasing, canonical_csis.
Qed.

Lemma dom_plus_exact_witness :
  canonical [(0, 0); (2, 2)] ∧ canonical [(0, 2); (10, 12)]
  ∧ dom_close_gaps2 [(0, 0); (2, 2)] [(0, 2); (10, 12)] = ([(0, 2)], [(0, 2); (10, 12)])
  ∧ dom_plus [(0, 0); (2, 2)] [(0, 2); (10, 12)] = [(0, 4); (10, 14)]
  ∧ (contains (dom_plus [(0, 0); (2, 2)] [(0, 2); (10, 12)]) 3
     ↔ ∃ x y, contains [(0, 0); (2, 2)] x ∧ contains [(0, 2); (10, 12)] y
              ∧ 3 = Z.min (x + y) FD_SUP).
Proof.
  assert (Ha : canonical [(0, 0); (2, 2)]).
  { split; [repeat constructor; unfold FD_SUP; simpl; lia | simpl; lia]. }
  assert (Hb : canonical [(0, 2); (10, 12)]).
  { split; [repeat constructor; unfold FD_SUP; simpl; lia | simpl; lia]. }
  split; [exact Ha|]. split; [exact Hb|]. split; [reflexivity|]. split; [reflexivity|].
  exact (dom_plus_exact [(0, 0); (2, 2)] [(0, 2); (10, 12)] 3 Ha Hb).
Defined.

(** * Variables and declarations *)

Lemma domain_equal_true d1 d2 : domain_equal d1 d2 = true ↔ d1 = d2.
Proof.
  unfold domain_equal. case_decide as Hlen.
  { split; [done | intros ->; done]. }
  revert d2 Hlen. induction d1 as [|[a b] d1 IH]; intros [|[a' b'] d2] Hlen;
    simpl in *; try done.
  rewrite andb_true_iff, IH by lia.
  rewrite negb_true_iff, orb_false_iff, !negb_false_iff, !Z.eqb_eq.
  split; [intros [[-> ->] ->]; done | intros [= -> -> ->]; done].
Qed.

Lemma set_dom_dom v d : FDVar.dom (FDVar.set_dom v d) = d.
Proof.
  unfold FDVar.set_dom. destruct (domain_equal _ d) eqn:E; simpl; [|done].
  by apply domain_equal_true in E.
Qed.

Lemma set_dom_step v d :
  FDVar.step (FDVar.set_dom v d)
  = FDVar.step v + (if decide (FDVar.dom v = d) then 0 else 1).
Proof.
  unfold FDVar.set_dom. destruct (domain_equal _ d) eqn:E; simpl.
  - apply domain_equal_true in E. rewrite decide_True by done. lia.
  - rewrite decide_False; [done|]. intros E'. apply domain_equal_true in E'. congruence.
Qed.

(** [decl] of one name, as an equation. *)
Lemma decl_one_eq (name : name) (dom : option domain) (g : global) (S : Space.t) :
  decl (one name) dom (g, S)
  = Some (match Space.vars S !! key name, inherited (key name), dom with
          | None, true, Some _ => Throw TypeError
          | _, _, _ => Ret RSpace
          end,
          (g, match Space.vars S !! key name with
              | Some f =>
                  match dom with
                  | Some d =>
                      Space.set_vars (<[key name := FDVar.set_dom f d]> (Space.vars S)) S
                  | None => S
                  end
              | None =>
                  if inherited (key name) then S
                  else Space.set_vars (<[key name := FDVar.new dom None]> (Space.vars S)) S
              end)).
Proof.
  unfold decl, bind, get_vars, put_var, modify, ret, throw. simpl.
  destruct (Space.vars S !! key name) as [f|]; [by destruct dom|].
  destruct (inherited (key name)); [by destruct dom | done].
Qed.

(** A name that is declared, or is not one that [S.vars] inherits:
    [decl] returns the space. *)
Lemma decl_one_ret (name : name) (dom : option domain) (g : global) (S : Space.t) :
  is_Some (Space.vars S !! key name) ∨ inherited (key name) = false →
  decl (one name) dom (g, S)
  = Some (Ret RSpace,
          (g, match Space.vars S !! key name with
              | Some f =>
                  match dom with
                  | Some d =>
                      Space.set_vars (<[key name := FDVar.set_dom f d]> (Space.vars S)) S
                  | None => S
                  end
              | None =>
                  Space.set_vars (<[key name := FDVar.new dom None]> (Space.vars S)) S
              end)).
Proof.
  intros H. rewrite decl_one_eq.
  destruct (Space.vars S !! key name) as [f|]; [done|].
  destruct H as [[? [=]] | ->]. done.
Qed.

(** The decimal form of a number begins with a digit: it is not the
    name of a property of [Object.prototype]. *)
Lemma pretty_N_char_code x : (48 ≤ nat_of_ascii (pretty_N_char x) ≤ 57)%nat.
Proof. unfold pretty_N_char. repeat case_match; vm_compute; lia. Qed.

Lemma pretty_N_go_head x :
  ∀ s, (if s is String c _ then (48 ≤ nat_of_ascii c ≤ 57)%nat else False) →
       if pretty_N_go x s is String c _ then (48 ≤ nat_of_ascii c ≤ 57)%nat else False.
Proof.
  induction (N.lt_wf_0 x) as [x _ IH]. intros s Hs.
  assert (x = 0 ∨ 0 < x)%N as [-> | Hx] by lia; [by rewrite pretty_N_go_0|].
  rewrite pretty_N_go_step by done. apply IH; [by apply N.div_lt|].
  apply pretty_N_char_code.
Qed.

Lemma inherited_digit c s :
  (48 ≤ nat_of_ascii c ≤ 57)%nat → inherited (String c s) = false.
Proof.
  intros Hc. unfold inherited. apply bool_decide_eq_false. unfold object_prototype.
  rewrite !elem_of_cons, elem_of_nil.
  intros H. repeat (destruct H as [H|H]; [injection H as -> _; vm_compute in Hc; lia|]).
  done.
Qed.

Lemma inherited_temp (n : positive) : inherited (key (NNum n)) = false.
Proof.
  cbn [key]. unfold pretty, pretty_N. destruct (decide _) as [|_]; [done|].
  rewrite pretty_N_go_step by lia.
  pose proof (pretty_N_go_head (N.pos n `div` 10)
                (String (pretty_N_char (N.pos n `mod` 10)) EmptyString)
                (pretty_N_char_code _)) as Hc.
  destruct (pretty_N_go _ _) as [|c s]; [done|]. by apply inherited_digit.
Qed.

(** ** C5 *)



(** * Temporaries and composite constructors *)

Lemma temp_eq (dom : option domain) (g : global) (S : Space.t) :
  temp dom (g, S)
  = Some (Ret (NNum (Pos.succ (_temp_count g))),
          ({| _temp_count := Pos.succ (_temp_count g);
              issued := Pos.succ (_temp_count g) :: issued g |},
           temp_space dom (Pos.succ (_temp_count g)) S)).
Proof.
  unfold temp, bind, get, modify. cbn -[decl].
  by rewrite decl_one_ret by (right; apply inherited_temp).
Qed.

Lemma temp_space_propagators dom t S :
  Space._propagators (temp_space dom t S) = Space._propagators S.
Proof.
  unfold temp_space. destruct (Space.vars S !! _); [destruct dom|]; done.
Qed.

(** ** C8 *)

(** C8: for every call [scale(k, v, p)], with [p] given or omitted:
    if [k < 0] the call throws the message of a usage error, which is
    not ['fail'], and leaves the space as it was (no propagator is
    added); if [k == 0] it is [eq(temp([[0,0]]), p)]; if [k == 1] it is
    [eq(v, p)]; if [k > 1] it adds two propagators on [v] and the
    product variable ([p], or a temporary when [p] is omitted), the
    one scaling [v] into the product and the one dividing the product
    into [v], and nothing else. *)
Theorem scale_cases (k : Z) (v : name) (p : option name) (σ : global * Space.t) :
  (k < 0 →
     scale k v p σ = Some (Throw (Error "scale: negative factors not supported."), σ)
     ∧ Error "scale: negative factors not supported." ≠ Fail)
  ∧ (k = 0 → scale k v p σ = (let* t := temp (Some [(0, 0)]) in eq t p) σ)
  ∧ (k = 1 → scale k v p σ = eq v p σ)
  ∧ (1 < k →
     ∃ prod r σ1,
       or_temp p σ = Some (Ret (prod, r), σ1)
       ∧ match p with
         | Some p => prod = p ∧ r = RSpace ∧ σ1 = σ
         | None => r = RName prod ∧ temp None σ = Some (Ret prod, σ1)
         end
       ∧ scale k v p σ
         = Some (Ret r,
                 (σ1.1,
                  Space.set_propagators
                    (Space._propagators σ1.2
                     ++ [new_propagator (Space.vars σ1.2) [v; prod] [v] (step_scale_prod k);
                         new_propagator (Space.vars σ1.2) [v; prod] [prod] (step_scale_v k)])
                    σ1.2))).
Proof.
  unfold scale. split; [|split; [|split]].
  - intros Hk.
    destruct (k =? 1) eqn:E1; [lia|]. destruct (k =? 0) eqn:E0; [lia|].
    destruct (k <? 0) eqn:E; [|lia]. split; [reflexivity | discriminate].
  - intros ->. done.
  - intros ->. done.
  - intros Hk.
    destruct (k =? 1) eqn:E1; [lia|]. destruct (k =? 0) eqn:E0; [lia|].
    destruct (k <? 0) eqn:E; [lia|].
    destruct σ as [g S]. destruct p as [p|].
    + exists p, RSpace, (g, S). split; [reflexivity|]. split; [done|].
      unfold bind, or_temp, newprop, modify, ret, Space.set_propagators. simpl.
      by rewrite <- app_assoc.
    + exists (NNum (Pos.succ (_temp_count g))), (RName (NNum (Pos.succ (_temp_count g)))).
      eexists. unfold or_temp, bind. rewrite temp_eq.
      split; [reflexivity|]. split; [done|].
      unfold newprop, modify, ret, Space.set_propagators. simpl.
      by rewrite <- app_assoc.
Qed.

Lemma scale_cases_witness :
  let X := NStr "X" EmptyString in
  let P := NStr "P" EmptyString in
  let σ := (global_init, Space.new) in
  scale (-2) X (Some P) σ = Some (Throw (Error "scale: negative factors not supported."), σ)
  ∧ scale 0 X (Some P) σ = (let* t := temp (Some [(0, 0)]) in eq t (Some P)) σ
  ∧ scale 1 X (Some P) σ = eq X (Some P) σ
  ∧ ∃ σ', scale 3 X (Some P) σ = Some (Ret RSpace, σ')
          ∧ length (Space._propagators σ'.2) = 2%nat.
Proof.
  intros X P σ.
  split; [apply (proj1 (scale_cases (-2) X (Some P) σ)); lia|].
  split; [apply (proj1 (proj2 (scale_cases 0 X (Some P) σ))); reflexivity|].
  split; [apply (proj1 (proj2 (proj2 (scale_cases 1 X (Some P) σ)))); reflexivity|].
  destruct (proj2 (proj2 (proj2 (scale_cases 3 X (Some P) σ)))) as (prod & r & σ1 & H1 & H2 & H3);
    [lia|].
  destruct H2 as (-> & -> & ->). eexists. split; [exact H3 | reflexivity].
Defined.

(** ** C10 *)

(** C10: [product([], out)] throws nothing and adds no propagator.
    With [out] given it returns the space, which it leaves as it was;
    with [out] omitted it returns the name of a temporary that it has
    allocated with [temp()].  [sum([], out)] throws the message of a
    usage error. *)
Theorem product_empty (dom_divby : domain → domain → domain) (g : global) (S : Space.t) :
  (∀ out, product dom_divby [] (Some out) (g, S) = Some (Ret RSpace, (g, S)))
  ∧ (∃ t σ1,
       temp None (g, S) = Some (Ret t, σ1)
       ∧ product dom_divby [] None (g, S) = Some (Ret (RName t), σ1)
       ∧ Space._propagators σ1.2 = Space._propagators S)
  ∧ (∀ out, ∃ σ1,
       sum [] out (g, S) = Some (Throw (Error "Space.sum: Nothing to sum!"), σ1)
       ∧ Space._propagators σ1.2 = Space._propagators S).
Proof.
  split; [done|]. split.
  - eexists _, _. split; [apply temp_eq|].
    change (product dom_divby [] None)
      with (let* r := or_temp None in ret (Σ := global * Space.t) r.2).
    unfold or_temp, bind. rewrite temp_eq.
    split; [done|]. apply temp_space_propagators.
  - intros [out|].
    + exists (g, S). split; [reflexivity | done].
    + eexists.
      change (sum [] None)
        with (let* r := or_temp None in
              throw (Σ := global * Space.t) (A := retval)
                    (Error "Space.sum: Nothing to sum!")).
      unfold or_temp, bind. rewrite temp_eq. split; [done|].
      apply temp_space_propagators.
Qed.

(** * The counter of temporaries *)

Lemma grows_refl g : grows g g.
Proof.
  exists []. split; [done|]. split; [lia|]. split; constructor.
Qed.

Lemma grows_trans g1 g2 g3 : grows g1 g2 → grows g2 g3 → grows g1 g3.
Proof.
  intros (n1 & E1 & L1 & F1 & S1) (n2 & E2 & L2 & F2 & S2).
  exists (n2 ++ n1). split; [by rewrite E2, E1, app_assoc|]. split; [lia|].
  split.
  - apply Forall_app. split.
    + eapply Forall_impl; [exact F2|]. simpl. lia.
    + eapply Forall_impl; [exact F1|]. simpl. lia.
  - clear E1 E2. induction S2 as [|a n2 Sa IH Ha]; simpl; [done|].
    apply Forall_cons in F2 as [Fa F2]. constructor; [by apply IH|].
    apply Forall_app. split; [done|].
    eapply Forall_impl; [exact F1|]. unfold later. simpl. lia.
Qed.

Lemma bind_grows {A B} (m : method A) (f : A → method B) :
  method_grows m → (∀ a, method_grows (f a)) → method_grows (let* a := m in f a).
Proof.
  intros Hm Hf σ o σ'. unfold bind.
  destruct (m σ) as [[[a|e] σ1]|] eqn:E; [| |done].
  - intros H. eapply grows_trans; [by eapply Hm | by eapply Hf].
  - intros [= <- <-]. by eapply Hm.
Qed.

Lemma same_global_grows {A} (m : method A) :
  (∀ σ o σ', m σ = Some (o, σ') → σ'.1 = σ.1) → method_grows m.
Proof. intros H σ o σ' E. rewrite (H _ _ _ E). apply grows_refl. Qed.

Lemma ret_grows {A} (a : A) : method_grows (ret a).
Proof. apply same_global_grows. by intros σ o σ' [= <- <-]. Qed.

Lemma throw_grows {A} e : method_grows (throw (A := A) e).
Proof. apply same_global_grows. by intros σ o σ' [= <- <-]. Qed.

Lemma lift_grows {A} (x : outcome A) : method_grows (lift x).
Proof. apply same_global_grows. by intros σ o σ' [= <- <-]. Qed.

Lemma out_of_fuel_grows {A} : method_grows (out_of_fuel (A := A)).
Proof. by intros σ o σ'. Qed.

Lemma get_vars_grows : method_grows get_vars.
Proof. apply same_global_grows. by intros σ o σ' [= <- <-]. Qed.

Lemma put_var_grows k v : method_grows (put_var k v).
Proof. apply same_global_grows. by intros σ o σ' [= <- <-]. Qed.

Lemma newprop_grows allvars depvars step : method_grows (newprop allvars depvars step).
Proof. apply same_global_grows. by intros [g s] o σ' [= <- <-]. Qed.

Lemma on_space_grows {A} (m : M Space.t A) : method_grows (on_space m).
Proof.
  apply same_global_grows. intros σ o σ'. unfold on_space.
  destruct (m σ.2) as [[o' s']|]; [|done]. by intros [= <- <-].
Qed.

Lemma pop_template_grows : method_grows pop_template.
Proof.
  apply same_global_grows. intros σ o σ'. unfold pop_template.
  destruct (reverse _) as [|P ps]; [by intros [= <- <-]|].
  destruct (Propagator.step P); by intros [= <- <-].
Qed.

Lemma for_each_grows {A} (l : list A) (body : A → method unit) :
  (∀ x, method_grows (body x)) → method_grows (for_each l body).
Proof.
  intros Hb. induction l as [|x l IH]; simpl; [apply ret_grows|].
  apply bind_grows; [apply Hb | by intros _].
Qed.

(** An induction principle for the nested type [names]. *)
Lemma names_induction (P : names → Prop) :
  (∀ n, P (one n)) → (∀ l, Forall P l → P (many l)) → ∀ n, P n.
Proof.
  intros Hone Hmany. fix IH 1. intros [n|l]; [apply Hone|].
  apply Hmany. induction l as [|x l IHl]; constructor; [apply IH | apply IHl].
Qed.

Lemma decl_grows name_or_names dom : method_grows (decl name_or_names dom).
Proof.
  induction name_or_names as [n|l IH] using names_induction.
  - apply same_global_grows. intros [g s] o σ'. rewrite decl_one_eq. by intros [= <- <-].
  - simpl. apply bind_grows; [|intros; apply ret_grows].
    induction IH as [|x l Hx _ IHl]; [apply ret_grows|].
    apply bind_grows; [exact Hx | by intros _].
Qed.

Lemma temp_grows dom : method_grows (temp dom).
Proof.
  intros [g s] o σ'. rewrite temp_eq. intros [= <- <-]. simpl.
  exists [Pos.succ (_temp_count g)]. simpl. split; [done|]. split; [lia|].
  split; [constructor; [lia | constructor]|].
  constructor; constructor.
Qed.

Create HintDb grows discriminated.

#[local] Hint Resolve ret_grows throw_grows lift_grows out_of_fuel_grows get_vars_grows
  put_var_grows newprop_grows on_space_grows pop_template_grows decl_grows temp_grows
  : grows.

(** A method built from methods that let the counter grow lets it
    grow. *)
Ltac grows :=
  repeat first
    [ progress intros
    | solve [eauto with grows]
    | apply bind_grows
    | apply for_each_grows
    | match goal with
      | |- method_grows (match ?x with _ => _ end) => destruct x
      | |- method_grows (if ?c then _ else _) => destruct c
      | |- method_grows (let _ := _ in _) => cbv zeta
      end ].

Lemma temps_grows N dom : method_grows (temps N dom).
Proof. induction N; cbn [temps]; grows. Qed.

Lemma konst_grows val : method_grows (konst val).
Proof. unfold konst. grows. Qed.

Lemma num_grows name n : method_grows (num name n).
Proof. unfold num. grows. Qed.

Lemma eq_grows v1name v2name : method_grows (eq v1name v2name).
Proof. unfold eq. grows. Qed.

Lemma lt_grows v1name v2name : method_grows (lt v1name v2name).
Proof. unfold lt. grows. Qed.

Lemma lte_grows v1name v2name : method_grows (lte v1name v2name).
Proof. unfold lte. grows. Qed.

Lemma neq_grows v1name v2name : method_grows (neq v1name v2name).
Proof. unfold neq. grows. Qed.

#[local] Hint Resolve temps_grows konst_grows num_grows eq_grows lt_grows lte_grows
  neq_grows : grows.

Lemma distinct_grows vars : method_grows (distinct vars).
Proof. unfold distinct. grows. Qed.

Lemma or_temp_grows resultName : method_grows (or_temp resultName).
Proof. unfold or_temp. grows. Qed.

#[local] Hint Resolve distinct_grows or_temp_grows : grows.

Lemma ring_grows plusop minusop v1name v2name sumname :
  method_grows (ring plusop minusop v1name v2name sumname).
Proof. unfold ring. grows. Qed.

#[local] Hint Resolve ring_grows : grows.

Lemma scale_grows factor vname prodname : method_grows (scale factor vname prodname).
Proof. unfold scale. grows. Qed.

Lemma name_of_grows r : method_grows (name_of r).
Proof. unfold name_of. grows. Qed.

#[local] Hint Resolve scale_grows name_of_grows : grows.

Lemma plus_grows v1name v2name sumname : method_grows (plus v1name v2name sumname).
Proof. unfold plus. grows. Qed.

Lemma times_grows dom_divby v1name v2name prodname :
  method_grows (times dom_divby v1name v2name prodname).
Proof. unfold times. grows. Qed.

#[local] Hint Resolve plus_grows times_grows : grows.

Lemma times_plus_grows k1 v1name k2 v2name resultname :
  method_grows (times_plus k1 v1name k2 v2name resultname).
Proof. unfold times_plus. grows. Qed.

Lemma sum_rec_grows fuel : ∀ vars resultName, method_grows (sum_rec fuel vars resultName).
Proof.
  induction fuel as [|fuel IH]; intros vars resultName.
  - cbn [sum_rec]. grows.
  - cbn [sum_rec]. grows; apply IH.
Qed.

Lemma product_rec_grows dom_divby fuel :
  ∀ vars resultName, method_grows (product_rec dom_divby fuel vars resultName).
Proof.
  induction fuel as [|fuel IH]; intros vars resultName.
  - cbn [product_rec]. grows.
  - cbn [product_rec]. grows; apply IH.
Qed.

Lemma sum_grows vars resultName : method_grows (sum vars resultName).
Proof. apply sum_rec_grows. Qed.

Lemma product_grows dom_divby vars resultName :
  method_grows (product dom_divby vars resultName).
Proof. apply product_rec_grows. Qed.

#[local] Hint Resolve times_plus_grows sum_grows product_grows : grows.

Lemma wsum_grows kweights vars resultName : method_grows (wsum kweights vars resultName).
Proof.
  unfold wsum. apply bind_grows; [|grows].
  induction (zip kweights vars) as [|kv l IH]; grows.
Qed.

Lemma constrain_var_grows n d : method_grows (constrain_var n d).
Proof. unfold constrain_var. grows. Qed.

Lemma apply_operator_grows op argv : method_grows (apply_operator op argv).
Proof. unfold apply_operator, gt, gte. grows. Qed.

#[local] Hint Resolve wsum_grows constrain_var_grows apply_operator_grows : grows.

Lemma reified_grows opname argv boolname : method_grows (reified opname argv boolname).
Proof. unfold reified. grows. Qed.

#[local] Hint Resolve reified_grows : grows.

Lemma invoke_grows dom_divby c : method_grows (invoke dom_divby c).
Proof. destruct c; unfold invoke, forget; grows. Qed.

Lemma grows_issued_increasing g g' :
  grows g g' → issued_increasing g → issued_increasing g'.
Proof.
  intros (new & E & L & F & S) [Fg Sg]. unfold issued_increasing. rewrite E. split.
  - apply Forall_app. split.
    + eapply Forall_impl; [exact F|]. simpl. lia.
    + eapply Forall_impl; [exact Fg|]. simpl. lia.
  - clear E. induction S as [|a new Sa IH Ha]; simpl; [done|].
    apply Forall_cons in F as [Fa F]. constructor; [by apply IH|].
    apply Forall_app. split; [done|].
    eapply Forall_impl; [exact Fg|]. unfold later. simpl. lia.
Qed.

Lemma act_issued_increasing dom_divby a w w' :
  act dom_divby a w = Some w' →
  issued_increasing (shared w) → issued_increasing (shared w').
Proof.
  destruct a as [|i c]; simpl.
  - by intros [= <-].
  - destruct (spaces w !! i) as [s|]; [|by intros [= <-]].
    destruct (invoke dom_divby c (shared w, s)) as [[o [g s']]|] eqn:E; [|done].
    intros [= <-]. simpl. apply grows_issued_increasing.
    by apply (invoke_grows dom_divby c _ _ _ E).
Qed.

Lemma run_issued_increasing dom_divby script : ∀ w w',
  run dom_divby script w = Some w' →
  issued_increasing (shared w) → issued_increasing (shared w').
Proof.
  induction script as [|a script IH]; intros w w'; simpl; [by intros [= <-]|].
  destruct (act dom_divby a w) as [w1|] eqn:E; [|done].
  intros Hr Hw. eapply IH; [exact Hr|]. by eapply act_issued_increasing.
Qed.

(** ** C9 *)

(** C9: after any script, on any number of spaces, run from the
    initial state of the class ([Space._temp_count = 1]): the names
    that [temp()] has returned so far, whether called by the script or
    by [temps], [konst], [plus], [times], [scale], [sum], [product],
    [wsum], [times_plus] or [reified], in whatever spaces, are each
    strictly greater than those returned before; and the next call of
    [temp()], in any space, returns the successor of the counter, which
    is greater than them all.  So no two temporaries share a name. *)
Theorem temp_names_increase dom_divby (script : list action) (w : world) :
  run dom_divby script world_init = Some w →
  StronglySorted later (issued (shared w))
  ∧ ∀ dom S,
      ∃ S',
        temp dom (shared w, S)
        = Some (Ret (NNum (Pos.succ (_temp_count (shared w)))),
                ({| _temp_count := Pos.succ (_temp_count (shared w));
                    issued := Pos.succ (_temp_count (shared w)) :: issued (shared w) |},
                 S'))
        ∧ Forall (later (Pos.succ (_temp_count (shared w)))) (issued (shared w)).
Proof.
  intros Hr.
  destruct (run_issued_increasing dom_divby script _ _ Hr) as [HF HS].
  { split; constructor. }
  split; [done|]. intros dom S. eexists. split; [apply temp_eq|].
  eapply Forall_impl; [exact HF|]. unfold later. simpl. lia.
Qed.

Lemma temp_names_increase_witness :
  ∃ w, run (λ _ _, []) two_spaces_script world_init = Some w
       ∧ issued (shared w) = [5; 4; 3; 2]%positive
       ∧ StronglySorted later (issued (shared w)).
Proof.
  exists (default world_init (run (λ _ _, []) two_spaces_script world_init)).
  assert (E : run (λ _ _, []) two_spaces_script world_init
              = Some (default world_init (run (λ _ _, []) two_spaces_script world_init))).
  { vm_compute. reflexivity. }
  split; [exact E|]. split; [vm_compute; reflexivity|].
  exact (proj1 (temp_names_increase (λ _ _, []) two_spaces_script _ E)).
Defined.

(** * Reasoning on computations *)

Section hoare.
Context {Σ : Type}.
Implicit Types (P J X : Σ → Prop).

Lemma bind_inv {A B} (m : M Σ A) (f : A → M Σ B) σ o σ' :
  (let* a := m in f a) σ = Some (o, σ') →
  (∃ a σ1, m σ = Some (Ret a, σ1) ∧ f a σ1 = Some (o, σ'))
  ∨ (∃ e, m σ = Some (Throw e, σ') ∧ o = Throw e).
Proof.
  unfold bind. destruct (m σ) as [[[a|e] σ1]|]; [| |done].
  - intros H. left. eauto.
  - intros [= <- <-]. right. eauto.
Qed.

Lemma hoare_bind {A B} P (m : M Σ A) (R : A → Σ → Prop) (f : A → M Σ B) Q X :
  hoare P m R X → (∀ a, hoare (R a) (f a) Q X) → hoare P (let* a := m in f a) Q X.
Proof.
  intros Hm Hf σ o σ' HP H.
  apply bind_inv in H as [(a & σ1 & H1 & H2) | (e & H1 & ->)].
  - eapply (Hf a); [|exact H2]. exact (Hm _ _ _ HP H1).
  - exact (Hm _ _ _ HP H1).
Qed.

Lemma keeps_bind {A B} J (m : M Σ A) (f : A → M Σ B) :
  keeps J m → (∀ a, keeps J (f a)) → keeps J (let* a := m in f a).
Proof. intros. by eapply hoare_bind. Qed.

Lemma keeps_ret {A} J (a : A) : keeps J (ret a).
Proof. by intros σ o σ' HJ [= <- <-]. Qed.

Lemma keeps_throw {A} J e : keeps J (throw (A := A) e).
Proof. by intros σ o σ' HJ [= <- <-]. Qed.

Lemma keeps_lift {A} J (x : outcome A) : keeps J (lift x).
Proof. intros σ o σ' HJ [= <- <-]. by destruct x. Qed.

Lemma keeps_get J : keeps J get.
Proof. by intros σ o σ' HJ [= <- <-]. Qed.

Lemma keeps_out_of_fuel {A} J : keeps J (out_of_fuel (A := A)).
Proof. by intros σ o σ' HJ. Qed.

Lemma keeps_modify J (f : Σ → Σ) : (∀ σ, J σ → J (f σ)) → keeps J (modify f).
Proof. intros Hf σ o σ' HJ [= <- <-]. by apply Hf. Qed.

Lemma keeps_do_while J fuel (body : M Σ bool) :
  keeps J body → keeps J (do_while fuel body).
Proof.
  intros Hb. induction fuel as [|fuel IH]; cbn [do_while]; [apply keeps_out_of_fuel|].
  apply keeps_bind; [done|]. intros [|]; [done | apply keeps_ret].
Qed.

Lemma keeps_for_each {A} J (l : list A) (body : A → M Σ unit) :
  (∀ x, keeps J (body x)) → keeps J (for_each l body).
Proof.
  intros Hb. induction l as [|x l IH]; cbn [for_each]; [apply keeps_ret|].
  apply keeps_bind; [apply Hb | by intros _].
Qed.
End hoare.

(** * Steps and the variables *)

Lemma advances_refl ks V : advances ks V V.
Proof. intros k. by left. Qed.

Lemma advances_trans ks V1 V2 V3 :
  advances ks V1 V2 → advances ks V2 V3 → advances ks V1 V3.
Proof.
  intros H12 H23 k. destruct (H12 k) as [E12 | (Hk & v1 & v2 & E1 & E2 & Hlt)];
    destruct (H23 k) as [E23 | (Hk' & v2' & v3 & E2' & E3 & Hlt')].
  - left. congruence.
  - right. split; [done|]. exists v2', v3. rewrite <- E12. split; [done|]. done.
  - right. split; [done|]. exists v1, v2. rewrite E23. done.
  - right. split; [done|]. exists v1, v3. split; [done|]. split; [done|].
    assert (v2' = v2) as -> by congruence. lia.
Qed.

Lemma advances_set_dom ks V k v d :
  k ∈ ks → V !! k = Some v → advances ks V (<[k := FDVar.set_dom v d]> V).
Proof.
  intros Hk Hv k'. destruct (decide (k = k')) as [<-|Hne].
  - rewrite lookup_insert_eq. unfold FDVar.set_dom.
    destruct (negb _); [|by left].
    right. split; [done|]. eexists _, _. split; [done|]. split; [done|]. simpl. lia.
  - left. by rewrite lookup_insert_ne.
Qed.

Lemma sum_steps_advances ks V V' gs s :
  advances ks V V' → sum_steps V gs = Some s →
  ∃ s', sum_steps V' gs = Some s' ∧ s ≤ s'
        ∧ (s' = s → ∀ k, k ∈ gs → V' !! k = V !! k).
Proof.
  intros Ha. revert s. induction gs as [|g gs IH]; intros s; cbn [sum_steps].
  - intros [= <-]. exists 0. split; [done|]. split; [lia|].
    intros _ k Hk. by apply elem_of_nil in Hk.
  - destruct (V !! g) as [v|] eqn:Hv; [|done].
    destruct (sum_steps V gs) as [n|] eqn:Hn; [|done]. intros [= <-].
    destruct (IH n eq_refl) as (n' & -> & Hle & Heq).
    destruct (Ha g) as [E | (Hg & v0 & v' & E0 & E' & Hlt)].
    + rewrite E, Hv. eexists. split; [done|]. split; [lia|].
      intros Hs k Hk. apply elem_of_cons in Hk as [-> | Hk]; [congruence|].
      apply Heq; [lia | done].
    + rewrite E'. assert (v0 = v) as -> by congruence.
      eexists. split; [done|]. split; [lia|]. intros Hs. lia.
Qed.

(** When the sum of the steps of the variables that may have changed
    has not, no variable has. *)
Lemma advances_same_sum ks V V' s :
  advances ks V V' → sum_steps V ks = Some s → sum_steps V' ks = Some s → V' = V.
Proof.
  intros Ha Hs Hs'. destruct (sum_steps_advances _ _ _ _ _ Ha Hs) as (s' & E & _ & Heq).
  assert (s' = s) as -> by congruence. apply map_eq. intros k.
  destruct (Ha k) as [Ek | (Hk & _)]; [done | by apply Heq].
Qed.

Lemma steps_sum_eq {T} ks (σ : T * vars_t) :
  steps_sum ks σ
  = Some (match sum_steps σ.2 ks with
          | Some n => Ret n
          | None => Throw TypeError
          end, σ).
Proof.
  induction ks as [|k ks IH]; cbn [steps_sum sum_steps]; [done|].
  unfold bind, read. destruct (σ.2 !! k) as [v|]; [|done].
  rewrite IH. by destruct (sum_steps σ.2 ks).
Qed.

Lemma next_step_eq {T} ks (σ : T * vars_t) :
  next_step ks σ = Some (next_of σ.2 ks, σ).
Proof.
  induction ks as [|k ks IH]; cbn [next_step next_of]; [done|].
  unfold bind, step_of. destruct (σ.2 !! k) as [v|].
  - rewrite IH. by destruct (next_of σ.2 ks).
  - destruct (inherited k); [|done]. rewrite IH. by destruct (next_of σ.2 ks) as [[]|].
Qed.

(** The sum is an integer when all of [ks] are variables. *)
Lemma next_of_num V ks s : next_of V ks = Ret (Num s) ↔ sum_steps V ks = Some s.
Proof.
  revert s. induction ks as [|k ks IH]; intros s; cbn [next_of sum_steps].
  - split; by intros [= <-].
  - destruct (V !! k) as [v|].
    + destruct (next_of V ks) as [[n|]|e].
      * rewrite (proj1 (IH n) eq_refl). cbn. split; by intros [= <-].
      * destruct (sum_steps V ks) as [n|]; [|done]. by pose proof (proj2 (IH n) eq_refl).
      * destruct (sum_steps V ks) as [n|]; [|done]. by pose proof (proj2 (IH n) eq_refl).
    + destruct (inherited k); [|done]. by destruct (next_of V ks).
Qed.

Lemma next_of_sum V ks s : sum_steps V ks = Some s → next_of V ks = Ret (Num s).
Proof. apply next_of_num. Qed.

(** ** The invariant of a step *)

Section step_inv.
Context (sp : list (option string)) (ks : list string) (V0 : vars_t).
Let J := step_inv sp ks V0.

Lemma keeps_this : keeps J this.
Proof. by intros σ o σ' HJ [= <- <-]. Qed.

Lemma keeps_read k : keeps J (read k).
Proof. intros σ o σ' HJ. unfold read. destruct (σ.2 !! k); by intros [= <- <-]. Qed.

Lemma keeps_steps_sum gs : keeps J (steps_sum gs).
Proof.
  intros σ o σ' HJ. rewrite steps_sum_eq. intros [= <- <-].
  by destruct (sum_steps σ.2 gs).
Qed.

Lemma keeps_next_step gs : keeps J (next_step gs).
Proof.
  intros σ o σ' HJ. rewrite next_step_eq. intros [= <- <-].
  by destruct (next_of σ.2 gs).
Qed.

Lemma keeps_update_this f : (∀ I, space (f I) = space I) → keeps J (update_this f).
Proof.
  intros Hf σ o σ' [Hsp Ha] [= <- <-]. split; [|done]. simpl. by rewrite Hf.
Qed.

Lemma keeps_set_dom k d : k ∈ ks → keeps J (set_dom k d).
Proof.
  intros Hk σ o σ' [Hsp Ha]. unfold set_dom, bind, read, modify.
  destruct (σ.2 !! k) as [v|] eqn:Hv; intros [= <- <-]; [|done].
  split; [done|]. simpl. eapply advances_trans; [exact Ha|].
  by apply advances_set_dom.
Qed.

Lemma keeps_constrain k d : k ∈ ks → keeps J (constrain k d).
Proof.
  intros Hk σ o σ' [Hsp Ha]. unfold constrain, bind, read, modify, lift, FDVar.constrain.
  destruct (σ.2 !! k) as [v|] eqn:Hv; [|by intros [= <- <-]].
  destruct (domain_non_empty _) as [d'|e]; intros [= <- <-]; [|done].
  split; [done|]. simpl. eapply advances_trans; [exact Ha|].
  by apply advances_set_dom.
Qed.

(** After [this.space[i]] has given [k], [k] is bound at [i]. *)
Lemma keeps_fdvar_bind {A} i (f : string → M (instance * vars_t) A) :
  (∀ k, sp !! (i - 1)%nat = Some (Some k) → keeps J (f k)) →
  keeps J (let* k := fdvar space i in f k).
Proof.
  intros Hf σ o σ' HJ. unfold bind, fdvar. pose proof HJ as [Hsp _].
  rewrite Hsp. destruct (sp !! (i - 1)%nat) as [[k|]|] eqn:E; try by intros [= <- <-].
  intros H. eapply Hf; [done | exact HJ | exact H].
Qed.
End step_inv.

(** * The steps of the propagators keep their invariant *)

Ltac keeps_step :=
  first
    [ progress intros
    | apply keeps_ret
    | apply keeps_throw
    | apply keeps_lift
    | apply keeps_this
    | apply keeps_read
    | apply keeps_steps_sum
    | apply keeps_next_step
    | apply keeps_update_this; reflexivity
    | apply keeps_set_dom; solve [eauto]
    | apply keeps_constrain; solve [eauto]
    | apply keeps_fdvar_bind
    | apply keeps_do_while
    | match goal with
      | |- keeps _ (if ?c then _ else _) => destruct c
      | |- keeps _ (match ?x with _ => _ end) => destruct x
      end
    | apply keeps_bind ].

Ltac keeps := repeat keeps_step.

Section cmp_keeps.
Context (sp : list (option string)) (ks : list string) (V0 : vars_t).
Context (Hks : ∀ i k, (i < 2)%nat → sp !! i = Some (Some k) → k ∈ ks).

Let bound1 k : sp !! (1 - 1)%nat = Some (Some k) → k ∈ ks.
Proof. apply Hks. lia. Qed.

Let bound2 k : sp !! (2 - 1)%nat = Some (Some k) → k ∈ ks.
Proof. apply Hks. simpl. lia. Qed.

Lemma eq_step_keeps : keeps (step_inv sp ks V0) eq_step.
Proof using Hks. unfold eq_step. keeps. Qed.

Lemma lt_step_keeps fuel : keeps (step_inv sp ks V0) (lt_step fuel).
Proof using Hks. unfold lt_step, lt_turn. keeps. Qed.

Lemma lte_step_keeps fuel : keeps (step_inv sp ks V0) (lte_step fuel).
Proof using Hks. unfold lte_step, lte_turn. keeps. Qed.

Lemma neq_step_keeps fuel : keeps (step_inv sp ks V0) (neq_step fuel).
Proof using Hks. unfold neq_step, neq_turn. keeps. Qed.

Lemma scale_prod_step_keeps factor : keeps (step_inv sp ks V0) (scale_prod_step factor).
Proof using Hks. unfold scale_prod_step. keeps. Qed.

Lemma scale_v_step_keeps factor : keeps (step_inv sp ks V0) (scale_v_step factor).
Proof using Hks. unfold scale_v_step. keeps. Qed.

Lemma cmp_run_keeps c fuel : keeps (step_inv sp ks V0) (cmp_run c fuel).
Proof using Hks.
  destruct c; simpl;
    [apply eq_step_keeps | apply lt_step_keeps | apply lte_step_keeps | apply neq_step_keeps].
Qed.
End cmp_keeps.

(** * The change-detection gate *)

Lemma bind_ret_inv {Σ A B} (m : M Σ A) (f : A → M Σ B) σ b σ' :
  (let* a := m in f a) σ = Some (Ret b, σ') →
  ∃ a σ1, m σ = Some (Ret a, σ1) ∧ f a σ1 = Some (Ret b, σ').
Proof.
  intros H. apply bind_inv in H as [(a & σ1 & H1 & H2) | (e & _ & [=])]. eauto.
Qed.

Lemma fdvar_inv {T} (sp : T → list (option string)) i (σ σ1 : T * vars_t) k :
  fdvar sp i σ = Some (Ret k, σ1) → σ1 = σ ∧ sp σ.1 !! (i - 1)%nat = Some (Some k).
Proof. unfold fdvar. destruct (sp σ.1 !! _) as [[?|]|]; by intros [= <- <-]. Qed.

Lemma read_inv {T} k (σ σ1 : T * vars_t) v :
  read k σ = Some (Ret v, σ1) → σ1 = σ ∧ σ.2 !! k = Some v.
Proof. unfold read. destruct (σ.2 !! k); by intros [= <- <-]. Qed.

Lemma steps_sum_inv {T} ks (σ σ1 : T * vars_t) n :
  steps_sum ks σ = Some (Ret n, σ1) → σ1 = σ ∧ sum_steps σ.2 ks = Some n.
Proof. rewrite steps_sum_eq. destruct (sum_steps σ.2 ks); by intros [= <- <-]. Qed.

Lemma next_step_inv {T} ks (σ σ1 : T * vars_t) n :
  next_step ks σ = Some (Ret n, σ1) → σ1 = σ ∧ next_of σ.2 ks = Ret n.
Proof. rewrite next_step_eq. by intros [= <- <-]. Qed.

Lemma this_inv {T} (σ σ1 : T * vars_t) x :
  this σ = Some (Ret x, σ1) → σ1 = σ ∧ x = σ.1.
Proof. by intros [= <- <-]. Qed.

Lemma lift_inv {Σ A} (x : outcome A) (σ σ1 : Σ) a :
  lift x σ = Some (Ret a, σ1) → σ1 = σ ∧ x = Ret a.
Proof. by intros [= <- <-]. Qed.

Lemma update_this_inv {T} (f : T → T) (σ σ1 : T * vars_t) u :
  update_this f σ = Some (Ret u, σ1) → σ1 = (f σ.1, σ.2).
Proof. by intros [= <- <-]. Qed.

(** Invert the binds of [H : m σ = Some (Ret r, σ')] whose first
    computation only reads the state. *)
Ltac inv_read H :=
  let a := fresh "a" in
  let σ1 := fresh "σ" in
  let Hm := fresh "Hm" in
  apply bind_ret_inv in H as (a & σ1 & Hm & H);
  first
    [ apply fdvar_inv in Hm as [-> Hm]
    | apply read_inv in Hm as [-> Hm]
    | apply steps_sum_inv in Hm as [-> Hm]
    | apply next_step_inv in Hm as [-> Hm]
    | apply this_inv in Hm as [-> ->]
    | apply lift_inv in Hm as [-> Hm]
    | apply update_this_inv in Hm as -> ];
  cbn [fst snd] in *.

(** The last statements of an open step. *)
Lemma final_inv {T} (set : Z → T → T) (ls : T → Z) gs s (σ σ' : T * vars_t) r :
  (∀ n t, ls (set n t) = n) →
  (let* n := steps_sum gs in update_this (set n) ;; ret (Num (n - s))) σ
  = Some (Ret (Num r), σ') →
  sum_steps σ'.2 gs = Some (ls σ'.1) ∧ r = ls σ'.1 - s ∧ σ'.2 = σ.2.
Proof.
  intros Hls H. inv_read H. inv_read H. injection H as <- <-. simpl.
  by rewrite Hls.
Qed.

Lemma bound_2 sp k1 k2 :
  sp !! 0%nat = Some (Some k1) → sp !! 1%nat = Some (Some k2) → bound 2 sp [k1; k2].
Proof.
  intros H1 H2. destruct sp as [|? [|? sp]]; simplify_eq/=. done.
Qed.

Lemma bound_3 sp k1 k2 k3 :
  sp !! 0%nat = Some (Some k1) → sp !! 1%nat = Some (Some k2) →
  sp !! 2%nat = Some (Some k3) → bound 3 sp [k1; k2; k3].
Proof.
  intros H1 H2 H3. destruct sp as [|? [|? [|? sp]]]; simplify_eq/=. done.
Qed.

Lemma bound_lookup n sp ks i k :
  bound n sp ks → ks !! i = Some k → sp !! i = Some (Some k).
Proof.
  intros [Ht Hl] Hk.
  assert (Hi : (i < n)%nat) by (rewrite <- Hl; by eapply lookup_lt_Some).
  rewrite <- (lookup_take_lt sp n i) by done. rewrite Ht, list_lookup_fmap, Hk. done.
Qed.

(** The gate on a sum that is [NaN], or on the sum [s] of the steps of
    variables. *)
Ltac gate_cases H ks :=
  match goal with
  | Hn : next_of _ ks = Ret ?n |- _ =>
      exists ks; split; [first [by apply bound_2 | by apply bound_3]|];
      destruct n as [?s|];
      [ apply next_of_num in Hn; right; eexists; split; [exact Hn|]
      | left; injection H as <- <- <-; done ]
  end.

Lemma eq_step_gate I V r I' V' :
  eq_step (I, V) = Some (Ret (Num r), (I', V')) →
  gate_result space last_step 2 (λ _ _, 0) I V r I' V'.
Proof.
  unfold eq_step. intros H. do 4 inv_read H.
  gate_cases H [a; a0].
  destruct (s >? last_step I) eqn:Hg.
  - right. split; [lia|]. do 3 inv_read H.
    apply bind_ret_inv in H as (? & ? & _ & H). apply bind_ret_inv in H as (? & ? & _ & H).
    apply (final_inv set_last_step last_step) in H as (H1 & H2 & _); done.
  - left. injection H as <- <- <-. split; [lia | done].
Qed.

Ltac inv_skip H :=
  let a := fresh "a" in
  let σ1 := fresh "σ" in
  apply bind_ret_inv in H as (a & σ1 & _ & H).

Lemma lt_step_gate fuel I V r I' V' :
  lt_step fuel (I, V) = Some (Ret (Num r), (I', V')) →
  gate_result space last_step 2 (λ _ _, 0) I V r I' V'.
Proof.
  unfold lt_step. intros H. do 4 inv_read H.
  gate_cases H [a; a0].
  destruct (s >? last_step I) eqn:Hg.
  - right. split; [lia|]. do 5 inv_read H.
    destruct (a4.1 >? a3.2).
    + inv_read H. injection H as <- <- <-. simpl.
      split; [done | lia].
    + inv_skip H. apply (final_inv set_last_step last_step) in H as (H1 & H2 & _); done.
  - left. injection H as <- <- <-. split; [lia | done].
Qed.

Lemma lte_step_gate fuel I V r I' V' :
  lte_step fuel (I, V) = Some (Ret (Num r), (I', V')) →
  gate_result space last_step 2 (λ _ _, 0) I V r I' V'.
Proof.
  unfold lte_step. intros H. do 4 inv_read H.
  gate_cases H [a; a0].
  destruct (s >? last_step I) eqn:Hg.
  - right. split; [lia|]. do 5 inv_read H.
    destruct (a4.1 >=? a3.2).
    + inv_read H. injection H as <- <- <-. simpl.
      split; [done | lia].
    + inv_skip H. apply (final_inv set_last_step last_step) in H as (H1 & H2 & _); done.
  - left. injection H as <- <- <-. split; [lia | done].
Qed.

Lemma neq_step_gate fuel I V r I' V' :
  neq_step fuel (I, V) = Some (Ret (Num r), (I', V')) →
  gate_result space last_step 2 (λ _ _, 0) I V r I' V'.
Proof.
  unfold neq_step. intros H. do 4 inv_read H.
  gate_cases H [a; a0].
  destruct (s >? last_step I) eqn:Hg.
  - right. split; [lia|]. do 5 inv_read H.
    destruct (_ || _).
    + inv_read H. injection H as <- <- <-. simpl.
      split; [done | lia].
    + destruct (domain_intersection _ _ _).
      * inv_read H. injection H as <- <- <-. simpl. split; [done | lia].
      * inv_skip H. apply (final_inv set_last_step last_step) in H as (H1 & H2 & _); done.
  - left. injection H as <- <- <-. split; [lia | done].
Qed.

Lemma cmp_run_gate c fuel I V r I' V' :
  cmp_run c fuel (I, V) = Some (Ret (Num r), (I', V')) →
  gate_result space last_step 2 (λ _ _, 0) I V r I' V'.
Proof.
  destruct c; simpl;
    [apply eq_step_gate | apply lt_step_gate | apply lte_step_gate | apply neq_step_gate].
Qed.

(** A step whose gate is closed returns at once. *)
Lemma bound_2_inv sp ks :
  bound 2 sp ks →
  ∃ k1 k2, ks = [k1; k2] ∧ sp !! 0%nat = Some (Some k1) ∧ sp !! 1%nat = Some (Some k2).
Proof.
  intros Hb. pose proof Hb as [_ Hl]. destruct ks as [|k1 [|k2 [|]]]; try done.
  exists k1, k2. split; [done|]. split; by eapply bound_lookup.
Qed.

Lemma bound_3_inv sp ks :
  bound 3 sp ks →
  ∃ k1 k2 k3, ks = [k1; k2; k3] ∧ sp !! 0%nat = Some (Some k1)
              ∧ sp !! 1%nat = Some (Some k2) ∧ sp !! 2%nat = Some (Some k3).
Proof.
  intros Hb. pose proof Hb as [_ Hl]. destruct ks as [|k1 [|k2 [|k3 [|]]]]; try done.
  exists k1, k2, k3. split; [done|]. repeat split; by eapply bound_lookup.
Qed.

Lemma bind_fdvar {T A} (sp : T → list (option string)) i k
    (f : string → M (T * vars_t) A) σ :
  sp σ.1 !! (i - 1)%nat = Some (Some k) → (let* k := fdvar sp i in f k) σ = f k σ.
Proof. intros H. unfold bind, fdvar. by rewrite H. Qed.

Lemma bind_next_step {T A} ks n (f : number → M (T * vars_t) A) σ :
  next_of σ.2 ks = Ret n → (let* n := next_step ks in f n) σ = f n σ.
Proof. intros H. unfold bind. by rewrite next_step_eq, H. Qed.

Lemma bind_steps_sum {T A} ks s (f : Z → M (T * vars_t) A) σ :
  sum_steps σ.2 ks = Some s → (let* n := steps_sum ks in f n) σ = f s σ.
Proof. intros H. unfold bind. by rewrite steps_sum_eq, H. Qed.

Lemma bind_this {T A} (f : T → M (T * vars_t) A) σ :
  (let* x := this in f x) σ = f σ.1 σ.
Proof. done. Qed.

Lemma bind_read {T A} k v (f : FDVar.t → M (T * vars_t) A) σ :
  σ.2 !! k = Some v → (let* x := read k in f x) σ = f v σ.
Proof. intros H. unfold bind, read. by rewrite H. Qed.

Ltac closed_gate :=
  repeat (erewrite bind_fdvar by (cbn [fst snd Nat.sub]; eassumption));
  erewrite bind_next_step by (cbn [fst snd]; apply next_of_sum; eassumption);
  rewrite bind_this; cbn [fst snd];
  match goal with
  | |- context [?s >? ?l] => destruct (s >? l) eqn:?; [lia|]
  end.

(** A step on a sum that is [NaN] returns at once. *)
Ltac nan_gate :=
  repeat (erewrite bind_fdvar by (cbn [fst snd Nat.sub]; eassumption));
  erewrite bind_next_step by (cbn [fst snd]; eassumption);
  rewrite bind_this; cbn [fst snd].

Lemma cmp_run_closed c fuel I V ks s :
  bound 2 (space I) ks → sum_steps V ks = Some s → s ≤ last_step I →
  cmp_run c fuel (I, V) = Some (Ret (Num 0), (I, V)).
Proof.
  intros Hb Hs Hle. apply bound_2_inv in Hb as (k1 & k2 & -> & H1 & H2).
  destruct c; cbn [cmp_run];
    [unfold eq_step | unfold lt_step | unfold lte_step | unfold neq_step];
    closed_gate; done.
Qed.

Lemma cmp_run_nan c fuel I V ks :
  bound 2 (space I) ks → next_of V ks = Ret NaN →
  cmp_run c fuel (I, V) = Some (Ret (Num 0), (I, V)).
Proof.
  intros Hb Hs. apply bound_2_inv in Hb as (k1 & k2 & -> & H1 & H2).
  destruct c; cbn [cmp_run];
    [unfold eq_step | unfold lt_step | unfold lte_step | unfold neq_step];
    nan_gate; done.
Qed.

(** ** [ring] and [scale] *)

Section ring_keeps.
Context (sp : list (option string)) (ks : list string) (V0 : vars_t).
Context (Hks : ∀ i k, (i < 3)%nat → sp !! i = Some (Some k) → k ∈ ks).

Let bound1 k : sp !! (1 - 1)%nat = Some (Some k) → k ∈ ks.
Proof. apply Hks. lia. Qed.

Let bound2 k : sp !! (2 - 1)%nat = Some (Some k) → k ∈ ks.
Proof. apply Hks. simpl. lia. Qed.

Let bound3 k : sp !! (3 - 1)%nat = Some (Some k) → k ∈ ks.
Proof. apply Hks. simpl. lia. Qed.

Lemma ring_sum_step_keeps plusop : keeps (step_inv sp ks V0) (ring_sum_step plusop).
Proof using Hks. unfold ring_sum_step. keeps. Qed.

Lemma ring_v1_step_keeps minusop : keeps (step_inv sp ks V0) (ring_v1_step minusop).
Proof using Hks. unfold ring_v1_step. keeps. Qed.

Lemma ring_v2_step_keeps minusop : keeps (step_inv sp ks V0) (ring_v2_step minusop).
Proof using Hks. unfold ring_v2_step. keeps. Qed.
End ring_keeps.

Lemma sum_steps_rotate V k1 k2 k3 n :
  sum_steps V [k3; k1; k2] = Some n → sum_steps V [k1; k2; k3] = Some n.
Proof.
  cbn [sum_steps]. destruct (V !! k1), (V !! k2), (V !! k3); try done.
  intros [= <-]. f_equal. lia.
Qed.

Ltac ring_gate :=
  let H := fresh "H" in
  let Hb := fresh "Hb" in
  let Hg := fresh "Hg" in
  intros H; do 5 inv_read H;
  match goal with
  | Hs : next_of _ [?k1; ?k2; ?k3] = Ret ?n |- _ =>
      exists [k1; k2; k3]; split; [by apply bound_3|];
      apply bind_ret_inv in H as (? & ? & Hb & H);
      destruct n as [s|];
      [ apply next_of_num in Hs; right; exists s; split; [exact Hs|];
        destruct (s >? last_step _) eqn:Hg;
        [ right; split; [lia|];
          do 4 inv_read Hb; inv_skip Hb; inv_read Hb; apply update_this_inv in Hb as ->;
          inv_read H; injection H as <- <- <-; cbn [fst snd last_step set_last_step];
          split; [by apply sum_steps_rotate | done]
        | left; injection Hb as <- <-;
          inv_read H; injection H as <- <- <-; split; [lia | done] ]
      | injection Hb as <- <-; inv_read H; discriminate H ]
  end.

Lemma ring_sum_step_gate plusop I V r I' V' :
  ring_sum_step plusop (I, V) = Some (Ret (Num r), (I', V')) →
  gate_result space last_step 3 (λ l s, l - s) I V r I' V'.
Proof. unfold ring_sum_step. ring_gate. Qed.

Lemma ring_v1_step_gate minusop I V r I' V' :
  ring_v1_step minusop (I, V) = Some (Ret (Num r), (I', V')) →
  gate_result space last_step 3 (λ l s, l - s) I V r I' V'.
Proof. unfold ring_v1_step. ring_gate. Qed.

Lemma ring_v2_step_gate minusop I V r I' V' :
  ring_v2_step minusop (I, V) = Some (Ret (Num r), (I', V')) →
  gate_result space last_step 3 (λ l s, l - s) I V r I' V'.
Proof. unfold ring_v2_step. ring_gate. Qed.

Lemma scale_prod_step_gate factor I V r I' V' :
  scale_prod_step factor (I, V) = Some (Ret (Num r), (I', V')) →
  gate_result space last_step 2 (λ _ _, 0) I V r I' V'.
Proof.
  unfold scale_prod_step. intros H. do 4 inv_read H.
  gate_cases H [a; a0].
  destruct (s >? last_step I) eqn:Hg.
  - right. split; [lia|]. do 4 inv_read H. inv_skip H.
    apply (final_inv set_last_step last_step) in H as (H1 & H2 & _); done.
  - left. injection H as <- <- <-. split; [lia | done].
Qed.

Lemma scale_v_step_gate factor I V r I' V' :
  scale_v_step factor (I, V) = Some (Ret (Num r), (I', V')) →
  gate_result space last_step 2 (λ _ _, 0) I V r I' V'.
Proof.
  unfold scale_v_step. intros H. do 4 inv_read H.
  gate_cases H [a; a0].
  destruct (s >? last_step I) eqn:Hg.
  - right. split; [lia|]. do 3 inv_read H. inv_skip H.
    apply (final_inv set_last_step last_step) in H as (H1 & H2 & _); done.
  - left. injection H as <- <- <-. split; [lia | done].
Qed.

Lemma ring_sum_step_closed plusop I V ks s :
  bound 3 (space I) ks → sum_steps V ks = Some s → s ≤ last_step I →
  ring_sum_step plusop (I, V) = Some (Ret (Num (last_step I - s)), (I, V)).
Proof.
  intros Hb Hs Hle. apply bound_3_inv in Hb as (k1 & k2 & k3 & -> & H1 & H2 & H3).
  unfold ring_sum_step. closed_gate. done.
Qed.

Lemma ring_v1_step_closed minusop I V ks s :
  bound 3 (space I) ks → sum_steps V ks = Some s → s ≤ last_step I →
  ring_v1_step minusop (I, V) = Some (Ret (Num (last_step I - s)), (I, V)).
Proof.
  intros Hb Hs Hle. apply bound_3_inv in Hb as (k1 & k2 & k3 & -> & H1 & H2 & H3).
  unfold ring_v1_step. closed_gate. done.
Qed.

Lemma ring_v2_step_closed minusop I V ks s :
  bound 3 (space I) ks → sum_steps V ks = Some s → s ≤ last_step I →
  ring_v2_step minusop (I, V) = Some (Ret (Num (last_step I - s)), (I, V)).
Proof.
  intros Hb Hs Hle. apply bound_3_inv in Hb as (k1 & k2 & k3 & -> & H1 & H2 & H3).
  unfold ring_v2_step. closed_gate. done.
Qed.

Lemma scale_prod_step_closed factor I V ks s :
  bound 2 (space I) ks → sum_steps V ks = Some s → s ≤ last_step I →
  scale_prod_step factor (I, V) = Some (Ret (Num 0), (I, V)).
Proof.
  intros Hb Hs Hle. apply bound_2_inv in Hb as (k1 & k2 & -> & H1 & H2).
  unfold scale_prod_step. closed_gate. done.
Qed.

Lemma scale_v_step_closed factor I V ks s :
  bound 2 (space I) ks → sum_steps V ks = Some s → s ≤ last_step I →
  scale_v_step factor (I, V) = Some (Ret (Num 0), (I, V)).
Proof.
  intros Hb Hs Hle. apply bound_2_inv in Hb as (k1 & k2 & -> & H1 & H2).
  unfold scale_v_step. closed_gate. done.
Qed.

Lemma ring_sum_step_nan plusop I V ks :
  bound 3 (space I) ks → next_of V ks = Ret NaN →
  ring_sum_step plusop (I, V) = Some (Ret NaN, (I, V)).
Proof.
  intros Hb Hs. apply bound_3_inv in Hb as (k1 & k2 & k3 & -> & H1 & H2 & H3).
  unfold ring_sum_step. nan_gate. done.
Qed.

Lemma ring_v1_step_nan minusop I V ks :
  bound 3 (space I) ks → next_of V ks = Ret NaN →
  ring_v1_step minusop (I, V) = Some (Ret NaN, (I, V)).
Proof.
  intros Hb Hs. apply bound_3_inv in Hb as (k1 & k2 & k3 & -> & H1 & H2 & H3).
  unfold ring_v1_step. nan_gate. done.
Qed.

Lemma ring_v2_step_nan minusop I V ks :
  bound 3 (space I) ks → next_of V ks = Ret NaN →
  ring_v2_step minusop (I, V) = Some (Ret NaN, (I, V)).
Proof.
  intros Hb Hs. apply bound_3_inv in Hb as (k1 & k2 & k3 & -> & H1 & H2 & H3).
  unfold ring_v2_step. nan_gate. done.
Qed.

Lemma scale_prod_step_nan factor I V ks :
  bound 2 (space I) ks → next_of V ks = Ret NaN →
  scale_prod_step factor (I, V) = Some (Ret (Num 0), (I, V)).
Proof.
  intros Hb Hs. apply bound_2_inv in Hb as (k1 & k2 & -> & H1 & H2).
  unfold scale_prod_step. nan_gate. done.
Qed.

Lemma scale_v_step_nan factor I V ks :
  bound 2 (space I) ks → next_of V ks = Ret NaN →
  scale_v_step factor (I, V) = Some (Ret (Num 0), (I, V)).
Proof.
  intros Hb Hs. apply bound_2_inv in Hb as (k1 & k2 & -> & H1 & H2).
  unfold scale_v_step. nan_gate. done.
Qed.

Lemma bound_elem n sp ks i k :
  bound n sp ks → (i < n)%nat → sp !! i = Some (Some k) → k ∈ ks.
Proof.
  intros [Ht Hl] Hi Hk. rewrite <- (lookup_take_lt sp n i), Ht, list_lookup_fmap in Hk by done.
  destruct (ks !! i) as [k'|] eqn:E; simplify_eq/=. by eapply list_elem_of_lookup_2.
Qed.

(** ** What the gate gives *)

Section gated.
Context {T : Type} (sp : T → list (option string)) (ls : T → Z).
Context (n : nat) (closed : Z → Z → Z) (m : nat → M (T * vars_t) number) (wf : T → Prop).
Context (nan : number).
Context (closed_nonneg : ∀ l s, s ≤ l → 0 ≤ closed l s).
Context (closed_diag : ∀ s, closed s s = 0).
Context (Hgate : ∀ fuel P V r P' V',
            wf P → m fuel (P, V) = Some (Ret (Num r), (P', V')) →
            gate_result sp ls n closed P V r P' V').
Context (Hframe : ∀ fuel P V r P' V' ks,
            wf P → m fuel (P, V) = Some (Ret (Num r), (P', V')) → bound n (sp P) ks →
            sp P' = sp P ∧ advances ks V V' ∧ wf P').
Context (Hclosed : ∀ fuel P V ks s,
            bound n (sp P) ks → sum_steps V ks = Some s → s ≤ ls P →
            m fuel (P, V) = Some (Ret (Num (closed (ls P) s)), (P, V))).
Context (Hnan : ∀ fuel P V ks,
            bound n (sp P) ks → next_of V ks = Ret NaN →
            m fuel (P, V) = Some (Ret nan, (P, V))).

Lemma gated_facts fuel P V r P' V' :
  wf P → m fuel (P, V) = Some (Ret (Num r), (P', V')) →
  wf P' ∧ 0 ≤ r
  ∧ (r = 0 → V' = V ∧ ∀ fuel', m fuel' (P', V) = Some (Ret (Num 0), (P', V))).
Proof using All.
  intros Hwf H. destruct (Hgate _ _ _ _ _ _ Hwf H) as (ks & Hb & Hcases).
  destruct (Hframe _ _ _ _ _ _ ks Hwf H Hb) as (Hsp & Hadv & Hwf'). split; [done|].
  destruct Hcases as [(Hs & -> & -> & ->) | (s & Hs & Hcase)].
  { split; [done|]. intros _. split; [done|]. intros fuel'.
    rewrite (Hnan fuel _ _ _ Hb Hs) in H. injection H as ->.
    by eapply Hnan. }
  destruct Hcase as [(Hle & -> & -> & ->) | (Hlt & Hs' & ->)].
  - split; [by apply closed_nonneg|]. intros H0. split; [done|]. intros fuel'.
    rewrite <- H0 at 1. by eapply Hclosed.
  - destruct (sum_steps_advances _ _ _ _ _ Hadv Hs) as (s' & E & Hle & _).
    assert (s' = ls P') as -> by congruence. split; [lia|].
    intros H0. assert (ls P' = s) as Hl by lia.
    assert (V' = V) as ->.
    { eapply advances_same_sum; [exact Hadv | exact Hs | by rewrite Hs', Hl]. }
    split; [done|]. intros fuel'. rewrite <- (closed_diag (ls P')).
    eapply Hclosed; [by rewrite Hsp | exact Hs' | lia].
Qed.
End gated.

(** * The step of [reified] *)

Lemma keeps_readonly {Σ A} (J : Σ → Prop) (m : M Σ A) : readonly m → keeps J m.
Proof. intros Hm σ o σ' HJ H. rewrite (Hm _ _ _ H). by destruct o. Qed.

Lemma readonly_bind {Σ A B} (m : M Σ A) (f : A → M Σ B) :
  readonly m → (∀ a, readonly (f a)) → readonly (let* a := m in f a).
Proof.
  intros Hm Hf σ o σ' H. apply bind_inv in H as [(a & σ1 & H1 & H2) | (e & H1 & _)].
  - rewrite (Hf _ _ _ _ H2). by apply Hm in H1.
  - by apply Hm in H1.
Qed.

Lemma readonly_ret {Σ A} (a : A) : readonly (ret (Σ := Σ) a).
Proof. by intros σ o σ' [= <- <-]. Qed.

Lemma readonly_throw {Σ A} e : readonly (throw (Σ := Σ) (A := A) e).
Proof. by intros σ o σ' [= <- <-]. Qed.

Lemma readonly_lift {Σ A} (x : outcome A) : readonly (lift (Σ := Σ) x).
Proof. by intros σ o σ' [= <- <-]. Qed.

Lemma readonly_fdvar {T} (sp : T → list (option string)) i : readonly (fdvar sp i).
Proof. intros σ o σ'. unfold fdvar. destruct (sp σ.1 !! _) as [[?|]|]; by intros [= <- <-]. Qed.

Lemma readonly_this {T} : readonly (this (T := T)).
Proof. by intros σ o σ' [= <- <-]. Qed.

Lemma readonly_read {T} k : readonly (read (T := T) k).
Proof. intros σ o σ'. unfold read. destruct (σ.2 !! k); by intros [= <- <-]. Qed.

Lemma readonly_steps_sum {T} ks : readonly (steps_sum (T := T) ks).
Proof. intros σ o σ'. rewrite steps_sum_eq. by intros [= <- <-]. Qed.

Lemma readonly_next_step {T} ks : readonly (next_step (T := T) ks).
Proof. intros σ o σ'. rewrite next_step_eq. by intros [= <- <-]. Qed.

Lemma readonly_first_interval {T} b : readonly (first_interval (T := T) b).
Proof.
  unfold first_interval. apply readonly_bind; [apply readonly_read|].
  intros v. destruct (FDVar.dom v); [apply readonly_throw | apply readonly_ret].
Qed.

Lemma readonly_all_determined {T} allvars : readonly (all_determined (T := T) allvars).
Proof.
  induction allvars as [|n l IH]; cbn [all_determined]; [apply readonly_ret|].
  apply readonly_bind; [apply readonly_read|]. intros v.
  apply readonly_bind; [apply readonly_lift|]. intros [|]; [apply readonly_ret | done].
Qed.

Lemma readonly_propagator_is_solved allvars : readonly (propagator_is_solved allvars).
Proof.
  unfold propagator_is_solved. apply readonly_bind; [apply readonly_this|].
  intros me. destruct (solved me); [apply readonly_ret | apply readonly_all_determined].
Qed.

Lemma readonly_saved_vars sp : readonly (saved_vars sp).
Proof.
  induction sp as [|[k|] sp IH]; cbn [saved_vars];
    [apply readonly_ret | | apply readonly_throw].
  apply readonly_bind; [apply readonly_read|]. intros v.
  apply readonly_bind; [done|]. intros vs. apply readonly_ret.
Qed.

Lemma readonly_save_vars : readonly save_vars.
Proof.
  unfold save_vars. apply readonly_bind; [apply readonly_this|]. intros me.
  apply readonly_bind; [apply readonly_saved_vars|]. intros vs. apply readonly_ret.
Qed.

(** ** Saving and restoring *)

Lemma saved_vars_inv sp (σ σ1 : instance * vars_t) vs :
  saved_vars sp σ = Some (Ret vs, σ1) →
  sp = Some <$> vs.*1 ∧ ∀ k v, (k, v) ∈ vs → σ.2 !! k = Some v.
Proof.
  revert vs. induction sp as [|[k|] sp IH]; intros vs; cbn [saved_vars].
  - intros [= <- <-]. split; [done|]. intros k v Hk. by apply elem_of_nil in Hk.
  - intros H. inv_read H. apply bind_ret_inv in H as (vs' & σ2 & Hs & H).
    injection H as <- <-. destruct (IH vs' Hs) as [-> Hvs].
    split; [done|]. intros k' v' Hk. apply elem_of_cons in Hk as [[= -> ->] | Hk]; eauto.
  - by intros [= ].
Qed.

Lemma for_each_restore {T} vs (σ : T * vars_t) :
  for_each vs (λ kv, modify (λ σ : T * vars_t, (σ.1, <[kv.1 := kv.2]> σ.2))) σ
  = Some (Ret tt, (σ.1, restored vs σ.2)).
Proof.
  revert σ. induction vs as [|kv vs IH]; intros σ; cbn [for_each].
  - by destruct σ.
  - unfold bind, modify at 1. rewrite IH. done.
Qed.

Lemma restore_vars_eq vss (I : instance) (V : vars_t) :
  restore_vars vss (I, V) = Some (Ret tt, (set_last_step vss.2 I, restored vss.1 V)).
Proof. unfold restore_vars, bind. rewrite for_each_restore. done. Qed.

Lemma restored_lookup (V : vars_t) vs :
  (∀ k v, (k, v) ∈ vs → V !! k = Some v) →
  ∀ V1 k, (V1 !! k = V !! k ∨ k ∈ vs.*1) → restored vs V1 !! k = V !! k.
Proof.
  unfold restored. induction vs as [|[k0 v0] vs IH]; intros Hvs V1 k Hk; simpl.
  - destruct Hk as [Hk | Hk]; [done | by apply elem_of_nil in Hk].
  - apply IH.
    + intros k' v' H'. apply Hvs. by apply elem_of_cons; right.
    + destruct (decide (k0 = k)) as [->|Hne].
      * left. rewrite lookup_insert_eq. symmetry. apply Hvs. by apply elem_of_cons; left.
      * rewrite lookup_insert_ne by done.
        destruct Hk as [Hk | Hk]; [by left|]. simpl in Hk.
        apply elem_of_cons in Hk as [-> | Hk]; [done | by right].
Qed.

(** Restoring after a step of the saved variables gives back the
    variables as they were. *)
Lemma restored_advances (V V1 : vars_t) vs :
  (∀ k v, (k, v) ∈ vs → V !! k = Some v) → advances vs.*1 V V1 → restored vs V1 = V.
Proof.
  intros Hvs Ha. apply map_eq. intros k. apply restored_lookup; [done|].
  destruct (Ha k) as [E | (Hk & _)]; [by left | by right].
Qed.

(** ** The invariant of the loop *)

Section reified_keeps.
Context (sp spp spn : list (option string)) (ks : list string) (V0 : vars_t).
Let J := reified_inv sp spp spn ks V0.

(** A private propagator, as a part of the state of the loop. *)
Context (get : reified_state → instance) (set : instance → reified_state → reified_state).
Context (spx : list (option string)).
Context (Hget : ∀ σ, J σ → space (get σ.1) = spx).
Context (Hset : ∀ R V I V', J (R, V) → space I = spx → advances ks V0 V' →
                            J (set I R, V')).

Lemma keeps_zoom {A} (m : M (instance * vars_t) A) :
  keeps (step_inv spx ks V0) m → keeps J (zoom get set m).
Proof using Hget Hset.
  intros Hm [R V] o σ' HJ. unfold zoom. cbn [fst snd].
  destruct (m (get R, V)) as [[o' [I' V']]|] eqn:E; [|done]. intros [= <- <-].
  assert (Hinv : step_inv spx ks V0 (get R, V)).
  { split; [exact (Hget _ HJ) | apply HJ]. }
  pose proof (Hm _ _ _ Hinv E) as Hpost.
  assert (step_inv spx ks V0 (I', V')) as [Hs Ha] by (by destruct o').
  destruct o'; by eapply Hset.
Qed.

Lemma zoom_inv {A} (m : M (instance * vars_t) A) R V o σ' :
  zoom get set m (R, V) = Some (o, σ') →
  ∃ I' V', m (get R, V) = Some (o, (I', V')) ∧ σ' = (set I' R, V').
Proof.
  unfold zoom. cbn [fst snd].
  destruct (m (get R, V)) as [[o' [I' V']]|]; [|done]. intros [= <- <-]. eauto.
Qed.

Lemma zoom_restore vss R V V' :
  J (R, V') →
  ∃ I', zoom get set (restore_vars vss) (R, V) = Some (Ret tt, (set I' R, restored vss.1 V))
        ∧ space I' = spx.
Proof using Hget.
  intros HJ. unfold zoom. cbn [fst snd]. rewrite restore_vars_eq.
  eexists. split; [done|]. exact (Hget _ HJ).
Qed.

(** A step of the private propagator between [save_vars] and
    [restore_vars] leaves the variables as they were. *)
Lemma keeps_speculate {A} (m : M (instance * vars_t) A)
    (h : M (reified_state * vars_t) unit) :
  (∀ kp V1, (∀ k, Some k ∈ spx → k ∈ kp) → keeps (step_inv spx kp V1) m) →
  keeps J h →
  keeps J (let* vss := zoom get set save_vars in
           try_catch (zoom get set m ;; zoom get set (restore_vars vss))
                     (zoom get set (restore_vars vss) ;; h)).
Proof using Hget Hset.
  intros Hm Hh [R V] o σ' HJ H.
  assert (Hadv : advances ks V0 V) by apply HJ.
  apply bind_inv in H as [(vss & σ1 & Hsave & H) | (e & Hsave & ->)].
  2: { apply zoom_inv in Hsave as (I' & V' & Hsave & ->).
       pose proof (readonly_save_vars _ _ _ Hsave) as Heq. simplify_eq.
       eapply Hset; [exact HJ | exact (Hget _ HJ) | done]. }
  apply zoom_inv in Hsave as (I1 & V1 & Hsave & ->).
  pose proof (readonly_save_vars _ _ _ Hsave) as Heq. simplify_eq.
  unfold save_vars in Hsave. inv_read Hsave.
  apply bind_ret_inv in Hsave as (vs & σ2 & Hvs & Hsave).
  unfold ret in Hsave. simplify_eq.
  apply saved_vars_inv in Hvs as [Hspx Hvs]. cbn [fst snd] in *.
  assert (HJ1 : J (set (get R) R, V)).
  { eapply Hset; [exact HJ | exact (Hget _ HJ) | done]. }
  set (R1 := set (get R) R) in *.
  assert (Hstep : ∀ o1 I2 V2, m (get R1, V) = Some (o1, (I2, V2)) →
                  J (set I2 R1, V) ∧ advances vs.*1 V V2).
  { intros o1 I2 V2 E.
    assert (Hinv : step_inv spx vs.*1 V (get R1, V)).
    { split; [exact (Hget _ HJ1) | apply advances_refl]. }
    assert (Hkp : ∀ k, Some k ∈ spx → k ∈ vs.*1).
    { intros k Hk. rewrite <- (Hget _ HJ) in Hk. cbn [fst snd] in Hk.
      rewrite Hspx in Hk.
      apply list_elem_of_fmap in Hk as (k' & [= ->] & Hk). done. }
    pose proof (Hm _ V Hkp _ _ _ Hinv E) as Hpost.
    assert (step_inv spx vs.*1 V (I2, V2)) as [Hs Ha] by (by destruct o1).
    split; [by eapply Hset | done]. }
  unfold try_catch in H.
  destruct ((zoom get set m ;; zoom get set (restore_vars (vs, last_step (get R))))
              (R1, V)) as [[[u|e] σ2]|] eqn:Etry; [| |done].
  - injection H as <- <-.
    apply bind_ret_inv in Etry as (r & σ3 & E1 & E2).
    apply zoom_inv in E1 as (I2 & V2 & E1 & ->).
    destruct (Hstep _ _ _ E1) as [HJ2 Ha].
    destruct (zoom_restore (vs, last_step (get R)) _ V2 _ HJ2) as (I3 & E3 & Hs3).
    rewrite E3 in E2. injection E2 as <- <-. cbn [fst snd].
    rewrite (restored_advances V V2 vs Hvs Ha). by eapply Hset.
  - apply bind_inv in Etry as [(r & σ3 & E1 & E2) | (e' & E1 & _)].
    + apply zoom_inv in E1 as (I2 & V2 & E1 & ->).
      destruct (Hstep _ _ _ E1) as [HJ2 Ha].
      destruct (zoom_restore (vs, last_step (get R)) _ V2 _ HJ2) as (I3 & E3 & Hs3).
      rewrite E3 in E2. done.
    + apply zoom_inv in E1 as (I2 & V2 & E1 & ->).
      destruct (Hstep _ _ _ E1) as [HJ2 Ha].
      destruct (zoom_restore (vs, last_step (get R)) _ V2 _ HJ2) as (I3 & E3 & Hs3).
      unfold bind in H. rewrite E3 in H. cbn [fst snd] in H.
      rewrite (restored_advances V V2 vs Hvs Ha) in H.
      eapply Hh; [|exact H]. by eapply Hset.
Qed.
End reified_keeps.

Lemma bind_assoc {Σ A B C} (m : M Σ A) (f : A → M Σ B) (g : B → M Σ C) σ :
  (let* b := (let* a := m in f a) in g b) σ = (let* a := m in let* b := f a in g b) σ.
Proof. unfold bind. destruct (m σ) as [[[a|e] σ1]|]; done. Qed.

Lemma keeps_ext {Σ A} (J : Σ → Prop) (m m' : M Σ A) :
  (∀ σ, m σ = m' σ) → keeps J m → keeps J m'.
Proof. intros E H σ o σ' HJ H'. rewrite <- E in H'. by eapply H. Qed.

Section reified_turn.
Context (sp spp spn : list (option string)) (ks : list string) (V0 : vars_t).
Context (Hp : ∀ k, Some k ∈ spp → k ∈ ks) (Hn : ∀ k, Some k ∈ spn → k ∈ ks).
Context (b : string) (Hb : b ∈ ks).
Let J := reified_inv sp spp spn ks V0.

Let Hget_p σ : J σ → space (r_p σ.1) = spp.
Proof. by intros (_ & H & _). Qed.

Let Hget_np σ : J σ → space (r_np σ.1) = spn.
Proof. by intros (_ & _ & H & _). Qed.

Let Hset_p R V I V' :
  J (R, V) → space I = spp → advances ks V0 V' → J (set_r_p I R, V').
Proof. intros (H1 & H2 & H3 & H4) HI Ha. done. Qed.

Let Hset_np R V I V' :
  J (R, V) → space I = spn → advances ks V0 V' → J (set_r_np I R, V').
Proof. intros (H1 & H2 & H3 & H4) HI Ha. done. Qed.

Lemma keeps_r_update (f : instance → instance) :
  (∀ I, space (f I) = space I) →
  keeps J (update_this (λ R, set_r_self (f (r_self R)) R)).
Proof.
  intros Hf [R V] o σ' (H1 & H2 & H3 & H4) [= <- <-].
  split; [|done]. cbn. by rewrite Hf.
Qed.

Lemma keeps_r_constrain d : keeps J (constrain b d).
Proof using Hb.
  intros [R V] o σ' (H1 & H2 & H3 & H4).
  unfold constrain, bind, read, modify, lift, FDVar.constrain. cbn [fst snd].
  destruct (V !! b) as [v|] eqn:Hv; [|by intros [= <- <-]].
  destruct (domain_non_empty _) as [d'|e]; intros [= <- <-]; [|done].
  split; [done|]. split; [done|]. split; [done|]. cbn [fst snd].
  eapply advances_trans; [exact H4|]. by apply advances_set_dom.
Qed.

Lemma cmp_run_keeps_in spx kp V1 c fuel :
  (∀ k, Some k ∈ spx → k ∈ kp) → keeps (step_inv spx kp V1) (cmp_run c fuel).
Proof.
  intros Hk. apply cmp_run_keeps. intros i k _ Hi. apply Hk.
  by eapply list_elem_of_lookup_2.
Qed.

Lemma reified_turn_keeps positive_propagator negative_propagator fuel v1 v2 :
  keeps J (reified_turn positive_propagator negative_propagator fuel v1 v2 b).
Proof using Hp Hn Hb.
  unfold reified_turn. cbv zeta.
  apply keeps_bind; [apply keeps_readonly, readonly_steps_sum|]. intros n.
  apply keeps_bind; [by apply keeps_r_update|]. intros _.
  apply keeps_bind; [apply keeps_readonly, readonly_first_interval|]. intros bdom.
  apply keeps_bind.
  { destruct (bdom.1 =? 1); [|apply keeps_ret].
    apply keeps_bind.
    { eapply keeps_zoom; [apply Hget_p | apply Hset_p | by apply cmp_run_keeps_in]. }
    intros _. apply keeps_bind; [|intros s; by apply keeps_r_update].
    eapply keeps_zoom; [apply Hget_p | apply Hset_p |].
    apply keeps_readonly, readonly_propagator_is_solved. }
  intros _. apply keeps_bind.
  { destruct (bdom.2 =? 0); [|apply keeps_ret].
    apply keeps_bind.
    { eapply keeps_zoom; [apply Hget_np | apply Hset_np | by apply cmp_run_keeps_in]. }
    intros _. apply keeps_bind; [|intros s; by apply keeps_r_update].
    eapply keeps_zoom; [apply Hget_np | apply Hset_np |].
    apply keeps_readonly, readonly_propagator_is_solved. }
  intros _. apply keeps_bind.
  { destruct (bdom.1 <? bdom.2); [|apply keeps_ret].
    eapply keeps_ext; [intros σ; apply bind_assoc|].
    apply keeps_bind; [|intros _; apply keeps_readonly, readonly_first_interval].
    eapply keeps_speculate; [apply Hget_p | apply Hset_p | | apply keeps_r_constrain].
    intros kp V1 Hk. by apply cmp_run_keeps_in. }
  intros bdom'. apply keeps_bind.
  { destruct (bdom'.1 <? bdom'.2); [|apply keeps_ret].
    eapply keeps_speculate; [apply Hget_np | apply Hset_np | | apply keeps_r_constrain].
    intros kp V1 Hk. by apply cmp_run_keeps_in. }
  intros _.
  apply keeps_bind; [apply keeps_readonly, readonly_steps_sum|]. intros n'.
  apply keeps_bind; [apply keeps_readonly, readonly_this|]. intros me. apply keeps_ret.
Qed.
End reified_turn.

(** ** The step *)

Lemma zoom_ret_inv {T U A} (get : T → U) (set : U → T → T)
    (m : M (U * vars_t) A) P V o σ' :
  zoom get set m (P, V) = Some (o, σ') →
  ∃ u' V', m (get P, V) = Some (o, (u', V')) ∧ σ' = (set u' P, V').
Proof.
  unfold zoom. cbn [fst snd].
  destruct (m (get P, V)) as [[o' [u' V']]|]; [|done]. intros [= <- <-]. eauto.
Qed.

Lemma bound_unique n sp ks ks' : bound n sp ks → bound n sp ks' → ks = ks'.
Proof.
  intros [H1 _] [H2 _]. rewrite H1 in H2.
  by apply (inj (fmap Some)) in H2.
Qed.

Lemma initprop_space_elem V allvars k :
  Some k ∈ space (initprop V allvars) → ∃ n, n ∈ allvars ∧ k = key n.
Proof.
  cbn [initprop space]. intros H. apply list_elem_of_fmap in H as (n & E & Hn).
  exists n. split; [done|]. destruct (V !! key n); [by simplify_eq|].
  destruct (inherited (key n)); by simplify_eq.
Qed.

Section reified_step.
Context (positive_propagator negative_propagator : template).
Let sp (P : Propagator.t) := space (Propagator.self P).
Let ls (P : Propagator.t) := last_step (Propagator.self P).
Let wf := is_reified positive_propagator negative_propagator.

Lemma reified_step_closed fuel P V ks s :
  bound 3 (sp P) ks → sum_steps V ks = Some s → s ≤ ls P →
  reified_step positive_propagator negative_propagator fuel (P, V)
  = Some (Ret (Num 0), (P, V)).
Proof.
  unfold sp, ls. intros Hb Hs Hle.
  apply bound_3_inv in Hb as (k1 & k2 & k3 & -> & H1 & H2 & H3).
  unfold reified_step. cbv zeta. closed_gate. done.
Qed.

Lemma reified_step_nan fuel P V ks :
  bound 3 (sp P) ks → next_of V ks = Ret NaN →
  reified_step positive_propagator negative_propagator fuel (P, V)
  = Some (Ret (Num 0), (P, V)).
Proof.
  unfold sp. intros Hb Hs.
  apply bound_3_inv in Hb as (k1 & k2 & k3 & -> & H1 & H2 & H3).
  unfold reified_step. cbv zeta. nan_gate. done.
Qed.

(** The loop and what follows it, on the state of the loop. *)
Let body fuel v1 v2 b nextStep : M (reified_state * vars_t) number :=
  do_while fuel (reified_turn positive_propagator negative_propagator fuel v1 v2 b) ;;
  let* n := steps_sum [v1; v2; b] in
  update_this (λ R, set_r_self (set_last_step n (r_self R)) R) ;;
  ret (Num (n - nextStep)).

Lemma reified_step_inv fuel P V r P' V' :
  reified_step positive_propagator negative_propagator fuel (P, V)
  = Some (Ret r, (P', V')) →
  ∃ k1 k2 kb,
    bound 3 (sp P) [k1; k2; kb]
    ∧ ((next_of V [k1; k2; kb] = Ret NaN ∧ P' = P ∧ V' = V ∧ r = Num 0)
       ∨ ∃ s, sum_steps V [k1; k2; kb] = Some s
              ∧ ((s ≤ ls P ∧ P' = P ∧ V' = V ∧ r = Num 0)
                 ∨ (ls P < s
                    ∧ ∃ R',
                        body fuel k1 k2 kb s
                          (with_private positive_propagator negative_propagator V P, V)
                        = Some (Ret r, (R', V'))
                        ∧ P' = store_private R' P))).
Proof.
  unfold reified_step. cbv zeta. intros H. do 5 inv_read H.
  exists a, a0, a1. split; [by apply bound_3|].
  destruct a2 as [s|]; [|left; by injection H as <- <- <-].
  apply next_of_num in Hm2. right. exists s. split; [done|].
  destruct (s >? last_step (Propagator.self P)) eqn:Hg.
  - right. split; [unfold ls; lia|].
    apply bind_ret_inv in H as (σ0 & σ1 & Hget & H). injection Hget as <- <-.
    apply zoom_ret_inv in H as (R' & V'' & H & [= -> ->]). eauto.
  - left. injection H as <- <- <-. split; [unfold ls; lia | done].
Qed.

Lemma reified_step_gate fuel P V r P' V' :
  wf P →
  reified_step positive_propagator negative_propagator fuel (P, V)
  = Some (Ret (Num r), (P', V')) →
  gate_result sp ls 3 (λ _ _, 0) P V r P' V'.
Proof.
  intros _ H. apply reified_step_inv in H as (k1 & k2 & kb & Hb & Hcases).
  exists [k1; k2; kb]. split; [done|].
  destruct Hcases as [(? & ? & ? & [= ?]) | (s & Hs & Hcase)]; [by left|].
  right. exists s. split; [done|].
  destruct Hcase as [(? & ? & ? & [= ?]) | (Hlt & R' & H & ->)]; [by left | right].
  split; [done|].
  unfold body in H. inv_skip H.
  apply (final_inv (λ n R, set_r_self (set_last_step n (r_self R)) R)
                   (λ R, last_step (r_self R))) in H as (H1 & H2 & _); done.
Qed.

(** The loop keeps the bindings, changes the variables of the
    propagator only, and leaves the propagator as [reified] made it,
    however it ends. *)
Lemma reified_body_frame fuel P V o R' V' k1 k2 kb s :
  wf P →
  bound 3 (sp P) [k1; k2; kb] →
  body fuel k1 k2 kb s (with_private positive_propagator negative_propagator V P, V)
  = Some (o, (R', V')) →
  sp (store_private R' P) = sp P ∧ advances [k1; k2; kb] V V'
  ∧ wf (store_private R' P).
Proof.
  intros [Hstep Hwf] Hb H.
  unfold wf_propagator in Hwf. rewrite Hstep in Hwf. destruct Hwf as [Hw1 Hw2].
  set (R0 := with_private positive_propagator negative_propagator V P) in *.
  assert (Hp : ∀ k, Some k ∈ space (r_p R0) → k ∈ [k1; k2; kb]).
  { intros k Hk. unfold R0, with_private in Hk. cbn [r_p] in Hk.
    destruct (Propagator.p P) as [q|] eqn:Eq; cbn [default] in Hk.
    - by eapply Hw2; [left|..].
    - apply initprop_space_elem in Hk as (n & Hn & ->).
      apply Hw1; [|done]. apply elem_of_app. by left. }
  assert (Hn : ∀ k, Some k ∈ space (r_np R0) → k ∈ [k1; k2; kb]).
  { intros k Hk. unfold R0, with_private in Hk. cbn [r_np] in Hk.
    destruct (Propagator.np P) as [q|] eqn:Eq; cbn [default] in Hk.
    - by eapply Hw2; [right|..].
    - apply initprop_space_elem in Hk as (n & Hn & ->).
      apply Hw1; [|done]. apply elem_of_app. by right. }
  assert (Hkb : kb ∈ [k1; k2; kb]) by (rewrite !elem_of_cons; auto).
  assert (HJ : reified_inv (sp P) (space (r_p R0)) (space (r_np R0)) [k1; k2; kb] V (R0, V)).
  { split; [done|]. split; [done|]. split; [done|]. apply advances_refl. }
  assert (Hk : keeps (reified_inv (sp P) (space (r_p R0)) (space (r_np R0))
                                  [k1; k2; kb] V)
                     (body fuel k1 k2 kb s)).
  { unfold body. apply keeps_bind.
    { apply keeps_do_while. by apply reified_turn_keeps. }
    intros _. apply keeps_bind; [apply keeps_readonly, readonly_steps_sum|]. intros n.
    apply keeps_bind; [by apply keeps_r_update|]. intros _. apply keeps_ret. }
  assert (HJ' : reified_inv (sp P) (space (r_p R0)) (space (r_np R0)) [k1; k2; kb] V
                            (R', V')).
  { pose proof (Hk _ _ _ HJ H) as HJ'. by destruct o. }
  destruct HJ' as (H1 & H2 & H3 & H4). cbn [fst snd] in *.
  split; [done|]. split; [done|]. split; [done|].
  unfold wf_propagator. cbn [store_private Propagator.set_self Propagator.set_p
    Propagator.set_np Propagator.step]. rewrite Hstep.
  assert (Hbi : ∀ k, bound_in P k → bound_in (store_private R' P) k).
  { intros k Hbk ks' Hks'. apply Hbk. cbn in Hks'. by rewrite H1 in Hks'. }
  split.
  - intros n Hn'. by apply Hbi, Hw1.
  - intros q k [[= <-] | [= <-]] Hq ks' Hks'.
    + cbn in Hks'. rewrite H1 in Hks'. rewrite (bound_unique _ _ _ _ Hks' Hb).
      apply Hp. by rewrite <- H2.
    + cbn in Hks'. rewrite H1 in Hks'. rewrite (bound_unique _ _ _ _ Hks' Hb).
      apply Hn. by rewrite <- H3.
Qed.

Lemma reified_step_frame fuel P V r P' V' ks :
  wf P →
  reified_step positive_propagator negative_propagator fuel (P, V)
  = Some (Ret (Num r), (P', V')) →
  bound 3 (sp P) ks →
  sp P' = sp P ∧ advances ks V V' ∧ wf P'.
Proof.
  intros Hwf H Hks.
  apply reified_step_inv in H as (k1 & k2 & kb & Hb & Hcases).
  destruct Hcases as [(_ & -> & -> & _) | (s & Hs & Hcase)].
  { split; [done|]. split; [apply advances_refl | done]. }
  destruct Hcase as [(_ & -> & -> & _) | (Hlt & R' & H & ->)].
  { split; [done|]. split; [apply advances_refl | done]. }
  pose proof (bound_unique _ _ _ _ Hks Hb) as ->.
  by eapply reified_body_frame.
Qed.

(** However the step ends, the propagator stays as [reified] made
    it. *)
Lemma reified_step_wf fuel P V o P' V' :
  wf P →
  reified_step positive_propagator negative_propagator fuel (P, V)
  = Some (o, (P', V')) →
  wf P'.
Proof.
  intros Hwf H. unfold reified_step in H. cbv zeta in H.
  assert (Hro : ∀ A (m : M (Propagator.t * vars_t) A) e,
             readonly m → m (P, V) = Some (Throw e, (P', V')) → wf P').
  { intros A m e Hm Hthrow. apply Hm in Hthrow. by simplify_eq. }
  apply bind_inv in H as [(k1 & σ1 & Hm & H) | (e & Hm & ->)];
    [apply fdvar_inv in Hm as [-> Hk1] | by eapply (Hro _ _ _ (readonly_fdvar _ _))].
  apply bind_inv in H as [(k2 & σ1 & Hm & H) | (e & Hm & ->)];
    [apply fdvar_inv in Hm as [-> Hk2] | by eapply (Hro _ _ _ (readonly_fdvar _ _))].
  apply bind_inv in H as [(kb & σ1 & Hm & H) | (e & Hm & ->)];
    [apply fdvar_inv in Hm as [-> Hkb] | by eapply (Hro _ _ _ (readonly_fdvar _ _))].
  apply bind_inv in H as [(s & σ1 & Hm & H) | (e & Hm & ->)];
    [apply next_step_inv in Hm as [-> Hs] | by eapply (Hro _ _ _ (readonly_next_step _))].
  rewrite bind_this in H. cbn [fst snd] in *.
  destruct s as [s|]; [|unfold ret in H; by simplify_eq].
  destruct (s >? last_step (Propagator.self P)).
  - apply bind_inv in H as [(σ0 & σ1 & Hget & H) | (e & [=] & _)].
    injection Hget as <- <-.
    apply zoom_ret_inv in H as (R' & V'' & H & [= -> ->]).
    eapply reified_body_frame; [done | by apply bound_3 | exact H].
  - unfold ret in H. by simplify_eq.
Qed.

Lemma reified_step_facts fuel P V r P' V' :
  wf P →
  reified_step positive_propagator negative_propagator fuel (P, V)
  = Some (Ret (Num r), (P', V')) →
  wf P' ∧ 0 ≤ r
  ∧ (r = 0 →
     V' = V
     ∧ ∀ fuel', reified_step positive_propagator negative_propagator fuel' (P', V)
                = Some (Ret (Num 0), (P', V))).
Proof.
  apply (gated_facts sp ls 3 (λ _ _, 0)
           (reified_step positive_propagator negative_propagator) wf (Num 0)).
  - intros; lia.
  - done.
  - apply reified_step_gate.
  - apply reified_step_frame.
  - apply reified_step_closed.
  - apply reified_step_nan.
Qed.
End reified_step.

(** * A step that returns 0 has changed nothing, and would return 0 again *)

Section simple_step.
Context (n : nat) (closed : Z → Z → Z) (m : nat → M (instance * vars_t) number).
Context (nan : number).
Context (closed_nonneg : ∀ l s, s ≤ l → 0 ≤ closed l s).
Context (closed_diag : ∀ s, closed s s = 0).
Context (Hkeeps : ∀ fuel sp ks V0,
            (∀ i k, (i < n)%nat → sp !! i = Some (Some k) → k ∈ ks) →
            keeps (step_inv sp ks V0) (m fuel)).
Context (Hgate : ∀ fuel I V r I' V',
            m fuel (I, V) = Some (Ret (Num r), (I', V')) →
            gate_result space last_step n closed I V r I' V').
Context (Hclosed : ∀ fuel I V ks s,
            bound n (space I) ks → sum_steps V ks = Some s → s ≤ last_step I →
            m fuel (I, V) = Some (Ret (Num (closed (last_step I) s)), (I, V))).
Context (Hnan : ∀ fuel I V ks,
            bound n (space I) ks → next_of V ks = Ret NaN →
            m fuel (I, V) = Some (Ret nan, (I, V))).

Lemma simple_step_facts fuel I V r I' V' :
  m fuel (I, V) = Some (Ret (Num r), (I', V')) →
  0 ≤ r ∧ (r = 0 → V' = V ∧ ∀ fuel', m fuel' (I', V) = Some (Ret (Num 0), (I', V))).
Proof using All.
  intros H.
  assert (Hg : ∀ fuel I V r I' V',
             (λ _ : instance, True) I → m fuel (I, V) = Some (Ret (Num r), (I', V')) →
             gate_result space last_step n closed I V r I' V').
  { intros; by eapply Hgate. }
  assert (Hf : ∀ fuel I V r I' V' ks,
             (λ _ : instance, True) I → m fuel (I, V) = Some (Ret (Num r), (I', V')) →
             bound n (space I) ks →
             space I' = space I ∧ advances ks V V' ∧ (λ _ : instance, True) I').
  { intros fuel0 J W r0 J' W' ks _ H0 Hb.
    assert (Hinv : step_inv (space J) ks W (J, W)).
    { split; [done | apply advances_refl]. }
    assert (Hks : ∀ i k, (i < n)%nat → space J !! i = Some (Some k) → k ∈ ks).
    { intros i k Hi Hk. by eapply bound_elem. }
    destruct (Hkeeps fuel0 _ _ W Hks _ _ _ Hinv H0) as [Hs Ha]. done. }
  destruct (gated_facts space last_step n closed m (λ _, True) nan
              closed_nonneg closed_diag Hg Hf Hclosed Hnan fuel I V r I' V' Logic.I H)
    as (_ & ? & ?).
  done.
Qed.

(** The same for the propagator that holds the instance. *)
Lemma zoom_step_facts fuel P V r P' V' :
  zoom Propagator.self Propagator.set_self (m fuel) (P, V)
  = Some (Ret (Num r), (P', V')) →
  Propagator.step P' = Propagator.step P
  ∧ 0 ≤ r
  ∧ (r = 0 →
     V' = V
     ∧ ∀ fuel', zoom Propagator.self Propagator.set_self (m fuel') (P', V)
                = Some (Ret (Num 0), (P', V))).
Proof using All.
  intros H. apply zoom_ret_inv in H as (I' & V'' & H & [= -> ->]).
  apply simple_step_facts in H as [Hr H0]. split; [done|]. split; [done|].
  intros Hz. destruct (H0 Hz) as [-> Hre]. split; [done|]. intros fuel'.
  unfold zoom. cbn [fst snd Propagator.self Propagator.set_self]. by rewrite Hre.
Qed.
End simple_step.

Lemma run_step_facts fuel P V r P' V' :
  wf_propagator P →
  run_step fuel (P, V) = Some (Ret (Num r), (P', V')) →
  wf_propagator P' ∧ 0 ≤ r
  ∧ (r = 0 → V' = V ∧ ∀ fuel', run_step fuel' (P', V) = Some (Ret (Num 0), (P', V))).
Proof.
  intros Hwf. unfold run_step. cbv zeta. rewrite bind_this. cbn [fst].
  destruct (Propagator.step P) as [c|op|op|op|k|k|pos neg] eqn:E.
  7: { intros H.
       apply (reified_step_facts pos neg) in H as ([Hs Hwf'] & Hr & H0); [|done].
       split; [done|]. split; [done|]. intros Hz. destruct (H0 Hz) as [-> Hre].
       split; [done|]. intros fuel'. rewrite bind_this. cbn [fst]. by rewrite Hs. }
  all: intros H.
  1: apply (zoom_step_facts 2 (λ _ _, 0) (cmp_run c) (Num 0)) in H as (Hs & Hr & H0);
       try solve [ intros; lia | done | intros; by apply cmp_run_keeps
                 | intros; by eapply cmp_run_gate | intros; by eapply cmp_run_closed
                 | intros; by eapply cmp_run_nan ].
  2: apply (zoom_step_facts 3 (λ l s, l - s) (λ _, ring_sum_step op) NaN)
       in H as (Hs & Hr & H0);
       try solve [ intros; lia | done | intros; by apply ring_sum_step_keeps
                 | intros; by eapply ring_sum_step_gate | intros; by eapply ring_sum_step_closed
                 | intros; by eapply ring_sum_step_nan ].
  3: apply (zoom_step_facts 3 (λ l s, l - s) (λ _, ring_v1_step op) NaN)
       in H as (Hs & Hr & H0);
       try solve [ intros; lia | done | intros; by apply ring_v1_step_keeps
                 | intros; by eapply ring_v1_step_gate | intros; by eapply ring_v1_step_closed
                 | intros; by eapply ring_v1_step_nan ].
  4: apply (zoom_step_facts 3 (λ l s, l - s) (λ _, ring_v2_step op) NaN)
       in H as (Hs & Hr & H0);
       try solve [ intros; lia | done | intros; by apply ring_v2_step_keeps
                 | intros; by eapply ring_v2_step_gate | intros; by eapply ring_v2_step_closed
                 | intros; by eapply ring_v2_step_nan ].
  5: apply (zoom_step_facts 2 (λ _ _, 0) (λ _, scale_prod_step k) (Num 0))
       in H as (Hs & Hr & H0);
       try solve [ intros; lia | done | intros; by apply scale_prod_step_keeps
                 | intros; by eapply scale_prod_step_gate | intros; by eapply scale_prod_step_closed
                 | intros; by eapply scale_prod_step_nan ].
  6: apply (zoom_step_facts 2 (λ _ _, 0) (λ _, scale_v_step k) (Num 0))
       in H as (Hs & Hr & H0);
       try solve [ intros; lia | done | intros; by apply scale_v_step_keeps
                 | intros; by eapply scale_v_step_gate | intros; by eapply scale_v_step_closed
                 | intros; by eapply scale_v_step_nan ].
  all: (split; [unfold wf_propagator; by rewrite Hs, E|]); (split; [done|]);
    intros Hz; destruct (H0 Hz) as [-> Hre]; (split; [done|]); intros fuel';
    rewrite bind_this; cbn [fst]; rewrite Hs, E; exact (Hre fuel').
Qed.

(** A pass over the propagators: it adds up what the steps return. *)
Lemma pass_facts fuel ps :
  Forall wf_propagator ps →
  ∀ σ r ps' V',
    pass fuel ps σ = Some (Ret (Num r), (ps', V')) →
    Forall wf_propagator ps' ∧ 0 ≤ r
    ∧ (r = 0 →
       V' = σ.2
       ∧ ∀ P, P ∈ ps' → ∀ fuel', run_step fuel' (P, σ.2) = Some (Ret (Num 0), (P, σ.2))).
Proof.
  induction 1 as [|P ps Hwf Hall IH]; intros σ r ps' V' H; cbn [pass] in H.
  - simplify_eq. split; [constructor|]. split; [done|]. intros _. split; [done|].
    intros P HP. by apply elem_of_nil in HP.
  - destruct (run_step fuel (P, σ.2)) as [[[n|e] [P1 V1]]|] eqn:E1; [|done..].
    destruct (pass fuel ps (ps, V1)) as [[[m|e] [ps2 V2]]|] eqn:E2; [|done..].
    simplify_eq. destruct n as [n|], m as [m|]; simplify_eq/=.
    apply run_step_facts in E1 as (Hwf1 & Hn & H1); [|done].
    apply IH in E2 as (Hwf2 & Hm & H2). cbn [snd] in H2.
    split; [by constructor|]. split; [lia|]. intros Hz.
    destruct H1 as [-> H1]; [lia|]. destruct H2 as [-> H2]; [lia|].
    split; [done|]. intros Q [->|HQ]%elem_of_cons fuel'; [apply H1 | by apply H2].
Qed.

Lemma propagate_pass_facts fuel S r S' :
  wf_space S → propagate_pass fuel S = Some (Ret (Num r), S') →
  wf_space S' ∧ 0 ≤ r
  ∧ (r = 0 →
     Space.vars S' = Space.vars S
     ∧ ∀ P, P ∈ Space._propagators S' →
            ∀ fuel', run_step fuel' (P, Space.vars S)
                     = Some (Ret (Num 0), (P, Space.vars S))).
Proof.
  intros Hwf H. unfold propagate_pass in H.
  destruct (pass fuel _ _) as [[o [ps V]]|] eqn:E; [|done]. simplify_eq.
  apply pass_facts in E as (Hwf' & Hr & H0); [|done]. done.
Qed.

Lemma propagate_from_facts fuel n :
  ∀ totalCount S total S',
    wf_space S → propagate_from fuel n totalCount S = Some (Ret (Num total), S') →
    wf_space S'
    ∧ ∀ P, P ∈ Space._propagators S' →
           ∀ fuel', run_step fuel' (P, Space.vars S')
                    = Some (Ret (Num 0), (P, Space.vars S')).
Proof.
  induction n as [|n IH]; intros totalCount S total S' Hwf H; [done|].
  cbn [propagate_from] in H. apply bind_ret_inv in H as (count & S1 & H1 & H).
  destruct count as [count|].
  2: { unfold ret in H. cbn in H. by destruct totalCount; simplify_eq. }
  apply propagate_pass_facts in H1 as (Hwf1 & Hc & H0); [|done].
  cbn [Number.gtb] in H. destruct (count >? 0) eqn:E.
  - by eapply IH.
  - unfold ret in H. simplify_eq. destruct H0 as [HV H0]; [lia|].
    split; [done|]. rewrite HV. done.
Qed.

(** * The spaces that a script builds

    Their propagators are as [wf_space] has them: the methods add
    propagators through [newprop] only, [reified] binds its propagator
    to the variables of its two comparisons, and [propagate] keeps the
    bindings. *)

Lemma run_step_wf fuel P V o P' V' :
  wf_propagator P → run_step fuel (P, V) = Some (o, (P', V')) → wf_propagator P'.
Proof.
  intros Hwf. unfold run_step. cbv zeta. rewrite bind_this. cbn [fst].
  destruct (Propagator.step P) as [c|op|op|op|k|k|pos neg] eqn:E.
  7: { intros H. by apply (reified_step_wf pos neg fuel P V o P' V') in H as [_ ?]. }
  all: intros H; apply zoom_ret_inv in H as (I' & V'' & _ & [= -> ->]);
    unfold wf_propagator; cbn [Propagator.set_self Propagator.step]; by rewrite E.
Qed.

Lemma pass_wf fuel ps :
  Forall wf_propagator ps →
  ∀ σ o ps' V', pass fuel ps σ = Some (o, (ps', V')) → Forall wf_propagator ps'.
Proof.
  induction 1 as [|P ps Hwf Hall IH]; intros σ o ps' V' H; cbn [pass] in H.
  - simplify_eq. constructor.
  - destruct (run_step fuel (P, σ.2)) as [[[n|e] [P1 V1]]|] eqn:E1; [| |done].
    + apply run_step_wf in E1; [|done].
      destruct (pass fuel ps (ps, V1)) as [[[m|e] [ps2 V2]]|] eqn:E2; [| |done];
        apply IH in E2; simplify_eq; by constructor.
    + apply run_step_wf in E1; [|done]. simplify_eq. by constructor.
Qed.

Lemma propagate_from_wf fuel n :
  ∀ totalCount S o S',
    wf_space S → propagate_from fuel n totalCount S = Some (o, S') → wf_space S'.
Proof.
  induction n as [|n IH]; intros totalCount S o S' Hwf H; [done|].
  cbn [propagate_from] in H.
  assert (Hpass : ∀ o1 S1, propagate_pass fuel S = Some (o1, S1) → wf_space S1).
  { intros o1 S1 H1. unfold propagate_pass in H1.
    destruct (pass fuel _ _) as [[o2 [ps V]]|] eqn:E; [|done]. simplify_eq.
    by apply pass_wf in E. }
  apply bind_inv in H as [(count & S1 & H1 & H) | (e & H1 & ->)]; [|by eapply Hpass].
  apply Hpass in H1. destruct (Number.gtb count (Num 0)).
  - by eapply IH.
  - unfold ret in H. by simplify_eq.
Qed.

(** ** The methods *)

Lemma same_propagators_wf {A} (m : method A) :
  (∀ σ o σ', m σ = Some (o, σ') → Space._propagators σ'.2 = Space._propagators σ.2) →
  method_wf m.
Proof.
  intros Hm σ o σ' HJ H. apply Hm in H.
  assert (wf_space σ'.2) by (unfold wf_space in *; by rewrite H). by destruct o.
Qed.

Lemma get_vars_wf : method_wf get_vars.
Proof. apply same_propagators_wf. by intros σ o σ' [= <- <-]. Qed.

Lemma put_var_wf k v : method_wf (put_var k v).
Proof. apply same_propagators_wf. by intros σ o σ' [= <- <-]. Qed.

Lemma decl_wf name_or_names dom : method_wf (decl name_or_names dom).
Proof.
  induction name_or_names as [n|l IH] using names_induction.
  - apply same_propagators_wf. intros [g s] o σ'. rewrite decl_one_eq.
    intros [= <- <-]. cbn [snd]. destruct (Space.vars s !! key n); [by destruct dom|].
    by destruct (inherited (key n)).
  - simpl. apply keeps_bind; [|intros; apply keeps_ret].
    induction IH as [|x l Hx _ IHl]; [apply keeps_ret|].
    apply keeps_bind; [exact Hx | by intros _].
Qed.

Lemma temp_wf dom : method_wf (temp dom).
Proof.
  unfold temp. apply keeps_bind; [apply keeps_get|]. intros σ0. cbv zeta.
  apply keeps_bind; [by apply keeps_modify|]. intros _.
  apply keeps_bind; [apply decl_wf | intros; apply keeps_ret].
Qed.

Lemma newprop_wf allvars depvars step :
  (∀ V, wf_propagator {| Propagator.allvars := allvars;
                         Propagator.depvars := depvars;
                         Propagator.step := step;
                         Propagator.self := initprop V allvars;
                         Propagator.p := None;
                         Propagator.np := None |}) →
  method_wf (newprop allvars depvars step).
Proof.
  intros Hwf. unfold newprop. apply keeps_bind; [|intros; apply keeps_ret].
  apply keeps_modify. intros [g S] HJ. cbn [snd Space.set_propagators Space._propagators] in *.
  unfold wf_space. cbn [Space._propagators]. apply Forall_app. split; [done|].
  constructor; [apply Hwf | constructor].
Qed.

Lemma newprop_simple_wf allvars depvars step :
  match step with step_reified _ _ => False | _ => True end →
  method_wf (newprop allvars depvars step).
Proof. intros Hs. apply newprop_wf. intros V. unfold wf_propagator. by destruct step. Qed.

Lemma pop_template_wf : method_wf pop_template.
Proof.
  intros σ o σ' HJ. unfold pop_template.
  destruct (reverse (Space._propagators σ.2)) as [|P ps] eqn:E; [by intros [= <- <-]|].
  destruct (Propagator.step P); intros [= <- <-]; try done.
  cbn [snd Space.set_propagators]. unfold wf_space in *. cbn [Space._propagators].
  apply (f_equal reverse) in E. rewrite reverse_involutive, reverse_cons in E.
  rewrite E in HJ. by apply Forall_app in HJ as [? _].
Qed.

Lemma bind_wf {A B} (m : method A) (f : A → method B) :
  method_wf m → (∀ a, method_wf (f a)) → method_wf (let* a := m in f a).
Proof. apply keeps_bind. Qed.

Lemma ret_wf {A} (a : A) : method_wf (ret a).
Proof. apply keeps_ret. Qed.

Lemma throw_wf {A} e : method_wf (throw (A := A) e).
Proof. apply keeps_throw. Qed.

Lemma lift_wf {A} (x : outcome A) : method_wf (lift x).
Proof. apply keeps_lift. Qed.

Lemma out_of_fuel_wf {A} : method_wf (out_of_fuel (A := A)).
Proof. apply keeps_out_of_fuel. Qed.

Lemma for_each_wf {A} (l : list A) (body : A → method unit) :
  (∀ x, method_wf (body x)) → method_wf (for_each l body).
Proof. apply keeps_for_each. Qed.

Create HintDb wf discriminated.

#[local] Hint Resolve ret_wf throw_wf lift_wf out_of_fuel_wf get_vars_wf
  put_var_wf decl_wf temp_wf pop_template_wf : wf.

Ltac wf :=
  repeat first
    [ progress intros
    | solve [eauto with wf]
    | apply newprop_simple_wf; exact Logic.I
    | apply bind_wf
    | apply for_each_wf
    | match goal with
      | |- method_wf (match ?x with _ => _ end) => destruct x
      | |- method_wf (if ?c then _ else _) => destruct c
      | |- method_wf (let _ := _ in _) => cbv zeta
      end ].

Lemma temps_wf N dom : method_wf (temps N dom).
Proof. induction N; cbn [temps]; wf. Qed.

Lemma konst_wf val : method_wf (konst val).
Proof. unfold konst. wf. Qed.

Lemma num_wf name n : method_wf (num name n).
Proof. unfold num. wf. Qed.

Lemma eq_wf v1name v2name : method_wf (eq v1name v2name).
Proof. unfold eq. wf. Qed.

Lemma lt_wf v1name v2name : method_wf (lt v1name v2name).
Proof. unfold lt. wf. Qed.

Lemma lte_wf v1name v2name : method_wf (lte v1name v2name).
Proof. unfold lte. wf. Qed.

Lemma neq_wf v1name v2name : method_wf (neq v1name v2name).
Proof. unfold neq. wf. Qed.

#[local] Hint Resolve temps_wf konst_wf num_wf eq_wf lt_wf lte_wf neq_wf : wf.

Lemma distinct_wf vars : method_wf (distinct vars).
Proof. unfold distinct. wf. Qed.

Lemma or_temp_wf resultName : method_wf (or_temp resultName).
Proof. unfold or_temp. wf. Qed.

#[local] Hint Resolve distinct_wf or_temp_wf : wf.

Lemma ring_wf plusop minusop v1name v2name sumname :
  method_wf (ring plusop minusop v1name v2name sumname).
Proof. unfold ring. wf. Qed.

#[local] Hint Resolve ring_wf : wf.

Lemma scale_wf factor vname prodname : method_wf (scale factor vname prodname).
Proof. unfold scale. wf. Qed.

Lemma name_of_wf r : method_wf (name_of r).
Proof. unfold name_of. wf. Qed.

#[local] Hint Resolve scale_wf name_of_wf : wf.

Lemma plus_wf v1name v2name sumname : method_wf (plus v1name v2name sumname).
Proof. unfold plus. wf. Qed.

Lemma times_wf dom_divby v1name v2name prodname :
  method_wf (times dom_divby v1name v2name prodname).
Proof. unfold times. wf. Qed.

#[local] Hint Resolve plus_wf times_wf : wf.

Lemma times_plus_wf k1 v1name k2 v2name resultname :
  method_wf (times_plus k1 v1name k2 v2name resultname).
Proof. unfold times_plus. wf. Qed.

Lemma sum_rec_wf fuel : ∀ vars resultName, method_wf (sum_rec fuel vars resultName).
Proof.
  induction fuel as [|fuel IH]; intros vars resultName.
  - cbn [sum_rec]. wf.
  - cbn [sum_rec]. wf; apply IH.
Qed.

Lemma product_rec_wf dom_divby fuel :
  ∀ vars resultName, method_wf (product_rec dom_divby fuel vars resultName).
Proof.
  induction fuel as [|fuel IH]; intros vars resultName.
  - cbn [product_rec]. wf.
  - cbn [product_rec]. wf; apply IH.
Qed.

Lemma sum_wf vars resultName : method_wf (sum vars resultName).
Proof. apply sum_rec_wf. Qed.

Lemma product_wf dom_divby vars resultName :
  method_wf (product dom_divby vars resultName).
Proof. apply product_rec_wf. Qed.

#[local] Hint Resolve times_plus_wf sum_wf product_wf : wf.

Lemma wsum_wf kweights vars resultName : method_wf (wsum kweights vars resultName).
Proof.
  unfold wsum. apply bind_wf; [|wf].
  induction (zip kweights vars) as [|kv l IH]; wf.
Qed.

Lemma constrain_var_wf n d : method_wf (constrain_var n d).
Proof. unfold constrain_var. wf. Qed.

#[local] Hint Resolve wsum_wf constrain_var_wf : wf.

(** ** [reified] *)

(** The template that [reified] makes of a comparison is on the two
    arguments, and the space is as before. *)
Lemma apply_operator_pop op argv σ :
  ∃ t, (∀ n, n ∈ t_allvars t → n = argv.1 ∨ n = argv.2)
       ∧ ∀ B (k : template → method B),
           (apply_operator op argv ;; let* t := pop_template in k t) σ = k t σ.
Proof.
  destruct σ as [g [vars props]].
  destruct op; cbn [apply_operator]; unfold gt, gte; unfold eq, neq, lt, lte, newprop;
    (eexists; split;
     [|intros B k; unfold bind, modify, ret, pop_template;
       cbn [fst snd]; unfold Space.set_propagators;
       cbn [Space._propagators Space.vars];
       rewrite reverse_snoc; cbn [Propagator.step Propagator.allvars Propagator.depvars];
       rewrite reverse_involutive; reflexivity]);
    cbn [t_allvars]; intros n Hn; rewrite !elem_of_cons in Hn;
    destruct Hn as [->|[->|Hn]]; auto; by apply elem_of_nil in Hn.
Qed.

Lemma reified_propagator_wf V a1 a2 b pos neg depvars :
  (∀ n, n ∈ t_allvars pos ++ t_allvars neg → n = a1 ∨ n = a2) →
  wf_propagator {| Propagator.allvars := [a1; a2; b];
                   Propagator.depvars := depvars;
                   Propagator.step := step_reified pos neg;
                   Propagator.self := initprop V [a1; a2; b];
                   Propagator.p := None;
                   Propagator.np := None |}.
Proof.
  intros Hin. unfold wf_propagator. cbn [Propagator.step Propagator.p Propagator.np].
  split; [|by intros q k [[=]|[=]]].
  intros n Hn ks [Hb Hl]. cbn [Propagator.self initprop space fmap list_fmap take] in Hb.
  destruct ks as [|k1 [|k2 [|k3 [|]]]]; try discriminate Hl.
  cbn [fmap list_fmap] in Hb. injection Hb as Hb1 Hb2 Hb3.
  assert (k1 = key a1) as ->
    by (destruct (V !! key a1); [|destruct (inherited (key a1))]; by simplify_eq).
  assert (k2 = key a2) as ->
    by (destruct (V !! key a2); [|destruct (inherited (key a2))]; by simplify_eq).
  rewrite !elem_of_cons. destruct (Hin n Hn) as [->| ->]; auto.
Qed.

Lemma reified_wf opname argv boolname : method_wf (reified opname argv boolname).
Proof.
  unfold reified. destruct (operator_of opname) as [op|]; [|wf].
  apply bind_wf; [wf|]. intros r. cbv zeta.
  intros σ o σ' HJ H.
  destruct (apply_operator_pop op argv σ) as (pos & Hpos & E1). rewrite E1 in H.
  destruct (apply_operator_pop (complementary_operator op) argv σ) as (neg & Hneg & E2).
  rewrite E2 in H. clear E1 E2. revert σ o σ' HJ H.
  apply bind_wf; [|wf]. apply newprop_wf. intros V.
  apply reified_propagator_wf. intros n [Hn|Hn]%elem_of_app; auto.
Qed.

#[local] Hint Resolve reified_wf : wf.

Lemma on_space_wf {A} (m : M Space.t A) :
  (∀ S o S', wf_space S → m S = Some (o, S') → wf_space S') → method_wf (on_space m).
Proof.
  intros Hm σ o σ' HJ. unfold on_space.
  destruct (m σ.2) as [[o' S']|] eqn:E; [|done]. intros [= <- <-].
  apply Hm in E; [|done]. by destruct o'.
Qed.

Lemma invoke_wf dom_divby c : method_wf (invoke dom_divby c).
Proof.
  destruct c; unfold invoke, forget, gt, gte; wf.
  apply on_space_wf. intros S o S'. apply propagate_from_wf.
Qed.

Lemma act_wf dom_divby a w w' :
  act dom_divby a w = Some w' → Forall wf_space (spaces w) → Forall wf_space (spaces w').
Proof.
  destruct a as [|i c]; cbn [act].
  - intros [= <-] Hw. cbn [spaces]. apply Forall_app. split; [done|].
    constructor; [constructor | constructor].
  - destruct (spaces w !! i) as [S|] eqn:Ei; [|by intros [= <-]].
    destruct (invoke dom_divby c (shared w, S)) as [[o [g S']]|] eqn:E; [|done].
    intros [= <-] Hw. cbn [spaces]. apply Forall_insert; [done|].
    assert (HS : wf_space S).
    { eapply (proj1 (Forall_forall _ _) Hw). by eapply list_elem_of_lookup_2. }
    pose proof (invoke_wf dom_divby c (shared w, S) o (g, S') HS E). by destruct o.
Qed.

(** Every space of a script that starts with no space has its
    propagators as the methods make them. *)
Lemma run_wf dom_divby script : ∀ w w',
  run dom_divby script w = Some w' →
  Forall wf_space (spaces w) → Forall wf_space (spaces w').
Proof.
  induction script as [|a script IH]; intros w w'; cbn [run]; [by intros [= <-]|].
  destruct (act dom_divby a w) as [w1|] eqn:E; [|done].
  intros Hr Hw. eapply IH; [exact Hr|]. by eapply act_wf.
Qed.

Lemma script_spaces_wf dom_divby script w S :
  run dom_divby script world_init = Some w → S ∈ spaces w → wf_space S.
Proof.
  intros Hr HS. eapply (proj1 (Forall_forall _ _)); [|exact HS].
  eapply run_wf; [exact Hr | constructor].
Qed.

(** ** C6 *)



Lemma example_space_wf : wf_space example_space.
Proof.
  unfold wf_space.
  let ps := eval vm_compute in (Space._propagators example_space) in
  assert (E : Space._propagators example_space = ps) by (vm_compute; reflexivity);
  rewrite E; clear E.
  repeat constructor.
  - intros n Hn ks [Hb Hl]. cbn in Hb, Hn.
    destruct ks as [|k1 [|k2 [|k3 [|]]]]; try discriminate Hl.
    injection Hb as <- <- <-.
    rewrite !elem_of_cons in Hn. rewrite !elem_of_cons.
    destruct Hn as [->|[->|[->|[->|Hn]]]]; cbn; auto.
    by apply elem_of_nil in Hn.
  - intros q k [[=]|[=]].
Qed.


(** * The step of [lt] *)

(** ** Bounds of a domain *)

Lemma csis_cons i d : csis (i :: d) → i.1 ≤ i.2 ∧ Forall (λ j : interval, i.2 < j.1) d ∧ csis d.
Proof.
  revert i. induction d as [|j d IH]; intros i [Hn Hd].
  - apply Forall_cons in Hn as [Hi _]. split; [done|]. split; [constructor|].
    split; [constructor | done].
  - apply Forall_cons in Hn as [Hi Hn]. destruct Hd as [Hij Hd].
    destruct (IH j) as (Hj & Hall & Hc); [by split|].
    split; [done|]. split; [|by split].
    constructor; [done|]. eapply Forall_impl; [exact Hall|]. simpl. lia.
Qed.

Lemma last_cons_elem (i : interval) d : List.last (i :: d) i ∈ i :: d.
Proof.
  revert i. induction d as [|j d IH]; intros i; [by left|].
  change (List.last (i :: j :: d) i) with (List.last (j :: d) i).
  right. destruct d as [|k d]; [by left|].
  specialize (IH j). change (List.last (j :: k :: d) i) with (List.last (k :: d) i).
  change (List.last (j :: k :: d) j) with (List.last (k :: d) j) in IH.
  assert (E : ∀ a b : interval, List.last (k :: d) a = List.last (k :: d) b).
  { clear. revert k. induction d as [|k' d IH]; intros k a b; [done|].
    change (List.last (k' :: d) a = List.last (k' :: d) b). apply IH. }
  by rewrite (E i j).
Qed.

Lemma csis_hi_le d : csis d → ∀ i, i ∈ d → ∀ d0, i.2 ≤ (List.last d d0).2.
Proof.
  induction d as [|j d IH]; intros Hc i Hi d0; [by apply elem_of_nil in Hi|].
  apply csis_cons in Hc as (Hj & Hall & Hc).
  destruct d as [|k d].
  - apply list_elem_of_singleton in Hi as ->. simpl. lia.
  - change (List.last (j :: k :: d) d0) with (List.last (k :: d) d0).
    apply elem_of_cons in Hi as [->|Hi]; [|by apply IH].
    pose proof (IH Hc k ltac:(by left) d0) as Hk.
    apply Forall_cons in Hall as [Hjk _].
    apply csis_cons in Hc as (Hk' & _). lia.
Qed.

(** The bounds of a domain in the form the code keeps are its least
    and its greatest integer. *)
Lemma csis_bounds d lo hi :
  csis d → domain_bounds d = Ret (lo, hi) →
  contains d lo ∧ contains d hi ∧ ∀ z, contains d z → lo ≤ z ≤ hi.
Proof.
  intros Hc Hb. destruct d as [|i d]; [done|].
  change (Ret (i.1, (List.last (i :: d) i).2) = Ret (lo, hi)) in Hb.
  pose proof (last_cons_elem i d) as Hlast.
  pose proof (λ j Hj, csis_hi_le _ Hc j Hj i) as Hhi.
  remember (List.last (i :: d) i) as l eqn:El. clear El.
  injection Hb as <- <-.
  pose proof (csis_cons _ _ Hc) as (Hi & Hall & Hcd).
  assert (Hne : ∀ j, j ∈ i :: d → j.1 ≤ j.2).
  { intros j Hj. destruct Hc as [Hn _]. by eapply (proj1 (Forall_forall _ _) Hn). }
  split; [|split].
  - exists i. split; [by left | lia].
  - exists l. split; [done|]. split; [by apply Hne | lia].
  - intros z (j & Hj & Hz). specialize (Hhi j Hj).
    split; [|lia]. apply elem_of_cons in Hj as [->|Hj]; [lia|].
    pose proof (proj1 (Forall_forall _ _) Hall j Hj) as Hlt. simpl in Hlt. lia.
Qed.

Lemma contains_not_nil d z : contains d z → d ≠ [].
Proof. intros H ->. by apply contains_nil in H. Qed.

Lemma domain_bounds_ret d : d ≠ [] → ∃ lo hi, domain_bounds d = Ret (lo, hi).
Proof. destruct d as [|i d]; [done|]. intros _. simpl. eauto. Qed.

(** ** Intersection with one interval *)

Lemma domain_intersection_interval d mn mx :
  (1 < length d)%nat → domain_intersection d [(mn, mx)] None = flat_map (clip mn mx) d.
Proof. destruct d as [|i [|j d]]; simpl; [lia..|]. intros _. reflexivity. Qed.

Lemma domain_intersection_one i mn mx :
  domain_intersection [i] [(mn, mx)] None
  = (let mn' := if i.1 >? mn then i.1 else mn in
     let mx' := if i.2 <? mx then i.2 else mx in
     if mx' >=? mn' then [(mn', mx')] else []).
Proof. reflexivity. Qed.

Lemma clip_csis mn mx d :
  mn ≤ mx → csis d →
  csis (flat_map (clip mn mx) d)
  ∧ ∀ h, Forall (λ j : interval, h < j.1) d →
         Forall (λ j : interval, h < j.1) (flat_map (clip mn mx) d).
Proof.
  intros Hm. induction d as [|i d IH]; intros Hc.
  - split; [split; constructor | intros; constructor].
  - apply csis_cons in Hc as (Hi & Hall & Hc). destruct (IH Hc) as [[Hn Hd] Hh].
    assert (Hclip : ∀ h, h < i.1 → Forall (λ j : interval, h < j.1) (clip mn mx i)).
    { intros h Hlt. unfold clip. destruct (_ && _); [|constructor].
      constructor; [|constructor]. simpl. destruct (mn >? i.1) eqn:E; lia. }
    split.
    + cbn [flat_map]. unfold clip at 1.
      destruct ((i.1 <=? mx) && (i.2 >=? mn)) eqn:E; [|by split].
      apply andb_true_iff in E as [E1 E2]. cbn [app]. split.
      * constructor; [|done]. simpl.
        destruct (mn >? i.1) eqn:?, (mx <? i.2) eqn:?; lia.
      * apply disjoint_sorted_cons. split; [|done]. intros j Hj.
        assert (Hjin : j ∈ flat_map (clip mn mx) d).
        { destruct (flat_map _ d); simplify_eq/=. by left. }
        pose proof (proj1 (Forall_forall _ _) (Hh i.2 Hall) j Hjin) as Hlt.
        simpl in *. destruct (mx <? i.2) eqn:?; lia.
    + intros h Hall'. apply Forall_cons in Hall' as [Hhi Hall'].
      cbn [flat_map]. apply Forall_app. split; [by apply Hclip | by apply Hh].
Qed.

Lemma domain_intersection_interval_csis d mn mx :
  csis d → mn ≤ mx → csis (domain_intersection d [(mn, mx)] None).
Proof.
  intros Hc Hm. destruct d as [|i [|j d]].
  - split; constructor.
  - rewrite domain_intersection_one. cbv zeta.
    destruct (_ >=? _) eqn:E; [|split; constructor].
    split; [|done]. constructor; [|constructor]. simpl. lia.
  - rewrite domain_intersection_interval by (simpl; lia). by apply clip_csis.
Qed.

Lemma domain_intersection_interval_contains d mn mx z :
  contains (domain_intersection d [(mn, mx)] None) z ↔ contains d z ∧ mn ≤ z ≤ mx.
Proof.
  unfold domain_intersection. rewrite domain_intersection_rec_contains by done.
  rewrite contains_singleton. simpl. split; [|tauto].
  intros [H|H]; [by apply contains_nil in H | done].
Qed.

Lemma flat_map_clip_nil mn mx l :
  (∀ k : interval, k ∈ l → mx < k.1 ∨ k.2 < mn) → flat_map (clip mn mx) l = [].
Proof.
  induction l as [|k l IH]; intros Hall; [done|]. cbn [flat_map].
  rewrite IH by (intros ? ?; apply Hall; by right).
  pose proof (Hall k ltac:(by left)). unfold clip.
  destruct (k.1 <=? mx) eqn:?, (k.2 >=? mn) eqn:?; try done; lia.
Qed.

(** An interval that ends before the domain begins, or begins after it
    ends, leaves nothing. *)
Lemma domain_intersection_interval_nil d lo hi mn mx :
  csis d → domain_bounds d = Ret (lo, hi) → mx < lo ∨ hi < mn →
  domain_intersection d [(mn, mx)] None = [].
Proof.
  intros Hc Hb Hout.
  assert (Hall : ∀ i, i ∈ d → lo ≤ i.1 ∧ i.1 ≤ i.2 ∧ i.2 ≤ hi).
  { intros i Hi. destruct (csis_bounds _ _ _ Hc Hb) as (_ & _ & Hz).
    assert (i.1 ≤ i.2).
    { destruct Hc as [Hn _]. by apply (proj1 (Forall_forall _ _) Hn). }
    pose proof (Hz i.1 ltac:(exists i; split; [done|lia])).
    pose proof (Hz i.2 ltac:(exists i; split; [done|lia])). lia. }
  destruct d as [|i [|j d]]; [done| |].
  - rewrite domain_intersection_one. cbv zeta.
    pose proof (Hall i ltac:(by left)).
    destruct (i.1 >? mn) eqn:?, (i.2 <? mx) eqn:?;
      match goal with |- (if ?c then _ else _) = _ => destruct c eqn:? end; try done; lia.
  - rewrite domain_intersection_interval by (simpl; lia).
    apply flat_map_clip_nil. intros k Hk. specialize (Hall k Hk). lia.
Qed.

(** ** One turn of the loop

    [x] and [y] are the variables bound under [v1] and [v2]; their
    domains are in the form the code keeps. *)

Section lt_turn.
Context (v1 v2 : string) (Hne : v1 ≠ v2).

Lemma lt_turn_fail I V x y x_lo x_hi y_lo y_hi :
  V !! v1 = Some x → V !! v2 = Some y →
  domain_bounds (FDVar.dom x) = Ret (x_lo, x_hi) →
  domain_bounds (FDVar.dom y) = Ret (y_lo, y_hi) →
  y_hi - 1 < x_hi →
  domain_intersection (FDVar.dom x) [(x_lo, y_hi - 1)] None = [] →
  lt_turn v1 v2 (I, V)
  = Some (Throw Fail, (set_last_step (FDVar.step x + FDVar.step y) I, V)).
Proof using Type.
  intros Hx Hy Hbx Hby Hc He. unfold lt_turn.
  erewrite bind_steps_sum by (cbn [snd sum_steps]; rewrite Hx, Hy; reflexivity).
  unfold bind at 1. unfold update_this at 1, modify at 1. cbn [fst snd].
  erewrite bind_read by (cbn [snd]; exact Hx).
  erewrite bind_read by (cbn [snd]; exact Hy).
  rewrite Hbx, Hby. unfold bind at 1, lift at 1. unfold bind at 1, lift at 1.
  cbn [fst snd]. destruct (y_hi - 1 <? x_hi) eqn:E; [|lia].
  rewrite He. unfold bind, lift. cbn. by rewrite Z.add_0_r.
Qed.

Lemma lt_turn_ret I V x y x_lo x_hi y_lo y_hi :
  V !! v1 = Some x → V !! v2 = Some y →
  domain_bounds (FDVar.dom x) = Ret (x_lo, x_hi) →
  domain_bounds (FDVar.dom y) = Ret (y_lo, y_hi) →
  (y_hi - 1 < x_hi → domain_intersection (FDVar.dom x) [(x_lo, y_hi - 1)] None ≠ []) →
  (x_lo + 1 > y_lo → domain_intersection (FDVar.dom y) [(x_lo + 1, y_hi)] None ≠ []) →
  let x' := narrowed x (y_hi - 1 <? x_hi) (x_lo, y_hi - 1) in
  let y' := narrowed y (x_lo + 1 >? y_lo) (x_lo + 1, y_hi) in
  lt_turn v1 v2 (I, V)
  = Some (Ret (FDVar.step x' + FDVar.step y' >? FDVar.step x + FDVar.step y),
          (set_last_step (FDVar.step x + FDVar.step y) I,
           <[v2 := y']> (<[v1 := x']> V))).
Proof using Hne.
  intros Hx Hy Hbx Hby H1 H2 x' y'. unfold lt_turn.
  erewrite bind_steps_sum by (cbn [snd sum_steps]; rewrite Hx, Hy; reflexivity).
  unfold bind at 1. unfold update_this at 1, modify at 1. cbn [fst snd].
  erewrite bind_read by (cbn [snd]; exact Hx).
  erewrite bind_read by (cbn [snd]; exact Hy).
  rewrite Hbx, Hby. unfold bind at 1, lift at 1. unfold bind at 1, lift at 1.
  cbn [fst snd]. rewrite Z.add_0_r.
  assert (E1 : ((if y_hi - 1 <? x_hi
                 then let* d := lift (domain_non_empty
                                 (domain_intersection (FDVar.dom x) [(x_lo, y_hi - 1)] None))
                      in set_dom v1 d
                 else ret tt) : M (instance * vars_t) unit)
                 (set_last_step (FDVar.step x + FDVar.step y) I, V)
               = Some (Ret tt, (set_last_step (FDVar.step x + FDVar.step y) I,
                                <[v1 := x']> V))).
  { subst x'. unfold narrowed. destruct (y_hi - 1 <? x_hi) eqn:E.
    - specialize (H1 ltac:(lia)).
      destruct (domain_intersection (FDVar.dom x) [(x_lo, y_hi - 1)] None)
        as [|i d] eqn:Ed; [done|].
      unfold bind at 1, lift at 1. cbn [domain_non_empty].
      unfold set_dom. erewrite bind_read by (cbn [snd]; exact Hx). done.
    - unfold ret. by rewrite (insert_id _ _ _ Hx). }
  unfold bind at 1. rewrite E1. clear E1.
  assert (Hy' : <[v1 := x']> V !! v2 = Some y) by by rewrite lookup_insert_ne.
  assert (E2 : ((if x_lo + 1 >? y_lo
                 then let* x2 := read v2 in
                      let* d := lift (domain_non_empty
                                 (domain_intersection (FDVar.dom x2) [(x_lo + 1, y_hi)] None))
                      in set_dom v2 d
                 else ret tt) : M (instance * vars_t) unit)
                 (set_last_step (FDVar.step x + FDVar.step y) I, <[v1 := x']> V)
               = Some (Ret tt, (set_last_step (FDVar.step x + FDVar.step y) I,
                                <[v2 := y']> (<[v1 := x']> V)))).
  { subst y'. unfold narrowed. destruct (x_lo + 1 >? y_lo) eqn:E.
    - specialize (H2 ltac:(lia)).
      erewrite bind_read by (cbn [snd]; exact Hy').
      destruct (domain_intersection (FDVar.dom y) [(x_lo + 1, y_hi)] None)
        as [|i d] eqn:Ed; [done|].
      unfold bind at 1, lift at 1. cbn [domain_non_empty].
      unfold set_dom. erewrite bind_read by (cbn [snd]; exact Hy'). done.
    - unfold ret. by rewrite (insert_id _ _ _ Hy'). }
  unfold bind at 1. rewrite E2. clear E2.
  erewrite bind_steps_sum; [rewrite bind_this; reflexivity|].
  cbn [snd sum_steps]. rewrite lookup_insert_ne, lookup_insert_eq by done.
  rewrite lookup_insert_eq. by rewrite Z.add_0_r.
Qed.
End lt_turn.

(** ** What a turn leaves of the two domains *)

Lemma domain_intersection_interval_bounds d lo hi mn mx z0 :
  csis d → domain_bounds d = Ret (lo, hi) → contains d z0 → mn ≤ z0 ≤ mx →
  let R := domain_intersection d [(mn, mx)] None in
  R ≠ [] ∧ csis R
  ∧ ∃ lo' hi', domain_bounds R = Ret (lo', hi')
               ∧ (∀ z, contains d z → mn ≤ z ≤ mx → lo' ≤ z ≤ hi')
               ∧ lo ≤ lo' ∧ hi' ≤ hi ∧ mn ≤ lo' ∧ hi' ≤ mx.
Proof.
  intros Hc Hb Hz0 Hm R.
  assert (HR : contains R z0) by (apply domain_intersection_interval_contains; done).
  assert (Hne : R ≠ []) by by eapply contains_not_nil.
  assert (HcR : csis R) by (apply domain_intersection_interval_csis; [done | lia]).
  split; [done|]. split; [done|].
  destruct (domain_bounds_ret R Hne) as (lo' & hi' & HbR). exists lo', hi'.
  split; [done|].
  destruct (csis_bounds _ _ _ HcR HbR) as (Hlo & Hhi & Hall).
  destruct (csis_bounds _ _ _ Hc Hb) as (_ & _ & Hd).
  apply domain_intersection_interval_contains in Hlo as [Hlo1 Hlo2].
  apply domain_intersection_interval_contains in Hhi as [Hhi1 Hhi2].
  pose proof (Hd _ Hlo1). pose proof (Hd _ Hhi1).
  split; [|lia]. intros z Hz Hzm. apply Hall.
  by apply domain_intersection_interval_contains.
Qed.

Section lt_narrowed.
Context (x y : FDVar.t) (x_lo x_hi y_lo y_hi : Z).
Context (Hcx : csis (FDVar.dom x)) (Hcy : csis (FDVar.dom y)).
Context (Hbx : domain_bounds (FDVar.dom x) = Ret (x_lo, x_hi)).
Context (Hby : domain_bounds (FDVar.dom y) = Ret (y_lo, y_hi)).

Lemma lt_narrowed_x :
  x_lo < y_hi →
  let x' := narrowed x (y_hi - 1 <? x_hi) (x_lo, y_hi - 1) in
  domain_intersection (FDVar.dom x) [(x_lo, y_hi - 1)] None ≠ []
  ∧ csis (FDVar.dom x')
  ∧ ∃ hx, domain_bounds (FDVar.dom x') = Ret (x_lo, hx) ∧ hx ≤ y_hi - 1.
Proof using Hcx Hbx.
  intros Hlt x'.
  destruct (csis_bounds _ _ _ Hcx Hbx) as (Hlo & Hhi & Hall).
  destruct (domain_intersection_interval_bounds (FDVar.dom x) x_lo x_hi x_lo (y_hi - 1) x_lo)
    as (Hne & HcR & lo' & hi' & HbR & Hmin & ? & ? & ? & ?); [done | done | done | lia |].
  split; [done|]. subst x'. unfold narrowed. destruct (y_hi - 1 <? x_hi) eqn:E.
  - rewrite set_dom_dom. split; [done|]. exists hi'.
    assert (lo' = x_lo) as -> by (specialize (Hmin x_lo Hlo); lia). split; [done | lia].
  - split; [done|]. exists x_hi. split; [done | lia].
Qed.

Lemma lt_narrowed_y :
  x_lo < y_hi →
  let y' := narrowed y (x_lo + 1 >? y_lo) (x_lo + 1, y_hi) in
  domain_intersection (FDVar.dom y) [(x_lo + 1, y_hi)] None ≠ []
  ∧ csis (FDVar.dom y')
  ∧ ∃ ly, domain_bounds (FDVar.dom y') = Ret (ly, y_hi) ∧ x_lo + 1 ≤ ly.
Proof using Hcy Hby.
  intros Hlt y'.
  destruct (csis_bounds _ _ _ Hcy Hby) as (Hlo & Hhi & Hall).
  destruct (domain_intersection_interval_bounds (FDVar.dom y) y_lo y_hi (x_lo + 1) y_hi y_hi)
    as (Hne & HcR & lo' & hi' & HbR & Hmin & ? & ? & ? & ?); [done | done | done | lia |].
  split; [done|]. subst y'. unfold narrowed. destruct (x_lo + 1 >? y_lo) eqn:E.
  - rewrite set_dom_dom. split; [done|]. exists lo'.
    assert (hi' = y_hi) as -> by (specialize (Hmin y_hi Hhi); lia). split; [done | lia].
  - split; [done|]. exists y_lo. split; [done | lia].
Qed.
End lt_narrowed.

(** ** The step *)

Section lt_step.
Context (I : instance) (V : vars_t) (v1 v2 : string) (x y : FDVar.t).
Context (x_lo x_hi y_lo y_hi : Z).
Context (H1 : space I !! 0%nat = Some (Some v1)).
Context (H2 : space I !! 1%nat = Some (Some v2)).
Context (Hx : V !! v1 = Some x) (Hy : V !! v2 = Some y).
Context (Hbx : domain_bounds (FDVar.dom x) = Ret (x_lo, x_hi)).
Context (Hby : domain_bounds (FDVar.dom y) = Ret (y_lo, y_hi)).
Context (Hgate : last_step I < FDVar.step x + FDVar.step y).

Let n := FDVar.step x + FDVar.step y.

(** Past the gate and the test of the bounds. *)
Lemma lt_step_open fuel :
  lt_step fuel (I, V)
  = if y_lo >? x_hi
    then Some (Ret (Num 0), (set_solved true (set_last_step n I), V))
    else (do_while fuel (lt_turn v1 v2) ;;
          let* n' := steps_sum [v1; v2] in
          update_this (set_last_step n') ;;
          ret (Num (n' - n))) (set_last_step n I, V).
Proof using H1 H2 Hx Hy Hbx Hby Hgate.
  unfold lt_step.
  erewrite bind_fdvar by (cbn [fst Nat.sub]; exact H1).
  erewrite bind_fdvar by (cbn [fst Nat.sub]; exact H2).
  erewrite bind_next_step
    by (apply next_of_sum; cbn [snd sum_steps]; rewrite Hx, Hy; reflexivity).
  rewrite bind_this. cbn [fst]. rewrite Z.add_0_r. fold n.
  destruct (n >? last_step I) eqn:E; [|subst n; lia].
  erewrite bind_read by (cbn [snd]; exact Hx).
  erewrite bind_read by (cbn [snd]; exact Hy).
  rewrite Hbx, Hby. unfold bind at 1, lift at 1. unfold bind at 1, lift at 1.
  unfold bind at 1, update_this at 1, modify at 1. cbn [fst snd].
  destruct (y_lo >? x_hi); reflexivity.
Qed.
End lt_step.

(** ** The rule of [lt], repeated

    For any two variables with non-empty domains, in whatever form,
    and also when the two are the same variable. *)

Lemma interval_weight_pos i : 0 < interval_weight i.
Proof. unfold interval_weight. destruct (_ <=? _) eqn:E; lia. Qed.

Lemma domain_weight_nonneg d : 0 ≤ domain_weight d.
Proof.
  unfold domain_weight. induction d as [|i d IH]; cbn [foldr]; [done|].
  pose proof (interval_weight_pos i). lia.
Qed.

Lemma domain_weight_app d1 d2 :
  domain_weight (d1 ++ d2) = domain_weight d1 + domain_weight d2.
Proof.
  unfold domain_weight. induction d1 as [|i d1 IH]; cbn [foldr app]; [done|].
  rewrite IH. lia.
Qed.

Lemma clip_weight mn mx i :
  domain_weight (clip mn mx i) ≤ interval_weight i
  ∧ (domain_weight (clip mn mx i) = interval_weight i → clip mn mx i = [i]).
Proof.
  destruct i as [lo hi]. unfold clip, interval_weight, domain_weight. cbn [fst snd].
  destruct (lo <=? mx) eqn:E1, (hi >=? mn) eqn:E2; cbn [andb foldr];
    try (destruct (lo <=? hi) eqn:?; (split; [lia | intros; lia])).
  unfold interval_weight. cbn [fst snd].
  destruct (mn >? lo) eqn:E3, (mx <? hi) eqn:E4;
    repeat match goal with |- context [?a <=? ?b] => destruct (a <=? b) eqn:? end;
    (split; [lia|]); intros; try lia; repeat f_equal; lia.
Qed.

Lemma flat_map_clip_weight mn mx d :
  domain_weight (flat_map (clip mn mx) d) ≤ domain_weight d
  ∧ (domain_weight (flat_map (clip mn mx) d) = domain_weight d →
     flat_map (clip mn mx) d = d).
Proof.
  induction d as [|i d [IH1 IH2]]; [done|].
  cbn [flat_map]. rewrite domain_weight_app.
  change (domain_weight (i :: d)) with (interval_weight i + domain_weight d).
  destruct (clip_weight mn mx i) as [H1 H2]. split; [lia|].
  intros E. rewrite H2 by lia. rewrite IH2 by lia. done.
Qed.

Lemma intersection_weight d i :
  domain_weight (domain_intersection d [i] None) ≤ domain_weight d
  ∧ (domain_weight (domain_intersection d [i] None) = domain_weight d →
     domain_intersection d [i] None = d).
Proof.
  destruct i as [mn mx]. destruct d as [|j [|k d]].
  - done.
  - rewrite domain_intersection_one. cbv zeta. destruct j as [lo hi]. cbn [fst snd].
    unfold domain_weight, interval_weight.
    destruct (lo >? mn) eqn:E3, (hi <? mx) eqn:E4;
      match goal with |- context [?a >=? ?b] => destruct (a >=? b) eqn:? end;
      cbn [foldr fst snd];
      repeat match goal with |- context [?a <=? ?b] => destruct (a <=? b) eqn:? end;
      (split; [lia|]); intros; try lia; repeat f_equal; lia.
  - rewrite domain_intersection_interval by (simpl; lia). apply flat_map_clip_weight.
Qed.

(** [set_dom] of an intersection with an interval. *)
Lemma set_dom_weight v i :
  let v' := FDVar.set_dom v (domain_intersection (FDVar.dom v) [i] None) in
  FDVar.step v ≤ FDVar.step v'
  ∧ domain_weight (FDVar.dom v') ≤ domain_weight (FDVar.dom v)
  ∧ (FDVar.step v < FDVar.step v' →
     domain_weight (FDVar.dom v') < domain_weight (FDVar.dom v)).
Proof.
  intros v'. subst v'. rewrite set_dom_dom, set_dom_step.
  destruct (intersection_weight (FDVar.dom v) i) as [H1 H2].
  destruct (decide _) as [E|E]; [lia|]. split; [lia|]. split; [done|].
  intros _. destruct (decide (domain_weight (domain_intersection (FDVar.dom v) [i] None)
                              = domain_weight (FDVar.dom v))) as [E'|E']; [|lia].
  by rewrite H2 in E.
Qed.

Lemma live_revisions x y V vx vy :
  V !! x = Some vx → V !! y = Some vy →
  sum_steps V [x; y] = Some (FDVar.step vx + FDVar.step vy)
  ∧ revisions x y V = FDVar.step vx + FDVar.step vy
  ∧ weight x y V = domain_weight (FDVar.dom vx) + domain_weight (FDVar.dom vy).
Proof.
  intros Hx Hy. unfold revisions, weight. cbn [sum_steps]. rewrite Hx, Hy. cbn.
  rewrite Z.add_0_r. done.
Qed.

Lemma weight_nonneg x y V : 0 ≤ weight x y V.
Proof.
  unfold weight.
  destruct (V !! x) as [vx|], (V !! y) as [vy|]; cbn;
    try pose proof (domain_weight_nonneg (FDVar.dom vx));
    try pose proof (domain_weight_nonneg (FDVar.dom vy)); lia.
Qed.

Lemma lighter_refl x y V : live x y V → lighter x y V V.
Proof. intros H. split; [done|]. lia. Qed.

Lemma lighter_trans x y V1 V2 V3 :
  lighter x y V1 V2 → lighter x y V2 V3 → lighter x y V1 V3.
Proof. intros (_ & ? & ? & ?) (? & ? & ? & ?). split; [done|]. lia. Qed.

(** A variable of [V] is replaced by a narrowed one. *)
Lemma insert_lighter x y V k v v' :
  live x y V → V !! k = Some v → FDVar.dom v' ≠ [] →
  FDVar.step v ≤ FDVar.step v' →
  domain_weight (FDVar.dom v') ≤ domain_weight (FDVar.dom v) →
  (FDVar.step v < FDVar.step v' →
   domain_weight (FDVar.dom v') < domain_weight (FDVar.dom v)) →
  lighter x y V (<[k := v']> V).
Proof.
  intros (vx & vy & Hx & Hy & Hdx & Hdy) Hk Hd Hs Hw Hlt. unfold lighter.
  destruct (live_revisions x y V vx vy Hx Hy) as (_ & -> & ->).
  destruct (decide (k = x)) as [->|Hkx].
  - assert (vx = v) as -> by congruence.
    assert (Hx' : <[x := v']> V !! x = Some v') by apply lookup_insert_eq.
    destruct (decide (x = y)) as [<-|Hxy].
    + assert (vy = v) as -> by congruence.
      destruct (live_revisions x x _ v' v' Hx' Hx') as (_ & -> & ->).
      split; [by exists v', v'|]. lia.
    + assert (Hy' : <[x := v']> V !! y = Some vy) by by rewrite lookup_insert_ne.
      destruct (live_revisions x y _ v' vy Hx' Hy') as (_ & -> & ->).
      split; [by exists v', vy|]. lia.
  - destruct (decide (k = y)) as [->|Hky].
    + assert (vy = v) as -> by congruence.
      assert (Hx' : <[y := v']> V !! x = Some vx) by by rewrite lookup_insert_ne.
      assert (Hy' : <[y := v']> V !! y = Some v') by apply lookup_insert_eq.
      destruct (live_revisions x y _ vx v' Hx' Hy') as (_ & -> & ->).
      split; [by exists vx, v'|]. lia.
    + assert (Hx' : <[k := v']> V !! x = Some vx) by by rewrite lookup_insert_ne.
      assert (Hy' : <[k := v']> V !! y = Some vy) by by rewrite lookup_insert_ne.
      destruct (live_revisions x y _ vx vy Hx' Hy') as (_ & -> & ->).
      split; [by exists vx, vy|]. lia.
Qed.

Lemma spec_constrain_lighter x y V k i V' :
  live x y V → spec_constrain k i V = Ret V' → lighter x y V V'.
Proof.
  intros Hl. unfold spec_constrain. destruct (V !! k) as [v|] eqn:Hk; [|done].
  destruct (domain_intersection (FDVar.dom v) [i] None) as [|j d] eqn:Ed; [done|].
  intros [= <-]. destruct (set_dom_weight v i) as (H1 & H2 & H3). rewrite Ed in *.
  apply (insert_lighter x y V k v); try done. by rewrite set_dom_dom.
Qed.

Lemma spec_constrain_fail V k i e :
  is_Some (V !! k) → spec_constrain k i V = Throw e → e = Fail.
Proof.
  intros [v Hk]. unfold spec_constrain. rewrite Hk.
  destruct (domain_intersection _ _ _); [by intros [= <-] | done].
Qed.

Lemma live_bounds x y V :
  live x y V → ∃ b1 b2, spec_bounds x V = Ret b1 ∧ spec_bounds y V = Ret b2.
Proof.
  intros (vx & vy & Hx & Hy & Hdx & Hdy). unfold spec_bounds. rewrite Hx, Hy.
  destruct (domain_bounds_ret _ Hdx) as (? & ? & ->).
  destruct (domain_bounds_ret _ Hdy) as (? & ? & ->). eauto.
Qed.

Lemma lt_rule_lighter x y V V' : live x y V → spec_lt_rule x y V = Ret V' → lighter x y V V'.
Proof.
  intros Hl. unfold spec_lt_rule.
  destruct (live_bounds x y V Hl) as (b1 & b2 & -> & ->).
  destruct (if b2.2 - 1 <? b1.2 then spec_constrain x (b1.1, b2.2 - 1) V else Ret V)
    as [V1|e] eqn:E1; [|done].
  assert (H1 : lighter x y V V1).
  { destruct (b2.2 - 1 <? b1.2); [by eapply spec_constrain_lighter|].
    injection E1 as <-. by apply lighter_refl. }
  intros E2. eapply lighter_trans; [exact H1|]. destruct H1 as [Hl1 _].
  destruct (b1.1 + 1 >? b2.1); [by eapply spec_constrain_lighter|].
  injection E2 as <-. by apply lighter_refl.
Qed.

(** The rule throws nothing but ['fail']. *)
Lemma lt_rule_fail x y V e : live x y V → spec_lt_rule x y V = Throw e → e = Fail.
Proof.
  intros Hl. unfold spec_lt_rule.
  destruct (live_bounds x y V Hl) as (b1 & b2 & -> & ->).
  destruct (if b2.2 - 1 <? b1.2 then spec_constrain x (b1.1, b2.2 - 1) V else Ret V)
    as [V1|e1] eqn:E1.
  - assert (Hl1 : live x y V1).
    { destruct (b2.2 - 1 <? b1.2); [by eapply spec_constrain_lighter|]. by simplify_eq. }
    destruct (b1.1 + 1 >? b2.1); [|done].
    apply spec_constrain_fail. destruct Hl1 as (? & ? & _ & -> & _). eauto.
  - intros [= <-]. destruct (b2.2 - 1 <? b1.2); [|done].
    eapply spec_constrain_fail; [|exact E1]. destruct Hl as (? & ? & -> & _). eauto.
Qed.

(** One turn of the loop, on two variables with the bounds
    [(x_lo, x_hi)] and [(y_lo, y_hi)]. *)
Lemma lt_turn_eq x y J V vx vy x_lo x_hi y_lo y_hi :
  V !! x = Some vx → V !! y = Some vy →
  domain_bounds (FDVar.dom vx) = Ret (x_lo, x_hi) →
  domain_bounds (FDVar.dom vy) = Ret (y_lo, y_hi) →
  lt_turn x y (J, V)
  = match (if y_hi - 1 <? x_hi then spec_constrain x (x_lo, y_hi - 1) V else Ret V) with
    | Throw e => Some (Throw e, (set_last_step (revisions x y V) J, V))
    | Ret V1 =>
        match (if x_lo + 1 >? y_lo then spec_constrain y (x_lo + 1, y_hi) V1 else Ret V1) with
        | Throw e => Some (Throw e, (set_last_step (revisions x y V) J, V1))
        | Ret V2 =>
            Some (Ret (negb (revisions x y V2 =? revisions x y V)),
                  (set_last_step (revisions x y V) J, V2))
        end
    end.
Proof.
  intros Hx Hy Hbx Hby.
  assert (Hl : live x y V).
  { exists vx, vy. split; [done|]. split; [done|].
    split; intros E; rewrite E in *; done. }
  destruct (live_revisions x y V vx vy Hx Hy) as (Hs & Hr & _).
  unfold lt_turn.
  erewrite bind_steps_sum by (cbn [snd]; exact Hs). rewrite <- Hr.
  unfold bind at 1. unfold update_this at 1, modify at 1. cbn [fst snd].
  erewrite bind_read by (cbn [snd]; exact Hx).
  erewrite bind_read by (cbn [snd]; exact Hy).
  rewrite Hbx, Hby.
  unfold bind at 1, lift at 1. unfold bind at 1, lift at 1. cbn [fst snd].
  set (J1 := set_last_step (revisions x y V) J).
  assert (E1 : ((if y_hi - 1 <? x_hi
                 then let* d := lift (domain_non_empty
                                 (domain_intersection (FDVar.dom vx) [(x_lo, y_hi - 1)] None))
                      in set_dom x d
                 else ret tt) : M (instance * vars_t) unit) (J1, V)
               = match (if y_hi - 1 <? x_hi
                        then spec_constrain x (x_lo, y_hi - 1) V else Ret V) with
                 | Ret V1 => Some (Ret tt, (J1, V1))
                 | Throw e => Some (Throw e, (J1, V))
                 end).
  { destruct (y_hi - 1 <? x_hi); [|done]. unfold spec_constrain. rewrite Hx.
    destruct (domain_intersection (FDVar.dom vx) [(x_lo, y_hi - 1)] None) as [|i d];
      [done|].
    unfold bind at 1, lift at 1. cbn [domain_non_empty].
    unfold set_dom. erewrite bind_read by (cbn [snd]; exact Hx). done. }
  unfold bind at 1. rewrite E1. clear E1.
  destruct (if y_hi - 1 <? x_hi then spec_constrain x (x_lo, y_hi - 1) V else Ret V)
    as [V1|e] eqn:EV1; [|done].
  assert (H1 : lighter x y V V1).
  { destruct (y_hi - 1 <? x_hi); [by eapply spec_constrain_lighter|].
    injection EV1 as <-. by apply lighter_refl. }
  pose proof H1 as [Hl1 _]. pose proof Hl1 as (vx1 & vy1 & Hx1 & Hy1 & _).
  assert (E2 : ((if x_lo + 1 >? y_lo
                 then let* x2 := read y in
                      let* d := lift (domain_non_empty
                                 (domain_intersection (FDVar.dom x2) [(x_lo + 1, y_hi)] None))
                      in set_dom y d
                 else ret tt) : M (instance * vars_t) unit) (J1, V1)
               = match (if x_lo + 1 >? y_lo
                        then spec_constrain y (x_lo + 1, y_hi) V1 else Ret V1) with
                 | Ret V2 => Some (Ret tt, (J1, V2))
                 | Throw e => Some (Throw e, (J1, V1))
                 end).
  { destruct (x_lo + 1 >? y_lo); [|done]. unfold spec_constrain. rewrite Hy1.
    erewrite bind_read by (cbn [snd]; exact Hy1).
    destruct (domain_intersection (FDVar.dom vy1) [(x_lo + 1, y_hi)] None) as [|i d];
      [done|].
    unfold bind at 1, lift at 1. cbn [domain_non_empty].
    unfold set_dom. erewrite bind_read by (cbn [snd]; exact Hy1). done. }
  unfold bind at 1. rewrite E2. clear E2.
  destruct (if x_lo + 1 >? y_lo then spec_constrain y (x_lo + 1, y_hi) V1 else Ret V1)
    as [V2|e] eqn:EV2; [|done].
  assert (H2 : lighter x y V V2).
  { eapply lighter_trans; [exact H1|].
    destruct (x_lo + 1 >? y_lo); [by eapply spec_constrain_lighter|].
    injection EV2 as <-. by apply lighter_refl. }
  destruct H2 as ((vx2 & vy2 & Hx2 & Hy2 & _) & Hle & _).
  destruct (live_revisions x y V2 vx2 vy2 Hx2 Hy2) as (Hs2 & Hr2 & _).
  erewrite bind_steps_sum by (cbn [snd]; exact Hs2). rewrite bind_this.
  unfold ret. cbn [fst J1 last_step set_last_step]. rewrite <- Hr2.
  do 3 f_equal. destruct (_ =? _) eqn:E; cbn [negb]; lia.
Qed.

(** One turn of the loop is one application of the rule; the
    condition of the loop is that a revision has changed. *)
Lemma lt_turn_rule x y J V :
  live x y V →
  match spec_lt_rule x y V with
  | Ret V' =>
      lt_turn x y (J, V)
      = Some (Ret (negb (revisions x y V' =? revisions x y V)),
              (set_last_step (revisions x y V) J, V'))
  | Throw e =>
      ∃ V', lt_turn x y (J, V) = Some (Throw e, (set_last_step (revisions x y V) J, V'))
  end.
Proof.
  intros (vx & vy & Hx & Hy & Hdx & Hdy).
  destruct (domain_bounds_ret _ Hdx) as (x_lo & x_hi & Hbx).
  destruct (domain_bounds_ret _ Hdy) as (y_lo & y_hi & Hby).
  rewrite (lt_turn_eq x y J V vx vy x_lo x_hi y_lo y_hi Hx Hy Hbx Hby).
  unfold spec_lt_rule, spec_bounds. rewrite Hx, Hy, Hbx, Hby. cbn [fst snd].
  destruct (if y_hi - 1 <? x_hi then spec_constrain x (x_lo, y_hi - 1) V else Ret V)
    as [V1|e]; [|by eexists].
  destruct (if x_lo + 1 >? y_lo then spec_constrain y (x_lo + 1, y_hi) V1 else Ret V1)
    as [V2|e]; [done | by eexists].
Qed.

(** The loop of the step is the rule, repeated. *)
Lemma lt_loop_rules x y fuel :
  ∀ J V, live x y V →
    match spec_lt_rules fuel x y V with
    | None => do_while fuel (lt_turn x y) (J, V) = None
    | Some (Ret V') =>
        live x y V'
        ∧ ∃ l, do_while fuel (lt_turn x y) (J, V) = Some (Ret tt, (set_last_step l J, V'))
    | Some (Throw e) =>
        e = Fail ∧ ∃ σ', do_while fuel (lt_turn x y) (J, V) = Some (Throw e, σ')
    end.
Proof.
  induction fuel as [|fuel IH]; intros J V Hl; cbn [spec_lt_rules do_while]; [done|].
  pose proof (lt_turn_rule x y J V Hl) as Hturn.
  pose proof (lt_rule_lighter x y V) as Hlight. pose proof (lt_rule_fail x y V) as Hfail.
  destruct (spec_lt_rule x y V) as [V'|e].
  - unfold bind. rewrite Hturn. destruct (Hlight V' Hl eq_refl) as [Hl' _].
    destruct (revisions x y V' =? revisions x y V); cbn [negb].
    + split; [done|]. by eexists.
    + specialize (IH (set_last_step (revisions x y V) J) V' Hl').
      destruct (spec_lt_rules fuel x y V') as [[V''|e]|]; [| |done].
      * destruct IH as (Hl'' & l & ->). split; [done|]. by exists l.
      * destruct IH as (-> & σ' & ->). split; [done|]. by eexists.
  - split; [by eapply Hfail|]. destruct Hturn as (V' & Ht).
    unfold bind. rewrite Ht. by eexists.
Qed.

(** The rule quiesces: a turn that changes a revision takes from the
    weight of the two domains. *)
Lemma lt_rules_total x y fuel :
  ∀ V, live x y V → (Z.to_nat (weight x y V) < fuel)%nat → is_Some (spec_lt_rules fuel x y V).
Proof.
  induction fuel as [|fuel IH]; intros V Hl Hw; [lia|]. cbn [spec_lt_rules].
  pose proof (lt_rule_lighter x y V) as Hlight.
  destruct (spec_lt_rule x y V) as [V'|e]; [|by eexists].
  destruct (Hlight V' Hl eq_refl) as (Hl' & Hle & Hwle & Hlt).
  destruct (revisions x y V' =? revisions x y V) eqn:E; [by eexists|].
  pose proof (weight_nonneg x y V'). apply IH; [done|]. lia.
Qed.

(** ** C7 *)

(** C7, as stated for every step, fails on a step whose
    change-detection gate is closed.  The first step of [lt(X, Y)] on
    [X = [[0,1],[8,10]]] and [Y = [[0,0],[5,6]]] narrows [X] to
    [[0,1]] and [Y] to [[5,6]] and returns 2; it leaves [last_step = 2]
    and [solved] false.  On the step that follows, the bounds are
    [(0, 1)] and [(5, 6)], so [y_lo > x_hi]; but the revisions add up
    to [last_step], and the step returns 0 without marking the
    propagator solved. *)
Lemma lt_step_closed_gate_not_solved :
  let V0 := lt_vars [(0, 1); (8, 10)] [(0, 0); (5, 6)] in
  let I1 := set_last_step 2 lt_instance in
  let x1 := {| FDVar.dom := [(0, 1)]; FDVar.step := 1 |} in
  let y1 := {| FDVar.dom := [(5, 6)]; FDVar.step := 1 |} in
  let V1 := <["Y" := y1]> (<["X" := x1]> V0) in
  lt_step 2 (lt_instance, V0) = Some (Ret (Num 2), (I1, V1))
  ∧ V1 !! "X" = Some x1 ∧ V1 !! "Y" = Some y1
  ∧ domain_bounds (FDVar.dom x1) = Ret (0, 1)
  ∧ domain_bounds (FDVar.dom y1) = Ret (5, 6)
  ∧ 5 > 1
  ∧ (∀ fuel, lt_step fuel (I1, V1) = Some (Ret (Num 0), (I1, V1)))
  ∧ solved I1 = false.
Proof.
  cbv zeta. split; [vm_compute; reflexivity|]. split; [vm_compute; reflexivity|].
  split; [vm_compute; reflexivity|]. split; [reflexivity|]. split; [reflexivity|].
  split; [lia|]. split; [|reflexivity].
  intros fuel.
  apply (cmp_run_closed step_lt fuel _ _ ["X"; "Y"] 2).
  - split; reflexivity.
  - vm_compute. reflexivity.
  - simpl. lia.
Qed.

(** C7, amended: for every step of an [lt(x, y)] propagator whose
    change-detection gate is open (the revisions of [x] and [y] add up
    to more than [last_step]), on non-empty domains with bounds
    [(x_lo, x_hi)] and [(y_lo, y_hi)], be [x] and [y] two variables or
    the same one:
    - if [y_lo > x_hi], the step marks the propagator solved and
      returns 0, and no variable changes;
    - otherwise the step does what the rule says ([spec_lt_rules]): it
      constrains [x] to [[x_lo, y_hi - 1]] when [y_hi - 1 < x_hi] and
      [y] to [[x_lo + 1, y_hi]] when [x_lo + 1 > y_lo], with the bounds
      that the two variables then have, again and again until an
      application changes the revision of neither; it throws ['fail']
      when, and only when, an application finds such an intersection
      empty, and it returns the number of revisions made otherwise.
      The revisions do quiesce: with enough fuel the loop ends.
    For two distinct variables with domains in the form the code keeps
    there is more: the step throws ['fail'] exactly when
    [y_hi <= x_lo], on the first intersection; otherwise it narrows
    [x] and [y] once, and the second turn of the loop changes
    nothing. *)
Theorem lt_step_open_gate I V v1 v2 x y x_lo x_hi y_lo y_hi :
  space I !! 0%nat = Some (Some v1) → space I !! 1%nat = Some (Some v2) →
  V !! v1 = Some x → V !! v2 = Some y →
  domain_bounds (FDVar.dom x) = Ret (x_lo, x_hi) →
  domain_bounds (FDVar.dom y) = Ret (y_lo, y_hi) →
  last_step I < FDVar.step x + FDVar.step y →
  let n := FDVar.step x + FDVar.step y in
  (y_lo > x_hi →
   ∀ fuel, lt_step fuel (I, V)
           = Some (Ret (Num 0), (set_solved true (set_last_step n I), V)))
  ∧ (y_lo ≤ x_hi →
     (∀ fuel,
        match spec_lt_rules fuel v1 v2 V with
        | None => lt_step fuel (I, V) = None
        | Some (Ret V') =>
            lt_step fuel (I, V)
            = Some (Ret (Num (revisions v1 v2 V' - n)),
                    (set_last_step (revisions v1 v2 V') I, V'))
        | Some (Throw e) =>
            e = Fail ∧ ∃ σ', lt_step fuel (I, V) = Some (Throw Fail, σ')
        end)
     ∧ ∃ N, ∀ fuel, (N ≤ fuel)%nat → is_Some (spec_lt_rules fuel v1 v2 V))
  ∧ (v1 ≠ v2 → csis (FDVar.dom x) → csis (FDVar.dom y) → y_lo ≤ x_hi →
     ∀ fuel, (2 ≤ fuel)%nat →
       let dx := domain_intersection (FDVar.dom x) [(x_lo, y_hi - 1)] None in
       let dy := domain_intersection (FDVar.dom y) [(x_lo + 1, y_hi)] None in
       let x' := narrowed x (y_hi - 1 <? x_hi) (x_lo, y_hi - 1) in
       let y' := narrowed y (x_lo + 1 >? y_lo) (x_lo + 1, y_hi) in
       let n' := FDVar.step x' + FDVar.step y' in
       let V' := <[v2 := y']> (<[v1 := x']> V) in
       (y_hi ≤ x_lo →
        y_hi - 1 < x_hi ∧ dx = []
        ∧ lt_step fuel (I, V) = Some (Throw Fail, (set_last_step n I, V)))
       ∧ (x_lo < y_hi →
          dx ≠ [] ∧ dy ≠ []
          ∧ lt_step fuel (I, V) = Some (Ret (Num (n' - n)), (set_last_step n' I, V'))
          ∧ lt_turn v1 v2 (set_last_step n' I, V')
            = Some (Ret false, (set_last_step n' I, V')))).
Proof.
  intros H1 H2 Hx Hy Hbx Hby Hgate n.
  pose proof (lt_step_open I V v1 v2 x y x_lo x_hi y_lo y_hi H1 H2 Hx Hy Hbx Hby Hgate)
    as Hstep.
  assert (Hl : live v1 v2 V).
  { exists x, y. split; [done|]. split; [done|].
    split; intros E; rewrite E in *; done. }
  split; [|split].
  - intros Hs fuel. rewrite Hstep. destruct (y_lo >? x_hi) eqn:E; [done | lia].
  - intros Hns. subst n. split.
    + intros fuel. rewrite Hstep. destruct (y_lo >? x_hi) eqn:E; [lia|].
      pose proof (lt_loop_rules v1 v2 fuel
                    (set_last_step (FDVar.step x + FDVar.step y) I) V Hl) as Hloop.
      destruct (spec_lt_rules fuel v1 v2 V) as [[V'|e]|].
      * destruct Hloop as ((vx & vy & Hx' & Hy' & _) & l & Hloop).
        destruct (live_revisions v1 v2 V' vx vy Hx' Hy') as (Hs' & Hr' & _).
        unfold bind at 1. rewrite Hloop.
        erewrite bind_steps_sum by (cbn [snd]; exact Hs'). rewrite <- Hr'. done.
      * destruct Hloop as (-> & σ' & Hloop). split; [done|]. exists σ'.
        unfold bind at 1. by rewrite Hloop.
      * unfold bind at 1. by rewrite Hloop.
    + exists (S (Z.to_nat (weight v1 v2 V))). intros fuel Hfuel.
      apply lt_rules_total; [done | lia].
  - intros Hne Hcx Hcy Hns fuel Hfuel dx dy x' y' n' V'.
    destruct (csis_bounds _ _ _ Hcx Hbx) as (Hxlo & Hxhi & Hxall).
    pose proof (Hxall _ Hxlo) as Hxne.
    specialize (Hstep fuel). split.
    + intros Hle.
      assert (Hdx : dx = []).
      { eapply domain_intersection_interval_nil; [exact Hcx | exact Hbx | lia]. }
      split; [lia|]. split; [done|].
      rewrite Hstep. destruct (y_lo >? x_hi) eqn:E; [lia|].
      destruct fuel as [|fuel]; [lia|]. cbn [do_while]. unfold bind at 1. unfold bind at 1.
      erewrite lt_turn_fail;
        [reflexivity | exact Hx | exact Hy | exact Hbx | exact Hby | lia | exact Hdx].
    + intros Hlt.
      destruct (lt_narrowed_x x x_lo x_hi y_hi Hcx Hbx Hlt) as (Hdx & Hcx' & hx & Hbx' & Hhx).
      destruct (lt_narrowed_y y x_lo y_lo y_hi Hcy Hby Hlt) as (Hdy & Hcy' & ly & Hby' & Hly).
      fold x' in Hcx', Hbx'. fold y' in Hcy', Hby'.
      split; [done|]. split; [done|].
      assert (Hx' : V' !! v1 = Some x').
      { subst V'. by rewrite lookup_insert_ne, lookup_insert_eq. }
      assert (Hy' : V' !! v2 = Some y').
      { subst V'. by rewrite lookup_insert_eq. }
      assert (Hturn1 : ∀ J, lt_turn v1 v2 (J, V)
                            = Some (Ret (n' >? n), (set_last_step n J, V'))).
      { intros J. eapply lt_turn_ret; eauto. }
      assert (Hturn2 : ∀ J, lt_turn v1 v2 (J, V')
                            = Some (Ret false, (set_last_step n' J, V'))).
      { intros J.
        rewrite (lt_turn_ret v1 v2 Hne J V' x' y' x_lo hx ly y_hi Hx' Hy' Hbx' Hby')
          by (intros; lia).
        assert ((y_hi - 1 <? hx) = false) as -> by lia.
        assert ((x_lo + 1 >? ly) = false) as -> by lia.
        unfold narrowed. fold n'.
        rewrite (insert_id V' v1 x') by done. rewrite (insert_id V' v2 y') by done.
        assert ((n' >? n') = false) as -> by lia. done. }
      split; [|apply (Hturn2 (set_last_step n' I))].
      assert (Hsum : sum_steps V' [v1; v2] = Some n').
      { cbn [sum_steps]. rewrite Hx', Hy'. subst n'. by rewrite Z.add_0_r. }
      rewrite Hstep. destruct (y_lo >? x_hi) eqn:E; [lia|].
      destruct fuel as [|[|fuel]]; [lia..|]. cbn [do_while].
      unfold bind at 1. unfold bind at 1. rewrite Hturn1.
      destruct (n' >? n) eqn:En.
      * unfold bind at 1. rewrite Hturn2. unfold ret at 1.
        erewrite bind_steps_sum by (cbn [snd]; exact Hsum). done.
      * unfold ret at 1. erewrite bind_steps_sum by (cbn [snd]; exact Hsum). done.
Qed.

(** On [X = [[0,1],[8,10]]] and [Y = [[0,0],[5,6]]] the step of
    [lt(X, Y)] narrows the two and returns 2.  The step of [lt(X, X)]
    on [X = [[0,5]]] narrows [X] for three turns, to [[1,4]], [[2,3]]
    and [[2,2]], and then finds an empty intersection. *)
Lemma lt_step_open_gate_witness :
  lt_step 2 (lt_instance, lt_vars [(0, 1); (8, 10)] [(0, 0); (5, 6)])
  = Some (Ret (Num 2),
          (set_last_step 2 lt_instance,
           <["Y" := {| FDVar.dom := [(5, 6)]; FDVar.step := 1 |}]>
             (<["X" := {| FDVar.dom := [(0, 1)]; FDVar.step := 1 |}]>
                (lt_vars [(0, 1); (8, 10)] [(0, 0); (5, 6)]))))
  ∧ spec_lt_rules 3 "X" "X" (lt_same_vars [(0, 5)]) = Some (Throw Fail)
  ∧ ∃ σ', lt_step 3 (lt_same_instance, lt_same_vars [(0, 5)]) = Some (Throw Fail, σ').
Proof.
  split; [|split; [vm_compute; reflexivity|]].
  - assert (Hgate : last_step lt_instance
                    < FDVar.step (FDVar.new (Some [(0, 1); (8, 10)]) None)
                      + FDVar.step (FDVar.new (Some [(0, 0); (5, 6)]) None)) by (simpl; lia).
    destruct (lt_step_open_gate lt_instance (lt_vars [(0, 1); (8, 10)] [(0, 0); (5, 6)])
                "X" "Y"
                (FDVar.new (Some [(0, 1); (8, 10)]) None)
                (FDVar.new (Some [(0, 0); (5, 6)]) None)
                0 10 0 6 eq_refl eq_refl eq_refl eq_refl eq_refl eq_refl Hgate)
      as (_ & H & _).
    destruct H as [H _]; [lia|]. specialize (H 2%nat).
    assert (E : spec_lt_rules 2 "X" "Y" (lt_vars [(0, 1); (8, 10)] [(0, 0); (5, 6)])
                = Some (Ret (<["Y" := {| FDVar.dom := [(5, 6)]; FDVar.step := 1 |}]>
                               (<["X" := {| FDVar.dom := [(0, 1)]; FDVar.step := 1 |}]>
                                  (lt_vars [(0, 1); (8, 10)] [(0, 0); (5, 6)])))))
      by (vm_compute; reflexivity).
    rewrite E in H. exact H.
  - assert (Hgate : last_step lt_same_instance
                    < FDVar.step (FDVar.new (Some [(0, 5)]) None)
                      + FDVar.step (FDVar.new (Some [(0, 5)]) None)) by (simpl; lia).
    destruct (lt_step_open_gate lt_same_instance (lt_same_vars [(0, 5)])
                "X" "X"
                (FDVar.new (Some [(0, 5)]) None) (FDVar.new (Some [(0, 5)]) None)
                0 5 0 5 eq_refl eq_refl eq_refl eq_refl eq_refl eq_refl Hgate)
      as (_ & H & _).
    destruct H as [H _]; [lia|]. specialize (H 3%nat).
    assert (E : spec_lt_rules 3 "X" "X" (lt_same_vars [(0, 5)]) = Some (Throw Fail))
      by (vm_compute; reflexivity).
    rewrite E in H. exact (proj2 H).
Defined.

(** * More on domains *)

(** X1: [simplify_domain] returns a domain of the same integers as its
    argument, whatever the list of intervals it is given (unsorted,
    overlapping, with empty intervals). *)
Theorem simplify_domain_same_integers (d : domain) (z : Z) :
  contains (simplify_domain d) z ↔ contains d z.
Proof. apply simplify_domain_contains. Qed.

(** X2: [domain_union] returns a domain of the integers that are in one
    of its arguments, sorted by [lo] and without overlap, whatever the
    arguments. *)
Theorem domain_union_is_set_union (d1 d2 : domain) :
  (∀ z, contains (domain_union d1 d2) z ↔ contains d1 z ∨ contains d2 z)
  ∧ lo_sorted (domain_union d1 d2)
  ∧ disjoint_sorted (domain_union d1 d2).
Proof.
  unfold domain_union. split; [|split].
  - intros z. by rewrite simplify_domain_contains, contains_app.
  - apply simplify_domain_lo_sorted.
  - apply simplify_domain_disjoint.
Qed.

(** X3: [domain_equal] compares the two lists interval by interval: it
    returns true exactly when they are the same list of intervals. *)
Theorem domain_equal_same_list (d1 d2 : domain) :
  domain_equal d1 d2 = true ↔ d1 = d2.
Proof. apply domain_equal_true. Qed.

(** ** [domain_intersection] keeps the form *)

Lemma nonempty_intervals_app d1 d2 :
  nonempty_intervals (d1 ++ d2) ↔ nonempty_intervals d1 ∧ nonempty_intervals d2.
Proof. apply Forall_app. Qed.

Lemma nonempty_flat_clip mn mx d :
  mn ≤ mx → nonempty_intervals d →
  nonempty_intervals
    (flat_map (λ d : interval,
       if (d.1 <=? mx) && (d.2 >=? mn)
       then [(if mn >? d.1 then mn else d.1, if mx <? d.2 then mx else d.2)]
       else []) d).
Proof.
  intros Hm. induction 1 as [|i d Hi Hd IH]; [constructor|].
  cbn [flat_map]. apply Forall_app. split; [|done].
  destruct ((i.1 <=? mx) && (i.2 >=? mn)) eqn:E; [|constructor].
  apply andb_true_iff in E as [E1 E2]. constructor; [|constructor]. simpl.
  destruct (mn >? i.1) eqn:?, (mx <? i.2) eqn:?; lia.
Qed.

Lemma nonempty_intervals_take n d : nonempty_intervals d → nonempty_intervals (take n d).
Proof. apply Forall_take. Qed.

Lemma nonempty_intervals_drop n d : nonempty_intervals d → nonempty_intervals (drop n d).
Proof. apply Forall_drop. Qed.

(** Every interval that the recursion pushes is non-empty. *)
Lemma domain_intersection_rec_nonempty n : ∀ dom1 dom2 r,
  nonempty_intervals dom1 → nonempty_intervals dom2 → nonempty_intervals (or_empty r) →
  nonempty_intervals (domain_intersection_rec n dom1 dom2 r).
Proof.
  induction n as [|n IH]; intros dom1 dom2 r H1 H2 Hr; [done|].
  destruct dom1 as [|b1 [|b1' dom1]]; [done| |].
  - destruct dom2 as [|b2 [|b2' dom2]]; [done| |].
    + cbn [domain_intersection_rec]. cbv zeta. apply Forall_app. split; [done|].
      destruct (_ >=? _) eqn:E; [|constructor].
      constructor; [|constructor]. simpl. lia.
    + cbn [domain_intersection_rec]. by apply IH.
  - destruct dom2 as [|b2 [|b2' dom2]]; [done| |].
    + cbn [domain_intersection_rec]. cbv zeta. apply Forall_app. split; [done|].
      apply Forall_cons in H2 as [Hb2 _]. by apply nonempty_flat_clip.
    + rewrite domain_intersection_rec_split by (simpl; lia).
      set (i := Nat.div2 _). set (j := Nat.div2 _).
      assert (Hd : nonempty_intervals
                (domain_intersection_rec n (drop i (b1 :: b1' :: dom1))
                   (drop j (b2 :: b2' :: dom2))
                   (Some (domain_intersection_rec n (drop i (b1 :: b1' :: dom1))
                      (take j (b2 :: b2' :: dom2))
                      (Some (domain_intersection_rec n (take i (b1 :: b1' :: dom1))
                         (drop j (b2 :: b2' :: dom2))
                         (Some (domain_intersection_rec n (take i (b1 :: b1' :: dom1))
                            (take j (b2 :: b2' :: dom2)) r)))))))).
      { repeat (apply IH;
                [by (apply nonempty_intervals_take || apply nonempty_intervals_drop)
                |by (apply nonempty_intervals_take || apply nonempty_intervals_drop)
                |cbn [or_empty default]]).
        done. }
      destruct r; [done|]. by apply simplify_domain_nonempty.
Qed.

Lemma domain_intersection_contains a b z :
  contains (domain_intersection a b None) z ↔ contains a z ∧ contains b z.
Proof.
  unfold domain_intersection. rewrite domain_intersection_rec_contains by done. simpl.
  split; [intros [H | H]; [by apply contains_nil in H | done] | by right].
Qed.

Lemma csis_nil_iff d : csis d → d = [] ↔ ¬ ∃ z, contains d z.
Proof.
  intros Hc. split.
  - intros -> (z & Hz). by apply contains_nil in Hz.
  - intros Hno. destruct d as [|i d]; [done|]. exfalso. apply Hno.
    apply csis_cons in Hc as (Hi & _). exists i.1. apply contains_cons. left. lia.
Qed.

Lemma domain_intersection_csis a b :
  csis a → csis b → csis (domain_intersection a b None).
Proof.
  intros Ha Hb.
  destruct a as [|a1 [|a2 a]].
  - destruct b; split; constructor.
  - destruct b as [|b1 [|b2 b]].
    + split; constructor.
    + destruct b1 as [mn mx]. apply domain_intersection_interval_csis; [done|].
      apply csis_cons in Hb as (H & _). done.
    + change (domain_intersection [a1] (b1 :: b2 :: b) None)
        with (domain_intersection (b1 :: b2 :: b) [a1] None).
      destruct a1 as [mn mx]. apply domain_intersection_interval_csis; [done|].
      apply csis_cons in Ha as (H & _). done.
  - destruct b as [|b1 [|b2 b]].
    + split; constructor.
    + destruct b1 as [mn mx]. apply domain_intersection_interval_csis; [done|].
      apply csis_cons in Hb as (H & _). done.
    + unfold domain_intersection, intersection_depth.
      rewrite domain_intersection_rec_split by (simpl; lia). cbv zeta.
      split; [|apply simplify_domain_disjoint].
      apply simplify_domain_nonempty.
      destruct Ha as [Ha _], Hb as [Hb _].
      repeat (apply domain_intersection_rec_nonempty;
              [by (apply nonempty_intervals_take || apply nonempty_intervals_drop)
              |by (apply nonempty_intervals_take || apply nonempty_intervals_drop)
              |cbn [or_empty default]]).
      constructor.
Qed.

(** X4: the intersection of two domains in the form the code keeps
    (non-empty intervals, each ending before the next begins) is in
    that form; and it is the empty list exactly when the two domains
    have no integer in common, which is when [domain_non_empty] throws
    ['fail'] on it. *)
Theorem domain_intersection_keeps_csis (a b : domain) :
  csis a → csis b →
  csis (domain_intersection a b None)
  ∧ (domain_intersection a b None = [] ↔ ¬ ∃ z, contains a z ∧ contains b z)
  ∧ (domain_non_empty (domain_intersection a b None) = Throw Fail
     ↔ ¬ ∃ z, contains a z ∧ contains b z).
Proof.
  intros Ha Hb. pose proof (domain_intersection_csis a b Ha Hb) as Hc.
  assert (Hnil : domain_intersection a b None = [] ↔ ¬ ∃ z, contains a z ∧ contains b z).
  { rewrite (csis_nil_iff _ Hc). split; intros Hno (z & Hz); apply Hno; exists z.
    - by apply domain_intersection_contains.
    - by apply domain_intersection_contains in Hz. }
  split; [done|]. split; [done|]. rewrite <- Hnil.
  destruct (domain_intersection a b None); simpl; split; done.
Qed.

Lemma domain_intersection_keeps_csis_witness :
  domain_intersection [(0, 3); (7, 9)] [(2, 8); (20, 21)] None = [(2, 3); (7, 8)]
  ∧ csis (domain_intersection [(0, 3); (7, 9)] [(2, 8); (20, 21)] None).
Proof.
  split; [reflexivity|].
  assert (Ha : csis [(0, 3); (7, 9)]).
  { split; [repeat constructor; simpl; lia | simpl; lia]. }
  assert (Hb : csis [(2, 8); (20, 21)]).
  { split; [repeat constructor; simpl; lia | simpl; lia]. }
  exact (proj1 (domain_intersection_keeps_csis _ _ Ha Hb)).
Defined.

(** ** [domain_complement] of one interval *)

(** X5: the complement of the empty domain is [[0, SUP]].  The
    complement of a domain of one interval [[lo, hi]] holds the
    integers of [[0, lo - 1]] and, when [hi + 1 < SUP], those of
    [[hi + 1, SUP]]: for [hi = SUP - 1] the integer [SUP] is left
    out, as the last interval is added under the test [end < SUP]. *)
Theorem domain_complement_one_interval (lo hi z : Z) :
  domain_complement [] = [(0, FD_SUP)]
  ∧ (contains (domain_complement [(lo, hi)]) z
     ↔ 0 ≤ z < lo ∨ (hi < z ≤ FD_SUP ∧ hi + 1 < FD_SUP)).
Proof.
  split; [reflexivity|].
  unfold domain_complement. cbn [complement_loop fst snd].
  rewrite contains_app.
  destruct (0 <? lo) eqn:E1, (hi + 1 <? FD_SUP) eqn:E2;
    rewrite ?contains_singleton; cbn [fst snd];
    (split; [intros [H|H]; try (by apply contains_nil in H); lia|]);
    intros [H|H]; try lia; (left + right); lia.
Qed.

(** ** [dom_close_gaps] *)

(** X6: on a domain whose intervals are non-empty and in increasing
    order, [dom_close_gaps(d, gap)] returns such a domain, which holds
    every integer of [d] and besides them only integers of the holes of
    [d] that are narrower than [gap] (a hole between [a] and [b] with
    [b - a < gap]). *)
Theorem dom_close_gaps_fills_narrow_holes (d : domain) (gap : width) :
  increasing d →
  increasing (dom_close_gaps d gap)
  ∧ (∀ z, contains d z → contains (dom_close_gaps d gap) z)
  ∧ (∀ z, contains (dom_close_gaps d gap) z →
          contains d z
          ∨ ∃ a b, contains d a ∧ contains d b ∧ a < z < b ∧ below (b - a) gap = true).
Proof.
  intros Hinc. split; [by apply dom_close_gaps_increasing|].
  split; [intros z; by apply dom_close_gaps_superset|].
  intros z Hz. apply dom_close_gaps_holes in Hz; [done | apply Hinc].
Qed.

Lemma dom_close_gaps_fills_narrow_holes_witness :
  dom_close_gaps [(0, 1); (3, 4); (9, 9)] (Width 3) = [(0, 4); (9, 9)]
  ∧ increasing (dom_close_gaps [(0, 1); (3, 4); (9, 9)] (Width 3)).
Proof.
  split; [reflexivity|].
  assert (H : increasing [(0, 1); (3, 4); (9, 9)]).
  { split; [repeat constructor; simpl; lia|]. split; simpl; lia. }
  exact (proj1 (dom_close_gaps_fills_narrow_holes _ (Width 3) H)).
Defined.

(** ** [dom_times] *)

(** X7: [dom_times] multiplies the ends of the intervals: on domains of
    non-negative integers, it returns a domain that holds the product,
    clamped at [SUP], of every integer of the one and every integer of
    the other (it may hold more: the function is not
    domain-consistent). *)
Theorem dom_times_holds_products (a b : domain) (x y : Z) :
  Forall (λ i : interval, 0 ≤ i.1) a → Forall (λ i : interval, 0 ≤ i.1) b →
  contains a x → contains b y →
  contains (dom_times a b) (Z.min (x * y) FD_SUP).
Proof.
  intros Ha Hb (i1 & Hi1 & Hx) (i2 & Hi2 & Hy).
  unfold dom_times. rewrite simplify_domain_contains, contains_pairwise.
  exists i1, i2. split; [done|]. split; [done|].
  apply contains_singleton. cbn [fst snd].
  pose proof (proj1 (Forall_forall _ _) Ha i1 Hi1) as H1.
  pose proof (proj1 (Forall_forall _ _) Hb i2 Hi2) as H2. simpl in H1, H2.
  assert (i1.1 * i2.1 ≤ x * y) by nia.
  assert (x * y ≤ i1.2 * i2.2) by nia.
  lia.
Qed.

Lemma dom_times_holds_products_witness :
  dom_times [(2, 3)] [(2, 3); (10, 10)] = [(4, 9); (20, 30)]
  ∧ contains (dom_times [(2, 3)] [(2, 3); (10, 10)]) (Z.min (3 * 10) FD_SUP)
  ∧ contains (dom_times [(2, 3)] [(2, 3); (10, 10)]) 5.
Proof.
  split; [reflexivity|]. split.
  - apply dom_times_holds_products.
    + repeat constructor; simpl; lia.
    + repeat constructor; simpl; lia.
    + exists (2, 3). split; [by left | simpl; lia].
    + exists (10, 10). split; [right; by left | simpl; lia].
  - exists (4, 9). split; [by left | simpl; lia].
Defined.

(** ** [dom_minus] *)

(** Closing the gaps of [d1] that are narrower than every interval of
    [d2] leaves the differences as they are. *)
Lemma dom_close_gaps_diff_l d1 d2 z :
  increasing d1 →
  diff_of (dom_close_gaps d1 (dom_smallest_interval_width d2)) d2 z ↔ diff_of d1 d2 z.
Proof.
  intros Hinc. split.
  - intros (x & y & Hx & Hy & ->).
    apply dom_close_gaps_holes in Hx; [|apply Hinc].
    destruct Hx as [Hx | (a & b & Ha & Hb & Hab & Hgap)]; [by exists x, y|].
    destruct Hy as (i & Hi & Hy).
    pose proof (below_smallest_width _ _ _ Hgap Hi) as Hw.
    destruct (decide (i.1 ≤ y - (x - a))).
    + exists a, (y - (x - a)). split; [done|]. split; [|lia].
      exists i. split; [done | lia].
    + exists b, (y + (b - x)). split; [done|]. split; [|lia].
      exists i. split; [done | lia].
  - intros (x & y & Hx & Hy & ->). exists x, y.
    split; [by apply dom_close_gaps_superset | done].
Qed.

Lemma dom_close_gaps_diff_r d1 d2 z :
  increasing d2 →
  diff_of d1 (dom_close_gaps d2 (dom_smallest_interval_width d1)) z ↔ diff_of d1 d2 z.
Proof.
  intros Hinc. split.
  - intros (x & y & Hx & Hy & ->).
    apply dom_close_gaps_holes in Hy; [|apply Hinc].
    destruct Hy as [Hy | (a & b & Ha & Hb & Hab & Hgap)]; [by exists x, y|].
    destruct Hx as (i & Hi & Hx).
    pose proof (below_smallest_width _ _ _ Hgap Hi) as Hw.
    destruct (decide (i.1 ≤ x - (y - a))).
    + exists (x - (y - a)), a. split; [|split; [done | lia]].
      exists i. split; [done | lia].
    + exists (x + (b - y)), b. split; [|split; [done | lia]].
      exists i. split; [done | lia].
  - intros (x & y & Hx & Hy & ->). exists x, y.
    split; [done|]. split; [by apply dom_close_gaps_superset | done].
Qed.

Lemma close_gaps2_turn_diff d1 d2 :
  increasing d1 → increasing d2 →
  let t := close_gaps2_turn d1 d2 in
  increasing t.1.1 ∧ increasing t.1.2 ∧ ∀ z, diff_of t.1.1 t.1.2 z ↔ diff_of d1 d2 z.
Proof.
  intros H1 H2. unfold close_gaps2_turn. simpl.
  set (d1' := dom_close_gaps d1 (dom_smallest_interval_width d2)).
  assert (H1' : increasing d1') by by apply dom_close_gaps_increasing.
  split; [done|]. split; [by apply dom_close_gaps_increasing|].
  intros z. rewrite dom_close_gaps_diff_r by done. by apply dom_close_gaps_diff_l.
Qed.

Lemma close_gaps2_loop_diff n : ∀ d1 d2,
  increasing d1 → increasing d2 →
  let r := close_gaps2_loop n d1 d2 in
  increasing r.1 ∧ increasing r.2 ∧ ∀ z, diff_of r.1 r.2 z ↔ diff_of d1 d2 z.
Proof.
  induction n as [|n IH]; intros d1 d2 H1 H2;
    pose proof (close_gaps2_turn_diff d1 d2 H1 H2) as (T1 & T2 & T3);
    cbv zeta; rewrite close_gaps2_loop_unfold;
    destruct (close_gaps2_turn d1 d2) as [[d1' d2'] change]; simpl in T1, T2, T3.
  - by destruct (change >? 0).
  - destruct (change >? 0); [|done].
    destruct (IH d1' d2' T1 T2) as (I1 & I2 & I3).
    split; [done|]. split; [done|]. intros z. by rewrite I3.
Qed.

(** The interval that the body of [dom_minus] pushes for [i1] and
    [i2], if any, holds the differences that are not negative. *)
Lemma minus_interval (i1 i2 : interval) z :
  i1.1 ≤ i1.2 → i2.1 ≤ i2.2 →
  contains (let lo := i1.1 - i2.2 in
            let hi := i1.2 - i2.1 in
            if hi >=? 0 then [(if lo <? 0 then 0 else lo, hi)] else []) z
  ↔ ∃ x y, i1.1 ≤ x ≤ i1.2 ∧ i2.1 ≤ y ≤ i2.2 ∧ z = x - y ∧ 0 ≤ z.
Proof.
  intros H1 H2. cbv zeta. destruct (i1.2 - i2.1 >=? 0) eqn:E.
  - rewrite contains_singleton. cbn [fst snd]. split.
    + intros Hz. exists (Z.max i1.1 (z + i2.1)), (Z.max i1.1 (z + i2.1) - z).
      destruct (i1.1 - i2.2 <? 0) eqn:?; lia.
    + intros (x & y & Hx & Hy & -> & Hz). destruct (i1.1 - i2.2 <? 0) eqn:?; lia.
  - split; [intros H; by apply contains_nil in H|].
    intros (x & y & Hx & Hy & -> & Hz). lia.
Qed.

Lemma dom_minus_contains a b z :
  increasing a → increasing b →
  contains (dom_minus a b) z
  ↔ ∃ x y, contains a x ∧ contains b y ∧ z = x - y ∧ 0 ≤ z.
Proof.
  intros Ha Hb. unfold dom_minus, dom_close_gaps2.
  destruct (close_gaps2_loop_diff (length a + length b) a b Ha Hb) as (H1 & H2 & Hdiff).
  destruct (close_gaps2_loop _ a b) as [d1 d2]. cbn [fst snd] in *.
  rewrite simplify_domain_contains, contains_pairwise.
  assert (Hne : ∀ d (i : interval), increasing d → i ∈ d → i.1 ≤ i.2).
  { intros d i (Hn & _) Hi. unfold nonempty_intervals in Hn.
    rewrite Forall_forall in Hn. by apply Hn. }
  split.
  - intros (i1 & i2 & Hi1 & Hi2 & Hz).
    apply minus_interval in Hz as (x & y & Hx & Hy & -> & Hz);
      [|by apply (Hne d1) | by apply (Hne d2)].
    destruct (proj1 (Hdiff (x - y))) as (x' & y' & Hx' & Hy' & E).
    { exists x, y. split; [by exists i1|]. split; [by exists i2 | done]. }
    exists x', y'. rewrite <- E. done.
  - intros (x & y & Hx & Hy & -> & Hz).
    destruct (proj2 (Hdiff (x - y))) as (x' & y' & (i1 & Hi1 & Hx') & (i2 & Hi2 & Hy') & E).
    { by exists x, y. }
    exists i1, i2. split; [done|]. split; [done|].
    apply minus_interval; [by apply (Hne d1) | by apply (Hne d2) |].
    exists x', y'. rewrite <- E. done.
Qed.

(** X8: for domains [a] and [b] in the form the code keeps,
    [dom_minus(a, b)] holds exactly the differences [x - y], of an [x]
    of [a] and a [y] of [b], that are not negative: the gaps that
    [dom_close_gaps2] closes beforehand add no difference and lose
    none. *)
Theorem dom_minus_exact (a b : domain) (z : Z) :
  csis a → csis b →
  contains (dom_minus a b) z
  ↔ ∃ x y, contains a x ∧ contains b y ∧ z = x - y ∧ 0 ≤ z.
Proof. intros Ha Hb. apply dom_minus_contains; by apply csis_increasing. Qed.

Lemma dom_minus_exact_witness :
  dom_minus [(5, 6); (8, 9)] [(0, 1); (7, 8)] = [(0, 2); (4, 6); (7, 9)]
  ∧ (contains (dom_minus [(5, 6); (8, 9)] [(0, 1); (7, 8)]) 3
     ↔ ∃ x y, contains [(5, 6); (8, 9)] x ∧ contains [(0, 1); (7, 8)] y
              ∧ 3 = x - y ∧ 0 ≤ 3).
Proof.
  split; [reflexivity|].
  apply dom_minus_exact; (split; [repeat constructor; simpl; lia | simpl; lia]).
Defined.

(** ** The arithmetic keeps the form *)

Lemma within_sup_of_members d :
  nonempty_intervals d → (∀ z, contains d z → 0 ≤ z ≤ FD_SUP) → within_sup d.
Proof.
  intros Hn Hz. apply Forall_forall. intros i Hi.
  pose proof (proj1 (Forall_forall _ _) Hn i Hi) as Hne. simpl in Hne.
  pose proof (Hz i.1 ltac:(exists i; split; [done | lia])).
  pose proof (Hz i.2 ltac:(exists i; split; [done | lia])). lia.
Qed.

Lemma members_within_sup d z : within_sup d → contains d z → 0 ≤ z ≤ FD_SUP.
Proof.
  intros Hw (i & Hi & Hz). pose proof (proj1 (Forall_forall _ _) Hw i Hi) as H.
  simpl in H. lia.
Qed.

Lemma nonempty_pairwise (f : interval → interval → domain) d1 d2 :
  (∀ i1 i2, i1 ∈ d1 → i2 ∈ d2 → nonempty_intervals (f i1 i2)) →
  nonempty_intervals (pairwise f d1 d2).
Proof.
  intros Hf. apply Forall_forall. intros i Hi.
  unfold pairwise in Hi. apply list_elem_of_In, in_flat_map in Hi as (i1 & H1 & Hi).
  apply in_flat_map in Hi as (i2 & H2 & Hi).
  apply list_elem_of_In in H1, H2, Hi.
  by apply (proj1 (Forall_forall _ _) (Hf i1 i2 H1 H2)).
Qed.

Lemma increasing_elem d (i : interval) : increasing d → i ∈ d → i.1 ≤ i.2.
Proof. intros (Hn & _) Hi. by apply (proj1 (Forall_forall _ _) Hn). Qed.

Lemma dom_plus_csis a b : increasing a → increasing b → csis (dom_plus a b).
Proof.
  intros Ha Hb. unfold dom_plus, dom_close_gaps2.
  destruct (close_gaps2_loop_spec (length a + length b) a b Ha Hb) as (H1 & H2 & _).
  destruct (close_gaps2_loop _ a b) as [d1 d2]. cbn [fst snd] in *.
  split; [|apply simplify_domain_disjoint]. apply simplify_domain_nonempty.
  apply nonempty_pairwise. intros i1 i2 Hi1 Hi2. constructor; [|constructor].
  pose proof (increasing_elem _ _ H1 Hi1). pose proof (increasing_elem _ _ H2 Hi2).
  simpl. lia.
Qed.

Lemma dom_minus_csis a b : increasing a → increasing b → csis (dom_minus a b).
Proof.
  intros Ha Hb. unfold dom_minus, dom_close_gaps2.
  destruct (close_gaps2_loop_spec (length a + length b) a b Ha Hb) as (H1 & H2 & _).
  destruct (close_gaps2_loop _ a b) as [d1 d2]. cbn [fst snd] in *.
  split; [|apply simplify_domain_disjoint]. apply simplify_domain_nonempty.
  apply nonempty_pairwise. intros i1 i2 Hi1 Hi2. cbv zeta.
  destruct (i1.2 - i2.1 >=? 0) eqn:E; [|constructor].
  constructor; [|constructor].
  pose proof (increasing_elem _ _ H1 Hi1). pose proof (increasing_elem _ _ H2 Hi2).
  simpl. destruct (i1.1 - i2.2 <? 0) eqn:?; lia.
Qed.

Lemma dom_times_csis a b :
  nonempty_intervals a → nonempty_intervals b → within_sup a → within_sup b →
  csis (dom_times a b).
Proof.
  intros Ha Hb Wa Wb. unfold dom_times.
  split; [|apply simplify_domain_disjoint]. apply simplify_domain_nonempty.
  apply nonempty_pairwise. intros i1 i2 Hi1 Hi2. constructor; [|constructor].
  pose proof (proj1 (Forall_forall _ _) Ha i1 Hi1) as N1.
  pose proof (proj1 (Forall_forall _ _) Hb i2 Hi2) as N2.
  pose proof (proj1 (Forall_forall _ _) Wa i1 Hi1) as B1.
  pose proof (proj1 (Forall_forall _ _) Wb i2 Hi2) as B2. simpl in *.
  assert (i1.1 * i2.1 ≤ i1.2 * i2.2) by nia. lia.
Qed.

(** X9: the arithmetic on domains keeps the form of the code: for
    domains of non-empty intervals, each ending before the next begins,
    within [[0, SUP]], what [dom_plus], [dom_minus] and [dom_times]
    return is of that form and within [[0, SUP]]. *)
Theorem dom_arithmetic_keeps_csis (a b : domain) :
  csis a → csis b → within_sup a → within_sup b →
  (csis (dom_plus a b) ∧ within_sup (dom_plus a b))
  ∧ (csis (dom_minus a b) ∧ within_sup (dom_minus a b))
  ∧ (csis (dom_times a b) ∧ within_sup (dom_times a b)).
Proof.
  intros Ha Hb Wa Wb.
  pose proof (csis_increasing _ Ha) as Ia. pose proof (csis_increasing _ Hb) as Ib.
  split; [|split].
  - pose proof (dom_plus_csis a b Ia Ib) as Hc. split; [done|].
    apply within_sup_of_members; [apply Hc|]. intros z Hz.
    apply dom_plus_contains in Hz as (x & y & Hx & Hy & ->); [|done..].
    apply (members_within_sup _ _ Wa) in Hx. apply (members_within_sup _ _ Wb) in Hy. lia.
  - pose proof (dom_minus_csis a b Ia Ib) as Hc. split; [done|].
    apply within_sup_of_members; [apply Hc|]. intros z Hz.
    apply dom_minus_contains in Hz as (x & y & Hx & Hy & -> & Hz); [|done..].
    apply (members_within_sup _ _ Wa) in Hx. apply (members_within_sup _ _ Wb) in Hy. lia.
  - pose proof (dom_times_csis a b (proj1 Ha) (proj1 Hb) Wa Wb) as Hc. split; [done|].
    apply within_sup_of_members; [apply Hc|]. intros z Hz.
    unfold dom_times in Hz. rewrite simplify_domain_contains, contains_pairwise in Hz.
    destruct Hz as (i1 & i2 & Hi1 & Hi2 & Hz). apply contains_singleton in Hz.
    pose proof (proj1 (Forall_forall _ _) Wa i1 Hi1) as B1.
    pose proof (proj1 (Forall_forall _ _) Wb i2 Hi2) as B2. simpl in *.
    assert (0 ≤ i1.1 * i2.1) by nia. unfold FD_SUP in *. lia.
Qed.

Lemma dom_arithmetic_keeps_csis_witness :
  dom_plus [(0, 1); (4, 5)] [(0, 0); (10, 10)] = [(0, 1); (4, 5); (10, 11); (14, 15)]
  ∧ csis (dom_plus [(0, 1); (4, 5)] [(0, 0); (10, 10)])
  ∧ csis (dom_minus [(0, 1); (4, 5)] [(0, 0); (10, 10)])
  ∧ csis (dom_times [(0, 1); (4, 5)] [(0, 0); (10, 10)]).
Proof.
  split; [reflexivity|].
  assert (Ha : csis [(0, 1); (4, 5)]).
  { split; [repeat constructor; simpl; lia | simpl; lia]. }
  assert (Hb : csis [(0, 0); (10, 10)]).
  { split; [repeat constructor; simpl; lia | simpl; lia]. }
  assert (Wa : within_sup [(0, 1); (4, 5)]).
  { repeat constructor; unfold FD_SUP; simpl; lia. }
  assert (Wb : within_sup [(0, 0); (10, 10)]).
  { repeat constructor; unfold FD_SUP; simpl; lia. }
  destruct (dom_arithmetic_keeps_csis _ _ Ha Hb Wa Wb) as ((P1 & _) & (P2 & _) & (P3 & _)).
  done.
Defined.

(** * Variables: [constrain], [size], [min], [max], [mid] *)

(** X10: on domains in the form the code keeps, [v.constrain(d)] throws
    ['fail'] exactly when [v] and [d] have no integer in common, and
    it throws nothing else.  When they have an integer in common it
    returns, the domain of [v] becomes one of the same form that holds
    the integers common to both, and the revision counter goes up by
    one if that is another list than before, and stays otherwise. *)
Theorem constrain_spec (v : FDVar.t) (d : domain) :
  csis (FDVar.dom v) → csis d →
  (FDVar.constrain v d = Throw Fail
   ↔ ¬ ∃ z, contains (FDVar.dom v) z ∧ contains d z)
  ∧ match FDVar.constrain v d with
    | Ret v' =>
        (∃ z, contains (FDVar.dom v) z ∧ contains d z)
        ∧ csis (FDVar.dom v')
        ∧ (∀ z, contains (FDVar.dom v') z ↔ contains (FDVar.dom v) z ∧ contains d z)
        ∧ FDVar.step v'
          = FDVar.step v + (if decide (FDVar.dom v' = FDVar.dom v) then 0 else 1)
    | Throw e => e = Fail ∧ ¬ ∃ z, contains (FDVar.dom v) z ∧ contains d z
    end.
Proof.
  intros Hv Hd. unfold FDVar.constrain.
  pose proof (domain_intersection_csis _ _ Hv Hd) as Hc.
  pose proof (csis_nil_iff _ Hc) as Hnil.
  destruct (domain_intersection (FDVar.dom v) d None) as [|i r] eqn:E; cbn [domain_non_empty].
  - assert (Hno : ¬ ∃ z, contains (FDVar.dom v) z ∧ contains d z).
    { intros (z & Hz). apply (proj1 Hnil eq_refl). exists z.
      rewrite <- E. by apply domain_intersection_contains. }
    done.
  - assert (Hyes : ∃ z, contains (FDVar.dom v) z ∧ contains d z).
    { exists i.1. apply domain_intersection_contains. rewrite E.
      exists i. split; [by left|]. destruct Hc as [Hne _].
      apply Forall_cons in Hne as [Hi _]. lia. }
    split; [split; [done | by intros []]|].
    rewrite set_dom_dom, set_dom_step. split; [done|]. split; [done|]. split.
    + intros z. rewrite <- E. apply domain_intersection_contains.
    + destruct (decide (FDVar.dom v = i :: r)), (decide (i :: r = FDVar.dom v));
        congruence.
Qed.

Lemma constrain_spec_witness :
  FDVar.constrain (FDVar.mk [(0, 3); (7, 9)] 4) [(2, 8)]
  = Ret (FDVar.mk [(2, 3); (7, 8)] 5)
  ∧ FDVar.constrain (FDVar.mk [(0, 3); (7, 9)] 4) [(4, 6)] = Throw Fail
  ∧ csis (FDVar.dom (FDVar.mk [(2, 3); (7, 8)] 5))
  ∧ ¬ ∃ z, contains [(0, 3); (7, 9)] z ∧ contains [(4, 6)] z.
Proof.
  split; [reflexivity|]. split; [reflexivity|].
  assert (Hv : csis (FDVar.dom (FDVar.mk [(0, 3); (7, 9)] 4))).
  { split; [repeat constructor; simpl; lia | simpl; lia]. }
  assert (Hd : csis [(2, 8)]).
  { split; [repeat constructor; simpl; lia | done]. }
  assert (Hd' : csis [(4, 6)]).
  { split; [repeat constructor; simpl; lia | done]. }
  split.
  - exact (proj1 (proj2 (proj2 (constrain_spec (FDVar.mk [(0, 3); (7, 9)] 4) [(2, 8)]
                                  Hv Hd)))).
  - exact (proj1 (proj1 (constrain_spec (FDVar.mk [(0, 3); (7, 9)] 4) [(4, 6)] Hv Hd'))
             eq_refl).
Defined.

(** ** [size] *)

Lemma size_foldl (d : domain) (s : Z) :
  foldl (λ s (i : interval), s + (i.2 - i.1 + 1)) s d
  = s + foldl (λ s (i : interval), s + (i.2 - i.1 + 1)) 0 d.
Proof.
  revert s. induction d as [|i d IH]; intros s; cbn [foldl]; [lia|].
  rewrite (IH (s + _)), (IH (0 + _)). lia.
Qed.

Lemma size_cons i d step step' :
  FDVar.size (FDVar.mk (i :: d) step) = (i.2 - i.1 + 1) + FDVar.size (FDVar.mk d step').
Proof. unfold FDVar.size. cbn [FDVar.dom foldl]. rewrite size_foldl. lia. Qed.

Lemma elem_of_elements d z : z ∈ elements d ↔ contains d z.
Proof.
  induction d as [|i d IH]; cbn [elements flat_map].
  - split; [intros H; by apply elem_of_nil in H | intros H; by apply contains_nil in H].
  - rewrite elem_of_app, contains_cons, elem_of_seqZ. unfold elements in IH.
    rewrite IH. split; (intros [H|H]; [left; lia | by right]).
Qed.

Lemma length_elements d step :
  nonempty_intervals d → Z.of_nat (length (elements d)) = FDVar.size (FDVar.mk d step).
Proof.
  induction 1 as [|i d Hi Hd IH]; [done|].
  rewrite (size_cons _ _ _ step). cbn [elements flat_map].
  rewrite length_app, length_seqZ, Nat2Z.inj_add.
  unfold elements in IH. rewrite IH. lia.
Qed.

Lemma StronglySorted_seqZ m n : StronglySorted Z.lt (seqZ m n).
Proof.
  destruct (decide (0 ≤ n)) as [Hn|Hn].
  2: { unfold seqZ. replace (Z.to_nat n) with 0%nat by lia. constructor. }
  revert m. pattern n. apply natlike_ind; [..|exact Hn].
  - intros m. constructor.
  - intros k Hk IH m. rewrite seqZ_cons by lia. constructor.
    + replace (Z.pred (Z.succ k)) with k by lia. apply IH.
    + apply Forall_forall. intros z Hz. apply elem_of_seqZ in Hz. lia.
Qed.

Lemma elements_sorted d : csis d → StronglySorted Z.lt (elements d).
Proof.
  induction d as [|i d IH]; intros Hc; [constructor|].
  apply csis_cons in Hc as (Hi & Hall & Hc). cbn [elements flat_map].
  apply StronglySorted_app_2; [|apply StronglySorted_seqZ | by apply IH].
  intros x y Hx Hy. apply elem_of_seqZ in Hx.
  apply elem_of_elements in Hy as (j & Hj & Hy).
  pose proof (proj1 (Forall_forall _ _) Hall j Hj) as Hlt. simpl in Hlt. lia.
Qed.

(** X11: [size()] is the number of integers of the domain: on a domain
    in the form the code keeps, the integers of the domain, listed
    interval by interval, are in increasing order without a repeat, and
    [size()] is their number. *)
Theorem size_counts_integers (v : FDVar.t) :
  csis (FDVar.dom v) →
  (∀ z, z ∈ elements (FDVar.dom v) ↔ contains (FDVar.dom v) z)
  ∧ StronglySorted Z.lt (elements (FDVar.dom v))
  ∧ FDVar.size v = Z.of_nat (length (elements (FDVar.dom v))).
Proof.
  intros Hc. split; [intros z; apply elem_of_elements|].
  split; [by apply elements_sorted|].
  destruct v as [d s]. symmetry. apply length_elements, Hc.
Qed.

Lemma size_counts_integers_witness :
  elements [(0, 2); (5, 6)] = [0; 1; 2; 5; 6]
  ∧ FDVar.size (FDVar.mk [(0, 2); (5, 6)] 0) = 5.
Proof.
  split; [reflexivity|].
  assert (Hc : csis (FDVar.dom (FDVar.mk [(0, 2); (5, 6)] 0))).
  { split; [repeat constructor; simpl; lia | simpl; lia]. }
  exact (proj2 (proj2 (size_counts_integers _ Hc))).
Defined.

(** ** [mid] and [rough_mid] *)

Lemma size_nonneg d step : nonempty_intervals d → 0 ≤ FDVar.size (FDVar.mk d step).
Proof. intros Hn. rewrite <- (length_elements d step Hn). lia. Qed.

Lemma mid_loop_spec d step : nonempty_intervals d →
  ∀ k, 0 ≤ k < FDVar.size (FDVar.mk d step) →
       ∃ m, FDVar.mid_loop k d = Ret m ∧ elements d !! Z.to_nat k = Some m.
Proof.
  induction 1 as [|i d Hi Hd IH]; intros k Hk.
  { unfold FDVar.size in Hk. simpl in Hk. lia. }
  rewrite (size_cons _ _ _ step) in Hk. cbn [FDVar.mid_loop elements flat_map].
  destruct (k >? i.2 - i.1) eqn:E.
  - destruct (IH (k - (i.2 - i.1 + 1))) as (m & Hm & Hl); [lia|].
    exists m. split; [done|].
    rewrite lookup_app_r by (rewrite length_seqZ; lia).
    rewrite length_seqZ. unfold elements in Hl.
    replace (Z.to_nat k - Z.to_nat (i.2 - i.1 + 1))%nat
      with (Z.to_nat (k - (i.2 - i.1 + 1))) by lia.
    done.
  - exists (i.1 + k). split; [done|].
    rewrite lookup_app_l by (rewrite length_seqZ; lia).
    rewrite lookup_seqZ_lt by lia. f_equal. lia.
Qed.

(** X12: on a non-empty domain in the form the code keeps, [mid()]
    returns, without an exception, the integer of the domain that has
    [floor(size / 2)] integers of the domain below it. *)
Theorem mid_is_the_middle_integer (v : FDVar.t) :
  csis (FDVar.dom v) → FDVar.dom v ≠ [] →
  ∃ m, FDVar.mid v = Ret m
       ∧ elements (FDVar.dom v) !! Z.to_nat (FDVar.size v / 2) = Some m
       ∧ contains (FDVar.dom v) m.
Proof.
  intros [Hn Hd] Hne. destruct v as [d s]. cbn [FDVar.dom] in *.
  assert (Hs : 1 ≤ FDVar.size (FDVar.mk d s)).
  { destruct d as [|i d]; [done|]. rewrite (size_cons _ _ _ s).
    apply Forall_cons in Hn as [Hi Hn]. pose proof (size_nonneg d s Hn). lia. }
  destruct (mid_loop_spec d s Hn (FDVar.size (FDVar.mk d s) / 2)) as (m & Hm & Hl).
  { split; [apply Z.div_pos; lia | apply Z.div_lt_upper_bound; lia]. }
  exists m. split; [done|]. split; [done|].
  apply elem_of_elements. by eapply list_elem_of_lookup_2.
Qed.

Lemma mid_is_the_middle_integer_witness :
  FDVar.mid (FDVar.mk [(0, 2); (5, 6)] 0) = Ret 2
  ∧ ∃ m, FDVar.mid (FDVar.mk [(0, 2); (5, 6)] 0) = Ret m
         ∧ elements [(0, 2); (5, 6)] !! 2%nat = Some m
         ∧ contains [(0, 2); (5, 6)] m.
Proof.
  split; [reflexivity|].
  assert (Hc : csis (FDVar.dom (FDVar.mk [(0, 2); (5, 6)] 0))).
  { split; [repeat constructor; simpl; lia | simpl; lia]. }
  exact (mid_is_the_middle_integer (FDVar.mk [(0, 2); (5, 6)] 0) Hc ltac:(done)).
Defined.

Lemma div2_lt_length {A} (l : list A) : l ≠ [] → (Nat.div2 (length l) < length l)%nat.
Proof.
  intros Hl. destruct l as [|a l]; [done|]. apply Nat.lt_div2. simpl. lia.
Qed.

(** X13: on a non-empty domain of non-empty intervals, [rough_mid()]
    returns, without an exception, an integer of the interval in the
    middle of the list: the middle of that interval, the upper one of
    the two when there are two. *)
Theorem rough_mid_in_the_middle_interval (v : FDVar.t) :
  nonempty_intervals (FDVar.dom v) → FDVar.dom v ≠ [] →
  ∃ (i : interval) m,
    FDVar.dom v !! Nat.div2 (length (FDVar.dom v)) = Some i
    ∧ FDVar.rough_mid v = Ret m
    ∧ i.1 ≤ m ≤ i.2 ∧ m - i.1 - 1 ≤ i.2 - m ≤ m - i.1
    ∧ contains (FDVar.dom v) m.
Proof.
  intros Hn Hne. unfold FDVar.rough_mid.
  destruct (lookup_lt_is_Some_2 (FDVar.dom v) _ (div2_lt_length _ Hne)) as [i Hi].
  exists i, ((i.1 + i.2 + 1) / 2). rewrite Hi. split; [done|]. split; [done|].
  assert (Hin : i ∈ FDVar.dom v) by by eapply list_elem_of_lookup_2.
  pose proof (proj1 (Forall_forall _ _) Hn i Hin) as Hle. simpl in Hle.
  assert (H2 : i.1 + i.2 + 1 = 2 * ((i.1 + i.2 + 1) / 2) + (i.1 + i.2 + 1) mod 2)
    by (apply Z.div_mod; lia).
  pose proof (Z.mod_pos_bound (i.1 + i.2 + 1) 2 ltac:(lia)) as Hm.
  split; [lia|]. split; [lia|]. exists i. split; [done | lia].
Qed.

Lemma rough_mid_in_the_middle_interval_witness :
  FDVar.rough_mid (FDVar.mk [(0, 2); (5, 8); (20, 20)] 0) = Ret 7
  ∧ ∃ (i : interval) m,
      [(0, 2); (5, 8); (20, 20)] !! 1%nat = Some i
      ∧ FDVar.rough_mid (FDVar.mk [(0, 2); (5, 8); (20, 20)] 0) = Ret m
      ∧ i.1 ≤ m ≤ i.2 ∧ m - i.1 - 1 ≤ i.2 - m ≤ m - i.1
      ∧ contains [(0, 2); (5, 8); (20, 20)] m.
Proof.
  split; [reflexivity|].
  assert (Hn : nonempty_intervals (FDVar.dom (FDVar.mk [(0, 2); (5, 8); (20, 20)] 0))).
  { repeat constructor; simpl; lia. }
  exact (rough_mid_in_the_middle_interval (FDVar.mk [(0, 2); (5, 8); (20, 20)] 0)
           Hn ltac:(done)).
Defined.

(** ** [min], [max], [is_undetermined] *)

(** X14: on a non-empty domain in the form the code keeps, [min()] and
    [max()] return the least and the greatest integer of the domain,
    and [is_undetermined()] is true exactly when they differ, that is
    when [size()] is above 1.  On the empty domain [min()], [max()],
    [mid()], [rough_mid()] and [is_undetermined()] throw a
    [TypeError]. *)
Theorem min_max_are_the_bounds (v : FDVar.t) :
  (csis (FDVar.dom v) → FDVar.dom v ≠ [] →
   ∃ lo hi,
     FDVar.min v = Ret lo ∧ FDVar.max v = Ret hi
     ∧ contains (FDVar.dom v) lo ∧ contains (FDVar.dom v) hi
     ∧ (∀ z, contains (FDVar.dom v) z → lo ≤ z ≤ hi)
     ∧ FDVar.is_undetermined v = Ret (lo <? hi)
     ∧ (lo < hi ↔ 1 < FDVar.size v))
  ∧ (FDVar.dom v = [] →
     FDVar.min v = Throw TypeError ∧ FDVar.max v = Throw TypeError
     ∧ FDVar.mid v = Throw TypeError ∧ FDVar.rough_mid v = Throw TypeError
     ∧ FDVar.is_undetermined v = Throw TypeError).
Proof.
  split.
  - intros Hc Hne. destruct v as [d s]. cbn [FDVar.dom] in *.
    destruct (domain_bounds_ret d Hne) as (lo & hi & Hb).
    destruct (csis_bounds _ _ _ Hc Hb) as (Hlo & Hhi & Hall).
    exists lo, hi.
    destruct d as [|i d]; [done|].
    assert (Hmin : FDVar.min (FDVar.mk (i :: d) s) = Ret lo).
    { unfold FDVar.min. cbn [FDVar.dom]. unfold domain_bounds in Hb. by simplify_eq. }
    assert (Hmax : FDVar.max (FDVar.mk (i :: d) s) = Ret hi).
    { unfold FDVar.max. cbn [FDVar.dom]. unfold domain_bounds in Hb. by simplify_eq. }
    split; [done|]. split; [done|]. split; [done|]. split; [done|]. split; [done|].
    pose proof (csis_cons _ _ Hc) as (Hi & Hrest & Hcd).
    assert (Hlo' : lo = i.1) by (unfold domain_bounds in Hb; by simplify_eq).
    destruct d as [|j d].
    + assert (Hhi' : hi = i.2) by (unfold domain_bounds in Hb; by simplify_eq).
      subst. split.
      * unfold FDVar.is_undetermined. cbn [FDVar.dom length].
        rewrite decide_False by lia. done.
      * unfold FDVar.size. cbn [FDVar.dom foldl]. lia.
    + pose proof (csis_cons _ _ Hcd) as (Hj & _ & Hcd').
      apply Forall_cons in Hrest as [Hij _]. simpl in Hij.
      pose proof (Hall j.2 ltac:(exists j; split; [right; by left | lia])) as Hj2.
      assert (lo < hi) by lia. split.
      * unfold FDVar.is_undetermined. cbn [FDVar.dom length].
        rewrite decide_True by lia. f_equal. symmetry. by apply Z.ltb_lt.
      * split; [intros _|done].
        rewrite (size_cons _ _ _ s), (size_cons _ _ _ s).
        pose proof (size_nonneg d s (proj1 Hcd')). lia.
  - intros E. unfold FDVar.min, FDVar.max, FDVar.mid, FDVar.rough_mid,
      FDVar.is_undetermined, FDVar.size. rewrite E. done.
Qed.

Lemma min_max_are_the_bounds_witness :
  FDVar.min (FDVar.mk [(3, 4); (9, 12)] 0) = Ret 3
  ∧ FDVar.max (FDVar.mk [(3, 4); (9, 12)] 0) = Ret 12
  ∧ ∃ lo hi,
      FDVar.min (FDVar.mk [(3, 4); (9, 12)] 0) = Ret lo
      ∧ FDVar.max (FDVar.mk [(3, 4); (9, 12)] 0) = Ret hi
      ∧ contains [(3, 4); (9, 12)] lo ∧ contains [(3, 4); (9, 12)] hi
      ∧ (∀ z, contains [(3, 4); (9, 12)] z → lo ≤ z ≤ hi)
      ∧ FDVar.is_undetermined (FDVar.mk [(3, 4); (9, 12)] 0) = Ret (lo <? hi)
      ∧ (lo < hi ↔ 1 < FDVar.size (FDVar.mk [(3, 4); (9, 12)] 0)).
Proof.
  split; [reflexivity|]. split; [reflexivity|].
  assert (Hc : csis (FDVar.dom (FDVar.mk [(3, 4); (9, 12)] 0))).
  { split; [repeat constructor; simpl; lia | simpl; lia]. }
  exact (proj1 (min_max_are_the_bounds (FDVar.mk [(3, 4); (9, 12)] 0)) Hc ltac:(done)).
Defined.

(** * Temporaries, constants, [distinct] *)

Lemma temp_space_vars dom t S :
  is_Some (Space.vars (temp_space dom t S) !! key (NNum t))
  ∧ ∀ k, is_Some (Space.vars S !! k) → is_Some (Space.vars (temp_space dom t S) !! k).
Proof.
  unfold temp_space. destruct (Space.vars S !! key (NNum t)) as [f|] eqn:E.
  - destruct dom as [d|]; cbn [Space.vars Space.set_vars].
    + split; [by rewrite lookup_insert_eq|]. intros k Hk.
      destruct (decide (k = key (NNum t))) as [->|Hne];
        [by rewrite lookup_insert_eq | by rewrite lookup_insert_ne].
    + by rewrite E.
  - cbn [Space.vars Space.set_vars]. split; [by rewrite lookup_insert_eq|]. intros k Hk.
    destruct (decide (k = key (NNum t))) as [->|Hne];
      [by rewrite lookup_insert_eq | by rewrite lookup_insert_ne].
Qed.

(** X15: [temps(N, dom)] throws nothing and returns the [N] names that
    follow the counter of temporaries, in increasing order; it leaves
    the counter [N] higher, every returned name declared, the variables
    that were declared declared, and the propagators as they were. *)
Theorem temps_returns_next_names (N : nat) (dom : option domain) (g : global)
    (S : Space.t) :
  ∃ g' S',
    temps N dom (g, S) = Some (Ret (next_temps (_temp_count g) N), (g', S'))
    ∧ Pos.to_nat (_temp_count g') = (Pos.to_nat (_temp_count g) + N)%nat
    ∧ Space._propagators S' = Space._propagators S
    ∧ (∀ t, t ∈ next_temps (_temp_count g) N → is_Some (Space.vars S' !! key t))
    ∧ (∀ k, is_Some (Space.vars S !! k) → is_Some (Space.vars S' !! k)).
Proof.
  revert g S. induction N as [|N IH]; intros g S.
  - exists g, S. split; [done|]. split; [lia|]. split; [done|].
    split; [|done]. intros t Ht. by apply elem_of_nil in Ht.
  - cbn [temps]. unfold bind at 1. rewrite temp_eq.
    set (g1 := {| _temp_count := Pos.succ (_temp_count g);
                  issued := Pos.succ (_temp_count g) :: issued g |}).
    set (S1 := temp_space dom (Pos.succ (_temp_count g)) S).
    destruct (IH g1 S1) as (g' & S' & E & Hc & Hp & Hn & Hk).
    exists g', S'. unfold bind at 1. rewrite E. unfold ret.
    pose proof (temp_space_vars dom (Pos.succ (_temp_count g)) S) as [Hnew Hold].
    assert (Hs : Pos.to_nat (_temp_count g1) = Datatypes.S (Pos.to_nat (_temp_count g))).
    { unfold g1. cbn [_temp_count]. lia. }
    assert (Hnames : next_temps (_temp_count g) (Datatypes.S N)
                     = NNum (Pos.succ (_temp_count g)) :: next_temps (_temp_count g1) N).
    { unfold next_temps. rewrite Hs. cbn [seq fmap list_fmap]. f_equal.
      f_equal. rewrite <- Pos.of_nat_succ. lia. }
    rewrite Hnames. split; [done|]. split; [lia|].
    split; [rewrite Hp; apply temp_space_propagators|]. split.
    + intros t [->|Ht]%elem_of_cons; [by apply Hk | by apply Hn].
    + intros k Hk'. by apply Hk, Hold.
Qed.

(** X16: [konst(val)] with [val] outside [[0, SUP]] throws the message
    of a usage error and leaves the space and the counter of
    temporaries as they were.  Otherwise it throws nothing and returns
    the next temporary, whose domain is [[val, val]], and leaves the
    other variables and the propagators as they were. *)
Theorem konst_spec (val : Z) (g : global) (S : Space.t) :
  ((val < 0 ∨ FD_SUP < val) →
   konst val (g, S)
   = Some (Throw (Error "FD.space.konst: Value out of valid range"), (g, S)))
  ∧ (0 ≤ val ≤ FD_SUP →
     ∃ g' S',
       konst val (g, S) = Some (Ret (NNum (Pos.succ (_temp_count g))), (g', S'))
       ∧ _temp_count g' = Pos.succ (_temp_count g)
       ∧ dom_of S' (NNum (Pos.succ (_temp_count g))) = Some [(val, val)]
       ∧ (∀ k, k ≠ key (NNum (Pos.succ (_temp_count g))) →
               Space.vars S' !! k = Space.vars S !! k)
       ∧ Space._propagators S' = Space._propagators S).
Proof.
  unfold konst. split.
  - intros H. destruct ((val <? 0) || (val >? FD_SUP)) eqn:E; [done|].
    apply orb_false_iff in E as [E1 E2]. lia.
  - intros H. destruct ((val <? 0) || (val >? FD_SUP)) eqn:E.
    { apply orb_true_iff in E as [E|E]; lia. }
    rewrite temp_eq. eexists _, _. split; [done|]. split; [done|].
    split; [|split; [|apply temp_space_propagators]].
    + unfold dom_of, temp_space.
      destruct (Space.vars S !! key (NNum (Pos.succ (_temp_count g)))) as [f|];
        cbn [Space.vars Space.set_vars]; rewrite lookup_insert_eq; cbn [fmap option_fmap option_map];
        [by rewrite set_dom_dom | done].
    + intros k Hk. unfold temp_space.
      destruct (Space.vars S !! key (NNum (Pos.succ (_temp_count g)))) as [f|];
        cbn [Space.vars Space.set_vars]; by rewrite lookup_insert_ne.
Qed.

Lemma konst_spec_witness :
  ∃ g' S',
    konst 7 (global_init, Space.new) = Some (Ret (NNum 2), (g', S'))
    ∧ dom_of S' (NNum 2) = Some [(7, 7)].
Proof.
  destruct (proj2 (konst_spec 7 global_init Space.new)) as (g' & S' & H1 & _ & H2 & _).
  { unfold FD_SUP. lia. }
  exists g', S'. split; [exact H1 | exact H2].
Defined.

(** ** [distinct] *)

Lemma for_each_newprop {A} (l : list A)
    (a d : A → list name) (s : A → stepfn) (g : global) (S : Space.t) :
  for_each l (λ x, newprop (a x) (d x) (s x) ;; ret tt) (g, S)
  = Some (Ret tt,
          (g, Space.set_propagators
                (Space._propagators S
                 ++ ((λ x, new_propagator (Space.vars S) (a x) (d x) (s x)) <$> l)) S)).
Proof.
  revert S. induction l as [|x l IH]; intros [V ps]; cbn [for_each fmap list_fmap].
  - unfold ret, Space.set_propagators. cbn. by rewrite app_nil_r.
  - unfold bind at 1. unfold bind at 1. unfold newprop at 1.
    unfold bind at 1, modify at 1, ret at 1, ret at 1. cbn [fst snd].
    rewrite IH. unfold Space.set_propagators. cbn [Space.vars Space._propagators].
    by rewrite <- app_assoc.
Qed.

Lemma distinct_eq (vars : list name) (g : global) (S : Space.t) :
  distinct vars (g, S)
  = Some (Ret RSpace,
          (g, Space.set_propagators
                (Space._propagators S ++ distinct_propagators (Space.vars S) vars) S)).
Proof.
  unfold distinct, distinct_propagators.
  generalize (imap (λ i v, (v, take i vars)) vars). intros l.
  unfold bind at 1.
  assert (E : ∀ S : Space.t,
             for_each l (λ vi : name * list name,
                           for_each vi.2 (λ vj, neq vi.1 vj ;; ret tt)) (g, S)
             = Some (Ret tt,
                     (g, Space.set_propagators
                           (Space._propagators S
                            ++ flat_map (λ vi : name * list name,
                                 (λ vj, new_propagator (Space.vars S) [vi.1; vj] [vi.1; vj]
                                          (step_cmp step_neq)) <$> vi.2) l) S))).
  { clear S. induction l as [|vi l IH]; intros [V ps]; cbn [for_each flat_map].
    - unfold ret, Space.set_propagators. cbn. by rewrite app_nil_r.
    - unfold bind at 1. unfold neq.
      rewrite (for_each_newprop vi.2 (λ vj, [vi.1; vj]) (λ vj, [vi.1; vj])
                 (λ _, step_cmp step_neq)).
      rewrite IH. unfold Space.set_propagators. cbn [Space.vars Space._propagators].
      by rewrite <- app_assoc. }
  by rewrite E.
Qed.

Lemma length_distinct_propagators_from V (l vs : list name) (k : nat) :
  (k + length vs ≤ length l)%nat →
  (2 * length (flat_map (λ vi : name * list name,
                 (λ vj, new_propagator V [vi.1; vj] [vi.1; vj] (step_cmp step_neq)) <$> vi.2)
                 (imap (λ i v, (v, take (k + i) l)) vs))
   + length vs
   = length vs * (2 * k + length vs))%nat.
Proof.
  revert k. induction vs as [|v vs IH]; intros k Hk; [done|].
  cbn [imap flat_map length]. rewrite length_app, length_fmap. cbn [fst snd].
  rewrite length_take, Nat.add_0_r.
  assert (E : imap ((λ i v0, (v0, take (k + i) l)) ∘ S) vs
              = imap (λ i v0, (v0, take (S k + i) l)) vs).
  { apply imap_ext. intros i x _. simpl. do 2 f_equal. lia. }
  rewrite E. specialize (IH (S k) ltac:(simpl in *; lia)). simpl in Hk. nia.
Qed.

(** X17: [distinct(vars)] throws nothing, returns the space, leaves the
    variables as they are and adds, after the propagators that are
    there, one [neq] propagator for each position of [vars] with each
    position before it: [n (n - 1) / 2] propagators for [n]
    variables. *)
Theorem distinct_adds_a_neq_for_each_pair (vars : list name) (g : global) (S : Space.t) :
  ∃ S',
    distinct vars (g, S) = Some (Ret RSpace, (g, S'))
    ∧ Space.vars S' = Space.vars S
    ∧ Space._propagators S'
      = Space._propagators S ++ distinct_propagators (Space.vars S) vars
    ∧ (2 * length (distinct_propagators (Space.vars S) vars)
       = length vars * (length vars - 1))%nat
    ∧ ∀ i j vi vj,
        vars !! i = Some vi → vars !! j = Some vj → (j < i)%nat →
        new_propagator (Space.vars S) [vi; vj] [vi; vj] (step_cmp step_neq)
        ∈ Space._propagators S'.
Proof.
  eexists. split; [apply distinct_eq|]. split; [done|]. split; [done|]. split.
  - pose proof (length_distinct_propagators_from (Space.vars S) vars vars 0 ltac:(lia)) as H.
    unfold distinct_propagators. simpl in H. destruct (length vars); nia.
  - intros i j vi vj Hi Hj Hlt. cbn [Space.set_propagators Space._propagators].
    apply elem_of_app. right. unfold distinct_propagators.
    apply list_elem_of_In, in_flat_map. exists (vi, take i vars). split.
    + apply list_elem_of_In, list_elem_of_lookup. exists i.
      rewrite list_lookup_imap, Hi. done.
    + apply list_elem_of_In, list_elem_of_fmap. exists vj. split; [done|].
      apply list_elem_of_lookup. exists j. cbn [snd]. by rewrite lookup_take_lt.
Qed.

(** * [sum] and [product] return *)

Lemma returns_ret {A} (a : A) : returns (ret a).
Proof. intros σ. by eexists _, _. Qed.

Lemma returns_bind {A B} (m : method A) (f : A → method B) :
  returns m → (∀ a, returns (f a)) → returns (let* a := m in f a).
Proof.
  intros Hm Hf σ. destruct (Hm σ) as (a & σ1 & E). destruct (Hf a σ1) as (b & σ2 & E2).
  exists b, σ2. unfold bind. by rewrite E.
Qed.

Lemma returns_temp dom : returns (temp dom).
Proof. intros [g S]. rewrite temp_eq. by eexists _, _. Qed.

Lemma returns_or_temp resultName : returns (or_temp resultName).
Proof.
  destruct resultName; cbn [or_temp]; [apply returns_ret|].
  apply returns_bind; [apply returns_temp | intros; apply returns_ret].
Qed.

Lemma returns_newprop allvars depvars step : returns (newprop allvars depvars step).
Proof. intros σ. by eexists _, _. Qed.

Lemma returns_eq v1 v2 : returns (eq v1 v2).
Proof. destruct v2; cbn [eq]; [apply returns_newprop | apply returns_ret]. Qed.

Lemma returns_ring plusop minusop v1 v2 s : returns (ring plusop minusop v1 v2 s).
Proof.
  unfold ring. apply returns_bind; [apply returns_or_temp|]. intros r. cbv zeta.
  repeat (apply returns_bind; [apply returns_newprop|]; intros _).
  apply returns_ret.
Qed.

Ltac returns :=
  repeat first
    [ progress intros
    | apply returns_ret
    | apply returns_temp
    | apply returns_or_temp
    | apply returns_eq
    | apply returns_ring
    | assumption
    | apply returns_bind
    | match goal with
      | |- returns (if ?c then _ else _) => destruct c
      | |- returns (let _ := _ in _) => cbv zeta
      end ].

Lemma div2_halves (n : nat) : (3 ≤ n → 1 ≤ Nat.div2 n ∧ Nat.div2 n < n - 1)%nat.
Proof.
  intros Hn. destruct n as [|[|[|m]]]; [lia..|].
  change (Nat.div2 (S (S (S m)))) with (S (Nat.div2 (S m))).
  pose proof (Nat.lt_div2 (S m) (Nat.lt_0_succ m)) as H.
  generalize dependent (Nat.div2 (S m)). intros x Hx. lia.
Qed.

Lemma returns_sum_rec fuel : ∀ vars resultName,
  vars ≠ [] → (length vars ≤ fuel)%nat → returns (sum_rec fuel vars resultName).
Proof.
  induction fuel as [|fuel IH]; intros vars res Hne Hlen.
  { destruct vars; [done | simpl in Hlen; lia]. }
  destruct vars as [|v0 [|v1 [|v2 vars]]]; [done| | |].
  - cbn [sum_rec]. unfold plus. returns.
  - cbn [sum_rec]. unfold plus. returns.
  - cbn [sum_rec]. set (l := v0 :: v1 :: v2 :: vars) in *. unfold plus.
    destruct (div2_halves (length l) ltac:(simpl; lia)) as [Hn1 Hn2].
    apply returns_bind; [apply returns_or_temp|]. intros r. cbv zeta.
    apply returns_bind; [apply returns_temp|]. intros t2.
    apply returns_bind.
    { apply IH; [|rewrite length_drop; simpl in *; lia].
      intros E. apply (f_equal length) in E. rewrite length_drop in E. simpl in *. lia. }
    intros _. apply returns_bind; [|returns].
    destruct (decide (1 < Nat.div2 (length l))%nat); [|apply returns_ret].
    apply returns_bind; [apply returns_temp|]. intros t1.
    apply returns_bind; [|returns].
    apply IH; [|rewrite length_take; simpl in *; lia].
    intros E. apply (f_equal length) in E. rewrite length_take in E. simpl in *. lia.
Qed.

Lemma returns_product_rec dom_divby fuel : ∀ vars resultName,
  (length vars ≤ fuel)%nat → returns (product_rec dom_divby fuel vars resultName).
Proof.
  induction fuel as [|fuel IH]; intros vars res Hlen.
  { destruct vars; [|simpl in Hlen; lia]. cbn [product_rec]. returns. }
  destruct vars as [|v0 [|v1 [|v2 vars]]].
  - cbn [product_rec]. returns.
  - cbn [product_rec]. unfold times. returns.
  - cbn [product_rec]. unfold times. returns.
  - cbn [product_rec]. set (l := v0 :: v1 :: v2 :: vars) in *. unfold times.
    destruct (div2_halves (length l) ltac:(simpl; lia)) as [Hn1 Hn2].
    apply returns_bind; [apply returns_or_temp|]. intros r. cbv zeta.
    apply returns_bind; [apply returns_temp|]. intros t2.
    apply returns_bind.
    { apply IH. rewrite length_drop. simpl in *. lia. }
    intros _. apply returns_bind; [|returns].
    destruct (decide (1 < Nat.div2 (length l))%nat); [|apply returns_ret].
    apply returns_bind; [apply returns_temp|]. intros t1.
    apply returns_bind; [|returns].
    apply IH. rewrite length_take. simpl in *. lia.
Qed.

(** What the constructors return is what [or_temp] gave them. *)
Lemma or_temp_eq resultName σ :
  ∃ r σ1, or_temp resultName σ = Some (Ret r, σ1) ∧ r.2 = result_of resultName σ.
Proof.
  destruct σ as [g S]. destruct resultName as [n|]; cbn [or_temp].
  - by eexists _, _.
  - unfold bind. rewrite temp_eq. by eexists _, _.
Qed.

Lemma then_ret_inv {A B} (m : method A) (b b' : B) σ σ' :
  (m ;; ret b) σ = Some (Ret b', σ') → b' = b.
Proof.
  intros H. apply bind_ret_inv in H as (a & σ1 & _ & H). unfold ret in H. by simplify_eq.
Qed.

Lemma sum_rec_result fuel vars resultName σ r σ' :
  sum_rec fuel vars resultName σ = Some (Ret r, σ') → r = result_of resultName σ.
Proof.
  destruct (or_temp_eq resultName σ) as (rt & σ1 & E & <-).
  intros H. destruct fuel as [|fuel]; cbn [sum_rec] in H;
    apply bind_ret_inv in H as (rt' & σ1' & E' & H); rewrite E in E'; simplify_eq;
    destruct vars as [|v0 [|v1 [|v2 vars]]]; try done;
    try (by apply then_ret_inv in H).
  cbv zeta in H.
  apply bind_ret_inv in H as (t2 & σ2 & _ & H).
  apply bind_ret_inv in H as (? & σ3 & _ & H).
  apply bind_ret_inv in H as (t1 & σ4 & _ & H).
  by apply then_ret_inv in H.
Qed.

Lemma product_rec_result dom_divby fuel vars resultName σ r σ' :
  product_rec dom_divby fuel vars resultName σ = Some (Ret r, σ') →
  r = result_of resultName σ.
Proof.
  destruct (or_temp_eq resultName σ) as (rt & σ1 & E & <-).
  intros H. destruct fuel as [|fuel]; cbn [product_rec] in H;
    apply bind_ret_inv in H as (rt' & σ1' & E' & H); rewrite E in E'; simplify_eq;
    destruct vars as [|v0 [|v1 [|v2 vars]]]; try done;
    try (by apply then_ret_inv in H);
    try (unfold ret in H; by simplify_eq).
  cbv zeta in H.
  apply bind_ret_inv in H as (t2 & σ2 & _ & H).
  apply bind_ret_inv in H as (? & σ3 & _ & H).
  apply bind_ret_inv in H as (t1 & σ4 & _ & H).
  by apply then_ret_inv in H.
Qed.

(** X18: [sum(vars, resultName)] on a list that is not empty, of any
    length, and [product(vars, resultName)] on any list, throw
    nothing and come to an end (the halving recursion stops); they
    return the space when [resultName] is given, and otherwise the
    name of the temporary that they make first, for the result. *)
Theorem sum_and_product_return (dom_divby : domain → domain → domain)
    (vars : list name) (resultName : option name) (σ : global * Space.t) :
  (vars ≠ [] → ∃ σ', sum vars resultName σ = Some (Ret (result_of resultName σ), σ'))
  ∧ ∃ σ', product dom_divby vars resultName σ = Some (Ret (result_of resultName σ), σ').
Proof.
  split.
  - intros Hne. destruct (returns_sum_rec (length vars) vars resultName Hne (le_n _) σ)
      as (r & σ' & E).
    exists σ'. unfold sum. rewrite E. by rewrite (sum_rec_result _ _ _ _ _ _ E).
  - destruct (returns_product_rec dom_divby (length vars) vars resultName (le_n _) σ)
      as (r & σ' & E).
    exists σ'. unfold product. rewrite E. by rewrite (product_rec_result _ _ _ _ _ _ _ E).
Qed.

Lemma sum_and_product_return_witness :
  ∃ σ', sum [NStr "A" EmptyString; NStr "B" EmptyString; NStr "C" EmptyString] None
            (global_init, Space.new)
        = Some (Ret (RName (NNum 2)), σ').
Proof.
  assert (Hne : [NStr "A" EmptyString; NStr "B" EmptyString; NStr "C" EmptyString] ≠ [])
    by done.
  exact (proj1 (sum_and_product_return (λ d _, d) _ None (global_init, Space.new)) Hne).
Defined.

(** * The methods add, and never remove *)

Lemma extends_refl S : extends S S.
Proof. split; [done | auto]. Qed.

Lemma extends_trans S1 S2 S3 : extends S1 S2 → extends S2 S3 → extends S1 S3.
Proof. intros [P1 V1] [P2 V2]. split; [by etrans | auto]. Qed.

Lemma bind_extends {A B} (m : method A) (f : A → method B) :
  method_extends m → (∀ a, method_extends (f a)) → method_extends (let* a := m in f a).
Proof.
  intros Hm Hf σ o σ'. unfold bind.
  destruct (m σ) as [[[a|e] σ1]|] eqn:E; [| |done].
  - intros H. eapply extends_trans; [by eapply Hm | by eapply Hf].
  - intros [= <- <-]. by eapply Hm.
Qed.

Lemma same_space_extends {A} (m : method A) :
  (∀ σ o σ', m σ = Some (o, σ') → σ'.2 = σ.2) → method_extends m.
Proof. intros H σ o σ' E. rewrite (H _ _ _ E). apply extends_refl. Qed.

Lemma ret_extends {A} (a : A) : method_extends (ret a).
Proof. apply same_space_extends. by intros σ o σ' [= <- <-]. Qed.

Lemma throw_extends {A} e : method_extends (throw (A := A) e).
Proof. apply same_space_extends. by intros σ o σ' [= <- <-]. Qed.

Lemma lift_extends {A} (x : outcome A) : method_extends (lift x).
Proof. apply same_space_extends. by intros σ o σ' [= <- <-]. Qed.

Lemma out_of_fuel_extends {A} : method_extends (out_of_fuel (A := A)).
Proof. by intros σ o σ'. Qed.

Lemma get_vars_extends : method_extends get_vars.
Proof. apply same_space_extends. by intros σ o σ' [= <- <-]. Qed.

Lemma put_var_extends k v : method_extends (put_var k v).
Proof.
  intros σ o σ' [= <- <-]. split; [done|]. intros k' Hk'. cbn [snd Space.vars Space.set_vars].
  destruct (decide (k' = k)) as [->|Hne];
    [by rewrite lookup_insert_eq | by rewrite lookup_insert_ne].
Qed.

Lemma newprop_extends allvars depvars step : method_extends (newprop allvars depvars step).
Proof.
  intros [g S] o σ' [= <- <-]. split; [|auto].
  cbn [snd Space._propagators Space.set_propagators]. by apply prefix_app_r.
Qed.

Lemma for_each_extends {A} (l : list A) (body : A → method unit) :
  (∀ x, method_extends (body x)) → method_extends (for_each l body).
Proof.
  intros Hb. induction l as [|x l IH]; simpl; [apply ret_extends|].
  apply bind_extends; [apply Hb | by intros _].
Qed.

Lemma decl_extends name_or_names dom : method_extends (decl name_or_names dom).
Proof.
  induction name_or_names as [n|l IH] using names_induction.
  - cbn [decl]. apply bind_extends; [apply get_vars_extends|]. intros fs.
    destruct (fs !! key n); [destruct dom | destruct (inherited (key n)); [destruct dom|]];
      repeat (apply bind_extends; [|intros]);
      first [apply put_var_extends | apply ret_extends | apply throw_extends].
  - simpl. apply bind_extends; [|intros; apply ret_extends].
    induction IH as [|x l Hx _ IHl]; [apply ret_extends|].
    apply bind_extends; [exact Hx | by intros _].
Qed.

Lemma temp_extends dom : method_extends (temp dom).
Proof.
  unfold temp. apply bind_extends.
  { apply same_space_extends. by intros σ o σ' [= <- <-]. }
  intros σ0. cbv zeta. apply bind_extends.
  { apply same_space_extends. by intros σ o σ' [= <- <-]. }
  intros _. apply bind_extends; [apply decl_extends | intros; apply ret_extends].
Qed.

Create HintDb extends discriminated.

#[local] Hint Resolve ret_extends throw_extends lift_extends out_of_fuel_extends
  get_vars_extends put_var_extends newprop_extends decl_extends temp_extends : extends.

Ltac extends :=
  repeat first
    [ progress intros
    | solve [eauto with extends]
    | apply bind_extends
    | apply for_each_extends
    | match goal with
      | |- method_extends (match ?x with _ => _ end) => destruct x
      | |- method_extends (if ?c then _ else _) => destruct c
      | |- method_extends (let _ := _ in _) => cbv zeta
      end ].

Lemma temps_extends N dom : method_extends (temps N dom).
Proof. induction N; cbn [temps]; extends. Qed.

Lemma konst_extends val : method_extends (konst val).
Proof. unfold konst. extends. Qed.

Lemma num_extends name n : method_extends (num name n).
Proof. unfold num. extends. Qed.

Lemma eq_extends v1name v2name : method_extends (eq v1name v2name).
Proof. unfold eq. extends. Qed.

Lemma lt_extends v1name v2name : method_extends (lt v1name v2name).
Proof. unfold lt. extends. Qed.

Lemma lte_extends v1name v2name : method_extends (lte v1name v2name).
Proof. unfold lte. extends. Qed.

Lemma neq_extends v1name v2name : method_extends (neq v1name v2name).
Proof. unfold neq. extends. Qed.

#[local] Hint Resolve temps_extends konst_extends num_extends eq_extends lt_extends
  lte_extends neq_extends : extends.

Lemma distinct_extends vars : method_extends (distinct vars).
Proof. unfold distinct. extends. Qed.

Lemma or_temp_extends resultName : method_extends (or_temp resultName).
Proof. unfold or_temp. extends. Qed.

#[local] Hint Resolve distinct_extends or_temp_extends : extends.

Lemma ring_extends plusop minusop v1name v2name sumname :
  method_extends (ring plusop minusop v1name v2name sumname).
Proof. unfold ring. extends. Qed.

#[local] Hint Resolve ring_extends : extends.

Lemma scale_extends factor vname prodname : method_extends (scale factor vname prodname).
Proof. unfold scale. extends. Qed.

Lemma name_of_extends r : method_extends (name_of r).
Proof. unfold name_of. extends. Qed.

#[local] Hint Resolve scale_extends name_of_extends : extends.

Lemma plus_extends v1name v2name sumname : method_extends (plus v1name v2name sumname).
Proof. unfold plus. extends. Qed.

Lemma times_extends dom_divby v1name v2name prodname :
  method_extends (times dom_divby v1name v2name prodname).
Proof. unfold times. extends. Qed.

#[local] Hint Resolve plus_extends times_extends : extends.

Lemma times_plus_extends k1 v1name k2 v2name resultname :
  method_extends (times_plus k1 v1name k2 v2name resultname).
Proof. unfold times_plus. extends. Qed.

Lemma sum_rec_extends fuel :
  ∀ vars resultName, method_extends (sum_rec fuel vars resultName).
Proof.
  induction fuel as [|fuel IH]; intros vars resultName.
  - cbn [sum_rec]. extends.
  - cbn [sum_rec]. extends; apply IH.
Qed.

Lemma product_rec_extends dom_divby fuel :
  ∀ vars resultName, method_extends (product_rec dom_divby fuel vars resultName).
Proof.
  induction fuel as [|fuel IH]; intros vars resultName.
  - cbn [product_rec]. extends.
  - cbn [product_rec]. extends; apply IH.
Qed.

Lemma sum_extends vars resultName : method_extends (sum vars resultName).
Proof. apply sum_rec_extends. Qed.

Lemma product_extends dom_divby vars resultName :
  method_extends (product dom_divby vars resultName).
Proof. apply product_rec_extends. Qed.

#[local] Hint Resolve times_plus_extends sum_extends product_extends : extends.

Lemma wsum_extends kweights vars resultName :
  method_extends (wsum kweights vars resultName).
Proof.
  unfold wsum. apply bind_extends; [|extends].
  induction (zip kweights vars) as [|kv l IH]; extends.
Qed.

Lemma constrain_var_extends n d : method_extends (constrain_var n d).
Proof. unfold constrain_var. extends. Qed.

#[local] Hint Resolve wsum_extends constrain_var_extends : extends.

(** [reified] pops the two comparison propagators that it has pushed:
    what was there stays. *)
Lemma reified_extends opname argv boolname :
  method_extends (reified opname argv boolname).
Proof.
  unfold reified. destruct (operator_of opname) as [op|]; [|extends].
  apply bind_extends; [extends|]. intros r. cbv zeta.
  intros σ o σ' H.
  destruct (apply_operator_pop op argv σ) as (pos & _ & E1). rewrite E1 in H.
  destruct (apply_operator_pop (complementary_operator op) argv σ) as (neg & _ & E2).
  rewrite E2 in H. clear E1 E2. revert σ o σ' H.
  apply bind_extends; extends.
Qed.

#[local] Hint Resolve reified_extends : extends.

(** X19: no call of a method that declares variables or posts
    constraints ([reified] with one of its six operators) removes
    anything, however it ends: the propagators
    that were in the space are still there, in their places and as
    they were, before those that the call has added; and every
    variable that was declared is still declared. *)
Theorem constructors_only_add (dom_divby : domain → domain → domain) (c : call)
    (g g' : global) (S S' : Space.t) (o : outcome unit) :
  constructs c →
  invoke dom_divby c (g, S) = Some (o, (g', S')) →
  (∃ added, Space._propagators S' = Space._propagators S ++ added)
  ∧ ∀ k, is_Some (Space.vars S !! k) → is_Some (Space.vars S' !! k).
Proof.
  intros Hc H.
  assert (Hm : method_extends (invoke dom_divby c)).
  { destruct c; try done; unfold invoke, forget, gt, gte; extends. }
  exact (Hm _ _ _ H).
Qed.

Lemma constructors_only_add_witness :
  ∃ g' S',
    invoke (λ d _, d) (call_reified "lt" (NStr "A" EmptyString, NStr "B" EmptyString) None)
      (global_init, example_space)
    = Some (Ret tt, (g', S'))
    ∧ ∃ added, Space._propagators S' = Space._propagators example_space ++ added.
Proof.
  set (c := call_reified "lt" (NStr "A" EmptyString, NStr "B" EmptyString) None).
  set (r := invoke (λ d _, d) c (global_init, example_space)).
  exists (match r with Some (_, σ) => σ.1 | None => global_init end),
         (match r with Some (_, σ) => σ.2 | None => Space.new end).
  assert (E : r = Some (Ret tt, (match r with Some (_, σ) => σ.1 | None => global_init end,
                                 match r with Some (_, σ) => σ.2 | None => Space.new end)))
    by (vm_compute; reflexivity).
  split; [exact E|].
  exact (proj1 (constructors_only_add (λ d _, d) c global_init _ example_space _ (Ret tt)
                  (mk_is_Some _ _ eq_refl) E)).
Defined.

(** * Propagation prunes *)

Lemma pruned_refl v : pruned v v.
Proof. by left. Qed.

Lemma pruned_trans v1 v2 v3 : pruned v1 v2 → pruned v2 v3 → pruned v1 v3.
Proof.
  intros [-> | [H1 H2]] [-> | [H3 H4]]; [by left | by right; split | by right; split |].
  right. split; [lia | auto].
Qed.

Lemma narrows_refl V : narrows V V.
Proof. intros k. destruct (V !! k); constructor. apply pruned_refl. Qed.

Lemma narrows_trans V1 V2 V3 : narrows V1 V2 → narrows V2 V3 → narrows V1 V3.
Proof.
  intros H12 H23 k. specialize (H12 k). specialize (H23 k).
  destruct H12 as [v1 v2 Hp|]; inversion H23; subst; constructor.
  by eapply pruned_trans.
Qed.

Lemma pruned_set_dom v d :
  (∀ z, contains d z → contains (FDVar.dom v) z) → pruned v (FDVar.set_dom v d).
Proof.
  intros Hd. unfold FDVar.set_dom. destruct (negb _); [|by left].
  right. simpl. split; [lia | done].
Qed.

Lemma narrows_insert V k v v' :
  V !! k = Some v → pruned v v' → narrows V (<[k := v']> V).
Proof.
  intros Hk Hp k'. destruct (decide (k = k')) as [<-|Hne].
  - rewrite lookup_insert_eq, Hk. by constructor.
  - rewrite lookup_insert_ne by done. apply narrows_refl.
Qed.

Lemma narrows_lookup V V' k v :
  narrows V V' → V !! k = Some v → ∃ v', V' !! k = Some v' ∧ pruned v v'.
Proof. intros H Hk. specialize (H k). rewrite Hk in H. inversion H; subst. eauto. Qed.

(** Restoring saved variables over pruned ones leaves them pruned. *)
Lemma narrows_restored V vs : saved vs V → ∀ V1, narrows V V1 → narrows V (restored vs V1).
Proof.
  unfold restored. induction vs as [|[k0 v0] vs IH]; intros Hvs V1 H1; simpl; [done|].
  apply IH.
  - intros k v Hk. apply Hvs. by apply elem_of_cons; right.
  - intros k. destruct (decide (k0 = k)) as [<-|Hne].
    + rewrite lookup_insert_eq. rewrite (Hvs k0 v0) by (by apply elem_of_cons; left).
      constructor. apply pruned_refl.
    + rewrite lookup_insert_ne by done. apply H1.
Qed.

(** ** Rules *)

Section narrowing.
Context {T : Type}.
Implicit Types (P : vars_t → Prop).

Lemma ni_weaken {A} P (m : M (T * vars_t) A) : narrowing m → narrowing_if P m.
Proof. intros H σ o σ' _. by apply H. Qed.

Lemma ni_readonly {A} P (m : M (T * vars_t) A) : readonly m → narrowing_if P m.
Proof. intros H σ o σ' _ E. rewrite (H _ _ _ E). apply narrows_refl. Qed.

Lemma ni_ret {A} P (a : A) : narrowing_if (T := T) P (ret a).
Proof. apply ni_readonly, readonly_ret. Qed.

Lemma ni_throw {A} P e : narrowing_if (T := T) P (throw (A := A) e).
Proof. apply ni_readonly, readonly_throw. Qed.

Lemma ni_out_of_fuel {A} P : narrowing_if (T := T) P (out_of_fuel (A := A)).
Proof. by intros σ o σ' _. Qed.

Lemma ni_bind {A B} P (m : M (T * vars_t) A) (f : A → M (T * vars_t) B) :
  narrowing_if P m → (∀ a, narrowing (f a)) → narrowing_if P (let* a := m in f a).
Proof.
  intros Hm Hf σ o σ' HP H.
  apply bind_inv in H as [(a & σ1 & H1 & H2) | (e & H1 & ->)].
  - eapply narrows_trans; [by eapply Hm | by eapply Hf].
  - by eapply Hm.
Qed.

Lemma ni_bind_readonly {A B} P (m : M (T * vars_t) A) (f : A → M (T * vars_t) B) :
  readonly m → (∀ a, narrowing_if P (f a)) → narrowing_if P (let* a := m in f a).
Proof.
  intros Hm Hf σ o σ' HP H.
  apply bind_inv in H as [(a & σ1 & H1 & H2) | (e & H1 & ->)].
  - pose proof (Hm _ _ _ H1) as ->. by eapply Hf.
  - rewrite (Hm _ _ _ H1). apply narrows_refl.
Qed.

Lemma ni_bind_read {B} P k (f : FDVar.t → M (T * vars_t) B) :
  (∀ x, narrowing_if (λ V, P V ∧ V !! k = Some x) (f x)) →
  narrowing_if P (let* x := read k in f x).
Proof.
  intros Hf σ o σ' HP H.
  apply bind_inv in H as [(a & σ1 & H1 & H2) | (e & H1 & ->)].
  - apply read_inv in H1 as [-> H1]. by eapply Hf.
  - rewrite (readonly_read _ _ _ _ H1). apply narrows_refl.
Qed.

Lemma ni_bind_lift {A B} P (x : outcome A) (f : A → M (T * vars_t) B) :
  (∀ a, x = Ret a → narrowing_if P (f a)) → narrowing_if P (let* a := lift x in f a).
Proof.
  intros Hf σ o σ' HP H.
  apply bind_inv in H as [(a & σ1 & H1 & H2) | (e & H1 & ->)].
  - apply lift_inv in H1 as [-> H1]. by eapply Hf.
  - rewrite (readonly_lift _ _ _ _ H1). apply narrows_refl.
Qed.

Lemma ni_bind_update {B} P (g : T → T) (f : unit → M (T * vars_t) B) :
  (∀ u, narrowing_if P (f u)) → narrowing_if P (let* u := update_this g in f u).
Proof.
  intros Hf σ o σ' HP H.
  apply bind_inv in H as [(a & σ1 & H1 & H2) | (e & [=] & _)].
  apply update_this_inv in H1 as ->. exact (Hf a (g σ.1, σ.2) _ _ HP H2).
Qed.

Lemma ni_update P (g : T → T) : narrowing_if P (update_this g).
Proof. intros σ o σ' _ [= <- <-]. apply narrows_refl. Qed.

Lemma set_dom_inv k d (σ : T * vars_t) o σ' :
  set_dom k d σ = Some (o, σ') →
  (∃ x, σ.2 !! k = Some x ∧ σ' = (σ.1, <[k := FDVar.set_dom x d]> σ.2) ∧ o = Ret tt)
  ∨ (σ' = σ ∧ ∃ e, o = Throw e).
Proof.
  unfold set_dom, bind, read, modify.
  destruct (σ.2 !! k) as [x|]; intros [= <- <-]; [left | right]; eauto.
Qed.

Lemma ni_set_dom P k d :
  (∀ V x, P V → V !! k = Some x → ∀ z, contains d z → contains (FDVar.dom x) z) →
  narrowing_if P (set_dom (T := T) k d).
Proof.
  intros Hd σ o σ' HP H.
  apply set_dom_inv in H as [(x & Hx & -> & _) | [-> _]]; [|apply narrows_refl].
  cbn [snd]. eapply narrows_insert; [done|]. apply pruned_set_dom. by eapply Hd.
Qed.

Lemma ni_bind_set_dom {B} P k d (f : unit → M (T * vars_t) B) :
  (∀ V x, P V → V !! k = Some x → ∀ z, contains d z → contains (FDVar.dom x) z) →
  (∀ u, narrowing_if (λ V', ∃ V x, P V ∧ V !! k = Some x
                                   ∧ V' = <[k := FDVar.set_dom x d]> V) (f u)) →
  narrowing_if P (let* u := set_dom k d in f u).
Proof.
  intros Hd Hf σ o σ' HP H.
  apply bind_inv in H as [(a & σ1 & H1 & H2) | (e & H1 & ->)].
  - pose proof (ni_set_dom P k d Hd _ _ _ HP H1) as Hn.
    apply set_dom_inv in H1 as [(x & Hx & -> & _) | [_ [? [=]]]].
    eapply narrows_trans; [exact Hn|]. eapply (Hf a); [|exact H2].
    cbn [snd]. eauto.
  - by eapply ni_set_dom.
Qed.

Lemma ni_constrain P k d : narrowing_if P (constrain (T := T) k d).
Proof.
  intros σ o σ' _. unfold constrain, bind, read, modify, lift, FDVar.constrain.
  destruct (σ.2 !! k) as [v|] eqn:Hv; [|intros [= <- <-]; apply narrows_refl].
  destruct (domain_non_empty _) as [d'|e] eqn:E; intros [= <- <-];
    [|apply narrows_refl].
  cbn [snd]. eapply narrows_insert; [done|]. apply pruned_set_dom.
  intros z Hz. destruct (domain_intersection (FDVar.dom v) d None) eqn:Ei; [done|].
  injection E as <-. rewrite <- Ei in Hz.
  by apply domain_intersection_contains in Hz as [? _].
Qed.

Lemma ni_do_while fuel (body : M (T * vars_t) bool) :
  narrowing body → narrowing (do_while fuel body).
Proof.
  intros Hb. induction fuel as [|fuel IH]; cbn [do_while]; [apply ni_out_of_fuel|].
  apply ni_bind; [done|]. intros [|]; [done | apply ni_ret].
Qed.
End narrowing.

Lemma ni_zoom {T U A} P (get : T → U) (set : U → T → T) (m : M (U * vars_t) A) :
  narrowing_if P m → narrowing_if P (zoom get set m).
Proof.
  intros Hm [R V] o σ' HP H. apply zoom_ret_inv in H as (u' & V' & H & ->).
  exact (Hm (get R, V) _ _ HP H).
Qed.

Lemma readonly_zoom {T U A} (get : T → U) (set : U → T → T) (m : M (U * vars_t) A) :
  readonly m → narrowing (zoom get set m).
Proof. intros Hm. apply ni_zoom, ni_readonly, Hm. Qed.

Lemma domain_non_empty_ret d d' : domain_non_empty d = Ret d' → d' = d.
Proof. destruct d; [done | by intros [= <-]]. Qed.

(** ** The steps *)

Ltac narrow_step :=
  first
    [ progress intros
    | match goal with H : ∀ v1 v2, narrowing _ |- _ => apply H end
    | apply ni_ret
    | apply ni_throw
    | apply ni_update
    | apply ni_constrain
    | match goal with
      | |- narrowing _ => unfold narrowing
      | |- narrowing_if _ (if ?c then _ else _) => destruct c
      | |- narrowing_if _ (match ?x with _ => _ end) => destruct x
      | |- narrowing_if _ (let* _ := read _ in _) => apply ni_bind_read
      | |- narrowing_if _ (let* _ := lift _ in _) => apply ni_bind_lift
      | |- narrowing_if _ (let* _ := update_this _ in _) => apply ni_bind_update
      | |- narrowing_if _ (let* _ := fdvar _ _ in _) =>
          apply ni_bind_readonly; [apply readonly_fdvar|]
      | |- narrowing_if _ (let* _ := steps_sum _ in _) =>
          apply ni_bind_readonly; [apply readonly_steps_sum|]
      | |- narrowing_if _ (let* _ := next_step _ in _) =>
          apply ni_bind_readonly; [apply readonly_next_step|]
      | |- narrowing_if _ (let* _ := this in _) =>
          apply ni_bind_readonly; [apply readonly_this|]
      | |- narrowing_if _ (let* _ := set_dom _ _ in _) => apply ni_bind_set_dom
      | |- narrowing_if _ (set_dom _ _) => apply ni_set_dom
      | |- narrowing_if _ (let* _ := do_while _ _ in _) =>
          apply ni_bind; [apply ni_weaken, ni_do_while|]
      | |- narrowing_if _ (let* _ := _ in _) => apply ni_bind
      end ].

(** What is set is an intersection with the domain that has been
    read. *)
Ltac narrow_leaf :=
  match goal with
  | E : domain_non_empty _ = Ret ?d
    |- ∀ V x, _ → V !! _ = Some x → ∀ z, contains ?d z → _ =>
      let V := fresh "V" in
      let x := fresh "x" in
      let HP := fresh "HP" in
      let Hx := fresh "Hx" in
      let z := fresh "z" in
      let Hz := fresh "Hz" in
      intros V x HP Hx z Hz; apply domain_non_empty_ret in E; subst d;
      apply domain_intersection_contains in Hz as [? ?];
      destruct_and?; simplify_eq; done
  end.

Ltac narrow := repeat first [narrow_leaf | narrow_step].

Lemma eq_step_narrowing : narrowing eq_step.
Proof.
  unfold eq_step. narrow.
  lazymatch goal with
  | E : domain_non_empty _ = Ret ?d, HP : ∃ _ _, _, Hx : _ !! ?k2 = Some _,
    Hz : contains ?d _ |- _ =>
      destruct HP as (V0 & x3 & [[_ Ha] Hb] & Hc & ->);
      apply domain_non_empty_ret in E; subst d;
      apply domain_intersection_contains in Hz as [Hz1 Hz2];
      revert Hx
  end.
  match goal with
  | |- <[?k1 := _]> _ !! ?k2 = _ → _ => destruct (decide (k1 = k2)) as [<-|Hne]
  end.
  - rewrite lookup_insert_eq. intros Hx. simplify_eq.
    unfold FDVar.set_dom. destruct (negb _); cbn [FDVar.dom]; [|done].
    apply domain_intersection_contains. by split.
  - rewrite lookup_insert_ne by done. intros Hx. by simplify_eq.
Qed.

Lemma lt_turn_narrowing v1 v2 : narrowing (lt_turn v1 v2).
Proof. unfold lt_turn. narrow. Qed.

Lemma lt_step_narrowing fuel : narrowing (lt_step fuel).
Proof. unfold lt_step. pose proof lt_turn_narrowing. narrow. Qed.

Lemma lte_turn_narrowing v1 v2 : narrowing (lte_turn v1 v2).
Proof. unfold lte_turn. narrow. Qed.

Lemma lte_step_narrowing fuel : narrowing (lte_step fuel).
Proof. unfold lte_step. pose proof lte_turn_narrowing. narrow. Qed.

Lemma neq_turn_narrowing v1 v2 : narrowing (neq_turn v1 v2).
Proof. unfold neq_turn. narrow. Qed.

Lemma neq_step_narrowing fuel : narrowing (neq_step fuel).
Proof. unfold neq_step. pose proof neq_turn_narrowing. narrow. Qed.

Lemma cmp_run_narrowing c fuel : narrowing (cmp_run c fuel).
Proof.
  destruct c; simpl;
    [apply eq_step_narrowing | apply lt_step_narrowing | apply lte_step_narrowing
    | apply neq_step_narrowing].
Qed.

Lemma ring_sum_step_narrowing plusop : narrowing (ring_sum_step plusop).
Proof. unfold ring_sum_step. narrow. Qed.

Lemma ring_v1_step_narrowing minusop : narrowing (ring_v1_step minusop).
Proof. unfold ring_v1_step. narrow. Qed.

Lemma ring_v2_step_narrowing minusop : narrowing (ring_v2_step minusop).
Proof. unfold ring_v2_step. narrow. Qed.

Lemma scale_prod_step_narrowing factor : narrowing (scale_prod_step factor).
Proof. unfold scale_prod_step. narrow. Qed.

Lemma scale_v_step_narrowing factor : narrowing (scale_v_step factor).
Proof. unfold scale_v_step. narrow. Qed.

(** ** The step of [reified] *)

Lemma ni_bind_save {T B} P (get : T → instance) (set : instance → T → T)
    (f : list (string * FDVar.t) * Z → M (T * vars_t) B) :
  (∀ vss, narrowing_if (saved vss.1) (f vss)) →
  narrowing_if P (let* vss := zoom get set save_vars in f vss).
Proof.
  intros Hf [R V] o σ' _ H.
  apply bind_inv in H as [(vss & σ1 & H1 & H2) | (e & H1 & ->)].
  - apply zoom_ret_inv in H1 as (I1 & V1 & H1 & ->).
    pose proof (readonly_save_vars _ _ _ H1) as Heq. simplify_eq.
    unfold save_vars in H1. inv_read H1.
    apply bind_ret_inv in H1 as (vs & σ2 & Hvs & H1). unfold ret in H1. simplify_eq.
    apply saved_vars_inv in Hvs as [_ Hvs]. cbn [fst snd] in *.
    eapply (Hf (vs, last_step (get R)) (set (get R) R, V)); [exact Hvs | exact H2].
  - apply zoom_ret_inv in H1 as (I1 & V1 & H1 & ->).
    pose proof (readonly_save_vars _ _ _ H1) as Heq. simplify_eq. apply narrows_refl.
Qed.

Lemma zoom_restore_eq {T} (get : T → instance) (set : instance → T → T) vss R V :
  zoom get set (restore_vars vss) (R, V)
  = Some (Ret tt, (set (set_last_step vss.2 (get R)) R, restored vss.1 V)).
Proof. unfold zoom. cbn [fst snd]. by rewrite restore_vars_eq. Qed.

(** A step of a private propagator that is undone leaves the
    variables pruned, whether it has failed or not. *)
Lemma ni_try_restore {T A} (get : T → instance) (set : instance → T → T)
    (m : M (instance * vars_t) A) (h : M (T * vars_t) unit) vss :
  narrowing m → narrowing h →
  narrowing_if (saved vss.1)
    (try_catch (zoom get set m ;; zoom get set (restore_vars vss))
               (zoom get set (restore_vars vss) ;; h)).
Proof.
  intros Hm Hh [R V] o σ' Hvs H. cbn [snd] in Hvs. unfold try_catch in H.
  destruct ((zoom get set m ;; zoom get set (restore_vars vss)) (R, V))
    as [[[u|e] σ2]|] eqn:Etry; [| |done].
  - injection H as <- <-.
    apply bind_ret_inv in Etry as (r & [R2 V2] & E1 & E2).
    rewrite zoom_restore_eq in E2. simplify_eq. cbn [snd].
    apply narrows_restored; [done|]. exact (ni_zoom _ _ _ _ Hm _ _ _ Logic.I E1).
  - apply bind_inv in Etry as [(r & [R2 V2] & E1 & E2) | (e' & E1 & _)].
    { rewrite zoom_restore_eq in E2. done. }
    destruct σ2 as [R2 V2].
    pose proof (ni_zoom _ _ _ _ Hm _ _ _ Logic.I E1) as H12. cbn [snd] in H12.
    unfold bind in H. rewrite zoom_restore_eq in H.
    eapply narrows_trans; [by apply (narrows_restored V vss.1 Hvs V2)|].
    exact (Hh _ _ _ Logic.I H).
Qed.

Lemma reified_turn_narrowing positive_propagator negative_propagator fuel v1 v2 b :
  narrowing (reified_turn positive_propagator negative_propagator fuel v1 v2 b).
Proof.
  unfold reified_turn. cbv zeta.
  assert (Hrun : ∀ T (get : T → instance) set c,
             narrowing (zoom get set (cmp_run c fuel))).
  { intros. apply ni_zoom, cmp_run_narrowing. }
  assert (Hsolved : ∀ T (get : T → instance) set allvars,
             narrowing (zoom get set (propagator_is_solved allvars))).
  { intros. apply readonly_zoom, readonly_propagator_is_solved. }
  assert (Hfirst : ∀ k, narrowing (first_interval (T := reified_state) k)).
  { intros. apply ni_readonly, readonly_first_interval. }
  unfold narrowing.
  apply ni_bind_readonly; [apply readonly_steps_sum|]. intros n.
  apply ni_bind_update. intros _.
  apply ni_bind_readonly; [apply readonly_first_interval|]. intros bdom.
  apply ni_bind.
  { destruct (bdom.1 =? 1); [|apply ni_ret].
    apply ni_bind; [apply Hrun|]. intros _.
    apply ni_bind; [apply Hsolved | intros; apply ni_update]. }
  intros _. apply ni_bind.
  { destruct (bdom.2 =? 0); [|apply ni_ret].
    apply ni_bind; [apply Hrun|]. intros _.
    apply ni_bind; [apply Hsolved | intros; apply ni_update]. }
  intros _. apply ni_bind.
  { destruct (bdom.1 <? bdom.2); [|apply ni_ret].
    apply ni_bind_save. intros vss. apply ni_bind; [|intros; apply Hfirst].
    apply ni_try_restore; [apply cmp_run_narrowing | apply ni_constrain]. }
  intros bdom'. apply ni_bind.
  { destruct (bdom'.1 <? bdom'.2); [|apply ni_ret].
    apply ni_bind_save. intros vss.
    apply ni_try_restore; [apply cmp_run_narrowing | apply ni_constrain]. }
  intros _.
  apply ni_bind_readonly; [apply readonly_steps_sum|]. intros n'.
  apply ni_bind_readonly; [apply readonly_this|]. intros me. apply ni_ret.
Qed.

Lemma readonly_get {Σ} : readonly (get (Σ := Σ)).
Proof. by intros σ o σ' [= <- <-]. Qed.

Lemma reified_step_narrowing positive_propagator negative_propagator fuel :
  narrowing (reified_step positive_propagator negative_propagator fuel).
Proof.
  unfold reified_step. cbv zeta. unfold narrowing.
  do 3 (apply ni_bind_readonly; [apply readonly_fdvar|]; intros ?).
  apply ni_bind_readonly; [apply readonly_next_step|]. intros nextStep.
  apply ni_bind_readonly; [apply readonly_this|]. intros me.
  destruct nextStep as [nextStep|]; [|apply ni_ret].
  destruct (_ >? _); [|apply ni_ret].
  apply ni_bind_readonly; [apply readonly_get|]. intros σ.
  apply ni_zoom. apply ni_bind.
  { apply ni_do_while, reified_turn_narrowing. }
  intros _. apply ni_bind_readonly; [apply readonly_steps_sum|]. intros n.
  apply ni_bind_update. intros _. apply ni_ret.
Qed.

Lemma run_step_narrowing fuel : narrowing (run_step fuel).
Proof.
  unfold run_step. cbv zeta. unfold narrowing.
  apply ni_bind_readonly; [apply readonly_this|]. intros me.
  destruct (Propagator.step me); try apply ni_zoom.
  - apply cmp_run_narrowing.
  - apply ring_sum_step_narrowing.
  - apply ring_v1_step_narrowing.
  - apply ring_v2_step_narrowing.
  - apply scale_prod_step_narrowing.
  - apply scale_v_step_narrowing.
  - apply reified_step_narrowing.
Qed.

(** ** [propagate] *)

Lemma pass_narrows fuel ps :
  ∀ σ o ps' V', pass fuel ps σ = Some (o, (ps', V')) → narrows σ.2 V'.
Proof.
  induction ps as [|P ps IH]; intros σ o ps' V' H; cbn [pass] in H.
  - simplify_eq. apply narrows_refl.
  - destruct (run_step fuel (P, σ.2)) as [[[n|e] [P1 V1]]|] eqn:E1; [| |done].
    + pose proof (run_step_narrowing fuel _ _ _ Logic.I E1) as H1. cbn [snd] in H1.
      destruct (pass fuel ps (ps, V1)) as [[[m|e] [ps2 V2]]|] eqn:E2; [| |done];
        simplify_eq; (eapply narrows_trans; [exact H1|]); exact (IH _ _ _ _ E2).
    + simplify_eq. exact (run_step_narrowing fuel _ _ _ Logic.I E1).
Qed.

Lemma propagate_pass_narrows fuel S o S' :
  propagate_pass fuel S = Some (o, S') → narrows (Space.vars S) (Space.vars S').
Proof.
  unfold propagate_pass. destruct (pass fuel _ _) as [[o' [ps V]]|] eqn:E; [|done].
  intros [= <- <-]. exact (pass_narrows _ _ _ _ _ _ E).
Qed.

Lemma propagate_from_narrows fuel n :
  ∀ totalCount S o S',
    propagate_from fuel n totalCount S = Some (o, S') →
    narrows (Space.vars S) (Space.vars S').
Proof.
  induction n as [|n IH]; intros totalCount S o S' H; [done|].
  cbn [propagate_from] in H.
  apply bind_inv in H as [(count & S1 & H1 & H) | (e & H1 & ->)].
  - apply propagate_pass_narrows in H1. eapply narrows_trans; [exact H1|].
    destruct (Number.gtb count (Num 0)); [by eapply IH|]. unfold ret in H. simplify_eq.
    apply narrows_refl.
  - by eapply propagate_pass_narrows.
Qed.

(** X20: propagation only prunes.  However [propagate] ends (it
    returns a count, or a propagator has failed), the space has the
    variables that it had, no other; and a variable is either as it
    was, or its step is higher and its domain holds only integers that
    it held before. *)
Theorem propagate_only_prunes (fuel : nat) (S S' : Space.t) (o : outcome number) :
  propagate fuel S = Some (o, S') →
  ∀ k, match Space.vars S !! k, Space.vars S' !! k with
       | Some v, Some v' =>
           v' = v
           ∨ (FDVar.step v < FDVar.step v'
              ∧ ∀ z, contains (FDVar.dom v') z → contains (FDVar.dom v) z)
       | None, None => True
       | _, _ => False
       end.
Proof.
  intros H k. apply propagate_from_narrows in H. specialize (H k).
  destruct H as [v v' Hp|]; done.
Qed.

Lemma propagate_only_prunes_witness :
  ∃ o S',
    propagate 10 example_space = Some (o, S')
    ∧ ∃ v v', Space.vars example_space !! "A" = Some v ∧ Space.vars S' !! "A" = Some v'
              ∧ FDVar.step v < FDVar.step v'
              ∧ ∀ z, contains (FDVar.dom v') z → contains (FDVar.dom v) z.
Proof.
  set (r := propagate 10 example_space).
  set (o := match r with Some (o, _) => o | None => Ret (Num 0) end).
  set (S' := match r with Some (_, S') => S' | None => Space.new end).
  assert (E : r = Some (o, S')) by (vm_compute; reflexivity).
  exists o, S'. split; [exact E|].
  pose proof (propagate_only_prunes 10 example_space S' o E "A") as H.
  set (v := FDVar.mk [(0, 9)] 0).
  set (v' := FDVar.mk [(0, 8)] 1).
  assert (Ev : Space.vars example_space !! "A" = Some v) by (vm_compute; reflexivity).
  assert (Ev' : Space.vars S' !! "A" = Some v') by (vm_compute; reflexivity).
  rewrite Ev, Ev' in H. exists v, v'. split; [exact Ev|]. split; [exact Ev'|].
  destruct H as [H | H]; [discriminate H | exact H].
Defined.

(** * Propagators keep the solutions *)

Lemma holds_lookup k z V : holds k z V → is_Some (V !! k).
Proof. intros (x & -> & _). eauto. Qed.

Lemma holds_insert_ne k k' z v V : k ≠ k' → holds k z V → holds k z (<[k' := v]> V).
Proof. intros Hne (x & Hx & H). exists x. by rewrite lookup_insert_ne. Qed.

Lemma holds_set_dom k z x d V :
  csis d → contains d z → holds k z (<[k := FDVar.set_dom x d]> V).
Proof.
  intros Hc Hz. exists (FDVar.set_dom x d). rewrite lookup_insert_eq, set_dom_dom. done.
Qed.

Lemma holds_bounds k z V x lo hi :
  holds k z V → V !! k = Some x → domain_bounds (FDVar.dom x) = Ret (lo, hi) →
  csis (FDVar.dom x) ∧ contains (FDVar.dom x) z ∧ lo ≤ z ≤ hi
  ∧ contains (FDVar.dom x) lo ∧ contains (FDVar.dom x) hi.
Proof.
  intros (x' & Hx' & Hc & Hz) Hx Hb. assert (x' = x) as -> by congruence.
  destruct (csis_bounds _ _ _ Hc Hb) as (Hlo & Hhi & Hall). auto.
Qed.

Lemma holds_has_bounds k z V x :
  holds k z V → V !! k = Some x → ∃ b, domain_bounds (FDVar.dom x) = Ret b.
Proof.
  intros (x' & Hx' & Hc & Hz) Hx. assert (x' = x) as -> by congruence.
  destruct (domain_bounds_ret (FDVar.dom x)) as (lo & hi & E); [by eapply contains_not_nil|].
  eauto.
Qed.

Lemma non_empty_ret d z : contains d z → ∃ a, domain_non_empty d = Ret a.
Proof. destruct d; [intros H; by apply contains_nil in H | eauto]. Qed.

Lemma sum_steps_some V ks : (∀ k, k ∈ ks → is_Some (V !! k)) → is_Some (sum_steps V ks).
Proof.
  induction ks as [|k ks IH]; intros H; cbn [sum_steps]; [eauto|].
  destruct (H k) as [v ->]; [by left|].
  destruct IH as [n ->]; [|eauto]. intros k' Hk'. apply H. by right.
Qed.

(** ** Rules *)

Section total.
Context (sp : list (option string)).
Implicit Types (P : vars_t → Prop).

Lemma t_conseq {A} P P' (Q Q' : A → vars_t → Prop) m :
  (∀ V, P' V → P V) → (∀ a V, Q a V → Q' a V) →
  total_if sp P m Q → total_if sp P' m Q'.
Proof.
  intros HP HQ Hm σ o σ' [Hs H'] E.
  pose proof (Hm σ o σ' (conj Hs (HP _ H')) E) as H.
  destruct o; [|done]. destruct H. split; auto.
Qed.

Lemma t_bind {A B} P (R : A → vars_t → Prop) (Q : B → vars_t → Prop) m f :
  total_if sp P m R → (∀ a, total_if sp (R a) (f a) Q) →
  total_if sp P (let* a := m in f a) Q.
Proof. intros Hm Hf. eapply hoare_bind; [exact Hm | exact Hf]. Qed.

Lemma t_ret {A} P (Q : A → vars_t → Prop) a :
  (∀ V, P V → Q a V) → total_if sp P (ret a) Q.
Proof. intros H σ o σ' [Hs HP] [= <- <-]. split; auto. Qed.

Lemma t_bind_fdvar {B} P (Q : B → vars_t → Prop) i k f :
  sp !! (i - 1)%nat = Some (Some k) →
  total_if sp P (f k) Q → total_if sp P (let* k := fdvar space i in f k) Q.
Proof.
  intros Hk Hf σ o σ' [Hs HP] E. rewrite (bind_fdvar space i k) in E by by rewrite Hs.
  by eapply Hf.
Qed.

Lemma t_bind_read {B} P (Q : B → vars_t → Prop) k f :
  (∀ V, P V → is_Some (V !! k)) →
  (∀ x, total_if sp (λ V, P V ∧ V !! k = Some x) (f x) Q) →
  total_if sp P (let* x := read k in f x) Q.
Proof.
  intros Hk Hf σ o σ' [Hs HP] E. destruct (Hk _ HP) as [x Hx].
  rewrite (bind_read k x) in E by done. by eapply (Hf x).
Qed.

Lemma t_bind_lift {A B} P (Q : B → vars_t → Prop) (x : outcome A) f :
  (∀ V, P V → ∃ a, x = Ret a) →
  (∀ a, x = Ret a → total_if sp P (f a) Q) →
  total_if sp P (let* a := lift x in f a) Q.
Proof.
  intros Hx Hf σ o σ' [Hs HP] E. destruct (Hx _ HP) as [a ->].
  by eapply (Hf a).
Qed.

Lemma t_bind_steps_sum {B} P (Q : B → vars_t → Prop) ks f :
  (∀ V, P V → ∀ k, k ∈ ks → is_Some (V !! k)) →
  (∀ n, total_if sp P (f n) Q) →
  total_if sp P (let* n := steps_sum ks in f n) Q.
Proof.
  intros Hk Hf σ o σ' [Hs HP] E.
  destruct (sum_steps_some σ.2 ks (Hk _ HP)) as [n Hn].
  rewrite (bind_steps_sum ks n) in E by done. by eapply (Hf n).
Qed.

Lemma t_bind_next_step {B} P (Q : B → vars_t → Prop) ks f :
  (∀ V, P V → ∀ k, k ∈ ks → is_Some (V !! k)) →
  (∀ n, total_if sp P (f (Num n)) Q) →
  total_if sp P (let* n := next_step ks in f n) Q.
Proof.
  intros Hk Hf σ o σ' [Hs HP] E.
  destruct (sum_steps_some σ.2 ks (Hk _ HP)) as [n Hn].
  rewrite (bind_next_step ks (Num n)) in E by by apply next_of_sum.
  by eapply (Hf n).
Qed.

Lemma t_bind_this {B} P (Q : B → vars_t → Prop) f :
  (∀ me, total_if sp P (f me) Q) → total_if sp P (let* me := this in f me) Q.
Proof. intros Hf σ o σ' HP E. rewrite bind_this in E. by eapply Hf. Qed.

Lemma t_bind_update {B} P (Q : B → vars_t → Prop) g f :
  (∀ I, space (g I) = space I) →
  total_if sp P (f tt) Q → total_if sp P (let* u := update_this g in f u) Q.
Proof.
  intros Hg Hf [I V] o σ' [Hs HP] E. unfold bind, update_this, modify in E.
  cbn [fst snd] in *. eapply (Hf (g I, V)); [|exact E]. split; [|done].
  cbn [fst]. by rewrite Hg.
Qed.

Lemma t_bind_set_dom {B} P (Q : B → vars_t → Prop) k d f :
  (∀ V, P V → is_Some (V !! k)) →
  total_if sp (λ V', ∃ V x, P V ∧ V !! k = Some x ∧ V' = <[k := FDVar.set_dom x d]> V)
           (f tt) Q →
  total_if sp P (let* u := set_dom k d in f u) Q.
Proof.
  intros Hk Hf [I V] o σ' [Hs HP] E. destruct (Hk _ HP) as [x Hx].
  unfold bind at 1, set_dom in E. rewrite (bind_read k x) in E by done.
  unfold modify in E. cbn [fst snd] in *.
  eapply (Hf (I, <[k := FDVar.set_dom x d]> V)); [|exact E]. split; [done|].
  cbn [snd]. eauto.
Qed.

Lemma t_do_while P fuel body :
  total_if sp P body (λ _, P) → total_if sp P (do_while fuel body) (λ _, P).
Proof.
  intros Hb. induction fuel as [|fuel IH]; cbn [do_while]; [by intros σ o σ' _|].
  eapply t_bind; [exact Hb|]. intros [|]; [exact IH | by apply t_ret].
Qed.
End total.

Section total_more.
Context (sp : list (option string)).
Implicit Types (P : vars_t → Prop).

Lemma t_pure {A} P (φ : Prop) (Q : A → vars_t → Prop) m :
  (∀ V, P V → φ) → (φ → total_if sp P m Q) → total_if sp P m Q.
Proof. intros Hφ Hm σ o σ' [Hs HP] E. eapply Hm; [by eapply Hφ | done | exact E]. Qed.

Lemma t_set_dom P k d :
  (∀ V, P V → is_Some (V !! k)) →
  total_if sp P (set_dom k d)
    (λ _ V', ∃ V x, P V ∧ V !! k = Some x ∧ V' = <[k := FDVar.set_dom x d]> V).
Proof.
  intros Hk [I V] o σ' [Hs HP] E. destruct (Hk _ HP) as [x Hx].
  unfold set_dom in E. rewrite (bind_read k x) in E by done.
  unfold modify in E. cbn [fst snd] in *. simplify_eq. split; [done|]. cbn [snd]. eauto.
Qed.
End total_more.

Lemma complement_point a z :
  0 ≤ a < FD_SUP → 0 ≤ z < FD_SUP → z ≠ a →
  csis (domain_complement [(a, a)]) ∧ contains (domain_complement [(a, a)]) z.
Proof.
  intros Ha Hz Hne. unfold domain_complement. cbn [complement_loop fst snd].
  destruct (0 <? a) eqn:E1, (a + 1 <? FD_SUP) eqn:E2; cbn [app].
  - split; [split; [repeat constructor; simpl; lia | simpl; lia]|].
    destruct (decide (z < a)).
    + exists (0, a - 1). split; [by left | simpl; lia].
    + exists (a + 1, FD_SUP). split; [by right; left | simpl; lia].
  - split; [split; [repeat constructor; simpl; lia | done]|].
    exists (0, a - 1). split; [by left | simpl; lia].
  - split; [split; [repeat constructor; simpl; lia | done]|].
    exists (a + 1, FD_SUP). split; [by left | simpl; lia].
  - lia.
Qed.

(** ** The values that are kept

    [kz] gives the variables of a propagator, each with a value of its
    domain; the variables are different ones. *)

Lemma csis_interval mn mx : mn ≤ mx → csis [(mn, mx)].
Proof. intros H. split; [by repeat constructor|]. repeat constructor. Qed.

Section kept.
Context (sp : list (option string)) (kz : list (string * Z)).
Context (Hnd : NoDup kz.*1).

Let J (V : vars_t) : Prop := Forall (λ p, holds p.1 p.2 V) kz.

Lemma kept_holds V k z : (k, z) ∈ kz → J V → holds k z V.
Proof. intros Hk HJ. exact (proj1 (Forall_forall _ _) HJ (k, z) Hk). Qed.

Lemma kept_lookup V k z : (k, z) ∈ kz → J V → is_Some (V !! k).
Proof. intros Hk HJ. eapply holds_lookup, kept_holds; done. Qed.

Lemma kept_lookups V (ks : list string) :
  (∀ k, k ∈ ks → k ∈ kz.*1) → J V → ∀ k, k ∈ ks → is_Some (V !! k).
Proof.
  intros Hks HJ k Hk. apply Hks in Hk.
  apply list_elem_of_fmap in Hk as ([k' z] & -> & Hk). by eapply kept_lookup.
Qed.

Lemma kept_update V k z x d :
  (k, z) ∈ kz → J V → csis d → contains d z → J (<[k := FDVar.set_dom x d]> V).
Proof using Hnd.
  intros Hk HJ Hc Hz. apply Forall_forall. intros [k' z'] Hk'. cbn [fst snd].
  destruct (decide (k' = k)) as [->|Hne].
  - assert (z' = z) as ->.
    { apply list_elem_of_lookup in Hk as [i Hi]. apply list_elem_of_lookup in Hk' as [i' Hi'].
      assert (i' = i) as ->.
      { eapply NoDup_lookup; [exact Hnd | |]; rewrite list_lookup_fmap;
          [by rewrite Hi' | by rewrite Hi]. }
      congruence. }
    by apply holds_set_dom.
  - apply holds_insert_ne; [done|]. by eapply kept_holds.
Qed.

Lemma kept_facts V k z x :
  (k, z) ∈ kz → J V → V !! k = Some x → csis (FDVar.dom x) ∧ contains (FDVar.dom x) z.
Proof.
  intros Hk HJ Hx. destruct (kept_holds _ _ _ Hk HJ) as (x' & Hx' & Hc & Hz).
  by assert (x' = x) as -> by congruence.
Qed.

Lemma kept_bounds V k z x b :
  (k, z) ∈ kz → J V → V !! k = Some x → domain_bounds (FDVar.dom x) = Ret b →
  b.1 ≤ z ≤ b.2.
Proof.
  intros Hk HJ Hx Hb. destruct b as [lo hi].
  destruct (holds_bounds _ _ _ _ _ _ (kept_holds _ _ _ Hk HJ) Hx Hb) as (_ & _ & H & _).
  done.
Qed.

Lemma kept_has_bounds V k z x :
  (k, z) ∈ kz → J V → V !! k = Some x → ∃ b, domain_bounds (FDVar.dom x) = Ret b.
Proof. intros Hk HJ Hx. eapply holds_has_bounds; [by eapply kept_holds | done]. Qed.

(** [x.set_dom(domain_non_empty(d))], where [d] has the value that
    is kept for [x]. *)
Lemma t_put P k z d :
  (k, z) ∈ kz → (∀ V, P V → J V) → csis d → contains d z →
  total_if sp P (let* d' := lift (domain_non_empty d) in set_dom k d') (λ _, J).
Proof using Hnd.
  intros Hk HP Hc Hz.
  apply t_bind_lift; [intros; by eapply non_empty_ret|].
  intros d' Hd'. apply domain_non_empty_ret in Hd'. subst d'.
  eapply t_conseq; [done | | apply t_set_dom].
  - intros _ V' (V & x' & HV & Hx' & ->). cbv beta. eapply kept_update; eauto.
  - intros V HV. eapply kept_lookup; eauto.
Qed.

(** The same for the intersection of the domain of [x] with [d]. *)
Lemma t_meet P k z x d :
  (k, z) ∈ kz → (∀ V, P V → J V ∧ V !! k = Some x) → csis d → contains d z →
  total_if sp P
    (let* d' := lift (domain_non_empty (domain_intersection (FDVar.dom x) d None)) in
     set_dom k d')
    (λ _, J).
Proof using Hnd.
  intros Hk HP Hc Hz. eapply t_pure.
  { intros V HV. destruct (HP _ HV) as [HJ Hx]. exact (kept_facts _ _ _ _ Hk HJ Hx). }
  intros [Hcx Hzx]. apply (t_put _ k z); [done | intros V HV; by apply HP | |].
  - by apply domain_intersection_csis.
  - by apply domain_intersection_contains.
Qed.

Lemma t_meet_l P k z x d :
  (k, z) ∈ kz → (∀ V, P V → J V ∧ V !! k = Some x) → csis d → contains d z →
  total_if sp P
    (let* d' := lift (domain_non_empty (domain_intersection d (FDVar.dom x) None)) in
     set_dom k d')
    (λ _, J).
Proof using Hnd.
  intros Hk HP Hc Hz. eapply t_pure.
  { intros V HV. destruct (HP _ HV) as [HJ Hx]. exact (kept_facts _ _ _ _ Hk HJ Hx). }
  intros [Hcx Hzx]. apply (t_put _ k z); [done | intros V HV; by apply HP | |].
  - by apply domain_intersection_csis.
  - by apply domain_intersection_contains.
Qed.
End kept.

(** ** The comparisons *)

Section cmp_sound.
Context (sp : list (option string)) (k1 k2 : string) (x0 y0 : Z).
Context (H1 : sp !! 0%nat = Some (Some k1)) (H2 : sp !! 1%nat = Some (Some k2)).
Context (Hne : k1 ≠ k2).

Let kz : list (string * Z) := [(k1, x0); (k2, y0)].
Let J (V : vars_t) : Prop := Forall (λ p, holds p.1 p.2 V) kz.

Lemma cmp_nodup : NoDup kz.*1.
Proof using All. cbn. apply NoDup_cons. split; [by intros ->%list_elem_of_singleton|]. apply NoDup_singleton. Qed.

Lemma cmp_held1 : (k1, x0) ∈ kz.
Proof using All. by left. Qed.

Lemma cmp_held2 : (k2, y0) ∈ kz.
Proof using All. by right; left. Qed.

Lemma J_lookups V : J V → ∀ k, k ∈ [k1; k2] → is_Some (V !! k).
Proof. apply kept_lookups. done. Qed.

Lemma t_tail (nextStep : Z) :
  total_if sp J
    (let* n := steps_sum [k1; k2] in
     update_this (set_last_step n) ;; ret (Num (n - nextStep)))
    (λ _, J).
Proof.
  apply t_bind_steps_sum; [apply J_lookups|]. intros n.
  apply t_bind_update; [done|]. by apply t_ret.
Qed.

Lemma eq_step_total : x0 = y0 → total_if sp J eq_step (λ _, J).
Proof using All.
  intros E. unfold eq_step.
  eapply t_bind_fdvar; [exact H1|]. eapply t_bind_fdvar; [exact H2|].
  apply t_bind_next_step; [apply J_lookups|]. intros nextStep.
  apply t_bind_this. intros me. cbv beta iota.
  destruct (nextStep >? last_step me); [|by apply t_ret].
  apply t_bind_read; [intros V HJ; by eapply J_lookups; [|left]|]. intros x1.
  apply t_bind_read; [intros V [HJ _]; eapply J_lookups; [done|]; by right; left|].
  intros x2. eapply t_pure.
  { intros V [[HJ Hx1] Hx2].
    exact (conj (kept_facts kz V k1 x0 x1 cmp_held1 HJ Hx1)
                (kept_facts kz V k2 y0 x2 cmp_held2 HJ Hx2)). }
  intros [[Hc1 Hz1] [Hc2 Hz2]].
  set (d := domain_intersection (FDVar.dom x1) (FDVar.dom x2) None).
  assert (Hd : contains d x0 ∧ contains d y0 ∧ csis d).
  { subst d y0. split_and!; [by apply domain_intersection_contains..|].
    by apply domain_intersection_csis. }
  destruct Hd as (Hd1 & Hd2 & Hcd).
  apply t_bind_lift; [intros; by eapply non_empty_ret|].
  intros d' Hd'. apply domain_non_empty_ret in Hd'. subst d'.
  apply t_bind_set_dom; [intros V [[HJ _] _]; by eapply J_lookups; [|left]|].
  apply t_bind_set_dom.
  { intros V' (V & x & [[HJ _] _] & _ & ->). rewrite lookup_insert_ne by done.
    eapply J_lookups; [done|]. by right; left. }
  eapply t_conseq; [| |apply t_tail]; [|done].
  intros V'' (V' & x' & (V & x & [[HJ _] _] & _ & ->) & _ & ->).
  eapply (kept_update kz cmp_nodup _ k2 y0); [exact cmp_held2 | | done..].
  eapply (kept_update kz cmp_nodup _ k1 x0); [exact cmp_held1 | done..].
Qed.

(** The two statements of a turn of [lt] or [lte]: each cuts a
    domain down to an interval. *)
Lemma t_cuts (c1 c2 : bool) (i1 i2 : interval) x1 :
  (c1 = true → i1.1 ≤ x0 ≤ i1.2) → (c2 = true → i2.1 ≤ y0 ≤ i2.2) →
  total_if sp (λ V, J V ∧ V !! k1 = Some x1)
    ((if c1 then
        let* d := lift (domain_non_empty
                          (domain_intersection (FDVar.dom x1) [i1] None)) in
        set_dom k1 d
      else ret tt) ;;
     (if c2 then
        let* x2 := read k2 in
        let* d := lift (domain_non_empty
                          (domain_intersection (FDVar.dom x2) [i2] None)) in
        set_dom k2 d
      else ret tt) ;;
     let* n := steps_sum [k1; k2] in
     let* me := this in
     ret (n >? last_step me))
    (λ _, J).
Proof using All.
  intros Hi1 Hi2. eapply t_bind with (R := λ _, J).
  { destruct c1; [|by apply t_ret; intros V [HJ _]].
    destruct i1 as [mn mx]. specialize (Hi1 eq_refl). cbn [fst snd] in Hi1.
    apply (t_meet sp kz cmp_nodup _ k1 x0); [exact cmp_held1 | done | apply csis_interval; lia |].
    apply contains_singleton. done. }
  intros _. eapply t_bind with (R := λ _, J).
  { destruct c2; [|by apply t_ret].
    destruct i2 as [mn mx]. specialize (Hi2 eq_refl). cbn [fst snd] in Hi2.
    apply t_bind_read; [intros V HJ; eapply J_lookups; [done|]; by right; left|].
    intros x2. apply (t_meet sp kz cmp_nodup _ k2 y0); [exact cmp_held2 | done | apply csis_interval; lia |].
    apply contains_singleton. done. }
  intros _. apply t_bind_steps_sum; [apply J_lookups|]. intros n.
  apply t_bind_this. intros me. by apply t_ret.
Qed.

Ltac t_bounds :=
  apply t_bind_steps_sum; [apply J_lookups|]; intros ?;
  apply t_bind_update; [done|];
  apply t_bind_read; [intros V HJ; by eapply J_lookups; [|left]|]; intros x1;
  apply t_bind_read; [intros V [HJ _]; eapply J_lookups; [done|]; by right; left|];
  intros x2;
  apply t_bind_lift;
    [intros V [[HJ Hx1] Hx2]; exact (kept_has_bounds kz V k1 x0 x1 cmp_held1 HJ Hx1)|];
  intros b1 Hb1;
  apply t_bind_lift;
    [intros V [[HJ Hx1] Hx2]; exact (kept_has_bounds kz V k2 y0 x2 cmp_held2 HJ Hx2)|];
  intros b2 Hb2;
  eapply (t_pure _ _ (b1.1 ≤ x0 ≤ b1.2 ∧ b2.1 ≤ y0 ≤ b2.2));
    [intros V [[HJ Hx1] Hx2];
     exact (conj (kept_bounds kz V k1 x0 x1 b1 cmp_held1 HJ Hx1 Hb1)
                 (kept_bounds kz V k2 y0 x2 b2 cmp_held2 HJ Hx2 Hb2))|];
  intros [B1 B2].

Lemma lt_turn_total : x0 < y0 → total_if sp J (lt_turn k1 k2) (λ _, J).
Proof using All.
  intros Hlt. unfold lt_turn. t_bounds.
  eapply t_conseq;
    [| |apply (t_cuts (b2.2 - 1 <? b1.2) (b1.1 + 1 >? b2.1)
                      (b1.1, b2.2 - 1) (b1.1 + 1, b2.2) x1)];
    [by intros V [[HJ Hx1] _] | done | cbn [fst snd]; lia..].
Qed.

Lemma lte_turn_total : x0 ≤ y0 → total_if sp J (lte_turn k1 k2) (λ _, J).
Proof using All.
  intros Hle. unfold lte_turn. t_bounds.
  eapply t_conseq;
    [| |apply (t_cuts (b2.2 <? b1.2) (b1.1 >? b2.1) (b1.1, b2.2) (b1.1, b2.2) x1)];
    [by intros V [[HJ Hx1] _] | done | cbn [fst snd]; lia..].
Qed.

Ltac t_gate :=
  eapply t_bind_fdvar; [exact H1|]; eapply t_bind_fdvar; [exact H2|];
  apply t_bind_next_step; [apply J_lookups|]; intros nextStep;
  apply t_bind_this; intros me; cbv beta iota;
  destruct (nextStep >? last_step me); [|by apply t_ret];
  apply t_bind_read; [intros V HJ; by eapply J_lookups; [|left]|]; intros x1;
  apply t_bind_read; [intros V [HJ _]; eapply J_lookups; [done|]; by right; left|];
  intros x2;
  apply t_bind_lift;
    [intros V [[HJ Hx1] Hx2]; exact (kept_has_bounds kz V k1 x0 x1 cmp_held1 HJ Hx1)|];
  intros b1 Hb1;
  apply t_bind_lift;
    [intros V [[HJ Hx1] Hx2]; exact (kept_has_bounds kz V k2 y0 x2 cmp_held2 HJ Hx2)|];
  intros b2 Hb2;
  apply t_bind_update; [done|];
  apply (t_conseq _ J _ (λ _, J) (λ _, J)); [by intros V [[HJ _] _] | done |].

Ltac t_loop turn :=
  eapply t_bind with (R := λ _, J); [by apply t_do_while, turn | intros _; apply t_tail].

Lemma lt_step_total fuel : x0 < y0 → total_if sp J (lt_step fuel) (λ _, J).
Proof using All.
  intros Hlt. unfold lt_step. t_gate.
  destruct (b2.1 >? b1.2); [apply t_bind_update; [done|]; by apply t_ret|].
  t_loop lt_turn_total.
Qed.

Lemma lte_step_total fuel : x0 ≤ y0 → total_if sp J (lte_step fuel) (λ _, J).
Proof using All.
  intros Hle. unfold lte_step. t_gate.
  destruct (b2.1 >=? b1.2); [apply t_bind_update; [done|]; by apply t_ret|].
  t_loop lte_turn_total.
Qed.

Lemma neq_turn_total :
  x0 ≠ y0 → 0 ≤ x0 < FD_SUP → 0 ≤ y0 < FD_SUP →
  total_if sp J (neq_turn k1 k2) (λ _, J).
Proof using All.
  intros Hxy Rx Ry. unfold neq_turn. t_bounds.
  eapply t_bind with (R := λ _, J).
  { destruct (b1.1 =? b1.2) eqn:E; [|by apply t_ret; intros V [[HJ _] _]].
    destruct b1 as [a a']. cbn [fst snd] in *.
    assert (a' = a) as -> by lia. assert (a = x0) as -> by lia.
    destruct (complement_point x0 y0) as [Hc Hz]; [done..|].
    apply (t_meet sp kz cmp_nodup _ k2 y0); [exact cmp_held2 | by intros V [[HJ _] Hx2] | done..]. }
  intros _. eapply t_bind with (R := λ _, J).
  { destruct (b2.1 =? b2.2) eqn:E; [|by apply t_ret].
    destruct b2 as [a a']. cbn [fst snd] in *.
    assert (a' = a) as -> by lia. assert (a = y0) as -> by lia.
    destruct (complement_point y0 x0) as [Hc Hz]; [done..|].
    apply t_bind_read; [intros V HJ; by eapply J_lookups; [|left]|].
    intros x1'. apply (t_meet sp kz cmp_nodup _ k1 x0); [exact cmp_held1 | done..]. }
  intros _. apply t_bind_steps_sum; [apply J_lookups|]. intros n'.
  apply t_bind_this. intros me. by apply t_ret.
Qed.

Lemma neq_step_total fuel :
  x0 ≠ y0 → 0 ≤ x0 < FD_SUP → 0 ≤ y0 < FD_SUP →
  total_if sp J (neq_step fuel) (λ _, J).
Proof using All.
  intros Hxy Rx Ry. unfold neq_step. t_gate.
  destruct (_ || _); [apply t_bind_update; [done|]; by apply t_ret|].
  destruct (domain_intersection _ _ _);
    [apply t_bind_update; [done|]; by apply t_ret|].
  t_loop neq_turn_total.
Qed.

Lemma cmp_run_total c fuel :
  satisfies c x0 y0 →
  (c = step_neq → 0 ≤ x0 < FD_SUP ∧ 0 ≤ y0 < FD_SUP) →
  total_if sp J (cmp_run c fuel) (λ _, J).
Proof using All.
  intros Hs Hr. destruct c; cbn [cmp_run satisfies] in *.
  - by apply eq_step_total.
  - by apply lt_step_total.
  - by apply lte_step_total.
  - destruct (Hr eq_refl). by apply neq_step_total.
Qed.
End cmp_sound.

(** X21: a comparison propagator removes no solution.  When the two
    variables of a propagator of [eq], [lt], [lte] or [neq] (and so of
    [gt] and [gte], which are [lt] and [lte] the other way round) are
    two different variables whose domains are in the form the code
    keeps and hold [x0] and [y0], a pair of values that satisfies the
    comparison, then a step of the propagator that ends does not throw,
    and [x0] and [y0] are still in the domains, which are still in that
    form.  (Nothing is said of a step on domains that hold no such
    pair: it may throw ['fail'].)  For [neq] the two values are taken
    below [SUP]: [domain_complement] leaves [SUP] out of the complement
    of [SUP - 1]. *)
Theorem comparison_keeps_solutions (c : cmp_step) (fuel : nat) (I I' : instance)
    (V V' : vars_t) (k1 k2 : string) (x0 y0 : Z) (o : outcome number) :
  space I !! 0%nat = Some (Some k1) → space I !! 1%nat = Some (Some k2) → k1 ≠ k2 →
  holds k1 x0 V → holds k2 y0 V →
  satisfies c x0 y0 →
  (c = step_neq → 0 ≤ x0 < FD_SUP ∧ 0 ≤ y0 < FD_SUP) →
  cmp_run c fuel (I, V) = Some (o, (I', V')) →
  (∃ r, o = Ret r) ∧ holds k1 x0 V' ∧ holds k2 y0 V'.
Proof.
  intros H1 H2 Hne Hx Hy Hs Hr E.
  assert (HJ : Forall (λ p, holds p.1 p.2 V) [(k1, x0); (k2, y0)]) by by repeat constructor.
  pose proof (cmp_run_total (space I) k1 k2 x0 y0 H1 H2 Hne c fuel Hs Hr
                (I, V) o (I', V') (conj eq_refl HJ) E) as H.
  destruct o as [r|e]; [|done]. destruct H as [_ HJ'].
  apply Forall_cons in HJ' as [Hx' HJ']. apply Forall_cons in HJ' as [Hy' _]. eauto.
Qed.

Lemma holds_lt_vars x y z :
  csis x → contains x z → holds "X" z (lt_vars x y).
Proof. intros Hc Hz. by exists (FDVar.new (Some x) None). Qed.

Lemma holds_lt_vars_y x y z :
  csis y → contains y z → holds "Y" z (lt_vars x y).
Proof. intros Hc Hz. by exists (FDVar.new (Some y) None). Qed.

Lemma comparison_keeps_solutions_witness :
  ∃ r I' V',
    cmp_run step_lt 5 (lt_instance, lt_vars [(0, 9)] [(0, 9)]) = Some (Ret r, (I', V'))
    ∧ holds "X" 1 V' ∧ holds "Y" 2 V'.
Proof.
  set (V := lt_vars [(0, 9)] [(0, 9)]).
  set (res := cmp_run step_lt 5 (lt_instance, V)).
  set (r := match res with Some (Ret r, _) => r | _ => Num 0 end).
  set (I' := match res with Some (_, σ) => σ.1 | None => lt_instance end).
  set (V' := match res with Some (_, σ) => σ.2 | None => V end).
  assert (E : res = Some (Ret r, (I', V'))) by (vm_compute; reflexivity).
  assert (Hc : csis [(0, 9)]) by (split; [repeat constructor; simpl; lia | done]).
  assert (H1 : contains [(0, 9)] 1) by (exists (0, 9); split; [by left | simpl; lia]).
  assert (H2 : contains [(0, 9)] 2) by (exists (0, 9); split; [by left | simpl; lia]).
  exists r, I', V'. split; [exact E|].
  exact (proj2 (comparison_keeps_solutions step_lt 5 lt_instance I' V V' "X" "Y" 1 2 (Ret r)
                  eq_refl eq_refl ltac:(done)
                  (holds_lt_vars _ _ _ Hc H1) (holds_lt_vars_y _ _ _ Hc H2)
                  ltac:(simpl; lia) ltac:(done) E)).
Defined.

(** ** The propagators of [plus] *)

Section plus_sound.
Context (sp : list (option string)) (k1 k2 k3 : string) (x0 y0 : Z).
Context (H1 : sp !! 0%nat = Some (Some k1)) (H2 : sp !! 1%nat = Some (Some k2)).
Context (H3 : sp !! 2%nat = Some (Some k3)).
Context (Hnd : NoDup [k1; k2; k3]).
Context (Hx0 : 0 ≤ x0) (Hy0 : 0 ≤ y0) (Hs0 : x0 + y0 ≤ FD_SUP).

Let kz : list (string * Z) := [(k1, x0); (k2, y0); (k3, x0 + y0)].
Let J (V : vars_t) : Prop := Forall (λ p, holds p.1 p.2 V) kz.

Lemma plus_lookups V (ks : list string) :
  (∀ k, k ∈ ks → k ∈ [k1; k2; k3]) → J V → ∀ k, k ∈ ks → is_Some (V !! k).
Proof. intros Hks. apply kept_lookups. intros k Hk. by apply Hks. Qed.

Ltac among := intros ?; rewrite !elem_of_cons, !elem_of_nil; tauto.

(** What follows the test of the gate, for the variable [k] and the
    domain [d] that has the value kept for it. *)
Lemma t_ring_set (P : vars_t → Prop) k z d :
  (k, z) ∈ kz → (∀ V, P V → J V) → csis d → contains d z →
  total_if sp P
    (let* d' := lift (domain_non_empty d) in
     set_dom k d' ;;
     let* n := steps_sum [k3; k1; k2] in
     update_this (set_last_step n))
    (λ _, J).
Proof using Hnd.
  intros Hk HP Hc Hz.
  apply t_bind_lift; [intros; by eapply non_empty_ret|].
  intros d' Hd'. apply domain_non_empty_ret in Hd'. subst d'.
  apply t_bind_set_dom; [intros V HV; exact (kept_lookup kz V k z Hk (HP V HV))|].
  eapply (t_conseq _ J _ (λ _, J) (λ _, J)); [|done|].
  { intros V' (V & x & HV & _ & ->).
    exact (kept_update kz Hnd V k z x d Hk (HP V HV) Hc Hz). }
  apply t_bind_steps_sum; [intros V; apply plus_lookups; among|]. intros n.
  intros σ o σ' [Hs HJ] [= <- <-]. done.
Qed.

Ltac t_ring :=
  eapply t_bind_fdvar; [exact H1|]; eapply t_bind_fdvar; [exact H2|];
  eapply t_bind_fdvar; [exact H3|];
  apply t_bind_next_step; [intros V; apply plus_lookups; among|];
  intros nextStep; apply t_bind_this; intros me;
  eapply t_bind with (R := λ _, J);
    [|intros _; apply t_bind_this; intros me'; by apply t_ret];
  cbv beta iota;
  destruct (nextStep >? last_step me); [|by apply t_ret];
  apply t_bind_read; [intros V HJ; eapply (kept_lookup kz V k1 x0); [by left | done]|];
  intros x1;
  apply t_bind_read;
    [intros V [HJ _]; eapply (kept_lookup kz V k2 y0); [by right; left | done]|];
  intros x2;
  apply t_bind_read;
    [intros V [[HJ _] _];
     eapply (kept_lookup kz V k3 (x0 + y0)); [by right; right; left | done]|];
  intros xs;
  eapply (t_pure _ _ ((csis (FDVar.dom x1) ∧ contains (FDVar.dom x1) x0)
                      ∧ (csis (FDVar.dom x2) ∧ contains (FDVar.dom x2) y0)
                      ∧ (csis (FDVar.dom xs) ∧ contains (FDVar.dom xs) (x0 + y0))));
    [intros V [[[HJ Hx1] Hx2] Hxs];
     exact (conj (kept_facts kz V k1 x0 x1 ltac:(by left) HJ Hx1)
              (conj (kept_facts kz V k2 y0 x2 ltac:(by right; left) HJ Hx2)
                    (kept_facts kz V k3 (x0 + y0) xs ltac:(by right; right; left)
                                HJ Hxs)))|];
  intros [[Hc1 Hz1] [[Hc2 Hz2] [Hcs Hzs]]].

Lemma ring_sum_step_total : total_if sp J (ring_sum_step dom_plus) (λ _, J).
Proof using All.
  unfold ring_sum_step. t_ring.
  apply (t_ring_set _ k3 (x0 + y0)); [by right; right; left | by intros V [[[HJ _] _] _] | |].
  - apply domain_intersection_csis; [|done]. apply dom_plus_csis; by apply csis_increasing.
  - apply domain_intersection_contains. split; [|done].
    apply dom_plus_contains; [by apply csis_increasing..|].
    exists x0, y0. split_and!; [done..|lia].
Qed.

Lemma ring_v1_step_total : total_if sp J (ring_v1_step dom_minus) (λ _, J).
Proof using All.
  unfold ring_v1_step. t_ring.
  apply (t_ring_set _ k1 x0); [by left | by intros V [[[HJ _] _] _] | |].
  - apply domain_intersection_csis; [|done]. apply dom_minus_csis; by apply csis_increasing.
  - apply domain_intersection_contains. split; [|done].
    apply dom_minus_contains; [by apply csis_increasing..|].
    exists (x0 + y0), y0. split_and!; [done..|lia|lia].
Qed.

Lemma ring_v2_step_total : total_if sp J (ring_v2_step dom_minus) (λ _, J).
Proof using All.
  unfold ring_v2_step. t_ring.
  apply (t_ring_set _ k2 y0); [by right; left | by intros V [[[HJ _] _] _] | |].
  - apply domain_intersection_csis; [|done]. apply dom_minus_csis; by apply csis_increasing.
  - apply domain_intersection_contains. split; [|done].
    apply dom_minus_contains; [by apply csis_increasing..|].
    exists (x0 + y0), x0. split_and!; [done..|lia|lia].
Qed.
End plus_sound.

(** X22: the three propagators of [plus] remove no solution.  When
    the variables of a propagator of [plus(v1, v2, sum)] are three
    different variables whose domains are in the form the code keeps
    and hold [x0], [y0] and [x0 + y0], with [x0] and [y0] not negative
    and [x0 + y0] not above [SUP], then a step of the propagator does
    not throw, and the three values are still in the domains, which
    are still in that form.  (Nothing is said of a step on domains that
    hold no such three values: it may throw ['fail'].) *)
Theorem plus_keeps_solutions (m : M (instance * vars_t) number) (I I' : instance)
    (V V' : vars_t) (k1 k2 k3 : string) (x0 y0 : Z) (o : outcome number) :
  m ∈ [ring_sum_step dom_plus; ring_v1_step dom_minus; ring_v2_step dom_minus] →
  space I !! 0%nat = Some (Some k1) → space I !! 1%nat = Some (Some k2) →
  space I !! 2%nat = Some (Some k3) → NoDup [k1; k2; k3] →
  holds k1 x0 V → holds k2 y0 V → holds k3 (x0 + y0) V →
  0 ≤ x0 → 0 ≤ y0 → x0 + y0 ≤ FD_SUP →
  m (I, V) = Some (o, (I', V')) →
  (∃ r, o = Ret r) ∧ holds k1 x0 V' ∧ holds k2 y0 V' ∧ holds k3 (x0 + y0) V'.
Proof.
  intros Hm H1 H2 H3 Hnd Hx Hy Hs Hx0 Hy0 Hs0 E.
  assert (HJ : Forall (λ p, holds p.1 p.2 V) [(k1, x0); (k2, y0); (k3, x0 + y0)])
    by by repeat constructor.
  assert (Ht : total_if (space I) (λ V, Forall (λ p, holds p.1 p.2 V)
                                      [(k1, x0); (k2, y0); (k3, x0 + y0)]) m
                 (λ _ V, Forall (λ p, holds p.1 p.2 V)
                           [(k1, x0); (k2, y0); (k3, x0 + y0)])).
  { rewrite !elem_of_cons in Hm. destruct Hm as [-> | [-> | [-> | Hm]]].
    - by apply ring_sum_step_total.
    - by apply ring_v1_step_total.
    - by apply ring_v2_step_total.
    - by apply elem_of_nil in Hm. }
  pose proof (Ht (I, V) o (I', V') (conj eq_refl HJ) E) as H.
  destruct o as [r|e]; [|done]. destruct H as [_ HJ'].
  apply Forall_cons in HJ' as [Hx' HJ']. apply Forall_cons in HJ' as [Hy' HJ'].
  apply Forall_cons in HJ' as [Hs' _]. eauto 10.
Qed.

Lemma plus_keeps_solutions_witness :
  let I := {| last_step := -1; space := [Some "X"; Some "Y"; Some "Z"]; solved := false |} in
  let V : vars_t := <["Z" := FDVar.new (Some [(0, 9)]) None]> (lt_vars [(1, 3)] [(2, 4)]) in
  ∃ r I' V',
    ring_sum_step dom_plus (I, V) = Some (Ret r, (I', V'))
    ∧ holds "X" 1 V' ∧ holds "Y" 2 V' ∧ holds "Z" (1 + 2) V'.
Proof.
  intros I V.
  set (res := ring_sum_step dom_plus (I, V)).
  set (r := match res with Some (Ret r, _) => r | _ => Num 0 end).
  set (I' := match res with Some (_, σ) => σ.1 | None => I end).
  set (V' := match res with Some (_, σ) => σ.2 | None => V end).
  assert (E : res = Some (Ret r, (I', V'))) by (vm_compute; reflexivity).
  assert (Hc : ∀ lo hi, lo ≤ hi → csis [(lo, hi)]) by (intros; by apply csis_interval).
  assert (Hin : ∀ lo hi z, lo ≤ z ≤ hi → contains [(lo, hi)] z).
  { intros lo hi z Hz. exists (lo, hi). split; [by left | done]. }
  assert (Hnd : NoDup ["X"; "Y"; "Z"]).
  { repeat (apply NoDup_cons_2;
              [intros H; repeat (apply elem_of_cons in H as [H | H]; [discriminate H|]);
               by apply elem_of_nil in H|]).
    apply NoDup_nil_2. }
  assert (HX : holds "X" 1 V).
  { exists (FDVar.new (Some [(1, 3)]) None). split; [reflexivity|]. split; [apply Hc | apply Hin]; lia. }
  assert (HY : holds "Y" 2 V).
  { exists (FDVar.new (Some [(2, 4)]) None). split; [reflexivity|]. split; [apply Hc | apply Hin]; lia. }
  assert (HZ : holds "Z" (1 + 2) V).
  { exists (FDVar.new (Some [(0, 9)]) None). split; [reflexivity|]. split; [apply Hc | apply Hin]; lia. }
  exists r, I', V'. split; [exact E|].
  exact (proj2 (plus_keeps_solutions (ring_sum_step dom_plus) I I' V V' "X" "Y" "Z" 1 2 (Ret r)
                  ltac:(by left) eq_refl eq_refl eq_refl Hnd HX HY HZ
                  ltac:(lia) ltac:(lia) ltac:(unfold FD_SUP; lia) E)).
Defined.

(** * Distribution *)

(** ** The choices of the value functions *)

Lemma choice_dom_constrain S v vS d :
  choice_dom (commit_constrain S v vS d) v = domain_intersection (FDVar.dom vS) d None.
Proof.
  unfold commit_constrain, FDVar.constrain.
  destruct (domain_intersection (FDVar.dom vS) d None) as [|i r] eqn:E;
    cbn [domain_non_empty choice_dom]; [done|].
  unfold dom_of. cbn [Space.vars Space.set_vars]. rewrite lookup_insert_eq.
  cbn [fmap option_fmap option_map default]. by rewrite set_dom_dom.
Qed.

Lemma commit_constrain_frame S v vS d S' :
  commit_constrain S v vS d = Committed S' →
  Space._propagators S' = Space._propagators S
  ∧ ∀ k, k ≠ key v → Space.vars S' !! k = Space.vars S !! k.
Proof.
  unfold commit_constrain. destruct (FDVar.constrain vS d); [|done].
  intros [= <-]. split; [done|]. intros k Hk. cbn. by rewrite lookup_insert_ne.
Qed.

Lemma min_max_bounds (vS : FDVar.t) :
  FDVar.dom vS ≠ [] →
  ∃ lo hi, FDVar.min vS = Ret lo ∧ FDVar.max vS = Ret hi
           ∧ domain_bounds (FDVar.dom vS) = Ret (lo, hi).
Proof.
  unfold FDVar.min, FDVar.max, domain_bounds. destruct (FDVar.dom vS); [done|]. eauto.
Qed.

Lemma mid_returns (vS : FDVar.t) :
  csis (FDVar.dom vS) → FDVar.dom vS ≠ [] → ∃ m, FDVar.mid vS = Ret m.
Proof.
  intros [Hn Hd] Hne. destruct vS as [d s]. cbn [FDVar.dom] in *.
  assert (Hs : 0 < FDVar.size (FDVar.mk d s)).
  { destruct d as [|i d]; [done|]. rewrite (size_cons i d s s).
    pose proof (size_nonneg d s ltac:(by inversion Hn)).
    assert (i.1 ≤ i.2) by by inversion Hn. lia. }
  destruct (mid_loop_spec d s Hn (FDVar.size (FDVar.mk d s) / 2)) as (m & Hm & _).
  { split; [apply Z.div_pos; lia | apply Z.div_lt_upper_bound; lia]. }
  eauto.
Qed.

Section two_choices.
Context (d d0 d1 : domain).
Context (lo hi : Z) (Hb : ∀ z, contains d z → lo ≤ z ≤ hi).

(** Two domains that split [[lo, hi]] split [d]. *)
Lemma partitions_meet :
  (∀ z, lo ≤ z ≤ hi → (contains d0 z ∨ contains d1 z) ∧ ¬ (contains d0 z ∧ contains d1 z)) →
  partitions d (domain_intersection d d0 None) (domain_intersection d d1 None).
Proof using Hb.
  intros Hsplit z. rewrite !domain_intersection_contains. split.
  - split; [|tauto]. intros Hz. destruct (Hsplit z (Hb z Hz)) as [[H|H] _]; tauto.
  - intros [[Hz H0] [_ H1]]. destruct (Hsplit z (Hb z Hz)) as [_ Hno]. tauto.
Qed.
End two_choices.

Ltac in_intervals :=
  match goal with
  | |- ∀ z, _ =>
      let z := fresh "z" in
      intros z; rewrite ?contains_cons; pose proof (contains_nil z); cbn [fst snd];
      intuition lia
  end.

(** X23: the two choices of a value function split the domain.  For a
    variable whose domain is not empty and in the form the code keeps,
    choice 0 and choice 1 of [min], [max], [mid], [splitMin] and
    [splitMax] leave the variable two domains that have no integer in
    common and that hold, together, the integers of its domain (a
    choice that throws ['fail'] leaves none).  A choice changes this
    variable only, and there is no other choice. *)
Theorem value_choices_partition (valuefn : name → Space.t → Z → commit)
    (v : name) (S : Space.t) (vS : FDVar.t) :
  valuefn ∈ [values_min; values_max; values_mid; values_splitMin; values_splitMax] →
  Space.vars S !! key v = Some vS → csis (FDVar.dom vS) → FDVar.dom vS ≠ [] →
  partitions (FDVar.dom vS) (choice_dom (valuefn v S 0) v) (choice_dom (valuefn v S 1) v)
  ∧ (∀ n S', valuefn v S n = Committed S' →
             Space._propagators S' = Space._propagators S
             ∧ ∀ k, k ≠ key v → Space.vars S' !! k = Space.vars S !! k)
  ∧ (∀ n, n ≠ 0 → n ≠ 1 → valuefn v S n = Invalid_choice).
Proof.
  intros Hf Hv Hc Hne.
  destruct (min_max_bounds vS Hne) as (lo & hi & Hmin & Hmax & Hbd).
  destruct (csis_bounds _ _ _ Hc Hbd) as (Hlo & Hhi & Hall).
  destruct (mid_returns vS Hc Hne) as (m & Hmid).
  assert (Hn : ∀ n, n ≠ 0 → n ≠ 1 → (n =? 0) = false ∧ (n =? 1) = false) by (intros; lia).
  rewrite !elem_of_cons in Hf.
  destruct Hf as [-> | [-> | [-> | [-> | [-> | Hf]]]]]; [..|by apply elem_of_nil in Hf].
  - unfold values_min, choose. rewrite Hv, Hmin, Hmax. cbn [Z.eqb Pos.eqb].
    rewrite !choice_dom_constrain. split; [|split].
    + apply (partitions_meet _ _ _ lo hi Hall); in_intervals.
    + intros n S'. destruct (n =? 0); [apply commit_constrain_frame|].
      destruct (n =? 1); [apply commit_constrain_frame | done].
    + intros n H0 H1. destruct (Hn n H0 H1) as [-> ->]. done.
  - unfold values_max, choose. rewrite Hv, Hmin, Hmax. cbn [Z.eqb Pos.eqb].
    rewrite !choice_dom_constrain. split; [|split].
    + apply (partitions_meet _ _ _ lo hi Hall); in_intervals.
    + intros n S'. destruct (n =? 0); [apply commit_constrain_frame|].
      destruct (n =? 1); [apply commit_constrain_frame | done].
    + intros n H0 H1. destruct (Hn n H0 H1) as [-> ->]. done.
  - unfold values_mid, choose. rewrite Hv, Hmid, Hmin, Hmax. cbn [Z.eqb Pos.eqb].
    split; [|split].
    + destruct (m >? lo) eqn:E; rewrite !choice_dom_constrain;
        apply (partitions_meet _ _ _ lo hi Hall); in_intervals.
    + intros n S'. destruct (n =? 0); [apply commit_constrain_frame|].
      destruct (n =? 1); [|done].
      destruct (m >? lo); apply commit_constrain_frame.
    + intros n H0 H1. destruct (Hn n H0 H1) as [-> ->]. done.
  - unfold values_splitMin, choose, ends. rewrite Hv, Hmin, Hmax.
    cbn [and_then Z.eqb Pos.eqb fst snd]. rewrite !choice_dom_constrain. split; [|split].
    + apply (partitions_meet _ _ _ lo hi Hall); in_intervals.
    + intros n S'. destruct (n =? 0); [apply commit_constrain_frame|].
      destruct (n =? 1); [apply commit_constrain_frame | done].
    + intros n H0 H1. destruct (Hn n H0 H1) as [-> ->]. done.
  - unfold values_splitMax, choose, ends. rewrite Hv, Hmin, Hmax.
    cbn [and_then Z.eqb Pos.eqb fst snd]. rewrite !choice_dom_constrain. split; [|split].
    + apply (partitions_meet _ _ _ lo hi Hall); in_intervals.
    + intros n S'. destruct (n =? 0); [apply commit_constrain_frame|].
      destruct (n =? 1); [apply commit_constrain_frame | done].
    + intros n H0 H1. destruct (Hn n H0 H1) as [-> ->]. done.
Qed.

Lemma value_choices_partition_witness :
  let v := NStr "A" EmptyString in
  let S := {| Space.vars := {[ "A" := FDVar.mk [(0, 2); (5, 6)] 0 ]};
              Space._propagators := [] |} in
  choice_dom (values_min v S 0) v = [(0, 0)]
  ∧ choice_dom (values_min v S 1) v = [(1, 2); (5, 6)]
  ∧ partitions [(0, 2); (5, 6)] (choice_dom (values_min v S 0) v)
                               (choice_dom (values_min v S 1) v).
Proof.
  intros v S. split; [vm_compute; reflexivity|]. split; [vm_compute; reflexivity|].
  assert (Hc : csis [(0, 2); (5, 6)]).
  { split; [repeat constructor; simpl; lia | simpl; lia]. }
  exact (proj1 (value_choices_partition values_min v S (FDVar.mk [(0, 2); (5, 6)] 0)
                  ltac:(by left) eq_refl Hc ltac:(done))).
Defined.

(** ** Splitting *)

Lemma half_small x : - 2 ^ 31 ≤ x < 2 ^ 31 → half x = x / 2.
Proof.
  intros Hx. unfold half, int32. rewrite Z.mod_small by lia.
  rewrite Z.shiftr_div_pow2 by lia. f_equal. lia.
Qed.

(** X24: [splitMin] halves the domain.  For a variable whose domain,
    in the form the code keeps, has the bounds [lo] and [hi], with
    [lo + hi] a 32-bit integer, choice 0 of [splitMin] leaves the
    integers up to [m], the floor of [(lo + hi) / 2], and choice 1
    those above [m]; when [lo < hi] the first holds [lo] and the second
    [hi], so that neither fails and each leaves fewer integers than
    there were.  The choices of [splitMax] are those of [splitMin] the
    other way round. *)
Theorem split_halves (v : name) (S : Space.t) (vS : FDVar.t) (lo hi : Z) :
  Space.vars S !! key v = Some vS → csis (FDVar.dom vS) →
  domain_bounds (FDVar.dom vS) = Ret (lo, hi) →
  - 2 ^ 31 ≤ lo + hi < 2 ^ 31 →
  let m := (lo + hi) / 2 in
  let d0 := choice_dom (values_splitMin v S 0) v in
  let d1 := choice_dom (values_splitMin v S 1) v in
  (∀ z, contains d0 z ↔ contains (FDVar.dom vS) z ∧ z ≤ m)
  ∧ (∀ z, contains d1 z ↔ contains (FDVar.dom vS) z ∧ m < z)
  ∧ (lo < hi → contains d0 lo ∧ contains d1 hi ∧ ¬ contains d0 hi ∧ ¬ contains d1 lo)
  ∧ values_splitMax v S 0 = values_splitMin v S 1
  ∧ values_splitMax v S 1 = values_splitMin v S 0.
Proof.
  intros Hv Hc Hbd Hr m d0 d1.
  assert (Hne : FDVar.dom vS ≠ []) by (intros E; by rewrite E in Hbd).
  destruct (min_max_bounds vS Hne) as (lo' & hi' & Hmin & Hmax & Hbd').
  assert (lo' = lo ∧ hi' = hi) as [-> ->] by (split; congruence).
  destruct (csis_bounds _ _ _ Hc Hbd) as (Hlo & Hhi & Hall).
  assert (E0 : d0 = domain_intersection (FDVar.dom vS) [(lo, m)] None).
  { subst d0. unfold values_splitMin, choose, ends. rewrite Hv, Hmin, Hmax.
    cbn [and_then Z.eqb Pos.eqb fst snd]. rewrite choice_dom_constrain.
    by rewrite half_small. }
  assert (E1 : d1 = domain_intersection (FDVar.dom vS) [(m + 1, hi)] None).
  { subst d1. unfold values_splitMin, choose, ends. rewrite Hv, Hmin, Hmax.
    cbn [and_then Z.eqb Pos.eqb fst snd]. rewrite choice_dom_constrain.
    by rewrite half_small. }
  assert (H0 : ∀ z, contains d0 z ↔ contains (FDVar.dom vS) z ∧ z ≤ m).
  { intros z. rewrite E0, domain_intersection_contains, contains_singleton. cbn [fst snd].
    split; [intros [? ?]; split; [done | lia]|]. intros [Hz ?]. specialize (Hall z Hz).
    split; [done | lia]. }
  assert (H1 : ∀ z, contains d1 z ↔ contains (FDVar.dom vS) z ∧ m < z).
  { intros z. rewrite E1, domain_intersection_contains, contains_singleton. cbn [fst snd].
    split; [intros [? ?]; split; [done | lia]|]. intros [Hz ?]. specialize (Hall z Hz).
    split; [done | lia]. }
  split; [done|]. split; [done|]. split.
  - intros Hlt. rewrite !H0, !H1.
    assert (lo ≤ m < hi).
    { subst m. split; [apply Z.div_le_lower_bound; lia | apply Z.div_lt_upper_bound; lia]. }
    split; [split; [done | lia]|]. split; [split; [done | lia]|].
    split; intros [_ ?]; lia.
  - unfold values_splitMax, values_splitMin, choose, ends. rewrite Hv, Hmin, Hmax.
    cbn [and_then Z.eqb Pos.eqb fst snd]. done.
Qed.

Lemma split_halves_witness :
  let v := NStr "A" EmptyString in
  let S := {| Space.vars := {[ "A" := FDVar.mk [(0, 2); (5, 8)] 0 ]};
              Space._propagators := [] |} in
  choice_dom (values_splitMin v S 0) v = [(0, 2)]
  ∧ choice_dom (values_splitMin v S 1) v = [(5, 8)]
  ∧ ∀ z, contains (choice_dom (values_splitMin v S 0) v) z
         ↔ contains [(0, 2); (5, 8)] z ∧ z ≤ (0 + 8) / 2.
Proof.
  intros v S. split; [vm_compute; reflexivity|]. split; [vm_compute; reflexivity|].
  assert (Hc : csis [(0, 2); (5, 8)]).
  { split; [repeat constructor; simpl; lia | simpl; lia]. }
  exact (proj1 (split_halves v S (FDVar.mk [(0, 2); (5, 8)] 0) 0 8
                  eq_refl Hc eq_refl ltac:(lia))).
Defined.

(** ** The variable to branch on *)

Section branch.
Context (V : vars_t) (varnames : list name).
Context (Hdecl : ∀ n, n ∈ varnames → ∃ x, V !! key n = Some x ∧ FDVar.dom x ≠ []).

Lemma is_undetermined_ret x : FDVar.dom x ≠ [] → ∃ b, FDVar.is_undetermined x = Ret b.
Proof.
  intros Hne. unfold FDVar.is_undetermined. destruct (decide _); [eauto|].
  destruct (FDVar.dom x); [done | eauto].
Qed.

Lemma filters_undet_spec (l : list name) :
  (∀ n, n ∈ l → n ∈ varnames) →
  filters_undet V l = Ret (filter (λ n, undetermined_in V n) l).
Proof using Hdecl.
  induction l as [|n l IH]; intros Hl; cbn [filters_undet]; [done|].
  destruct (Hdecl n (Hl n ltac:(by left))) as (x & Hx & Hne).
  destruct (is_undetermined_ret x Hne) as [b Hb].
  assert (Hu : undetermined_in V n = b) by (unfold undetermined_in; by rewrite Hx, Hb).
  rewrite Hx, Hb. cbn [and_then]. rewrite IH by (intros; apply Hl; by right).
  cbn [and_then]. rewrite filter_cons, Hu. by destruct b.
Qed.

Lemma size_order_ret v1 v2 :
  v1 ∈ varnames → v2 ∈ varnames →
  orderingfn by_size V v1 v2 = Ret (size_in V v1 <? size_in V v2).
Proof using Hdecl.
  intros H1 H2. destruct (Hdecl v1 H1) as (x1 & Hx1 & _).
  destruct (Hdecl v2 H2) as (x2 & Hx2 & _).
  unfold orderingfn, with_two, size_in. by rewrite Hx1, Hx2.
Qed.

Lemma select_loop_size (l : list name) :
  (∀ n, n ∈ l → n ∈ varnames) →
  ∀ first, first ∈ varnames →
    ∃ r, select_loop by_size V first l = Ret r
         ∧ r ∈ first :: l
         ∧ ∀ n, n ∈ first :: l → size_in V r ≤ size_in V n.
Proof using Hdecl.
  induction l as [|vi l IH]; intros Hl first Hf; cbn [select_loop].
  - exists first. split; [done|]. split; [by left|].
    intros n ->%list_elem_of_singleton. lia.
  - rewrite size_order_ret by (done || apply Hl; by left). cbn [and_then].
    destruct (IH ltac:(intros; apply Hl; by right)
                 (if size_in V first <? size_in V vi then first else vi))
      as (r & -> & Hr & Hmin).
    { destruct (_ <? _); [done | apply Hl; by left]. }
    exists r. split; [done|]. split.
    + apply elem_of_cons in Hr as [-> | Hr]; [|by right; right].
      destruct (_ <? _); [by left | by right; left].
    + intros n Hn.
      pose proof (Hmin _ ltac:(by left)) as H0.
      apply elem_of_cons in Hn as [-> | Hn].
      * destruct (size_in V first <? size_in V vi) eqn:E; lia.
      * apply elem_of_cons in Hn as [-> | Hn]; [|apply Hmin; by right].
        destruct (size_in V first <? size_in V vi) eqn:E; lia.
Qed.

Lemma select_loop_naive (l : list name) first :
  select_loop naive V first l = Ret first.
Proof. revert first. induction l as [|vi l IH]; intros first; cbn; [done | apply IH]. Qed.
End branch.

(** X25: the variable that a distributor branches on.  When the names
    given to the distributor are those of declared variables with
    domains that are not empty, [branch] does not throw; it returns
    [null] when none of the variables is undetermined; else, with the
    ordering [naive], the first of them that is undetermined, and
    with the ordering [size] (of [fail_first] and [split]) an
    undetermined one whose [size()] is the least. *)
Theorem branch_variable (varnames : list name) (S : Space.t) :
  (∀ n, n ∈ varnames →
        ∃ x, Space.vars S !! key n = Some x ∧ FDVar.dom x ≠ []) →
  let undet := filter (λ n, undetermined_in (Space.vars S) n) varnames in
  branch naive varnames S = Ret (head undet)
  ∧ ∃ r, branch by_size varnames S = Ret r
         ∧ match r with
           | None => undet = []
           | Some v =>
               v ∈ undet
               ∧ ∀ n, n ∈ undet →
                      size_in (Space.vars S) v ≤ size_in (Space.vars S) n
           end.
Proof.
  intros Hdecl undet. unfold branch.
  rewrite (filters_undet_spec _ varnames Hdecl varnames) by done. fold undet.
  cbn [and_then].
  assert (Hsub : ∀ n, n ∈ undet → n ∈ varnames).
  { intros n Hn. by apply list_elem_of_filter in Hn as [_ Hn]. }
  split.
  - destruct undet as [|v0 [|v1 l]]; [done..|]. cbn [select_by_order].
    by rewrite select_loop_naive.
  - destruct undet as [|v0 [|v1 l]] eqn:E.
    + by exists None.
    + exists (Some v0). split; [done|]. split; [by left|].
      intros n ->%list_elem_of_singleton. lia.
    + cbn [select_by_order].
      destruct (select_loop_size _ varnames Hdecl (v1 :: l)
                  ltac:(intros; apply Hsub; by right) v0 (Hsub _ ltac:(by left)))
        as (r & -> & Hr & Hmin).
      exists (Some r). done.
Qed.

Lemma branch_variable_witness :
  let A := NStr "A" EmptyString in
  let B := NStr "B" EmptyString in
  let C := NStr "C" EmptyString in
  let S := {| Space.vars := {[ "A" := FDVar.mk [(3, 3)] 0;
                               "B" := FDVar.mk [(0, 9)] 0;
                               "C" := FDVar.mk [(0, 2); (5, 6)] 0 ]};
              Space._propagators := [] |} in
  branch naive [A; B; C] S = Ret (Some B) ∧ branch by_size [A; B; C] S = Ret (Some C).
Proof.
  intros A B C S.
  assert (Hdecl : ∀ n, n ∈ [A; B; C] →
                       ∃ x, Space.vars S !! key n = Some x ∧ FDVar.dom x ≠ []).
  { intros n Hn. repeat (apply elem_of_cons in Hn as [-> | Hn]; [eexists; split; [reflexivity | done]|]).
    by apply elem_of_nil in Hn. }
  destruct (branch_variable [A; B; C] S Hdecl) as [Hnaive _].
  split; [exact Hnaive | vm_compute; reflexivity].
Defined.

(** * Solved spaces *)

(** ** The keys of the temporaries *)

Lemma pretty_N_char_digit x : is_digit (pretty_N_char x) = true.
Proof. unfold pretty_N_char. by repeat case_match. Qed.

Lemma pretty_N_go_digits x :
  ∀ s, forallb is_digit (list_ascii_of_string s) = true →
       forallb is_digit (list_ascii_of_string (pretty_N_go x s)) = true.
Proof.
  induction (N.lt_wf_0 x) as [x _ IH]. intros s Hs.
  assert (x = 0 ∨ 0 < x)%N as [-> | Hx] by lia; [by rewrite pretty_N_go_0|].
  rewrite pretty_N_go_step by done. apply IH; [by apply N.div_lt|].
  cbn [list_ascii_of_string forallb]. by rewrite pretty_N_char_digit.
Qed.

Lemma pretty_N_go_cons x :
  ∀ c s, pretty_N_go x (String c s) ≠ EmptyString.
Proof.
  induction (N.lt_wf_0 x) as [x _ IH]. intros c s.
  assert (x = 0 ∨ 0 < x)%N as [-> | Hx] by lia; [by rewrite pretty_N_go_0|].
  rewrite pretty_N_go_step by done. apply IH. by apply N.div_lt.
Qed.

Lemma numeric_key_temp (n : positive) : numeric_key (key (NNum n)) = true.
Proof.
  cbn [key]. unfold pretty, pretty_N. destruct (decide _) as [|_]; [done|].
  unfold numeric_key.
  destruct (pretty_N_go (N.pos n) EmptyString) eqn:E.
  - rewrite pretty_N_go_step in E by lia. by apply pretty_N_go_cons in E.
  - rewrite <- E. by apply pretty_N_go_digits.
Qed.

(** ** [is_solved] and [solution] *)

Lemma determined_dom v : determined v = true ↔ ∃ z, FDVar.dom v = [(z, z)].
Proof.
  unfold determined. split.
  - destruct (FDVar.dom v) as [|[lo hi] [|]]; try done. cbn [fst snd].
    intros H. exists lo. repeat f_equal. lia.
  - intros [z ->]. cbn [fst snd]. lia.
Qed.

Lemma is_solved_spec S :
  is_solved S = true ↔ ∀ k v, Space.vars S !! k = Some v → determined v = true.
Proof.
  unfold is_solved. rewrite forallb_forall. split.
  - intros H k v Hk. apply (H (k, v)). apply list_elem_of_In. by apply elem_of_map_to_list.
  - intros H [k v] Hkv. apply list_elem_of_In, elem_of_map_to_list in Hkv. by eapply H.
Qed.

Lemma solution_lookup S k :
  solution S !! k
  = if numeric_key k then None else solved_value_of <$> Space.vars S !! k.
Proof.
  unfold solution. rewrite lookup_fmap.
  destruct (numeric_key k) eqn:E.
  - rewrite (proj2 (map_lookup_filter_None _ _ _)); [done|].
    right. intros v _. cbn [fst]. by rewrite E.
  - destruct (Space.vars S !! k) as [v|] eqn:Hk.
    + by rewrite (proj2 (map_lookup_filter_Some _ _ _ v) (conj Hk E)).
    + rewrite (proj2 (map_lookup_filter_None _ _ _)); [done|]. by left.
Qed.

(** X26: the solution of a space.  When [is_solved] returns [true],
    every variable has a domain of one integer, and [solution] gives
    this integer for every variable whose name is not made of decimal
    digits only.  Whether the space is solved or not, a temporary is
    never in the solution; neither is a variable that the script has
    declared under a name of digits, nor a name that is not
    declared. *)
Theorem solution_of_solved_space (S : Space.t) :
  (is_solved S = true →
   ∀ k v, Space.vars S !! k = Some v →
          ∃ z, FDVar.dom v = [(z, z)]
               ∧ solution S !! k = if numeric_key k then None else Some (SNum z))
  ∧ (∀ n : positive, solution S !! key (NNum n) = None)
  ∧ (∀ k, numeric_key k = true → solution S !! k = None)
  ∧ (∀ k, Space.vars S !! k = None → solution S !! k = None).
Proof.
  split; [|split; [|split]].
  - intros Hs k v Hk. pose proof (proj1 (is_solved_spec S) Hs k v Hk) as Hd.
    apply determined_dom in Hd as [z Hz]. exists z. split; [done|].
    rewrite solution_lookup, Hk. destruct (numeric_key k); [done|].
    cbn. unfold solved_value_of. rewrite Hz. cbn [fst snd].
    by rewrite Z.gtb_ltb, Z.ltb_irrefl.
  - intros n. by rewrite solution_lookup, numeric_key_temp.
  - intros k Hk. by rewrite solution_lookup, Hk.
  - intros k Hk. rewrite solution_lookup, Hk. by destruct (numeric_key k).
Qed.

(** A solved space, and one that is not: the temporary ["1"] is in
    the solution of neither. *)
Lemma solution_of_solved_space_witness :
  let S := {| Space.vars := {[ "A" := FDVar.mk [(3, 3)] 2; "1" := FDVar.mk [(7, 7)] 1 ]};
              Space._propagators := [] |} in
  let U := {| Space.vars := {[ "A" := FDVar.mk [(3, 5)] 2; "1" := FDVar.mk [(7, 7)] 1 ]};
              Space._propagators := [] |} in
  is_solved S = true
  ∧ solution S = {[ "A" := SNum 3 ]}
  ∧ (∃ z, [(3, 3)] = [(z, z)] ∧ solution S !! "A" = Some (SNum z))
  ∧ is_solved U = false
  ∧ solution U !! key (NNum 1) = None.
Proof.
  intros S U. assert (Hs : is_solved S = true) by (vm_compute; reflexivity).
  split; [exact Hs|]. split; [vm_compute; reflexivity|].
  split; [exact (proj1 (solution_of_solved_space S) Hs "A" (FDVar.mk [(3, 3)] 2) eq_refl)|].
  split; [vm_compute; reflexivity|].
  exact (proj1 (proj2 (solution_of_solved_space U)) 1%positive).
Defined.

(** ** The weaker tests of [Search] *)

Lemma determined_not_undetermined v :
  determined v = true → FDVar.is_undetermined v = Ret false.
Proof.
  intros [z Hz]%determined_dom. unfold FDVar.is_undetermined. rewrite Hz.
  cbn. by rewrite Z.ltb_irrefl.
Qed.

Lemma variables_solved_spec V varnames :
  (∀ n, n ∈ varnames → is_Some (V !! key n)) →
  variables_solved V varnames
  = Ret (forallb (λ n, from_option determined false (V !! key n)) varnames).
Proof.
  induction varnames as [|n l IH]; intros Hd; cbn [variables_solved forallb]; [done|].
  destruct (Hd n ltac:(by left)) as [v Hv]. rewrite Hv. cbn [from_option].
  destruct (determined v); [|done]. apply IH. intros; apply Hd; by right.
Qed.

(** X27: [is_solved] is the strongest of the tests.  When it returns
    [true], the test that [solve_for_variables] makes for any names of
    declared variables returns [true], and so does
    [solve_for_propagators] when the propagators are on declared
    variables.  The test that [solve_for_variables] makes for given
    names returns [true] exactly when each of these variables has a
    domain of one integer; called without names it makes
    [is_solved]. *)
Theorem is_solved_is_the_strongest_test (S : Space.t) (varnames : list name) :
  (∀ n, n ∈ varnames → is_Some (Space.vars S !! key n)) →
  solve_for_variables None S = Ret (is_solved S)
  ∧ (solve_for_variables (Some varnames) S = Ret true
     ↔ ∀ n, n ∈ varnames →
            ∃ v z, Space.vars S !! key n = Some v ∧ FDVar.dom v = [(z, z)])
  ∧ (is_solved S = true →
     solve_for_variables (Some varnames) S = Ret true
     ∧ ((∀ p n, p ∈ Space._propagators S → n ∈ Propagator.allvars p →
                is_Some (Space.vars S !! key n)) →
        solve_for_propagators S = Ret true)).
Proof.
  intros Hd. split; [done|].
  assert (Hiff : solve_for_variables (Some varnames) S = Ret true
                 ↔ ∀ n, n ∈ varnames →
                        ∃ v z, Space.vars S !! key n = Some v ∧ FDVar.dom v = [(z, z)]).
  { cbn [solve_for_variables]. rewrite variables_solved_spec by done. split.
    - intros [= H] n Hn. rewrite forallb_forall in H.
      specialize (H n (proj1 (list_elem_of_In _ _) Hn)).
      destruct (Hd n Hn) as [v Hv]. rewrite Hv in H. cbn in H.
      apply determined_dom in H as [z Hz]. eauto.
    - intros H. f_equal. apply forallb_forall. intros n Hn%list_elem_of_In.
      destruct (H n Hn) as (v & z & -> & Hz). cbn. apply determined_dom. eauto. }
  split; [exact Hiff|]. intros Hs. pose proof (proj1 (is_solved_spec S) Hs) as Hall. split.
  - apply Hiff. intros n Hn. destruct (Hd n Hn) as [v Hv].
    destruct (proj1 (determined_dom v) (Hall _ _ Hv)) as [z Hz]. eauto.
  - intros Hp. unfold solve_for_propagators.
    induction (Space._propagators S) as [|p ps IH]; cbn [propagators_solved]; [done|].
    assert (E : propagator_solved (Space.vars S) p = Ret true).
    { unfold propagator_solved. destruct (solved _); [done|].
      assert (Hv : ∀ n, n ∈ Propagator.allvars p → is_Some (Space.vars S !! key n)).
      { intros n Hn. eapply Hp; [by left | done]. }
      induction (Propagator.allvars p) as [|n l IHl]; cbn [all_determined_in]; [done|].
      destruct (Hv n ltac:(by left)) as [v Hvn]. rewrite Hvn.
      rewrite (determined_not_undetermined v (Hall _ _ Hvn)). cbn [and_then].
      apply IHl. intros; apply Hv; by right. }
    rewrite E. cbn [and_then]. apply IH. intros q n Hq. apply Hp. by right.
Qed.

Lemma is_solved_is_the_strongest_test_witness :
  let A := NStr "A" EmptyString in
  let S := {| Space.vars := {[ "A" := FDVar.mk [(3, 3)] 2; "B" := FDVar.mk [(0, 7)] 1 ]};
              Space._propagators := [] |} in
  is_solved S = false
  ∧ solve_for_variables (Some [A]) S = Ret true.
Proof.
  intros A S. split; [vm_compute; reflexivity|].
  assert (Hd : ∀ n, n ∈ [A] → is_Some (Space.vars S !! key n)).
  { intros n ->%list_elem_of_singleton. by eexists. }
  apply (proj1 (proj2 (is_solved_is_the_strongest_test S [A] Hd))).
  intros n ->%list_elem_of_singleton. by exists (FDVar.mk [(3, 3)] 2), 3.
Defined.

(** * [reified] *)

Lemma apply_operator_pop_eq op argv σ B (k : template → method B) :
  (apply_operator op argv ;; let* t := pop_template in k t) σ = k (template_of op argv) σ.
Proof.
  destruct σ as [g [vars props]].
  destruct op; cbn [apply_operator template_of]; unfold gt, gte;
    unfold eq, neq, lt, lte, newprop;
    unfold bind, modify, ret, pop_template;
    cbn [fst snd]; unfold Space.set_propagators;
    cbn [Space._propagators Space.vars];
    rewrite reverse_snoc; cbn [Propagator.step Propagator.allvars Propagator.depvars];
    rewrite reverse_involutive; reflexivity.
Qed.

Lemma template_of_enforces op argv : enforces (template_of op argv) argv (meaning op).
Proof. destruct op; eexists _, _; (split; [done|]); (split; [done|]); intros val; done. Qed.

Lemma template_of_complement op argv :
  enforces (template_of (complementary_operator op) argv) argv (λ x y, ¬ meaning op x y).
Proof.
  destruct op; eexists _, _; (split; [done|]); (split; [done|]); intros val;
    cbn [template_of complementary_operator t_step satisfies meaning]; lia.
Qed.

Lemma reified_tail op argv b (r : retval) σ :
  (apply_operator op argv ;;
   let* positive_propagator := pop_template in
   apply_operator (complementary_operator op) argv ;;
   let* negative_propagator := pop_template in
   let deps := [argv.1; argv.2; b] in
   newprop deps deps (step_reified positive_propagator negative_propagator) ;;
   ret r) σ
  = Some (Ret r,
          (σ.1,
           Space.set_propagators
             (Space._propagators σ.2
              ++ [new_propagator (Space.vars σ.2) [argv.1; argv.2; b] [argv.1; argv.2; b]
                    (step_reified (template_of op argv)
                                  (template_of (complementary_operator op) argv))])
             σ.2)).
Proof. rewrite apply_operator_pop_eq, apply_operator_pop_eq. reflexivity. Qed.

(** X28: what [reified] posts.  Called with one of its six operators,
    [reified] adds one propagator and no other: on the two arguments
    and the boolean variable, with a positive and a negative comparison
    that ask of the values of the two arguments what the operator
    means, and the contrary.  The boolean variable is the one given,
    or else a new temporary, whose name is returned; its domain is
    within [[0, 1]].  When the call throws, no propagator has been
    added. *)
Theorem reified_posts_one_propagator (opname : string) (op : operator)
    (argv : name * name) (boolname : option name) (g g' : global) (S S' : Space.t)
    (o : outcome retval) :
  operator_of opname = Some op →
  reified opname argv boolname (g, S) = Some (o, (g', S')) →
  match o with
  | Ret r =>
      ∃ b pos neg,
        Space._propagators S'
        = Space._propagators S
          ++ [new_propagator (Space.vars S') [argv.1; argv.2; b] [argv.1; argv.2; b]
                (step_reified pos neg)]
        ∧ enforces pos argv (meaning op)
        ∧ enforces neg argv (λ x y, ¬ meaning op x y)
        ∧ match boolname with
          | Some b' => b = b' ∧ r = RSpace ∧ g' = g
          | None => b = NNum (Pos.succ (_temp_count g)) ∧ r = RName b
          end
        ∧ ∃ v, Space.vars S' !! key b = Some v
               ∧ ∀ z, contains (FDVar.dom v) z → 0 ≤ z ≤ 1
  | Throw _ => Space._propagators S' = Space._propagators S
  end.
Proof.
  intros Hop H. unfold reified in H. rewrite Hop in H.
  assert (Hin : ∀ d z, contains (domain_intersection d [(0, 1)] None) z → 0 ≤ z ≤ 1).
  { intros d z Hz. apply domain_intersection_contains in Hz as [_ Hz].
    by apply contains_singleton in Hz. }
  assert (Hfirst : ∀ o1 σ1,
             (match boolname with
              | Some b => constrain_var b [(0, 1)] ;; ret (b, RSpace)
              | None => let* b := temp (Some [(0, 1)]) in ret (b, RName b)
              end) (g, S) = Some (o1, σ1) →
             Space._propagators σ1.2 = Space._propagators S
             ∧ match o1 with
               | Ret br =>
                   match boolname with
                   | Some b' => br.1 = b' ∧ br.2 = RSpace ∧ σ1.1 = g
                   | None => br.1 = NNum (Pos.succ (_temp_count g)) ∧ br.2 = RName br.1
                   end
                   ∧ ∃ v, Space.vars σ1.2 !! key br.1 = Some v
                          ∧ ∀ z, contains (FDVar.dom v) z → 0 ≤ z ≤ 1
               | Throw _ => True
               end).
  { intros o1 σ1 H1. destruct boolname as [b'|].
    - unfold constrain_var, bind, get_vars, lift, put_var, modify, ret, throw in H1.
      cbn [fst snd] in H1.
      destruct (Space.vars S !! key b') as [v|] eqn:Hv; [|by injection H1 as <- <-].
      unfold FDVar.constrain in H1.
      destruct (domain_non_empty (domain_intersection (FDVar.dom v) [(0, 1)] None))
        as [d|e] eqn:Ed; injection H1 as <- <-; [|done].
      split; [done|]. split; [done|]. cbn [fst snd Space.vars Space.set_vars].
      eexists. rewrite lookup_insert_eq. split; [done|]. rewrite set_dom_dom.
      apply domain_non_empty_ret in Ed. subst d. apply Hin.
    - unfold bind in H1. rewrite temp_eq in H1. injection H1 as <- <-.
      split; [apply temp_space_propagators|]. split; [done|]. cbn [fst snd].
      unfold temp_space.
      destruct (Space.vars S !! key (NNum (Pos.succ (_temp_count g)))) as [f|] eqn:Hf;
        cbn [Space.vars Space.set_vars]; rewrite lookup_insert_eq; eexists; (split; [done|]).
      + rewrite set_dom_dom. intros z Hz. by apply contains_singleton in Hz.
      + intros z Hz. by apply contains_singleton in Hz. }
  apply bind_inv in H as [([b r] & σ1 & H1 & H) | (e & H1 & ->)].
  - cbv zeta in H. cbn [fst snd] in H. rewrite reified_tail in H.
    injection H as <- <- <-.
    destruct (Hfirst _ _ H1) as (Hp & Hb & Hv). cbn [fst snd] in Hb, Hv.
    exists b, (template_of op argv), (template_of (complementary_operator op) argv).
    cbn [Space._propagators Space.vars Space.set_propagators]. rewrite Hp.
    split; [done|]. split; [apply template_of_enforces|].
    split; [apply template_of_complement|]. split; [|done].
    destruct boolname; [|done]. by destruct Hb as (-> & -> & ->).
  - destruct (Hfirst _ _ H1) as [Hp _]. exact Hp.
Qed.

Lemma reified_posts_one_propagator_witness :
  ∃ g' S' v,
    reified "lt" (NStr "A" EmptyString, NStr "B" EmptyString) None
      (global_init, example_space)
    = Some (Ret (RName (NNum 2)), (g', S'))
    ∧ length (Space._propagators S') = S (length (Space._propagators example_space))
    ∧ Space.vars S' !! "2" = Some v.
Proof.
  set (A := NStr "A" EmptyString). set (B := NStr "B" EmptyString).
  set (res := reified "lt" (A, B) None (global_init, example_space)).
  set (g' := match res with Some (_, σ) => σ.1 | None => global_init end).
  set (S' := match res with Some (_, σ) => σ.2 | None => Space.new end).
  assert (E : res = Some (Ret (RName (NNum 2)), (g', S'))) by (vm_compute; reflexivity).
  pose proof (reified_posts_one_propagator "lt" op_lt (A, B) None global_init g'
                example_space S' (Ret (RName (NNum 2))) eq_refl E)
    as (b & pos & neg & Hp & _ & _ & [Hb _] & v & Hv & _).
  assert (Eb : b = NNum 2) by (rewrite Hb; vm_compute; reflexivity).
  rewrite Eb in Hv. exists g', S', v. split; [exact E|]. split; [|exact Hv].
  rewrite Hp, length_app. cbn [length]. lia.
Defined.

(** * [clone] *)

Lemma all_determined_in_throw V allvars e :
  all_determined_in V allvars = Throw e →
  e = TypeError
  ∧ ∃ n, n ∈ allvars
         ∧ (V !! key n = None ∨ ∃ x, V !! key n = Some x ∧ FDVar.dom x = []).
Proof.
  induction allvars as [|n l IH]; cbn [all_determined_in]; [done|].
  destruct (V !! key n) as [x|] eqn:Hx.
  - unfold FDVar.is_undetermined. destruct (decide _) as [Hl|Hl]; cbn [and_then]; [done|].
    destruct (FDVar.dom x) as [|d0 d] eqn:Hd; cbn [and_then].
    + intros [= <-]. split; [done|]. exists n. split; [by left|]. right. eauto.
    + destruct (d0.1 <? d0.2); [done|].
      intros [-> (m & Hm & H)]%IH. split; [done|]. exists m. split; [by right | done].
  - intros [= <-]. split; [done|]. exists n. split; [by left | by left].
Qed.

Lemma clone_propagators_spec V ps :
  match clone_propagators V ps with
  | Ret l => l = renewed V <$> filter (λ p, is_unsolved V p) ps
  | Throw e =>
      e = TypeError
      ∧ ∃ p n, p ∈ ps ∧ solved (Propagator.self p) = false ∧ n ∈ Propagator.allvars p
               ∧ (V !! key n = None ∨ ∃ x, V !! key n = Some x ∧ FDVar.dom x = [])
  end.
Proof.
  induction ps as [|p ps IH]; cbn [clone_propagators]; [done|].
  destruct (propagator_solved V p) as [s|e] eqn:Es; cbn [and_then].
  - destruct (clone_propagators V ps) as [l|e]; cbn [and_then].
    + assert (Eu : is_unsolved V p = negb s) by (unfold is_unsolved; rewrite Es; by destruct s).
      rewrite filter_cons. subst l. destruct (decide (is_unsolved V p)) as [Hu|Hu];
        rewrite Eu in Hu; by destruct s.
    + destruct IH as (-> & q & n & Hq & H). split; [done|]. exists q, n.
      split; [by right | done].
  - unfold propagator_solved in Es. destruct (solved (Propagator.self p)) eqn:Hs; [done|].
    apply all_determined_in_throw in Es as (-> & n & Hn & H). split; [done|].
    exists p, n. split; [by left | done].
Qed.

(** X29: what a clone is.  [clone] copies the variables with their
    domains and steps, and takes over the propagators that
    [propagator_is_solved] does not find solved, in their order, each
    one made anew of its variables and its step function: it has not
    run ([last_step] is -1), is not marked solved and has no private
    propagators.  [clone] throws only a [TypeError], when a propagator
    that is not marked solved names a variable that is not declared or
    whose domain is empty. *)
Theorem clone_spec (S : Space.t) :
  match clone S with
  | Ret S' =>
      Space.vars S' = Space.vars S
      ∧ Space._propagators S'
        = renewed (Space.vars S)
            <$> filter (λ p, is_unsolved (Space.vars S) p) (Space._propagators S)
      ∧ ∀ q, q ∈ Space._propagators S' →
             last_step (Propagator.self q) = -1
             ∧ solved (Propagator.self q) = false
             ∧ Propagator.p q = None ∧ Propagator.np q = None
  | Throw e =>
      e = TypeError
      ∧ ∃ p n, p ∈ Space._propagators S
               ∧ solved (Propagator.self p) = false
               ∧ n ∈ Propagator.allvars p
               ∧ (Space.vars S !! key n = None
                  ∨ ∃ x, Space.vars S !! key n = Some x ∧ FDVar.dom x = [])
  end.
Proof.
  unfold clone. pose proof (clone_propagators_spec (Space.vars S) (Space._propagators S)) as H.
  destruct (clone_propagators _ _) as [l|e]; cbn [and_then]; [|done].
  cbn [Space.vars Space._propagators]. split; [done|]. split; [done|].
  intros q Hq. rewrite H in Hq. apply list_elem_of_fmap in Hq as (p & -> & _). done.
Qed.
